(** * PENNANT mesh generation: a shallow embedding of [GenerateMesh.cc]

    The development follows the source file function by function.  C++ [int]
    values are modelled as [Z]; signed overflow is undefined behaviour in the
    source, so the model describes the executions in which no [int] operation
    overflows.  [/] and [%] on [int] truncate towards zero ([Z.quot], [Z.rem]).
    [std::vector<int>] is a [list Z].  [assert] failures, undefined behaviour
    that the model tracks (division by zero, [back()] of an empty vector) and
    exhausted loop fuel are the three ways a computation can fail to return. *)

From Stdlib Require Import String ZArith List Lia Bool FinFun.
From Stdlib Require Import PrimFloat FloatOps SpecFloat Uint63.
From Stdlib Require FloatAxioms Reals Lra Psatz.
Import ListNotations.

#[local] Open Scope Z_scope.

(** ** Outcomes of a C++ computation *)

Inductive outcome (A : Type) : Type :=
| Ok (a : A)
| AssertFail
| Undefined
| OutOfFuel.

Arguments Ok {A} a.
Arguments AssertFail {A}.
Arguments Undefined {A}.
Arguments OutOfFuel {A}.

Definition bind {A B : Type} (m : outcome A) (k : A -> outcome B) : outcome B :=
  match m with
  | Ok a => k a
  | AssertFail => AssertFail
  | Undefined => Undefined
  | OutOfFuel => OutOfFuel
  end.

Notation "x <- m ;; k" := (bind m (fun x => k))
  (at level 61, m at next level, right associativity).
Notation "m ;;; k" := (bind m (fun _ => k))
  (at level 61, right associativity).

(** [assert(b)] with assertions enabled. *)
Definition assert (b : bool) : outcome unit :=
  if b then Ok tt else AssertFail.

(** Integer division and remainder; a zero divisor is undefined behaviour. *)
Definition cdiv (a b : Z) : outcome Z :=
  if b =? 0 then Undefined else Ok (Z.quot a b).

Definition cmod (a b : Z) : outcome Z :=
  if b =? 0 then Undefined else Ok (Z.rem a b).

(** ** Vectors and counted loops *)

Abbreviation vec := (list Z) (only parsing).

Definition vsize {A : Type} (v : list A) : Z := Z.of_nat (length v).

(** [v[i]].  An index outside the vector is undefined behaviour in the source;
    the model reads the default there.  Every read the theorems below depend
    on is shown to be in range. *)
Definition vget (v : vec) (i : Z) : Z := nth (Z.to_nat i) v 0.

(** [v[i] = x].  An index outside the storage leaves it unchanged. *)
Definition vset {A : Type} (v : list A) (i : Z) (x : A) : list A :=
  if (0 <=? i) && (i <? vsize v)
  then firstn (Z.to_nat i) v ++ x :: skipn (S (Z.to_nat i)) v
  else v.

Definition push_back {A : Type} (v : list A) (x : A) : list A := v ++ [x].

(** [v.erase(v.begin() + k)]. *)
Definition erase {A : Type} (k : nat) (v : list A) : list A :=
  firstn k v ++ skipn (S k) v.

(** [v.back()]; undefined on an empty vector. *)
Definition back {A : Type} (v : list A) : outcome A :=
  match rev v with
  | [] => Undefined
  | x :: _ => Ok x
  end.

(** The values [lo, lo+1, ..., hi-1] a loop [for (i = lo; i < hi; ++i)] visits. *)
Definition zrange (lo hi : Z) : list Z :=
  map (fun k => lo + Z.of_nat k) (seq 0 (Z.to_nat (hi - lo))).

(** [for (int i = lo; i < hi; ++i) body], the body as a state transformer. *)
Definition for_ {S : Type} (lo hi : Z) (body : Z -> S -> S) (s : S) : S :=
  fold_left (fun acc i => body i acc) (zrange lo hi) s.

(** Storage obtained by [reserve(n)] on an empty vector: [n] cells whose
    content is whatever the allocator left there, given by [raw]. *)
Definition reserved (raw : nat -> Z) (n : nat) : vec := map raw (seq 0 n).

(** ** The permutation generator *)

(** The array being filled and the running counter [cnt]. *)
Record fill : Type := mkFill { cells : vec; cnt : Z }.

(** [perm[idx] = cnt++]. *)
Definition assign (idx : Z) (st : fill) : fill :=
  {| cells := vset (cells st) idx (cnt st); cnt := cnt st + 1 |}.

Definition linearize (num_pts_x x y : Z) : Z := y * num_pts_x + x.

Definition muPermutation (num_pts_x num_pts_y num_blocks_x num_blocks_y : Z)
  : outcome vec :=
  width_x <- cdiv (num_pts_x - 1) num_blocks_x ;;
  width_y <- cdiv (num_pts_y - 1) num_blocks_y ;;
  assert ((width_x * num_blocks_x + 1 =? num_pts_x) || (num_blocks_x =? 1)) ;;;
  assert ((width_y * num_blocks_y + 1 =? num_pts_y) || (num_blocks_y =? 1)) ;;;
  let lin := linearize num_pts_x in
  let st0 :=
    assign 0 {| cells := repeat 0 (Z.to_nat (num_pts_x * num_pts_y)); cnt := 0 |} in
  let st1 :=
    for_ 0 num_blocks_y (fun block_y =>
    for_ 0 num_blocks_x (fun block_x st =>
      (* Add the left edge *)
      let st :=
        if block_x =? 0
        then for_ 1 (width_y + 1) (fun dy =>
               assign (lin 0 (width_y * block_y + dy))) st
        else st in
      (* Across the top *)
      let st :=
        if block_y =? 0
        then for_ 0 width_x (fun dx =>
               assign (lin (block_x * width_x + 1 + dx) (width_y * block_y))) st
        else st in
      (* Add the right edge *)
      let st :=
        for_ 0 width_y (fun dy =>
          assign (lin (width_x * (block_x + 1)) (width_y * block_y + 1 + dy))) st in
      (* Add the bottom edge *)
      let st :=
        for_ 0 (width_x - 1) (fun dx =>
          assign (lin (width_x * block_x + 1 + dx) (width_y * (block_y + 1)))) st in
      (* Fill the middle *)
      for_ 1 width_y (fun dy =>
      for_ 1 width_x (fun dx =>
        assign (lin (width_x * block_x + dx) (width_y * block_y + dy)))) st)) st0 in
  assert (cnt st1 =? num_pts_x * num_pts_y) ;;;
  Ok (cells st1).

(** ** The mesh object *)

(** The data members of [GenerateMesh] that take part in structural
    decisions.  [len_x] and [len_y] only feed the floating-point coordinates,
    which the model keeps symbolic (see [double2] below). *)
Record GenerateMesh : Type := mkGenerateMesh {
  meshtype : string;
  global_nzones_x : Z;
  global_nzones_y : Z;
  num_subregions : Z;
  my_color : Z;
  num_proc_x : Z;
  num_proc_y : Z;
  proc_index_x : Z;
  proc_index_y : Z;
  zone_x_offset : Z;
  zone_y_offset : Z;
  nzones_x : Z;
  nzones_y : Z;
  num_zones : Z;
  num_points_x : Z;
  num_points_y : Z;
  global_perm : vec;
  global_deperm : vec;
  perm : vec;
  deperm : vec
}.

(** [for (i = 0; i < p.size(); i++) d[p[i]] = i;] on the storage [d]. *)
Definition invert_into (p d : vec) : vec :=
  for_ 0 (vsize p) (fun i d => vset d (vget p i) i) d.

(** [calcLocalConstants(color)].  [raw_g] and [raw_l] are the contents of the
    storage that the two [reserve] calls hand out: the source writes the
    inverse permutations through [operator[]] into reserved, unsized
    vectors.  The products [proc_index * global_nzones] and
    [(proc_index + 1) * global_nzones] are formed in [Z]; the source forms
    them in [int], which agrees as long as they stay at or below the largest
    [int]. *)
Definition calcLocalConstants (raw_g raw_l : nat -> Z) (g : GenerateMesh)
    (color : Z) : outcome GenerateMesh :=
  let my_color := color in
  proc_index_x <- cmod my_color (num_proc_x g) ;;
  proc_index_y <- cdiv my_color (num_proc_x g) ;;
  zone_x_offset <- cdiv (proc_index_x * global_nzones_x g) (num_proc_x g) ;;
  zxstop <- cdiv ((proc_index_x + 1) * global_nzones_x g) (num_proc_x g) ;;
  let nzones_x := zxstop - zone_x_offset in
  zone_y_offset <- cdiv (proc_index_y * global_nzones_y g) (num_proc_y g) ;;
  zystop <- cdiv ((proc_index_y + 1) * global_nzones_y g) (num_proc_y g) ;;
  let nzones_y := zystop - zone_y_offset in
  let num_zones := nzones_x * nzones_y in
  let num_points_x := nzones_x + 1 in
  let num_points_y := nzones_y + 1 in
  global_perm <- muPermutation (global_nzones_x g + 1) (global_nzones_y g + 1)
                   (num_proc_x g) (num_proc_y g) ;;
  let global_deperm :=
    invert_into global_perm (reserved raw_g (length global_perm)) in
  perm <- muPermutation num_points_x num_points_y 1 1 ;;
  let deperm := invert_into perm (reserved raw_l (length perm)) in
  Ok {| meshtype := meshtype g;
        global_nzones_x := global_nzones_x g;
        global_nzones_y := global_nzones_y g;
        num_subregions := num_subregions g;
        my_color := my_color;
        num_proc_x := num_proc_x g;
        num_proc_y := num_proc_y g;
        proc_index_x := proc_index_x;
        proc_index_y := proc_index_y;
        zone_x_offset := zone_x_offset;
        zone_y_offset := zone_y_offset;
        nzones_x := nzones_x;
        nzones_y := nzones_y;
        num_zones := num_zones;
        num_points_x := num_points_x;
        num_points_y := num_points_y;
        global_perm := global_perm;
        global_deperm := global_deperm;
        perm := perm;
        deperm := deperm |}.

(** ** Topology generators *)

(** A [double2] coordinate, kept symbolic: the constructor names the formula
    the source evaluates in floating point and records its integer
    arguments. *)
Inductive double2 : Type :=
| Zero2                       (* a value-initialised element *)
| RectPoint (gi gj : Z)       (* (dx * gi, dy * gj) *)
| PieOrigin                   (* make_double2(0., 0.) *)
| PiePoint (ith jr : Z)       (* r = dr * jr, th = dth * ith: (r cos th, r sin th) *)
| HexPlain (gi gj : Z)        (* (x, y), x and y clamped from dx * (gi - 0.5), dy * (gj - 0.5) *)
| HexLow (gi gj : Z)          (* (x - dx / 6, y + dy / 6) *)
| HexHigh (gi gj : Z).        (* (x + dx / 6, y - dy / 6) *)

(** The four vectors a generator appends to. *)
Record mesh_out : Type := mkMeshOut {
  pointpos : list double2;
  zonestart : vec;
  zonesize : vec;
  zonepoints : vec
}.

Definition empty_mesh : mesh_out :=
  {| pointpos := []; zonestart := []; zonesize := []; zonepoints := [] |}.

Definition with_pointpos (pp : list double2) (m : mesh_out) : mesh_out :=
  {| pointpos := pp; zonestart := zonestart m; zonesize := zonesize m;
     zonepoints := zonepoints m |}.

Definition push_pointpos (x : double2) (m : mesh_out) : mesh_out :=
  with_pointpos (push_back (pointpos m) x) m.

Definition push_zonestart (x : Z) (m : mesh_out) : mesh_out :=
  {| pointpos := pointpos m; zonestart := push_back (zonestart m) x;
     zonesize := zonesize m; zonepoints := zonepoints m |}.

Definition push_zonesize (x : Z) (m : mesh_out) : mesh_out :=
  {| pointpos := pointpos m; zonestart := zonestart m;
     zonesize := push_back (zonesize m) x; zonepoints := zonepoints m |}.

Definition push_zonepoints (x : Z) (m : mesh_out) : mesh_out :=
  {| pointpos := pointpos m; zonestart := zonestart m;
     zonesize := zonesize m; zonepoints := push_back (zonepoints m) x |}.

(** [zonepoints.insert(zonepoints.end(), v.begin(), v.end())]. *)
Definition append_zonepoints (v : vec) (m : mesh_out) : mesh_out :=
  {| pointpos := pointpos m; zonestart := zonestart m;
     zonesize := zonesize m; zonepoints := zonepoints m ++ v |}.

(** [v.resize(n)]. *)
Definition resize (n : Z) (v : list double2) : list double2 :=
  firstn (Z.to_nat n) v ++ repeat Zero2 (Z.to_nat n - length v).

Definition generateRect (g : GenerateMesh) (m : mesh_out) : mesh_out :=
  let np := num_points_x g * num_points_y g in
  (* generate point coordinates *)
  let pp := resize np (pointpos m) in
  let pp :=
    for_ 0 (num_points_y g) (fun j =>
    for_ 0 (num_points_x g) (fun i pp =>
      vset pp (vget (perm g) (j * num_points_x g + i))
        (RectPoint (i + zone_x_offset g) (j + zone_y_offset g)))) pp in
  let m := with_pointpos pp m in
  (* generate zone adjacency lists *)
  for_ 0 (nzones_y g) (fun j =>
  for_ 0 (nzones_x g) (fun i m =>
    let m := push_zonestart (vsize (zonepoints m)) m in
    let m := push_zonesize 4 m in
    let p0 := j * num_points_x g + i in
    let m := push_zonepoints (vget (perm g) p0) m in
    let m := push_zonepoints (vget (perm g) (p0 + 1)) m in
    let m := push_zonepoints (vget (perm g) (p0 + num_points_x g + 1)) m in
    push_zonepoints (vget (perm g) (p0 + num_points_x g)) m)) m.

Definition generatePie (g : GenerateMesh) (m : mesh_out) : mesh_out :=
  (* generate point coordinates *)
  let m :=
    for_ 0 (num_points_y g) (fun j m =>
      if j + zone_y_offset g =? 0
      then push_pointpos PieOrigin m
      else
        for_ 0 (num_points_x g) (fun i =>
          push_pointpos
            (PiePoint (global_nzones_x g - (i + zone_x_offset g))
                      (j + zone_y_offset g))) m) m in
  (* generate zone adjacency lists *)
  for_ 0 (nzones_y g) (fun j =>
  for_ 0 (nzones_x g) (fun i m =>
    let m := push_zonestart (vsize (zonepoints m)) m in
    let p0 := j * num_points_x g + i in
    let p0 := if proc_index_y g =? 0 then p0 - (num_points_x g - 1) else p0 in
    let m :=
      if j + zone_y_offset g =? 0
      then push_zonepoints 0 (push_zonesize 3 m)
      else push_zonepoints (p0 + 1) (push_zonepoints p0 (push_zonesize 4 m)) in
    let m := push_zonepoints (p0 + num_points_x g + 1) m in
    push_zonepoints (p0 + num_points_x g) m)) m.

(** The vertex list [v] of one hex zone: the six-slot template and the
    boundary-dependent removals. *)
Definition hex_zone_vertices (g : GenerateMesh) (pbasel pbaseh i gi gj : Z) : vec :=
  let v := repeat 0 6%nat in
  let v := vset v 1 (pbasel + 2 * i) in
  let v := vset v 0 (vget v 1 - 1) in
  let v := vset v 2 (vget v 1 + 1) in
  let v := vset v 5 (pbaseh + 2 * i) in
  let v := vset v 4 (vget v 5 + 1) in
  let v := vset v 3 (vget v 4 + 1) in
  if gj =? 0 then
    let v := vset v 0 (pbasel + i) in
    let v := vset v 2 (vget v 0 + 1) in
    let v := if gi =? global_nzones_x g - 1 then erase 3 v else v in
    erase 1 v
  else if gj =? global_nzones_y g - 1 then
    let v := vset v 5 (pbaseh + i) in
    let v := vset v 3 (vget v 5 + 1) in
    let v := erase 4 v in
    if gi =? 0 then erase 0 v else v
  else if gi =? 0 then erase 0 v
  else if gi =? global_nzones_x g - 1 then erase 3 v
  else v.

(** The point loop of [generateHex]: the points pushed and [pbase]. *)
Definition hex_points (g : GenerateMesh) (m : mesh_out) : mesh_out * vec :=
  for_ 0 (num_points_y g) (fun j '(m, pbase) =>
    let pbase := vset pbase j (vsize (pointpos m)) in
    let gj := j + zone_y_offset g in
    let m :=
      for_ 0 (num_points_x g) (fun i m =>
        let gi := i + zone_x_offset g in
        if (gi =? 0) || (gi =? global_nzones_x g) || (gj =? 0)
           || (gj =? global_nzones_y g)
        then push_pointpos (HexPlain gi gj) m
        else if (i =? nzones_x g) && (j =? 0)
        then push_pointpos (HexLow gi gj) m
        else if (i =? 0) && (j =? nzones_y g)
        then push_pointpos (HexHigh gi gj) m
        else push_pointpos (HexHigh gi gj) (push_pointpos (HexLow gi gj) m)) m in
    (m, pbase)) (m, repeat 0 (Z.to_nat (num_points_y g))).

Definition generateHex (g : GenerateMesh) (m : mesh_out) : mesh_out :=
  (* generate point coordinates *)
  let '(m, pbase) := hex_points g m in
  (* generate zone adjacency lists *)
  for_ 0 (nzones_y g) (fun j m =>
    let gj := j + zone_y_offset g in
    let pbasel := vget pbase j in
    let pbaseh := vget pbase (j + 1) in
    let pbasel :=
      if (0 <? proc_index_x g) && (0 <? gj) then pbasel + 1 else pbasel in
    let pbaseh :=
      if (0 <? proc_index_x g) && (j <? nzones_y g - 1) then pbaseh + 1 else pbaseh in
    for_ 0 (nzones_x g) (fun i m =>
      let gi := i + zone_x_offset g in
      let v := hex_zone_vertices g pbasel pbaseh i gi gj in
      let m := push_zonestart (vsize (zonepoints m)) m in
      let m := push_zonesize (vsize v) m in
      append_zonepoints v m) m) m.

(** The tag no mesh family carries, against which the dispatchers assert. *)
Definition allowable_mesh_type : string := "!@#$&!*()@#$".

(** The family dispatch of [generate], with the local [zonesize] still
    visible. *)
Definition generate_family (g : GenerateMesh) (m : mesh_out) : outcome mesh_out :=
  if String.eqb (meshtype g) "pie" then Ok (generatePie g m)
  else if String.eqb (meshtype g) "rect" then Ok (generateRect g m)
  else if String.eqb (meshtype g) "hex" then Ok (generateHex g m)
  else assert (negb (String.eqb (meshtype g) allowable_mesh_type)) ;;; Ok m.

(** [generate(pointpos, zonepoints_ptr_CRS, zonepoints)]: the caller's three
    vectors go in and come out; [zonesize] is a fresh local. *)
Definition generate (g : GenerateMesh) (pointpos0 : list double2)
    (zonepoints_ptr_CRS zonepoints0 : vec) : outcome (list double2 * vec * vec) :=
  m <- generate_family g
         {| pointpos := pointpos0; zonestart := zonepoints_ptr_CRS;
            zonesize := []; zonepoints := zonepoints0 |} ;;
  (* Add a terminal pointer to make later logic uniform for all zones *)
  last_start <- back (zonestart m) ;;
  last_size <- back (zonesize m) ;;
  Ok (pointpos m, push_back (zonestart m) (last_start + last_size), zonepoints m).

(** ** Halo enumerators *)

(** The six vectors [generateHaloPoints] appends to. *)
Record halo : Type := mkHalo {
  master_colors : vec;
  slaved_points_counts : vec;
  slaved_points : vec;
  slave_colors : vec;
  master_points_counts : vec;
  master_points : vec
}.

Definition empty_halo : halo :=
  {| master_colors := []; slaved_points_counts := []; slaved_points := [];
     slave_colors := []; master_points_counts := []; master_points := [] |}.

Definition push_master_color (x : Z) (h : halo) : halo :=
  {| master_colors := push_back (master_colors h) x;
     slaved_points_counts := slaved_points_counts h;
     slaved_points := slaved_points h;
     slave_colors := slave_colors h;
     master_points_counts := master_points_counts h;
     master_points := master_points h |}.

Definition push_slaved_count (x : Z) (h : halo) : halo :=
  {| master_colors := master_colors h;
     slaved_points_counts := push_back (slaved_points_counts h) x;
     slaved_points := slaved_points h;
     slave_colors := slave_colors h;
     master_points_counts := master_points_counts h;
     master_points := master_points h |}.

Definition push_slaved_point (x : Z) (h : halo) : halo :=
  {| master_colors := master_colors h;
     slaved_points_counts := slaved_points_counts h;
     slaved_points := push_back (slaved_points h) x;
     slave_colors := slave_colors h;
     master_points_counts := master_points_counts h;
     master_points := master_points h |}.

Definition push_slave_color (x : Z) (h : halo) : halo :=
  {| master_colors := master_colors h;
     slaved_points_counts := slaved_points_counts h;
     slaved_points := slaved_points h;
     slave_colors := push_back (slave_colors h) x;
     master_points_counts := master_points_counts h;
     master_points := master_points h |}.

Definition push_master_count (x : Z) (h : halo) : halo :=
  {| master_colors := master_colors h;
     slaved_points_counts := slaved_points_counts h;
     slaved_points := slaved_points h;
     slave_colors := slave_colors h;
     master_points_counts := push_back (master_points_counts h) x;
     master_points := master_points h |}.

Definition push_master_point (x : Z) (h : halo) : halo :=
  {| master_colors := master_colors h;
     slaved_points_counts := slaved_points_counts h;
     slaved_points := slaved_points h;
     slave_colors := slave_colors h;
     master_points_counts := master_points_counts h;
     master_points := push_back (master_points h) x |}.

(** Each enumerator is a sequence of blocks, one per neighbour relation,
    set off by comments in the source; the model names the blocks and
    composes them in source order. *)

(** slave point with master at lower left *)
Definition rect_slave_lower_left (g : GenerateMesh) (h : halo) : halo :=
  if (0 <? proc_index_x g) && (0 <? proc_index_y g) then
    let master_proc := my_color g - num_proc_x g - 1 in
    let h := push_slaved_point (vget (perm g) 0) h in
    let h := push_master_color master_proc h in
    push_slaved_count 1 h
  else h.

(** slave points with master below *)
Definition rect_slave_below (g : GenerateMesh) (h : halo) : halo :=
  if 0 <? proc_index_y g then
    let master_proc := my_color g - num_proc_x g in
    let oldsize := vsize (slaved_points h) in
    let '(h, _) :=
      for_ 0 (num_points_x g) (fun i '(h, p) =>
        if (i =? 0) && negb (proc_index_x g =? 0) then (h, p + 1)
        else (push_slaved_point (vget (perm g) p) h, p + 1)) (h, 0) in
    let h := push_master_color master_proc h in
    push_slaved_count (vsize (slaved_points h) - oldsize) h
  else h.

(** slave points with master to left *)
Definition rect_slave_left (g : GenerateMesh) (h : halo) : halo :=
  if 0 <? proc_index_x g then
    let master_proc := my_color g - 1 in
    let oldsize := vsize (slaved_points h) in
    let '(h, _) :=
      for_ 0 (num_points_y g) (fun j '(h, p) =>
        if (j =? 0) && negb (proc_index_y g =? 0) then (h, p + num_points_x g)
        else (push_slaved_point (vget (perm g) p) h, p + num_points_x g))
        (h, 0) in
    let h := push_master_color master_proc h in
    push_slaved_count (vsize (slaved_points h) - oldsize) h
  else h.

(** master points with slave to right *)
Definition rect_master_right (g : GenerateMesh) (h : halo) : halo :=
  if proc_index_x g <? num_proc_x g - 1 then
    let slave_proc := my_color g + 1 in
    let oldsize := vsize (master_points h) in
    let '(h, _) :=
      for_ 0 (num_points_y g) (fun j '(h, p) =>
        if (j =? 0) && negb (proc_index_y g =? 0) then (h, p + num_points_x g)
        else (push_master_point (vget (perm g) p) h, p + num_points_x g))
        (h, num_points_x g - 1) in
    let h := push_slave_color slave_proc h in
    push_master_count (vsize (master_points h) - oldsize) h
  else h.

(** master points with slave above *)
Definition rect_master_above (g : GenerateMesh) (h : halo) : halo :=
  if proc_index_y g <? num_proc_y g - 1 then
    let slave_proc := my_color g + num_proc_x g in
    let oldsize := vsize (master_points h) in
    let '(h, _) :=
      for_ 0 (num_points_x g) (fun i '(h, p) =>
        if (i =? 0) && (0 <? proc_index_x g) then (h, p + 1)
        else (push_master_point (vget (perm g) p) h, p + 1))
        (h, (num_points_y g - 1) * num_points_x g) in
    let h := push_slave_color slave_proc h in
    push_master_count (vsize (master_points h) - oldsize) h
  else h.

(** master point with slave at upper right *)
Definition rect_master_upper_right (g : GenerateMesh) (h : halo) : halo :=
  if (proc_index_x g <? num_proc_x g - 1) && (proc_index_y g <? num_proc_y g - 1)
  then
    let slave_proc := my_color g + num_proc_x g + 1 in
    let p := num_points_x g * num_points_y g - 1 in
    let h := push_master_point (vget (perm g) p) h in
    let h := push_slave_color slave_proc h in
    push_master_count 1 h
  else h.

Definition generateHaloPointsRect (g : GenerateMesh) (h : halo) : halo :=
  if num_subregions g =? 1 then h else
  (* enumerate slave points *)
  let h := rect_slave_lower_left g h in
  let h := rect_slave_below g h in
  let h := rect_slave_left g h in
  (* enumerate master points *)
  let h := rect_master_right g h in
  let h := rect_master_above g h in
  rect_master_upper_right g h.

(** slave point with master at lower left *)
Definition pie_slave_lower_left (g : GenerateMesh) (h : halo) : halo :=
  if negb (proc_index_x g =? 0) && negb (proc_index_y g =? 0) then
    let master_proc := my_color g - num_proc_x g - 1 in
    let h := push_slaved_point 0 h in
    let h := push_master_color master_proc h in
    push_slaved_count 1 h
  else h.

(** slave points with master below *)
Definition pie_slave_below (g : GenerateMesh) (h : halo) : halo :=
  if negb (proc_index_y g =? 0) then
    let master_proc := my_color g - num_proc_x g in
    let oldsize := vsize (slaved_points h) in
    let '(h, _) :=
      for_ 0 (num_points_x g) (fun i '(h, p) =>
        if (i =? 0) && negb (proc_index_x g =? 0) then (h, p + 1)
        else (push_slaved_point p h, p + 1)) (h, 0) in
    let h := push_master_color master_proc h in
    push_slaved_count (vsize (slaved_points h) - oldsize) h
  else h.

(** slave points with master to left *)
Definition pie_slave_left (g : GenerateMesh) (h : halo) : halo :=
  if negb (proc_index_x g =? 0) then
    let master_proc := my_color g - 1 in
    let oldsize := vsize (slaved_points h) in
    let '(h, oldsize) :=
      if proc_index_y g =? 0 then
        let h := push_slaved_point 0 h in
        (* special case: slave point at origin, master not to immediate left *)
        if 1 <? proc_index_x g
        then (push_slaved_count 1 (push_master_color 0 h), oldsize + 1)
        else (h, oldsize)
      else (h, oldsize) in
    let p := if 0 <? proc_index_y g then num_points_x g else 1 in
    let '(h, _) :=
      for_ 1 (num_points_y g) (fun j '(h, p) =>
        (push_slaved_point p h, p + num_points_x g)) (h, p) in
    let h := push_master_color master_proc h in
    push_slaved_count (vsize (slaved_points h) - oldsize) h
  else h.

(** master points with slave to right *)
Definition pie_master_right (g : GenerateMesh) (h : halo) : halo :=
  if negb (proc_index_x g =? num_proc_x g - 1) then
    let slave_proc := my_color g + 1 in
    let oldsize := vsize (master_points h) in
    (* special case: origin as master for slave on PE 1 *)
    let h :=
      if (proc_index_x g =? 0) && (proc_index_y g =? 0)
      then push_master_point 0 h else h in
    let p :=
      if 0 <? proc_index_y g then 2 * num_points_x g - 1 else num_points_x g in
    let '(h, _) :=
      for_ 1 (num_points_y g) (fun j '(h, p) =>
        (push_master_point p h, p + num_points_x g)) (h, p) in
    let h := push_slave_color slave_proc h in
    let h := push_master_count (vsize (master_points h) - oldsize) h in
    (* special case: origin as master for slaves on PEs > 1 *)
    if (proc_index_x g =? 0) && (proc_index_y g =? 0) then
      for_ 2 (num_proc_x g) (fun slave_proc h =>
        let h := push_master_point 0 h in
        let h := push_slave_color slave_proc h in
        push_master_count 1 h) h
    else h
  else h.

(** master points with slave above *)
Definition pie_master_above (g : GenerateMesh) (h : halo) : halo :=
  if negb (proc_index_y g =? num_proc_y g - 1) then
    let slave_proc := my_color g + num_proc_x g in
    let oldsize := vsize (master_points h) in
    let p := (num_points_y g - 1) * num_points_x g in
    let p := if proc_index_y g =? 0 then p - (num_points_x g - 1) else p in
    let '(h, _) :=
      for_ 0 (num_points_x g) (fun i '(h, p) =>
        if (i =? 0) && negb (proc_index_x g =? 0) then (h, p + 1)
        else (push_master_point p h, p + 1)) (h, p) in
    let h := push_slave_color slave_proc h in
    push_master_count (vsize (master_points h) - oldsize) h
  else h.

(** master point with slave at upper right *)
Definition pie_master_upper_right (g : GenerateMesh) (h : halo) : halo :=
  if negb (proc_index_x g =? num_proc_x g - 1)
     && negb (proc_index_y g =? num_proc_y g - 1)
  then
    let slave_proc := my_color g + num_proc_x g + 1 in
    let p := num_points_x g * num_points_y g - 1 in
    let p := if proc_index_y g =? 0 then p - (num_points_x g - 1) else p in
    let h := push_master_point p h in
    let h := push_slave_color slave_proc h in
    push_master_count 1 h
  else h.

Definition generateHaloPointsPie (g : GenerateMesh) (h : halo) : halo :=
  if num_subregions g =? 1 then h else
  (* enumerate slave points *)
  let h := pie_slave_lower_left g h in
  let h := pie_slave_below g h in
  let h := pie_slave_left g h in
  (* enumerate master points *)
  let h := pie_master_right g h in
  let h := pie_master_above g h in
  pie_master_upper_right g h.

(** The counting loop at the head of [generateHaloPointsHex]: [np] and
    [pbase]. *)
Definition hex_count (g : GenerateMesh) : Z * vec :=
  for_ 0 (num_points_y g) (fun j '(np, pbase) =>
    let pbase := vset pbase j np in
    let gj := j + zone_y_offset g in
    let np :=
      for_ 0 (num_points_x g) (fun i np =>
        let gi := i + zone_x_offset g in
        if (gi =? 0) || (gi =? global_nzones_x g) || (gj =? 0)
           || (gj =? global_nzones_y g)
        then np + 1
        else if (i =? nzones_x g) && (j =? 0) then np + 1
        else if (i =? 0) && (j =? nzones_y g) then np + 1
        else np + 2) np in
    (np, pbase)) (0, repeat 0 (Z.to_nat (num_points_y g))).

(** slave points with master at lower left *)
Definition hex_slave_lower_left (g : GenerateMesh) (h : halo) : halo :=
  if negb (proc_index_x g =? 0) && negb (proc_index_y g =? 0) then
    let master_proc := my_color g - num_proc_x g - 1 in
    let h := push_slaved_point 0 h in
    let h := push_slaved_point 1 h in
    let h := push_master_color master_proc h in
    push_slaved_count 2 h
  else h.

(** slave points with master below *)
Definition hex_slave_below (g : GenerateMesh) (h : halo) : halo :=
  if negb (proc_index_y g =? 0) then
    let master_proc := my_color g - num_proc_x g in
    let oldsize := vsize (slaved_points h) in
    let '(h, _) :=
      for_ 0 (num_points_x g) (fun i '(h, p) =>
        if (i =? 0) && negb (proc_index_x g =? 0) then (h, p + 2)
        else if (i =? 0) || (i =? nzones_x g)
        then (push_slaved_point p h, p + 1)
        else (push_slaved_point (p + 1) (push_slaved_point p h), p + 2))
        (h, 0) in
    let h := push_master_color master_proc h in
    push_slaved_count (vsize (slaved_points h) - oldsize) h
  else h.

(** slave points with master to left *)
Definition hex_slave_left (g : GenerateMesh) (pbase : vec) (h : halo) : halo :=
  if negb (proc_index_x g =? 0) then
    let master_proc := my_color g - 1 in
    let oldsize := vsize (slaved_points h) in
    let h :=
      for_ 0 (num_points_y g) (fun j h =>
        if (j =? 0) && negb (proc_index_y g =? 0) then h
        else
          let p := vget pbase j in
          if (j =? 0) || (j =? nzones_y g)
          then push_slaved_point p h
          else push_slaved_point (p + 1) (push_slaved_point p h)) h in
    let h := push_master_color master_proc h in
    push_slaved_count (vsize (slaved_points h) - oldsize) h
  else h.

(** master points with slave to right *)
Definition hex_master_right (g : GenerateMesh) (np : Z) (pbase : vec)
    (h : halo) : halo :=
  if negb (proc_index_x g =? num_proc_x g - 1) then
    let slave_proc := my_color g + 1 in
    let oldsize := vsize (master_points h) in
    let h :=
      for_ 0 (num_points_y g) (fun j h =>
        if (j =? 0) && negb (proc_index_y g =? 0) then h
        else
          let p := if j =? nzones_y g then np else vget pbase (j + 1) in
          if (j =? 0) || (j =? nzones_y g)
          then push_master_point (p - 1) h
          else push_master_point (p - 1) (push_master_point (p - 2) h)) h in
    let h := push_slave_color slave_proc h in
    push_master_count (vsize (master_points h) - oldsize) h
  else h.

(** master points with slave above *)
Definition hex_master_above (g : GenerateMesh) (pbase : vec) (h : halo) : halo :=
  if negb (proc_index_y g =? num_proc_y g - 1) then
    let p := vget pbase (nzones_y g) in
    let slave_proc := my_color g + num_proc_x g in
    let oldsize := vsize (master_points h) in
    let '(h, _) :=
      for_ 0 (num_points_x g) (fun i '(h, p) =>
        if (i =? 0) && negb (proc_index_x g =? 0) then (h, p + 1)
        else if (i =? 0) || (i =? nzones_x g)
        then (push_master_point p h, p + 1)
        else (push_master_point (p + 1) (push_master_point p h), p + 2))
        (h, p) in
    let h := push_slave_color slave_proc h in
    push_master_count (vsize (master_points h) - oldsize) h
  else h.

(** master points with slave at upper right *)
Definition hex_master_upper_right (g : GenerateMesh) (np : Z) (h : halo) : halo :=
  if negb (proc_index_x g =? num_proc_x g - 1)
     && negb (proc_index_y g =? num_proc_y g - 1)
  then
    let slave_proc := my_color g + num_proc_x g + 1 in
    let h := push_master_point (np - 2) h in
    let h := push_master_point (np - 1) h in
    let h := push_slave_color slave_proc h in
    push_master_count 2 h
  else h.

Definition generateHaloPointsHex (g : GenerateMesh) (h : halo) : halo :=
  if num_subregions g =? 1 then h else
  let '(np, pbase) := hex_count g in
  (* enumerate slave points *)
  let h := hex_slave_lower_left g h in
  let h := hex_slave_below g h in
  let h := hex_slave_left g pbase h in
  (* enumerate master points *)
  let h := hex_master_right g np pbase h in
  let h := hex_master_above g pbase h in
  hex_master_upper_right g np h.

Definition generateHaloPoints (g : GenerateMesh) (h : halo) : outcome halo :=
  if String.eqb (meshtype g) "pie" then Ok (generateHaloPointsPie g h)
  else if String.eqb (meshtype g) "rect" then Ok (generateHaloPointsRect g h)
  else if String.eqb (meshtype g) "hex" then Ok (generateHaloPointsHex g h)
  else assert (negb (String.eqb (meshtype g) allowable_mesh_type)) ;;; Ok h.

(** ** Global ID mappers *)

Definition pointLocalToGlobalIDPie (g : GenerateMesh) (p : Z) : outcome Z :=
  if (zone_y_offset g =? 0) && (p =? 0) then Ok 0
  else
    pxy <-
      (if zone_y_offset g =? 0 then
         q <- cdiv (p - 1) (num_points_x g) ;;
         let py := q + 1 in
         Ok (p - (py - 1) * num_points_x g - 1, py)
       else
         py <- cdiv p (num_points_x g) ;;
         Ok (p - py * num_points_x g, py)) ;;
    let '(px, py) := pxy in
    Ok ((global_nzones_x g + 1) * (py + zone_y_offset g - 1) + 1 + px
        + zone_x_offset g).

Definition pointLocalToGlobalIDRect (g : GenerateMesh) (s : Z) : outcome Z :=
  let p := vget (deperm g) s in
  py <- cdiv p (num_points_x g) ;;
  let px := p - py * num_points_x g in
  Ok (vget (global_perm g)
        ((global_nzones_x g + 1) * (py + zone_y_offset g) + px + zone_x_offset g)).

Section GlobalID.

(** [xStart], [yStart] and [numPointsPreviousRowsNonZeroJHex] are members
    declared in [GenerateMesh.hh]; their bodies are not part of this file, so
    the hex mapper takes them as parameters. *)
Variable xStart : GenerateMesh -> Z -> Z.
Variable yStart : GenerateMesh -> Z -> Z.
Variable numPointsPreviousRowsNonZeroJHex : GenerateMesh -> Z -> Z.

Definition pointLocalToGlobalIDHex (g : GenerateMesh) (p : Z) : outcome Z :=
  let zone_y_start := yStart g (proc_index_y g) in
  let zone_y_stop := yStart g (proc_index_y g + 1) in
  let zone_x_start := xStart g (proc_index_x g) in
  let zone_x_stop := xStart g (proc_index_x g + 1) in
  let first_row_npts := 2 * num_points_x g in
  let mid_rows_npts := 2 * num_points_x g in
  let first_row_npts :=
    if zone_y_start =? 0 then num_points_x g
    else
      let first_row_npts :=
        if zone_x_start =? 0 then first_row_npts - 1 else first_row_npts in
      (* lower right corner *)
      first_row_npts - 1 in
  let mid_rows_npts :=
    if zone_x_start =? 0 then mid_rows_npts - 1 else mid_rows_npts in
  let mid_rows_npts :=
    if zone_x_stop =? global_nzones_x g then mid_rows_npts - 1 else mid_rows_npts in
  ij <-
    (if p <? first_row_npts then Ok (p, 0)
     else
       q <- cdiv (p - first_row_npts) mid_rows_npts ;;
       let j := q + 1 in
       Ok (p - first_row_npts - (j - 1) * mid_rows_npts, j)) ;;
  let '(i, j) := ij in
  let gj := j + zone_y_offset g in
  let globalID :=
    if gj =? 0 then 0 else numPointsPreviousRowsNonZeroJHex g gj in
  let globalID :=
    if (gj =? 0) || (gj =? global_nzones_y g) then globalID + zone_x_offset g
    else if negb (zone_x_offset g =? 0) then globalID + (2 * zone_x_offset g - 1)
    else globalID in
  let globalID := globalID + i in
  (* upper left corner skips a point *)
  let globalID :=
    if (gj =? zone_y_stop) && negb (zone_x_start =? 0) && negb (gj =? 0)
       && negb (gj =? global_nzones_y g)
    then globalID + 1 else globalID in
  Ok globalID.

Definition pointLocalToGlobalID (g : GenerateMesh) (p : Z) : outcome Z :=
  let globalID := Ok (-1) in
  if String.eqb (meshtype g) "pie" then pointLocalToGlobalIDPie g p
  else if String.eqb (meshtype g) "rect" then pointLocalToGlobalIDRect g p
  else if String.eqb (meshtype g) "hex" then pointLocalToGlobalIDHex g p
  else globalID.

End GlobalID.

(** ** The partition planner *)

(** The planner computes in [double]; the model uses the kernel's binary64
    floats, whose operations round to nearest even as the source's do. *)

(** [(double) z] for an [int] [z]. *)
Definition double_of_int (z : Z) : float :=
  if z <? 0 then PrimFloat.opp (PrimFloat.of_uint63 (Uint63.of_Z (- z)))
  else PrimFloat.of_uint63 (Uint63.of_Z z).

(** [(int) floor(x)]; converting a NaN or an infinity is undefined. *)
Definition floor_int (x : float) : outcome Z :=
  match Prim2SF x with
  | S754_zero _ => Ok 0
  | S754_finite s m e =>
      let sm := if s then Z.neg m else Z.pos m in
      Ok (if e <? 0 then Z.div sm (2 ^ (- e)) else sm * 2 ^ e)
  | _ => Undefined
  end.

(** [(int) ceil(x)]. *)
Definition ceil_int (x : float) : outcome Z :=
  match Prim2SF x with
  | S754_zero _ => Ok 0
  | S754_finite s m e =>
      let sm := if s then Z.neg m else Z.pos m in
      Ok (if e <? 0 then - Z.div (- sm) (2 ^ (- e)) else sm * 2 ^ e)
  | _ => Undefined
  end.

(** The literal [1.e-12], as the binary64 value nearest to it. *)
Definition eps : float := 0x1.19799812dea11p-40%float.

(** [std::max] on doubles. *)
Definition fmax (a b : float) : float := if PrimFloat.ltb a b then b else a.

(** [while (num_subregions % n1 != 0) --n1;] *)
Fixpoint search_down (fuel : nat) (P n1 : Z) : outcome Z :=
  match fuel with
  | O => OutOfFuel
  | S fuel' =>
      r <- cmod P n1 ;;
      if negb (r =? 0) then search_down fuel' P (n1 - 1) else Ok n1
  end.

(** [while (num_subregions % n2 != 0) ++n2;]  Here [n2] is an unbounded
    integer; the source's [int] ends at [INT_MAX], where [++n2] overflows. *)
Fixpoint search_up (fuel : nat) (P n2 : Z) : outcome Z :=
  match fuel with
  | O => OutOfFuel
  | S fuel' =>
      r <- cmod P n2 ;;
      if negb (r =? 0) then search_up fuel' P (n2 + 1) else Ok n2
  end.

(** The default [NPX] macro. *)
Definition NPX (longside1 longside2 : float) (n1 n2 : Z) : Z :=
  if PrimFloat.leb longside1 longside2 then n1 else n2.

(** [nx], [ny] after the swap, and [swapflag]. *)
Definition planner_sides (g : GenerateMesh) : float * float * bool :=
  let nx := double_of_int (global_nzones_x g) in
  let ny := double_of_int (global_nzones_y g) in
  let swapflag := PrimFloat.ltb ny nx in
  if swapflag then (ny, nx, swapflag) else (nx, ny, swapflag).

(** [n = sqrt(num_subregions * nx / ny)]. *)
Definition ideal_split (g : GenerateMesh) : float :=
  let '(nx, ny, _) := planner_sides g in
  PrimFloat.sqrt
    (PrimFloat.div (PrimFloat.mul (double_of_int (num_subregions g)) nx) ny).

Definition with_procs (px py : Z) (g : GenerateMesh) : GenerateMesh :=
  {| meshtype := meshtype g;
     global_nzones_x := global_nzones_x g;
     global_nzones_y := global_nzones_y g;
     num_subregions := num_subregions g;
     my_color := my_color g;
     num_proc_x := px;
     num_proc_y := py;
     proc_index_x := proc_index_x g;
     proc_index_y := proc_index_y g;
     zone_x_offset := zone_x_offset g;
     zone_y_offset := zone_y_offset g;
     nzones_x := nzones_x g;
     nzones_y := nzones_y g;
     num_zones := num_zones g;
     num_points_x := num_points_x g;
     num_points_y := num_points_y g;
     global_perm := global_perm g;
     global_deperm := global_deperm g;
     perm := perm g;
     deperm := deperm g |}.

Definition calcPartitions (fuel : nat) (g : GenerateMesh) : outcome GenerateMesh :=
  let '(nx, ny, swapflag) := planner_sides g in
  let n := ideal_split g in
  (* need to constrain n to be an integer with num_subregions % n == 0 *)
  (* try rounding n both up and down *)
  n1 <- floor_int (PrimFloat.add n eps) ;;
  let n1 := Z.max n1 1 in
  n1 <- search_down fuel (num_subregions g) n1 ;;
  n2 <- ceil_int (PrimFloat.sub n eps) ;;
  n2 <- search_up fuel (num_subregions g) n2 ;;
  (* pick whichever of n1 and n2 gives blocks closest to square *)
  q1 <- cdiv (num_subregions g) n1 ;;
  q2 <- cdiv (num_subregions g) n2 ;;
  let longside1 :=
    fmax (PrimFloat.div nx (double_of_int n1))
         (PrimFloat.div ny (double_of_int q1)) in
  let longside2 :=
    fmax (PrimFloat.div nx (double_of_int n2))
         (PrimFloat.div ny (double_of_int q2)) in
  let num_proc_x := NPX longside1 longside2 n1 n2 in
  num_proc_y <- cdiv (num_subregions g) num_proc_x ;;
  Ok (if swapflag then with_procs num_proc_y num_proc_x g
      else with_procs num_proc_x num_proc_y g).

(** ** The constructor *)

(** The fields of [InputParameters] the constructor reads ([len_x] and
    [len_y] apart). *)
Record InputParameters : Type := mkInputParameters {
  in_meshtype : string;
  in_nzones_x : Z;
  in_nzones_y : Z;
  in_ntasks : Z;
  in_task_id : Z
}.

(** The member initialisers of the constructor; the vectors start empty and
    the scalar members the constructor body sets start indeterminate (the
    model puts 0 there, and both are overwritten before any read). *)
Definition initial_mesh (input_params : InputParameters) : GenerateMesh :=
  {| meshtype := in_meshtype input_params;
     global_nzones_x := in_nzones_x input_params;
     global_nzones_y := in_nzones_y input_params;
     num_subregions := in_ntasks input_params;
     my_color := in_task_id input_params;
     num_proc_x := 0; num_proc_y := 0;
     proc_index_x := 0; proc_index_y := 0;
     zone_x_offset := 0; zone_y_offset := 0;
     nzones_x := 0; nzones_y := 0; num_zones := 0;
     num_points_x := 0; num_points_y := 0;
     global_perm := []; global_deperm := []; perm := []; deperm := [] |}.

Definition construct (fuel : nat) (raw_g raw_l : nat -> Z)
    (input_params : InputParameters) : outcome GenerateMesh :=
  g <- calcPartitions fuel (initial_mesh input_params) ;;
  calcLocalConstants raw_g raw_l g (my_color g).

(** ** Derived notions used in the statements *)

(** One zone as the three generators emit it: its start offset, its size and
    its vertices. *)
Definition add_zone (v : vec) (m : mesh_out) : mesh_out :=
  append_zonepoints v
    (push_zonesize (vsize v) (push_zonestart (vsize (zonepoints m)) m)).

(** Row-major enumeration of an [h] by [w] grid. *)
Definition grid {A : Type} (h w : Z) (f : Z -> Z -> A) : list A :=
  flat_map (fun j => map (fun i => f j i) (zrange 0 w)) (zrange 0 h).

(** The segment of [points] that belongs to neighbour [c], given the
    parallel [colors] and [counts] vectors. *)
Fixpoint halo_segment (c : Z) (colors counts points : vec) : option vec :=
  match colors, counts with
  | c' :: colors', n :: counts' =>
      if c' =? c then Some (firstn (Z.to_nat n) points)
      else halo_segment c colors' counts' (skipn (Z.to_nat n) points)
  | _, _ => None
  end.

(** The family tags. *)
Definition is_family (t : string) : bool :=
  String.eqb t "pie" || String.eqb t "rect" || String.eqb t "hex".

(** Start offsets of the zones of [zones] laid out one after the other from
    [base]. *)
Definition offsets (base : Z) (zones : list vec) : vec :=
  map (fun k => base + vsize (concat (firstn k zones))) (seq 0 (length zones)).

(** The vertices of zone [(i, j)], read off the loop bodies. *)
Definition rect_zone (g : GenerateMesh) (j i : Z) : vec :=
  let p0 := j * num_points_x g + i in
  [vget (perm g) p0; vget (perm g) (p0 + 1);
   vget (perm g) (p0 + num_points_x g + 1); vget (perm g) (p0 + num_points_x g)].

(** Likewise for pie: a triangle on the pole in global row 0, a quad
    elsewhere. *)
Definition pie_zone (g : GenerateMesh) (j i : Z) : vec :=
  let p0 := j * num_points_x g + i in
  let p0 := if proc_index_y g =? 0 then p0 - (num_points_x g - 1) else p0 in
  if j + zone_y_offset g =? 0
  then [0; p0 + num_points_x g + 1; p0 + num_points_x g]
  else [p0; p0 + 1; p0 + num_points_x g + 1; p0 + num_points_x g].

(** Likewise for hex, given the row bases [pbase] of the point loop. *)
Definition hex_zone (g : GenerateMesh) (pbase : vec) (j i : Z) : vec :=
  let gj := j + zone_y_offset g in
  let pbasel := vget pbase j in
  let pbaseh := vget pbase (j + 1) in
  let pbasel :=
    if (0 <? proc_index_x g) && (0 <? gj) then pbasel + 1 else pbasel in
  let pbaseh :=
    if (0 <? proc_index_x g) && (j <? nzones_y g - 1) then pbaseh + 1 else pbaseh in
  hex_zone_vertices g pbasel pbaseh i (i + zone_x_offset g) gj.

(** A list of zones emitted one after the other. *)
Definition add_zones (zones : list vec) (m : mesh_out) : mesh_out :=
  fold_left (fun m0 v => add_zone v m0) zones m.

(** The mesh object the constructor hands to the planner. *)
Definition planner_input (P nx ny : Z) : GenerateMesh :=
  initial_mesh (mkInputParameters "rect" nx ny P 0).

(** A sequence of writes [v[i] = x], oldest first. *)
Definition scatter (pairs : list (Z * Z)) (v : vec) : vec :=
  fold_left (fun v' p => vset v' (fst p) (snd p)) pairs v.

(** [p] holds each of [0 .. N-1] exactly once. *)
Definition bijection_on (p : vec) (N : Z) : Prop :=
  vsize p = N /\ NoDup p /\ (forall x, In x p -> 0 <= x < N).

(** The cells block [(cx, cy)] numbers, in order: left edge (first block
    column only), top edge (first block row only), right edge, bottom edge,
    interior. *)
Definition block_cells (wx wy cx cy : Z) : list (Z * Z) :=
  (if cx =? 0 then map (fun dy => (0, wy * cy + dy)) (zrange 1 (wy + 1)) else [])
  ++ (if cy =? 0 then map (fun dx => (cx * wx + 1 + dx, wy * cy)) (zrange 0 wx)
      else [])
  ++ map (fun dy => (wx * (cx + 1), wy * cy + 1 + dy)) (zrange 0 wy)
  ++ map (fun dx => (wx * cx + 1 + dx, wy * (cy + 1))) (zrange 0 (wx - 1))
  ++ flat_map (fun dy => map (fun dx => (wx * cx + dx, wy * cy + dy)) (zrange 1 wx))
       (zrange 1 wy).

(** All blocks, in row-major block order. *)
Definition blocks_cells (wx wy nbx nby : Z) : list (Z * Z) :=
  flat_map (fun cy => flat_map (fun cx => block_cells wx wy cx cy) (zrange 0 nbx))
    (zrange 0 nby).

(** The whole numbering order: the origin first, then the blocks. *)
Definition mu_cells (wx wy nbx nby : Z) : list (Z * Z) :=
  (0, 0) :: blocks_cells wx wy nbx nby.

(** The same order as linearized indices. *)
Definition mu_order (npx wx wy nbx nby : Z) : vec :=
  map (fun c => linearize npx (fst c) (snd c)) (mu_cells wx wy nbx nby).

(** [perm[linearize(x, y)] = cnt++] for the cell [c = (x, y)]. *)
Definition mark (npx : Z) (c : Z * Z) (st : fill) : fill :=
  assign (linearize npx (fst c) (snd c)) st.

(** The array [muPermutation] returns when all three assertions hold. *)
Definition mu_array (npx npy wx wy nbx nby : Z) : vec :=
  cells (fold_left (fun s idx => assign idx s) (mu_order npx wx wy nbx nby)
           {| cells := repeat 0 (Z.to_nat (npx * npy)); cnt := 0 |}).

(** What [calcLocalConstants] establishes on a valid configuration.  The
    entry assertions of [muPermutation] force the processor grid to divide
    the global zone counts, so every rank has the same local extents. *)
Record constructed (g : GenerateMesh) : Prop := {
  c_nzx : 1 <= nzones_x g;
  c_nzy : 1 <= nzones_y g;
  c_npx : 1 <= num_proc_x g;
  c_npy : 1 <= num_proc_y g;
  c_gnx : global_nzones_x g = nzones_x g * num_proc_x g;
  c_gny : global_nzones_y g = nzones_y g * num_proc_y g;
  c_pix : proc_index_x g = Z.rem (my_color g) (num_proc_x g);
  c_piy : proc_index_y g = Z.quot (my_color g) (num_proc_x g);
  c_zx : zone_x_offset g = proc_index_x g * nzones_x g;
  c_zy : zone_y_offset g = proc_index_y g * nzones_y g;
  c_nz : num_zones g = nzones_x g * nzones_y g;
  c_ptx : num_points_x g = nzones_x g + 1;
  c_pty : num_points_y g = nzones_y g + 1;
  c_perm : bijection_on (perm g) (num_points_x g * num_points_y g);
  c_deperm : forall i, 0 <= i < num_points_x g * num_points_y g ->
               vget (deperm g) (vget (perm g) i) = i
               /\ vget (perm g) (vget (deperm g) i) = i;
  c_gperm_eq : muPermutation (global_nzones_x g + 1) (global_nzones_y g + 1)
                 (num_proc_x g) (num_proc_y g) = Ok (global_perm g);
  c_gperm : bijection_on (global_perm g)
              ((global_nzones_x g + 1) * (global_nzones_y g + 1));
  c_gdeperm : forall i,
      0 <= i < (global_nzones_x g + 1) * (global_nzones_y g + 1) ->
      vget (global_deperm g) (vget (global_perm g) i) = i
      /\ vget (global_perm g) (vget (global_deperm g) i) = i
}.

(** Sum of a list of integers. *)
Definition zsum (l : vec) : Z := fold_right Z.add 0 l.

(** Points stored for grid position [(i, j)] by the hex layout: one on the
    global boundary and at the two inner corners, two elsewhere. *)
Definition hex_points_at (g : GenerateMesh) (j i : Z) : Z :=
  let gi := i + zone_x_offset g in
  let gj := j + zone_y_offset g in
  if (gi =? 0) || (gi =? global_nzones_x g) || (gj =? 0)
     || (gj =? global_nzones_y g)
  then 1
  else if (i =? nzones_x g) && (j =? 0) then 1
  else if (i =? 0) && (j =? nzones_y g) then 1
  else 2.

(** Number of points stored for row [j]. *)
Definition hex_row_points (g : GenerateMesh) (j : Z) : Z :=
  zsum (map (hex_points_at g j) (zrange 0 (num_points_x g))).

(** Number of points stored before row [j]. *)
Definition hex_row_base (g : GenerateMesh) (j : Z) : Z :=
  zsum (map (hex_row_points g) (zrange 0 j)).

(** The raster positions an interior rank shares with its lower-left,
    lower and left neighbours: the corner, the rest of the bottom row, the
    rest of the left column. *)
Definition corner_index : vec := [0].
Definition bottom_row_rest (g : GenerateMesh) : vec := zrange 1 (num_points_x g).
Definition left_column_rest (g : GenerateMesh) : vec :=
  map (fun j => j * num_points_x g) (zrange 1 (num_points_y g)).

(** The local indices an interior hex rank shares with its lower-left,
    lower and left neighbours.  Interior grid positions hold two points, so
    the corner contributes two indices, the bottom row two per column (one
    for the last), and the left column the first two points of each row (one
    for the last row). *)
Definition hex_corner : vec := [0; 1].
Definition hex_bottom_row_rest (g : GenerateMesh) : vec :=
  zrange 2 (2 * nzones_x g + 1).
Definition hex_left_column_rest (g : GenerateMesh) : vec :=
  flat_map (fun j =>
    if j =? nzones_y g then [hex_row_base g j]
    else [hex_row_base g j; hex_row_base g j + 1])
    (zrange 1 (num_points_y g)).

(** The three vectors of the slave side of a halo. *)
Definition slave_side (h : halo) : vec * vec * vec :=
  (master_colors h, slaved_points_counts h, slaved_points h).

(** The three slave lists of an interior rank, per family: rect reports the
    permuted indices of the raster positions, pie the raster positions
    themselves, hex the doubled-point indices. *)
Definition slave_corner (g : GenerateMesh) : vec :=
  if String.eqb (meshtype g) "pie" then corner_index
  else if String.eqb (meshtype g) "rect" then map (vget (perm g)) corner_index
  else hex_corner.

Definition slave_below (g : GenerateMesh) : vec :=
  if String.eqb (meshtype g) "pie" then bottom_row_rest g
  else if String.eqb (meshtype g) "rect"
  then map (vget (perm g)) (bottom_row_rest g)
  else hex_bottom_row_rest g.

Definition slave_left (g : GenerateMesh) : vec :=
  if String.eqb (meshtype g) "pie" then left_column_rest g
  else if String.eqb (meshtype g) "rect"
  then map (vget (perm g)) (left_column_rest g)
  else hex_left_column_rest g.

(** The global zones of a rank's extent: the columns
    [zone_x_offset .. zone_x_offset + nzones_x - 1] and the rows
    [zone_y_offset .. zone_y_offset + nzones_y - 1] its zone loops visit. *)
Definition owns_zone (g : GenerateMesh) (zx zy : Z) : Prop :=
  zone_x_offset g <= zx < zone_x_offset g + nzones_x g
  /\ zone_y_offset g <= zy < zone_y_offset g + nzones_y g.

(** The halo that lists the relations [rs] on its slave side and [rm] on its
    master side; a relation is the neighbour's colour and the segment of
    local point indices shared with it. *)
Definition halo_of (rs rm : list (Z * vec)) : halo :=
  mkHalo (map fst rs) (map (fun r => vsize (snd r)) rs) (concat (map snd rs))
         (map fst rm) (map (fun r => vsize (snd r)) rm) (concat (map snd rm)).

(** The colours each enumerator reports, in order: the masters of this
    rank's slaved points, and the slaves of its master points. *)
Definition rect_masters (g : GenerateMesh) : vec :=
  (if (0 <? proc_index_x g) && (0 <? proc_index_y g)
   then [my_color g - num_proc_x g - 1] else [])
  ++ (if 0 <? proc_index_y g then [my_color g - num_proc_x g] else [])
  ++ (if 0 <? proc_index_x g then [my_color g - 1] else []).

(** Likewise the slaves of a rect rank's master points. *)
Definition rect_slaves (g : GenerateMesh) : vec :=
  (if proc_index_x g <? num_proc_x g - 1 then [my_color g + 1] else [])
  ++ (if proc_index_y g <? num_proc_y g - 1 then [my_color g + num_proc_x g]
      else [])
  ++ (if (proc_index_x g <? num_proc_x g - 1)
         && (proc_index_y g <? num_proc_y g - 1)
      then [my_color g + num_proc_x g + 1] else []).

(** For pie, the ranks of the bottom processor row beyond the first two
    also name rank 0, the master of the pole. *)
Definition pie_masters (g : GenerateMesh) : vec :=
  (if negb (proc_index_x g =? 0) && negb (proc_index_y g =? 0)
   then [my_color g - num_proc_x g - 1] else [])
  ++ (if negb (proc_index_y g =? 0) then [my_color g - num_proc_x g] else [])
  ++ (if negb (proc_index_x g =? 0)
      then (if (proc_index_y g =? 0) && (1 <? proc_index_x g) then [0] else [])
           ++ [my_color g - 1]
      else []).

(** Rank 0 in turn names every rank of the bottom processor row. *)
Definition pie_slaves (g : GenerateMesh) : vec :=
  (if negb (proc_index_x g =? num_proc_x g - 1)
   then (my_color g + 1)
        :: (if (proc_index_x g =? 0) && (proc_index_y g =? 0)
            then zrange 2 (num_proc_x g) else [])
   else [])
  ++ (if negb (proc_index_y g =? num_proc_y g - 1)
      then [my_color g + num_proc_x g] else [])
  ++ (if negb (proc_index_x g =? num_proc_x g - 1)
         && negb (proc_index_y g =? num_proc_y g - 1)
      then [my_color g + num_proc_x g + 1] else []).

(** Hex has the three relations of rect. *)
Definition hex_masters (g : GenerateMesh) : vec :=
  (if negb (proc_index_x g =? 0) && negb (proc_index_y g =? 0)
   then [my_color g - num_proc_x g - 1] else [])
  ++ (if negb (proc_index_y g =? 0) then [my_color g - num_proc_x g] else [])
  ++ (if negb (proc_index_x g =? 0) then [my_color g - 1] else []).

Definition hex_slaves (g : GenerateMesh) : vec :=
  (if negb (proc_index_x g =? num_proc_x g - 1) then [my_color g + 1] else [])
  ++ (if negb (proc_index_y g =? num_proc_y g - 1)
      then [my_color g + num_proc_x g] else [])
  ++ (if negb (proc_index_x g =? num_proc_x g - 1)
         && negb (proc_index_y g =? num_proc_y g - 1)
      then [my_color g + num_proc_x g + 1] else []).

(** The colours [generateHaloPoints] reports, by family; none with a
    single partition. *)
Definition master_neighbours (g : GenerateMesh) : vec :=
  if num_subregions g =? 1 then []
  else if String.eqb (meshtype g) "pie" then pie_masters g
  else if String.eqb (meshtype g) "rect" then rect_masters g
  else if String.eqb (meshtype g) "hex" then hex_masters g
  else [].

Definition slave_neighbours (g : GenerateMesh) : vec :=
  if num_subregions g =? 1 then []
  else if String.eqb (meshtype g) "pie" then pie_slaves g
  else if String.eqb (meshtype g) "rect" then rect_slaves g
  else if String.eqb (meshtype g) "hex" then hex_slaves g
  else [].

(** The three neighbours towards higher colours, in grid coordinates, and
    for pie the ranks of the bottom row that share the pole with rank 0. *)
Definition is_upper_neighbour (px py qx qy : Z) : Prop :=
  (qx = px + 1 /\ qy = py) \/ (qx = px /\ qy = py + 1)
  \/ (qx = px + 1 /\ qy = py + 1).

Definition shares_pole (px py qx qy : Z) : Prop :=
  px = 0 /\ py = 0 /\ qy = 0 /\ 2 <= qx.

(** ** [snailPermutation] *)

(** [for (int i = lo; i < hi; ++i) body] for a body that can fail. *)
Definition for_m {S : Type} (lo hi : Z) (body : Z -> S -> outcome S) (s : S)
  : outcome S :=
  fold_left (fun acc i => bind acc (body i)) (zrange lo hi) (Ok s).

(** [dir_list_x] and [dir_list_y]. *)
Definition dir_list_x (dir : Z) : Z := nth (Z.to_nat dir) [1; 0; -1; 0] 0.
Definition dir_list_y (dir : Z) : Z := nth (Z.to_nat dir) [0; 1; 0; -1] 0.

(** The locals of the numbering loop of [snailPermutation]. *)
Record snail : Type := mkSnail {
  sgrid : vec; loc_x : Z; loc_y : Z; dir : Z; block : Z }.

(** [v[i]] and [v[i] = x] on the grid, whose size is fixed: an index outside
    the storage is undefined behaviour. *)
Definition vload (v : vec) (i : Z) : outcome Z :=
  if (0 <=? i) && (i <? vsize v) then Ok (vget v i) else Undefined.

Definition vstore (v : vec) (i x : Z) : outcome vec :=
  if (0 <=? i) && (i <? vsize v) then Ok (vset v i x) else Undefined.

(** The first conjunct of the [while] condition: the next cell in direction
    [dir] is off the grid or does not carry the mark of the current block.
    The grid is only read when the four bounds tests fail. *)
Definition snail_blocked (num_pts_x num_pts_y : Z) (s : snail) (dir : Z)
  : outcome bool :=
  if (loc_x s + dir_list_x dir <? 0)
     || (num_pts_x <=? loc_x s + dir_list_x dir)
     || (loc_y s + dir_list_y dir <? 0)
     || (num_pts_y <=? loc_y s + dir_list_y dir)
  then Ok true
  else
    v <- vload (sgrid s)
           ((loc_y s + dir_list_y dir) * num_pts_x + loc_x s + dir_list_x dir) ;;
    Ok (negb (v =? - block s - 1)).

(** [while (blocked && dir_iter < 4) { dir_iter++; dir = (dir + 1) % 4; }] *)
Fixpoint snail_turn (fuel : nat) (num_pts_x num_pts_y : Z) (s : snail)
    (dir dir_iter : Z) : outcome (Z * Z) :=
  match fuel with
  | O => OutOfFuel
  | S fuel' =>
      blocked <- snail_blocked num_pts_x num_pts_y s dir ;;
      if blocked && (dir_iter <? 4)
      then snail_turn fuel' num_pts_x num_pts_y s (Z.rem (dir + 1) 4) (dir_iter + 1)
      else Ok (dir, dir_iter)
  end.

(** A comparison used as an [int]. *)
Definition int_of_bool (b : bool) : Z := if b then 1 else 0.

Definition snailPermutation (num_pts_x num_pts_y num_blocks_x num_blocks_y : Z)
  : outcome vec :=
  width_x <- cdiv num_pts_x num_blocks_x ;;
  width_y <- cdiv num_pts_y num_blocks_y ;;
  assert ((width_x * num_blocks_x + 1 =? num_pts_x) || (num_blocks_x =? 1)) ;;;
  assert ((width_y * num_blocks_y + 1 =? num_pts_y) || (num_blocks_y =? 1)) ;;;
  let grid := repeat 0 (Z.to_nat (num_pts_x * num_pts_y)) in
  (* Initialize the grid to the negative block number *)
  grid <-
    for_m 0 num_pts_y (fun y =>
    for_m 0 num_pts_x (fun x grid =>
      qy <- cdiv (y - 1) width_y ;;
      qx <- cdiv (x - 1) width_x ;;
      vstore grid (y * num_pts_x + x)
        (- (Z.max qy 0 * num_blocks_x + Z.max qx 0 + 1)))) grid ;;
  s <-
    for_m 0 (num_pts_x * num_pts_y) (fun iter s =>
      grid <- vstore (sgrid s) (loc_y s * num_pts_x + loc_x s) iter ;;
      let s := mkSnail grid (loc_x s) (loc_y s) (dir s) (block s) in
      t <- snail_turn 5 num_pts_x num_pts_y s (dir s) 0 ;;
      let '(dir, dir_iter) := t in
      if dir_iter <? 3 then
        (* normal continuation: spiral within block *)
        Ok (mkSnail (sgrid s) (loc_x s + dir_list_x dir)
              (loc_y s + dir_list_y dir) dir (block s))
      else
        (* jump to next block *)
        let block := block s + 1 in
        bx <- cmod block num_blocks_x ;;
        cy <- cdiv block num_blocks_x ;;
        Ok (mkSnail (sgrid s) (bx * width_x + int_of_bool (0 <? bx))
              (cy * width_y + int_of_bool (0 <? cy)) 0 block))
      (mkSnail grid 0 0 0 0) ;;
  Ok (sgrid s).

(** A permutation check that computes. *)
Definition covers (p : vec) (N : Z) : bool :=
  (vsize p =? N) && forallb (fun k => existsb (Z.eqb k) p) (zrange 0 N).

Definition snail_ok (wx wy nbx nby : Z) : bool :=
  match snailPermutation (wx * nbx + 1) (wy * nby + 1) nbx nby with
  | Ok p => covers p ((wx * nbx + 1) * (wy * nby + 1)) && (vget p 0 =? 0)
  | _ => false
  end.

(** ** The rect halo, relation by relation *)

(** The rows a rect rank lists for its left and right columns, and the
    columns it lists for its bottom and top rows: all of them, except the
    first when the corner belongs to the diagonal relation. *)
Definition rect_rows (g : GenerateMesh) : vec :=
  zrange (if negb (proc_index_y g =? 0) then 1 else 0) (num_points_y g).

Definition rect_cols (g : GenerateMesh) : vec :=
  zrange (if negb (proc_index_x g =? 0) then 1 else 0) (num_points_x g).

(** The relations of a rect rank, with their segments. *)
Definition rect_slave_relations (g : GenerateMesh) : list (Z * vec) :=
  (if (0 <? proc_index_x g) && (0 <? proc_index_y g)
   then [(my_color g - num_proc_x g - 1, [vget (perm g) 0])] else [])
  ++ (if 0 <? proc_index_y g
      then [(my_color g - num_proc_x g,
             map (fun i => vget (perm g) i) (rect_cols g))] else [])
  ++ (if 0 <? proc_index_x g
      then [(my_color g - 1,
             map (fun j => vget (perm g) (j * num_points_x g)) (rect_rows g))]
      else []).

Definition rect_master_relations (g : GenerateMesh) : list (Z * vec) :=
  (if proc_index_x g <? num_proc_x g - 1
   then [(my_color g + 1,
          map (fun j => vget (perm g) (j * num_points_x g + (num_points_x g - 1)))
            (rect_rows g))] else [])
  ++ (if proc_index_y g <? num_proc_y g - 1
      then [(my_color g + num_proc_x g,
             map (fun i => vget (perm g) ((num_points_y g - 1) * num_points_x g + i))
               (rect_cols g))] else [])
  ++ (if (proc_index_x g <? num_proc_x g - 1)
         && (proc_index_y g <? num_proc_y g - 1)
      then [(my_color g + num_proc_x g + 1,
             [vget (perm g) (num_points_x g * num_points_y g - 1)])] else []).

(** ** The pie halo, relation by relation *)

(** The local index of the point in row [j], column [i] of a pie rank.  On
    the bottom processor row, row 0 is the pole alone, at index 0. *)
Definition pie_local (g : GenerateMesh) (j i : Z) : Z :=
  if proc_index_y g =? 0 then (j - 1) * num_points_x g + 1 + i
  else j * num_points_x g + i.

Definition pie_cols (g : GenerateMesh) : vec :=
  zrange (if negb (proc_index_x g =? 0) then 1 else 0) (num_points_x g).

(** The relations of a pie rank, with their segments. *)
Definition pie_slave_relations (g : GenerateMesh) : list (Z * vec) :=
  (if negb (proc_index_x g =? 0) && negb (proc_index_y g =? 0)
   then [(my_color g - num_proc_x g - 1, [0])] else [])
  ++ (if negb (proc_index_y g =? 0)
      then [(my_color g - num_proc_x g, pie_cols g)] else [])
  ++ (if negb (proc_index_x g =? 0) then
        let rows := map (fun j => pie_local g j 0) (zrange 1 (num_points_y g)) in
        if proc_index_y g =? 0 then
          if 1 <? proc_index_x g
          then [(0, [0]); (my_color g - 1, rows)]
          else [(my_color g - 1, 0 :: rows)]
        else [(my_color g - 1, rows)]
      else []).

Definition pie_master_relations (g : GenerateMesh) : list (Z * vec) :=
  (if negb (proc_index_x g =? num_proc_x g - 1) then
     let rows := map (fun j => pie_local g j (num_points_x g - 1))
                   (zrange 1 (num_points_y g)) in
     if (proc_index_x g =? 0) && (proc_index_y g =? 0)
     then (my_color g + 1, 0 :: rows)
          :: map (fun slave_proc => (slave_proc, [0])) (zrange 2 (num_proc_x g))
     else [(my_color g + 1, rows)]
   else [])
  ++ (if negb (proc_index_y g =? num_proc_y g - 1)
      then [(my_color g + num_proc_x g,
             map (fun i => pie_local g (num_points_y g - 1) i) (pie_cols g))]
      else [])
  ++ (if negb (proc_index_x g =? num_proc_x g - 1)
         && negb (proc_index_y g =? num_proc_y g - 1)
      then [(my_color g + num_proc_x g + 1,
             [pie_local g (num_points_y g - 1) (num_points_x g - 1)])]
      else []).

(** ** Raster positions of the rect halo points *)

(** The raster positions behind the slaved and the master points of a rect
    rank. *)
Definition rect_slaved_raster (g : GenerateMesh) : vec :=
  (if (0 <? proc_index_x g) && (0 <? proc_index_y g) then [0] else [])
  ++ (if 0 <? proc_index_y g then rect_cols g else [])
  ++ (if 0 <? proc_index_x g
      then map (fun j => j * num_points_x g) (rect_rows g) else []).

Definition rect_master_raster (g : GenerateMesh) : vec :=
  (if proc_index_x g <? num_proc_x g - 1
   then map (fun j => j * num_points_x g + (num_points_x g - 1)) (rect_rows g)
   else [])
  ++ (if proc_index_y g <? num_proc_y g - 1
      then map (fun i => (num_points_y g - 1) * num_points_x g + i) (rect_cols g)
      else [])
  ++ (if (proc_index_x g <? num_proc_x g - 1)
         && (proc_index_y g <? num_proc_y g - 1)
      then [num_points_x g * num_points_y g - 1] else []).

(** ** The hex halo, relation by relation *)

(** The local indices a hex rank lists for its bottom row, its left column,
    its right column and its top row.  A grid position inside the global grid
    holds two points, so the rows are runs of consecutive indices and the
    columns take the first (or last) two points of each row. *)
Definition hex_below_points (g : GenerateMesh) : vec :=
  zrange (if negb (proc_index_x g =? 0) then 2 else 0)
    (2 * nzones_x g + (if negb (proc_index_x g =? 0) then 1 else 0)).

Definition hex_left_points (g : GenerateMesh) : vec :=
  flat_map (fun j =>
    if (j =? 0) && negb (proc_index_y g =? 0) then []
    else if (j =? 0) || (j =? nzones_y g) then [hex_row_base g j]
    else [hex_row_base g j; hex_row_base g j + 1])
    (zrange 0 (num_points_y g)).

Definition hex_right_points (g : GenerateMesh) : vec :=
  flat_map (fun j =>
    if (j =? 0) && negb (proc_index_y g =? 0) then []
    else if (j =? 0) || (j =? nzones_y g) then [hex_row_base g (j + 1) - 1]
    else [hex_row_base g (j + 1) - 2; hex_row_base g (j + 1) - 1])
    (zrange 0 (num_points_y g)).

Definition hex_above_points (g : GenerateMesh) : vec :=
  zrange (hex_row_base g (nzones_y g)
          + (if negb (proc_index_x g =? 0) then 1 else 0))
    (hex_row_base g (nzones_y g) + 2 * nzones_x g).

(** The relations of a hex rank, with their segments. *)
Definition hex_slave_relations (g : GenerateMesh) : list (Z * vec) :=
  (if negb (proc_index_x g =? 0) && negb (proc_index_y g =? 0)
   then [(my_color g - num_proc_x g - 1, [0; 1])] else [])
  ++ (if negb (proc_index_y g =? 0)
      then [(my_color g - num_proc_x g, hex_below_points g)] else [])
  ++ (if negb (proc_index_x g =? 0)
      then [(my_color g - 1, hex_left_points g)] else []).

Definition hex_master_relations (g : GenerateMesh) : list (Z * vec) :=
  (if negb (proc_index_x g =? num_proc_x g - 1)
   then [(my_color g + 1, hex_right_points g)] else [])
  ++ (if negb (proc_index_y g =? num_proc_y g - 1)
      then [(my_color g + num_proc_x g, hex_above_points g)] else [])
  ++ (if negb (proc_index_x g =? num_proc_x g - 1)
         && negb (proc_index_y g =? num_proc_y g - 1)
      then [(my_color g + num_proc_x g + 1,
             [hex_row_base g (num_points_y g) - 2;
              hex_row_base g (num_points_y g) - 1])]
      else []).

(** ** The range of [int]

    The integers of the model are unbounded, the source computes in [int]
    (32 bits), where a result beyond [INT_MAX] is undefined.  Statements
    that depend on a product or a counter staying inside [int] carry the
    bound as a hypothesis. *)
Definition INT_MAX : Z := 2147483647.

(** The values [calcLocalConstants] and [muPermutation] form on the global
    grid fit [int]: [(proc_index + 1) * global_nzones] is at most
    [num_proc * global_nzones] on either axis, the colours stay below
    [num_proc_x * num_proc_y], and every index into the global permutation
    is below the number of global points. *)
Definition products_fit_int (g : GenerateMesh) : Prop :=
  num_proc_x g * global_nzones_x g <= INT_MAX
  /\ num_proc_y g * global_nzones_y g <= INT_MAX
  /\ num_proc_x g * num_proc_y g <= INT_MAX
  /\ (global_nzones_x g + 1) * (global_nzones_y g + 1) <= INT_MAX.

(** ** Values of binary64 numbers

    The real number a positive finite [spec_float] with mantissa [m] and
    exponent [e] stands for, the relative error bound [2^-52] used for every
    rounding, and the mantissas of normal numbers. *)
Module BinaryValue.
Import Reals.

Definition float_value (m : positive) (e : Z) : R :=
  (IZR (Zpos m) * powerRZ 2 e)%R.

Definition rel_eps : R := (/ 4503599627370496)%R.

End BinaryValue.

Definition normal_mantissa (m : Z) : Prop := 2 ^ 52 <= m < 2 ^ 53.

(** * Proofs *)

(** ** The model on small inputs *)

Example muPermutation_4x3 :
  muPermutation 4 3 1 1 = Ok [0; 3; 4; 5; 1; 10; 11; 6; 2; 8; 9; 7].
Proof. reflexivity. Qed.

Example muPermutation_5x5_blocks :
  muPermutation 5 5 2 2
  = Ok [0; 3; 4; 9; 10; 1; 8; 5; 14; 11; 2; 7; 6; 13; 12; 15; 20; 17; 24; 21;
        16; 19; 18; 23; 22].
Proof. reflexivity. Qed.

Example muPermutation_not_divisible : muPermutation 5 5 2 3 = AssertFail.
Proof. reflexivity. Qed.

Example calcPartitions_6_10x3 :
  (g <- calcPartitions 6 (planner_input 6 10 3) ;;
   Ok (num_proc_x g, num_proc_y g)) = Ok (6, 1).
Proof. vm_compute. reflexivity. Qed.

Example calcPartitions_16_8x32 :
  (g <- calcPartitions 16 (planner_input 16 8 32) ;;
   Ok (num_proc_x g, num_proc_y g)) = Ok (2, 8).
Proof. vm_compute. reflexivity. Qed.

Example rect_halo_rank3_of_2x2 :
  (g <- construct 4 (fun _ => 0) (fun _ => 0)
         (mkInputParameters "rect" 4 4 4 3) ;;
   generateHaloPoints g empty_halo)
  = Ok (mkHalo [0; 1; 2] [1; 2; 2] [0; 3; 4; 1; 2] [] [] []).
Proof. vm_compute. reflexivity. Qed.

Example hex_3x3_zonesize :
  zonesize (generateHex
              (mkGenerateMesh "hex" 3 3 1 0 1 1 0 0 0 0 3 3 9 4 4 [] [] [] [])
              empty_mesh)
  = [5; 5; 4; 5; 6; 5; 4; 5; 5].
Proof. reflexivity. Qed.

(** ** Ranges and loops *)

Lemma zrange_nil (lo hi : Z) : hi <= lo -> zrange lo hi = [].
Proof.
  intros H. unfold zrange.
  replace (Z.to_nat (hi - lo)) with 0%nat by lia. reflexivity.
Qed.

Lemma zrange_snoc (lo hi : Z) :
  lo <= hi -> zrange lo (hi + 1) = zrange lo hi ++ [hi].
Proof.
  intros H. unfold zrange.
  replace (Z.to_nat (hi + 1 - lo)) with (S (Z.to_nat (hi - lo))) by lia.
  rewrite seq_S, map_app. simpl. f_equal. f_equal. lia.
Qed.

Lemma zrange_cons (lo hi : Z) :
  lo < hi -> zrange lo hi = lo :: zrange (lo + 1) hi.
Proof.
  intros H. unfold zrange.
  replace (Z.to_nat (hi - lo)) with (S (Z.to_nat (hi - (lo + 1)))) by lia.
  cbn [seq map]. f_equal; [lia|].
  rewrite <- seq_shift, map_map. apply map_ext. intros k. lia.
Qed.

Lemma in_zrange (lo hi x : Z) : In x (zrange lo hi) <-> lo <= x < hi.
Proof.
  unfold zrange. rewrite in_map_iff. split.
  - intros [k [<- Hk]]. apply in_seq in Hk. lia.
  - intros H. exists (Z.to_nat (x - lo)). split; [lia|].
    apply in_seq. lia.
Qed.

Lemma length_zrange (lo hi : Z) : length (zrange lo hi) = Z.to_nat (hi - lo).
Proof. unfold zrange. now rewrite length_map, length_seq. Qed.

Lemma nth_zrange (lo hi : Z) (k : nat) (d : Z) :
  (k < Z.to_nat (hi - lo))%nat -> nth k (zrange lo hi) d = lo + Z.of_nat k.
Proof.
  intros H. unfold zrange.
  rewrite nth_indep with (d' := lo + Z.of_nat 0)
    by (rewrite length_map, length_seq; exact H).
  change (lo + Z.of_nat 0) with ((fun k => lo + Z.of_nat k) 0%nat).
  rewrite map_nth, seq_nth by exact H. reflexivity.
Qed.

Lemma NoDup_zrange (lo hi : Z) : NoDup (zrange lo hi).
Proof.
  unfold zrange. apply Finite.Injective_map_NoDup.
  - intros a b. lia.
  - apply seq_NoDup.
Qed.

Lemma for_nil {S : Type} (lo hi : Z) (body : Z -> S -> S) (s : S) :
  hi <= lo -> for_ lo hi body s = s.
Proof. intros H. unfold for_. now rewrite zrange_nil. Qed.

Lemma for_snoc {S : Type} (lo hi : Z) (body : Z -> S -> S) (s : S) :
  lo <= hi -> for_ lo (hi + 1) body s = body hi (for_ lo hi body s).
Proof.
  intros H. unfold for_. rewrite zrange_snoc by exact H.
  now rewrite fold_left_app.
Qed.

Lemma for_cons {S : Type} (lo hi : Z) (body : Z -> S -> S) (s : S) :
  lo < hi -> for_ lo hi body s = for_ (lo + 1) hi body (body lo s).
Proof. intros H. unfold for_. now rewrite zrange_cons. Qed.

(** Loop invariant rule for counted loops. *)
Lemma for_invariant {S : Type} (I : S -> Prop) (lo hi : Z)
    (body : Z -> S -> S) (s : S) :
  I s ->
  (forall i s', lo <= i < hi -> I s' -> I (body i s')) ->
  I (for_ lo hi body s).
Proof.
  intros H0 Hstep. unfold for_.
  assert (Hin : forall i, In i (zrange lo hi) -> lo <= i < hi)
    by (intros i; apply in_zrange).
  revert s H0. induction (zrange lo hi) as [|x l IH]; intros s H0; simpl.
  - exact H0.
  - apply IH.
    + intros i Hi. apply Hin. now right.
    + apply Hstep; [apply Hin; now left | exact H0].
Qed.

Lemma for_ext {S : Type} (lo hi : Z) (body body' : Z -> S -> S) (s : S) :
  (forall i s', lo <= i < hi -> body i s' = body' i s') ->
  for_ lo hi body s = for_ lo hi body' s.
Proof.
  intros H. unfold for_.
  assert (Hin : forall i, In i (zrange lo hi) -> lo <= i < hi)
    by (intros i; apply in_zrange).
  revert s. induction (zrange lo hi) as [|x l IH]; intros s; simpl.
  - reflexivity.
  - rewrite H by (apply Hin; now left). apply IH.
    intros i Hi. apply Hin. now right.
Qed.

(** A loop whose body appends [F i] to a projection of the state appends
    the concatenation of the [F i]. *)
Lemma for_append {S A : Type} (proj : S -> list A) (F : Z -> list A)
    (lo hi : Z) (body : Z -> S -> S) (s : S) :
  (forall i s', lo <= i < hi -> proj (body i s') = proj s' ++ F i) ->
  proj (for_ lo hi body s) = proj s ++ flat_map F (zrange lo hi).
Proof.
  intros H. unfold for_.
  assert (Hin : forall i, In i (zrange lo hi) -> lo <= i < hi)
    by (intros i; apply in_zrange).
  revert s. induction (zrange lo hi) as [|x l IH]; intros s; simpl.
  - now rewrite app_nil_r.
  - rewrite IH by (intros i Hi; apply Hin; now right).
    rewrite H by (apply Hin; now left). now rewrite app_assoc.
Qed.

(** A loop whose body leaves a projection alone leaves it alone. *)
Lemma for_frame {S A : Type} (proj : S -> A) (lo hi : Z)
    (body : Z -> S -> S) (s : S) :
  (forall i s', lo <= i < hi -> proj (body i s') = proj s') ->
  proj (for_ lo hi body s) = proj s.
Proof.
  intros H. apply (for_invariant (fun s' => proj s' = proj s)).
  - reflexivity.
  - intros i s' Hi Hs. now rewrite H.
Qed.

(** ** Family dispatch *)

Lemma not_family_eqb (t : string) :
  is_family t = false ->
  String.eqb t "pie" = false /\ String.eqb t "rect" = false
  /\ String.eqb t "hex" = false.
Proof.
  unfold is_family. intros H.
  apply orb_false_iff in H. destruct H as [H H3].
  apply orb_false_iff in H. destruct H as [H1 H2]. auto.
Qed.

(** C9. With a single partition ([num_subregions == 1]) the public
    [generateHaloPoints] returns, for each of the three mesh families, with
    all six output vectors exactly as the caller passed them. *)
Theorem generateHaloPoints_single_rank (g : GenerateMesh) (h : halo) :
  is_family (meshtype g) = true ->
  num_subregions g = 1 ->
  generateHaloPoints g h = Ok h.
Proof.
  intros Hfam Hone. unfold generateHaloPoints.
  unfold generateHaloPointsPie, generateHaloPointsRect, generateHaloPointsHex.
  rewrite Hone. simpl (1 =? 1).
  unfold is_family in Hfam.
  destruct (String.eqb (meshtype g) "pie"); [reflexivity|].
  destruct (String.eqb (meshtype g) "rect"); [reflexivity|].
  destruct (String.eqb (meshtype g) "hex"); [reflexivity|discriminate].
Qed.

Lemma generateHaloPoints_single_rank_witness :
  is_family "hex" = true /\
  generateHaloPoints
    (mkGenerateMesh "hex" 3 3 1 0 1 1 0 0 0 0 3 3 9 4 4 [] [] [] [])
    (mkHalo [5] [1] [7] [] [] []) = Ok (mkHalo [5] [1] [7] [] [] []).
Proof.
  split; [reflexivity|].
  apply generateHaloPoints_single_rank; reflexivity.
Defined.

(** C10. For a mesh family tag other than "pie", "rect" and "hex", and any
    local point index, [pointLocalToGlobalID] returns -1: no assertion is
    evaluated and the call returns normally. *)
Theorem pointLocalToGlobalID_unknown_family
    (xStart yStart nprev : GenerateMesh -> Z -> Z) (g : GenerateMesh) (p : Z) :
  is_family (meshtype g) = false ->
  pointLocalToGlobalID xStart yStart nprev g p = Ok (-1).
Proof.
  intros H. apply not_family_eqb in H. destruct H as (H1 & H2 & H3).
  unfold pointLocalToGlobalID. now rewrite H1, H2, H3.
Qed.

Lemma pointLocalToGlobalID_unknown_family_witness :
  pointLocalToGlobalID (fun _ z => z) (fun _ z => z) (fun _ z => z)
    (mkGenerateMesh "tri" 3 3 1 0 1 1 0 0 0 0 3 3 9 4 4 [] [] [] []) 5
  = Ok (-1).
Proof.
  apply pointLocalToGlobalID_unknown_family. reflexivity.
Defined.

(** The [else] branch of both dispatchers asserts that the tag differs from
    one fixed string, so any other unrecognised tag passes the assertion. *)
Lemma generateHaloPoints_unknown_family (g : GenerateMesh) (h : halo) :
  is_family (meshtype g) = false ->
  meshtype g <> allowable_mesh_type ->
  generateHaloPoints g h = Ok h.
Proof.
  intros H Hne. apply not_family_eqb in H. destruct H as (H1 & H2 & H3).
  unfold generateHaloPoints. rewrite H1, H2, H3.
  apply String.eqb_neq in Hne. now rewrite Hne.
Qed.

Lemma generate_family_unknown (g : GenerateMesh) (m : mesh_out) :
  is_family (meshtype g) = false ->
  meshtype g <> allowable_mesh_type ->
  generate_family g m = Ok m.
Proof.
  intros H Hne. apply not_family_eqb in H. destruct H as (H1 & H2 & H3).
  unfold generate_family. rewrite H1, H2, H3.
  apply String.eqb_neq in Hne. now rewrite Hne.
Qed.

Lemma generate_unknown_family (g : GenerateMesh) (pp : list double2)
    (zs zp : vec) :
  is_family (meshtype g) = false ->
  meshtype g <> allowable_mesh_type ->
  generate g pp zs zp = Undefined.
Proof.
  intros H Hne. unfold generate.
  rewrite generate_family_unknown by assumption.
  cbn [bind zonestart zonesize]. unfold back. destruct (rev zs); reflexivity.
Qed.

(** C4 (the code departs from the claim).  With the unrecognised tag "foo"
    no assertion fires: [generateHaloPoints] returns normally with the
    caller's vectors, and [generate] gets past its assertion and reaches
    [zonesize.back()] on the empty local vector, which is undefined
    behaviour rather than an assertion failure.  Only the tag equal to the
    fixed string of the assertion is caught. *)
Theorem unknown_family_not_caught :
  let g := mkGenerateMesh "foo" 3 3 1 0 1 1 0 0 0 0 3 3 9 4 4 [] [] [] [] in
  generateHaloPoints g empty_halo = Ok empty_halo
  /\ generate_family g empty_mesh = Ok empty_mesh
  /\ generate g [] [] [] = Undefined
  /\ generateHaloPoints
       (mkGenerateMesh allowable_mesh_type 3 3 1 0 1 1 0 0 0 0 3 3 9 4 4
          [] [] [] []) empty_halo = AssertFail.
Proof. repeat split. Qed.

(** ** Zone lists in compressed form *)

Lemma fold_left_map {S A B : Type} (f : S -> B -> S) (g : A -> B)
    (l : list A) (s : S) :
  fold_left f (map g l) s = fold_left (fun s' x => f s' (g x)) l s.
Proof. revert s. induction l as [|x l IH]; intros s; simpl; auto. Qed.

Lemma fold_left_flat_map {S A B : Type} (f : S -> B -> S) (F : A -> list B)
    (l : list A) (s : S) :
  fold_left f (flat_map F l) s
  = fold_left (fun s' x => fold_left f (F x) s') l s.
Proof.
  revert s. induction l as [|x l IH]; intros s; simpl.
  - reflexivity.
  - now rewrite fold_left_app, IH.
Qed.

Lemma for_fold_map {S A : Type} (step : A -> S -> S) (V : Z -> A)
    (lo hi : Z) (s : S) :
  for_ lo hi (fun i => step (V i)) s
  = fold_left (fun s' v => step v s') (map V (zrange lo hi)) s.
Proof. unfold for_. now rewrite fold_left_map. Qed.

Lemma for_fold_flat_map {S A : Type} (step : A -> S -> S) (F : Z -> list A)
    (lo hi : Z) (obody : Z -> S -> S) (s : S) :
  (forall j s', lo <= j < hi ->
     obody j s' = fold_left (fun s'' v => step v s'') (F j) s') ->
  for_ lo hi obody s
  = fold_left (fun s' v => step v s') (flat_map F (zrange lo hi)) s.
Proof.
  intros H. rewrite fold_left_flat_map. unfold for_.
  assert (Hin : forall i, In i (zrange lo hi) -> lo <= i < hi)
    by (intros i; apply in_zrange).
  revert s. induction (zrange lo hi) as [|x l IH]; intros s; simpl.
  - reflexivity.
  - rewrite H by (apply Hin; now left). apply IH.
    intros i Hi. apply Hin. now right.
Qed.

Lemma vsize_app {A : Type} (a b : list A) : vsize (a ++ b) = vsize a + vsize b.
Proof. unfold vsize. rewrite length_app. lia. Qed.

Lemma vsize_nonneg {A : Type} (a : list A) : 0 <= vsize a.
Proof. unfold vsize. lia. Qed.

Lemma offsets_cons (base : Z) (v : vec) (zones : list vec) :
  offsets base (v :: zones) = base :: offsets (base + vsize v) zones.
Proof.
  unfold offsets. cbn [length seq map firstn concat].
  f_equal; [unfold vsize; simpl; lia|].
  rewrite <- seq_shift, map_map. apply map_ext. intros k.
  cbn [firstn concat]. rewrite vsize_app. lia.
Qed.

Lemma add_zones_spec (zones : list vec) (m : mesh_out) :
  let m' := fold_left (fun m0 v => add_zone v m0) zones m in
  pointpos m' = pointpos m
  /\ zonestart m' = zonestart m ++ offsets (vsize (zonepoints m)) zones
  /\ zonesize m' = zonesize m ++ map vsize zones
  /\ zonepoints m' = zonepoints m ++ concat zones.
Proof.
  revert m. induction zones as [|v zones IH]; intros m; cbn zeta.
  - simpl. unfold offsets. simpl. now rewrite !app_nil_r.
  - cbn [fold_left]. specialize (IH (add_zone v m)). cbn zeta in IH.
    destruct IH as (Hp & Hs & Hz & Hzp).
    rewrite Hp, Hs, Hz, Hzp. rewrite offsets_cons.
    unfold add_zone, append_zonepoints, push_zonesize, push_zonestart, push_back.
    cbn [pointpos zonestart zonesize zonepoints map concat].
    rewrite vsize_app, <- !app_assoc. auto.
Qed.


Lemma nth_concat_firstn {A : Type} (l : list (list A)) (k r : nat) (d : A) :
  (k < length l)%nat -> (r < length (nth k l []))%nat ->
  nth (length (concat (firstn k l)) + r) (concat l) d = nth r (nth k l []) d.
Proof.
  revert k. induction l as [|x l IH]; intros k Hk Hr; simpl in Hk; [lia|].
  destruct k as [|k].
  - simpl in *. now rewrite app_nth1.
  - cbn [firstn concat nth] in *. rewrite length_app, <- Nat.add_assoc.
    rewrite app_nth2_plus. apply IH; [lia|exact Hr].
Qed.

Lemma nth_flat_map_uniform {A B : Type} (F : A -> list B) (c : nat)
    (l : list A) (k r : nat) (d : B) (da : A) :
  (forall x, In x l -> length (F x) = c) ->
  (r < c)%nat -> (k < length l)%nat ->
  nth (k * c + r) (flat_map F l) d = nth r (F (nth k l da)) d.
Proof.
  revert k. induction l as [|x l IH]; intros k Hlen Hr Hk; simpl in Hk; [lia|].
  destruct k as [|k].
  - simpl. rewrite app_nth1; [reflexivity|].
    rewrite Hlen by (now left). exact Hr.
  - cbn [flat_map nth].
    replace (S k * c + r)%nat with (length (F x) + (k * c + r))%nat
      by (rewrite Hlen by (now left); lia).
    rewrite app_nth2_plus. apply IH; [|exact Hr|lia].
    intros y Hy. apply Hlen. now right.
Qed.

Lemma length_grid {A : Type} (h w : Z) (f : Z -> Z -> A) :
  0 <= h -> 0 <= w -> vsize (grid h w f) = h * w.
Proof.
  intros Hh Hw. unfold grid, vsize.
  rewrite (flat_map_constant_length (c := Z.to_nat w)).
  - rewrite length_zrange. nia.
  - intros x _. now rewrite length_map, length_zrange, Z.sub_0_r.
Qed.

Lemma nth_grid {A : Type} (h w : Z) (f : Z -> Z -> A) (i j : Z) (d : A) :
  0 <= i < w -> 0 <= j < h ->
  nth (Z.to_nat (j * w + i)) (grid h w f) d = f j i.
Proof.
  intros Hi Hj. unfold grid.
  replace (Z.to_nat (j * w + i))
    with (Z.to_nat j * Z.to_nat w + Z.to_nat i)%nat by nia.
  rewrite nth_flat_map_uniform with (da := 0).
  - rewrite nth_zrange by lia.
    rewrite nth_indep with (d' := f (0 + Z.of_nat (Z.to_nat j)) 0)
      by (rewrite length_map, length_zrange; lia).
    change (f (0 + Z.of_nat (Z.to_nat j)) 0)
      with ((fun i0 => f (0 + Z.of_nat (Z.to_nat j)) i0) 0).
    rewrite map_nth, nth_zrange by lia.
    f_equal; lia.
  - intros x _. now rewrite length_map, length_zrange, Z.sub_0_r.
  - lia.
  - rewrite length_zrange. lia.
Qed.

(** ** The zone loops of the three generators *)

Lemma zone_loop_grid (h w : Z) (V : Z -> Z -> vec)
    (body : Z -> Z -> mesh_out -> mesh_out) (m : mesh_out) :
  (forall j i m', body j i m' = add_zone (V j i) m') ->
  for_ 0 h (fun j => for_ 0 w (fun i => body j i)) m
  = add_zones (grid h w V) m.
Proof.
  intros H. unfold add_zones, grid.
  apply (for_fold_flat_map add_zone). intros j m' _.
  rewrite <- for_fold_map. apply for_ext. intros i m'' _. apply H.
Qed.

Lemma generateRect_zones (g : GenerateMesh) (m : mesh_out) :
  exists pp,
    generateRect g m
    = add_zones (grid (nzones_y g) (nzones_x g) (rect_zone g))
        (with_pointpos pp m).
Proof.
  unfold generateRect. eexists. cbv zeta.
  apply zone_loop_grid with (V := rect_zone g). intros j i m'.
  unfold add_zone, rect_zone, push_zonepoints, push_zonesize, push_zonestart,
    append_zonepoints, push_back, vsize.
  cbn [pointpos zonestart zonesize zonepoints length].
  rewrite <- !app_assoc. reflexivity.
Qed.

Lemma pie_points_spec (g : GenerateMesh) (m : mesh_out) :
  let m1 :=
    for_ 0 (num_points_y g) (fun j m =>
      if j + zone_y_offset g =? 0
      then push_pointpos PieOrigin m
      else
        for_ 0 (num_points_x g) (fun i =>
          push_pointpos
            (PiePoint (global_nzones_x g - (i + zone_x_offset g))
                      (j + zone_y_offset g))) m) m in
  pointpos m1
  = pointpos m
    ++ flat_map (fun j =>
         if j + zone_y_offset g =? 0 then [PieOrigin]
         else map (fun i =>
                PiePoint (global_nzones_x g - (i + zone_x_offset g))
                         (j + zone_y_offset g)) (zrange 0 (num_points_x g)))
       (zrange 0 (num_points_y g))
  /\ zonestart m1 = zonestart m /\ zonesize m1 = zonesize m
  /\ zonepoints m1 = zonepoints m.
Proof.
  cbv zeta. split; [|repeat split].
  - apply (for_append pointpos). intros j m' _.
    destruct (j + zone_y_offset g =? 0); [reflexivity|].
    rewrite (for_append pointpos (fun i =>
      [PiePoint (global_nzones_x g - (i + zone_x_offset g))
         (j + zone_y_offset g)])) by reflexivity.
    reflexivity.
  - apply (for_frame zonestart). intros j m' _.
    destruct (j + zone_y_offset g =? 0); [reflexivity|].
    now apply (for_frame zonestart).
  - apply (for_frame zonesize). intros j m' _.
    destruct (j + zone_y_offset g =? 0); [reflexivity|].
    now apply (for_frame zonesize).
  - apply (for_frame zonepoints). intros j m' _.
    destruct (j + zone_y_offset g =? 0); [reflexivity|].
    now apply (for_frame zonepoints).
Qed.

Lemma generatePie_zones (g : GenerateMesh) (m : mesh_out) :
  exists m1,
    generatePie g m
    = add_zones (grid (nzones_y g) (nzones_x g) (pie_zone g)) m1
    /\ pointpos m1
       = pointpos m
         ++ flat_map (fun j =>
              if j + zone_y_offset g =? 0 then [PieOrigin]
              else map (fun i =>
                     PiePoint (global_nzones_x g - (i + zone_x_offset g))
                              (j + zone_y_offset g)) (zrange 0 (num_points_x g)))
            (zrange 0 (num_points_y g))
    /\ zonestart m1 = zonestart m /\ zonesize m1 = zonesize m
    /\ zonepoints m1 = zonepoints m.
Proof.
  unfold generatePie. eexists. split; [|apply pie_points_spec].
  cbv zeta. apply zone_loop_grid with (V := pie_zone g). intros j i m'.
  unfold pie_zone. cbv zeta.
  destruct (j + zone_y_offset g =? 0);
    unfold add_zone, push_zonepoints, push_zonesize, push_zonestart,
      append_zonepoints, push_back, vsize;
    cbn [pointpos zonestart zonesize zonepoints length];
    rewrite <- ?app_assoc; reflexivity.
Qed.

Lemma hex_points_frame (g : GenerateMesh) (m : mesh_out) :
  zonestart (fst (hex_points g m)) = zonestart m
  /\ zonesize (fst (hex_points g m)) = zonesize m
  /\ zonepoints (fst (hex_points g m)) = zonepoints m.
Proof.
  unfold hex_points.
  apply (for_invariant (fun s : mesh_out * vec =>
    zonestart (fst s) = zonestart m /\ zonesize (fst s) = zonesize m
    /\ zonepoints (fst s) = zonepoints m)); [auto|].
  intros j [m' pb] _ IH. cbn [fst] in *.
  apply (for_invariant (fun s : mesh_out =>
    zonestart s = zonestart m /\ zonesize s = zonesize m
    /\ zonepoints s = zonepoints m)); [exact IH|].
  intros i m'' _ IH'.
  repeat match goal with |- context [if ?b then _ else _] => destruct b end;
    exact IH'.
Qed.

Lemma generateHex_zones (g : GenerateMesh) (m : mesh_out) :
  generateHex g m
  = add_zones
      (grid (nzones_y g) (nzones_x g) (hex_zone g (snd (hex_points g m))))
      (fst (hex_points g m)).
Proof.
  unfold generateHex. destruct (hex_points g m) as [m1 pbase]. cbn [fst snd].
  apply zone_loop_grid with (V := hex_zone g pbase). intros j i m'.
  reflexivity.
Qed.

Lemma add_zones_fields (zones : list vec) (m : mesh_out) :
  pointpos (add_zones zones m) = pointpos m
  /\ zonestart (add_zones zones m)
     = zonestart m ++ offsets (vsize (zonepoints m)) zones
  /\ zonesize (add_zones zones m) = zonesize m ++ map vsize zones
  /\ zonepoints (add_zones zones m) = zonepoints m ++ concat zones.
Proof. exact (add_zones_spec zones m). Qed.

Lemma map_grid {A B : Type} (k : A -> B) (h w : Z) (f : Z -> Z -> A) :
  map k (grid h w f) = grid h w (fun j i => k (f j i)).
Proof.
  unfold grid. rewrite flat_map_concat_map, concat_map, map_map.
  rewrite flat_map_concat_map. f_equal. apply map_ext. intros j.
  now rewrite map_map.
Qed.

Lemma vget_nat (v : vec) (k : nat) : vget v (Z.of_nat k) = nth k v 0.
Proof. unfold vget. now rewrite Nat2Z.id. Qed.

Lemma vget_offsets (b : Z) (zones : list vec) (k : nat) :
  (k < length zones)%nat ->
  vget (offsets b zones) (Z.of_nat k) = b + vsize (concat (firstn k zones)).
Proof.
  intros Hk. rewrite vget_nat. unfold offsets.
  rewrite nth_indep with (d' := b + vsize (concat (firstn 0 zones)))
    by (now rewrite length_map, length_seq).
  change (b + vsize (concat (firstn 0 zones)))
    with ((fun k0 => b + vsize (concat (firstn k0 zones))) 0%nat).
  rewrite map_nth, seq_nth by exact Hk. reflexivity.
Qed.






(** ** Hex zone sizes *)

Lemma hex_zone_vertices_size (g : GenerateMesh) (pbasel pbaseh i gi gj : Z) :
  vsize (hex_zone_vertices g pbasel pbaseh i gi gj)
  = if gj =? 0 then (if gi =? global_nzones_x g - 1 then 4 else 5)
    else if gj =? global_nzones_y g - 1 then (if gi =? 0 then 4 else 5)
    else if gi =? 0 then 5
    else if gi =? global_nzones_x g - 1 then 5
    else 6.
Proof.
  unfold hex_zone_vertices.
  destruct (gj =? 0); [destruct (gi =? global_nzones_x g - 1); reflexivity|].
  destruct (gj =? global_nzones_y g - 1); [destruct (gi =? 0); reflexivity|].
  destruct (gi =? 0); [reflexivity|].
  destruct (gi =? global_nzones_x g - 1); reflexivity.
Qed.

Lemma hex_zonesize_at (g : GenerateMesh) (m : mesh_out) (i j : Z) :
  zonesize m = [] ->
  0 <= i < nzones_x g -> 0 <= j < nzones_y g ->
  vget (zonesize (generateHex g m)) (j * nzones_x g + i)
  = vsize (hex_zone g (snd (hex_points g m)) j i).
Proof.
  intros Hz Hi Hj. rewrite generateHex_zones.
  destruct (add_zones_fields
              (grid (nzones_y g) (nzones_x g) (hex_zone g (snd (hex_points g m))))
              (fst (hex_points g m))) as (_ & _ & -> & _).
  destruct (hex_points_frame g m) as (_ & -> & _). rewrite Hz. cbn [app].
  rewrite map_grid. unfold vget. now rewrite nth_grid.
Qed.

(** C5 (as amended).  Every zone [(i, j)] that [generateHex] emits has 4, 5
    or 6 vertices, never 3.  It has 4 exactly where two removals apply: in
    the bottom global row at the right global column, and in the top global
    row (when that is not also the bottom row) at the left global column.  It
    has 6 exactly when the zone touches no global boundary; every other
    boundary zone, the bottom-left and top-right corners included, has 5. *)
Theorem generateHex_zonesize (g : GenerateMesh) (m : mesh_out) (i j : Z) :
  zonesize m = [] ->
  0 <= i < nzones_x g -> 0 <= j < nzones_y g ->
  let s := vget (zonesize (generateHex g m)) (j * nzones_x g + i) in
  let gi := i + zone_x_offset g in
  let gj := j + zone_y_offset g in
  (s = 4 \/ s = 5 \/ s = 6)
  /\ (s = 4 <->
      (gj = 0 /\ gi = global_nzones_x g - 1)
      \/ (gj <> 0 /\ gj = global_nzones_y g - 1 /\ gi = 0))
  /\ (s = 6 <->
      gj <> 0 /\ gj <> global_nzones_y g - 1
      /\ gi <> 0 /\ gi <> global_nzones_x g - 1).
Proof.
  intros Hz Hi Hj. cbv zeta.
  rewrite hex_zonesize_at by assumption.
  unfold hex_zone. cbv zeta. rewrite hex_zone_vertices_size.
  destruct (Z.eqb_spec (j + zone_y_offset g) 0);
    destruct (Z.eqb_spec (i + zone_x_offset g) (global_nzones_x g - 1));
    destruct (Z.eqb_spec (j + zone_y_offset g) (global_nzones_y g - 1));
    destruct (Z.eqb_spec (i + zone_x_offset g) 0);
    repeat split; try lia; intros; lia.
Qed.

Lemma generateHex_zonesize_witness :
  let g := mkGenerateMesh "hex" 3 3 1 0 1 1 0 0 0 0 3 3 9 4 4 [] [] [] [] in
  vget (zonesize (generateHex g empty_mesh)) (0 * 3 + 2) = 4.
Proof.
  cbv zeta.
  apply (generateHex_zonesize
           (mkGenerateMesh "hex" 3 3 1 0 1 1 0 0 0 0 3 3 9 4 4 [] [] [] [])
           empty_mesh 2 0); simpl; try reflexivity; try lia.
Defined.

(** ** The pole row of the pie generator *)

Lemma flat_map_ext_range {A : Type} (F G : Z -> list A) (lo hi : Z) :
  (forall j, lo <= j < hi -> F j = G j) ->
  flat_map F (zrange lo hi) = flat_map G (zrange lo hi).
Proof.
  intros H. rewrite !flat_map_concat_map. f_equal.
  apply map_ext_in. intros j Hj. apply H. now apply in_zrange.
Qed.

Lemma vget_zone_start (zones : list vec) (z : Z) :
  0 <= z < vsize zones ->
  nth (Z.to_nat z) zones [] <> [] ->
  vget (concat zones) (vget (offsets 0 zones) z)
  = nth 0 (nth (Z.to_nat z) zones []) 0.
Proof.
  intros Hz Hne. unfold vsize in Hz.
  replace z with (Z.of_nat (Z.to_nat z)) at 1 by lia.
  rewrite vget_offsets by lia. unfold vget, vsize.
  rewrite Z.add_0_l, Nat2Z.id.
  rewrite <- (Nat.add_0_r (length (concat (firstn (Z.to_nat z) zones)))).
  apply nth_concat_firstn; [lia|].
  destruct (nth (Z.to_nat z) zones []); [congruence|simpl; lia].
Qed.

Lemma skipn_nth_cons {A : Type} (l : list A) (k : nat) (d : A) :
  (k < length l)%nat -> skipn k l = nth k l d :: skipn (S k) l.
Proof.
  revert k. induction l as [|a l IH]; intros k Hk; [simpl in Hk; lia|].
  destruct k as [|k]; [reflexivity|]. cbn [skipn nth]. apply IH. simpl in Hk. lia.
Qed.

(** The offset of zone [z] and its vertices lie inside the concatenated
    vertex list. *)
Lemma zone_start_in_range (zones : list vec) (z : Z) :
  0 <= z < vsize zones ->
  0 <= vget (offsets 0 zones) z
  /\ vget (offsets 0 zones) z + vsize (nth (Z.to_nat z) zones [])
     <= vsize (concat zones).
Proof.
  intros Hz. unfold vsize in Hz.
  assert (V : vget (offsets 0 zones) z
              = vsize (concat (firstn (Z.to_nat z) zones))).
  { replace z with (Z.of_nat (Z.to_nat z)) at 1 by lia.
    rewrite vget_offsets by lia. lia. }
  rewrite V. split; [apply vsize_nonneg|].
  assert (E : concat zones
              = concat (firstn (Z.to_nat z) zones)
                ++ nth (Z.to_nat z) zones []
                ++ concat (skipn (S (Z.to_nat z)) zones)).
  { rewrite <- (firstn_skipn (Z.to_nat z) zones) at 1.
    rewrite concat_app.
    now rewrite (skipn_nth_cons zones (Z.to_nat z) []) by lia. }
  rewrite E at 1. rewrite !vsize_app.
  pose proof (vsize_nonneg (concat (skipn (S (Z.to_nat z)) zones))). lia.
Qed.

Lemma vget_nth_error (v : vec) (i : Z) :
  0 <= i < vsize v -> nth_error v (Z.to_nat i) = Some (vget v i).
Proof.
  intros Hi. unfold vget, vsize in *. apply nth_error_nth'. lia.
Qed.

(** C7. On a rank whose [zone_y_offset] is 0, [generatePie] stores the pole
    once, as local point 0, followed by the points of rows 1, 2, ... in
    raster order (row by row, [i] increasing within a row), with no
    permutation applied; none of those row points is the pole.  [zonestart]
    and [zonesize] hold one entry per zone, and the vertices of zone
    [z = j * nzones_x + i] occupy the stored range
    [zonestart[z] .. zonestart[z] + zonesize[z] - 1] of [zonepoints].  Every
    zone of row [j = 0] has [zonesize] 3 and its first stored vertex is the
    pole (index 0), and every zone of any other row has [zonesize] 4. *)
Theorem generatePie_pole_row (g : GenerateMesh) :
  zone_y_offset g = 0 ->
  1 <= num_points_y g ->
  let m := generatePie g empty_mesh in
  let rows :=
    flat_map (fun j =>
      map (fun i => PiePoint (global_nzones_x g - (i + zone_x_offset g)) j)
        (zrange 0 (num_points_x g)))
      (zrange 1 (num_points_y g)) in
  pointpos m = PieOrigin :: rows
  /\ ~ In PieOrigin rows
  /\ forall i j, 0 <= i < nzones_x g -> 0 <= j < nzones_y g ->
       let z := j * nzones_x g + i in
       vsize (zonestart m) = nzones_y g * nzones_x g
       /\ vsize (zonesize m) = nzones_y g * nzones_x g
       /\ 0 <= vget (zonestart m) z
       /\ vget (zonestart m) z + vget (zonesize m) z <= vsize (zonepoints m)
       /\ (j = 0 ->
             vget (zonesize m) z = 3
             /\ vget (zonepoints m) (vget (zonestart m) z) = 0
             /\ nth_error (zonepoints m) (Z.to_nat (vget (zonestart m) z))
                = Some 0)
       /\ (j <> 0 -> vget (zonesize m) z = 4).
Proof.
  intros Hzy Hny. cbv zeta.
  destruct (generatePie_zones g empty_mesh) as (m1 & -> & Hpp & Hs & Hz & Hzp).
  destruct (add_zones_fields
              (grid (nzones_y g) (nzones_x g) (pie_zone g)) m1)
    as (-> & -> & -> & ->).
  rewrite Hpp, Hs, Hz, Hzp. cbn [empty_mesh pointpos zonestart zonesize zonepoints app].
  change (vsize (@nil Z)) with 0.
  split; [|split].
  - rewrite (zrange_cons 0 (num_points_y g)) by lia. cbn [flat_map].
    rewrite Hzy. cbn [Z.add Z.eqb app]. f_equal.
    apply flat_map_ext_range. intros j Hj.
    replace (j + 0) with j by lia.
    destruct (Z.eqb_spec j 0); [lia|reflexivity].
  - intros Hin. apply in_flat_map in Hin. destruct Hin as (j & _ & Hin).
    apply in_map_iff in Hin. destruct Hin as (i & Heq & _). discriminate.
  - intros i j Hi Hj. cbv zeta.
    set (zones := grid (nzones_y g) (nzones_x g) (pie_zone g)).
    assert (Hlen : vsize zones = nzones_y g * nzones_x g)
      by (apply length_grid; lia).
    assert (Hzr : 0 <= j * nzones_x g + i < vsize zones) by (rewrite Hlen; nia).
    assert (Hzone : nth (Z.to_nat (j * nzones_x g + i)) zones [] = pie_zone g j i)
      by (now apply nth_grid).
    assert (Hsize : vget (map vsize zones) (j * nzones_x g + i)
                    = vsize (pie_zone g j i)).
    { unfold zones. rewrite map_grid. unfold vget. now rewrite nth_grid. }
    destruct (zone_start_in_range zones (j * nzones_x g + i) Hzr) as [S0 S1].
    rewrite Hzone, <- Hsize in S1.
    split; [|split; [|split; [exact S0|split; [exact S1|split]]]].
    + unfold offsets, vsize. rewrite length_map, length_seq. exact Hlen.
    + unfold vsize at 1. rewrite length_map. exact Hlen.
    + intros ->.
      assert (E3 : vget (map vsize zones) (0 * nzones_x g + i) = 3).
      { rewrite Hsize. unfold pie_zone. cbv zeta. rewrite Hzy. reflexivity. }
      assert (E0 : vget (concat zones) (vget (offsets 0 zones) (0 * nzones_x g + i))
                   = 0).
      { rewrite vget_zone_start.
        - rewrite Hzone. unfold pie_zone. cbv zeta. rewrite Hzy. reflexivity.
        - exact Hzr.
        - rewrite Hzone. unfold pie_zone. cbv zeta. rewrite Hzy. discriminate. }
      split; [exact E3|]. split; [exact E0|].
      rewrite (vget_nth_error (concat zones)) by lia. now rewrite E0.
    + intros Hj0. rewrite Hsize. unfold pie_zone. cbv zeta. rewrite Hzy.
      replace (j + 0) with j by lia.
      destruct (Z.eqb_spec j 0); [lia|reflexivity].
Qed.

Lemma generatePie_pole_row_witness :
  let g := mkGenerateMesh "pie" 3 3 1 0 1 1 0 0 0 0 3 3 9 4 4 [] [] [] [] in
  pointpos (generatePie g empty_mesh)
  = PieOrigin
    :: flat_map (fun j => map (fun i => PiePoint (3 - (i + 0)) j) (zrange 0 4))
         (zrange 1 4).
Proof.
  cbv zeta.
  apply (generatePie_pole_row
           (mkGenerateMesh "pie" 3 3 1 0 1 1 0 0 0 0 3 3 9 4 4 [] [] [] []));
    simpl; [reflexivity | lia].
Defined.

(** ** The partition planner *)

Lemma search_down_terminates (P : Z) (fuel : nat) (n1 : Z) :
  1 <= n1 -> (Z.to_nat n1 <= fuel)%nat ->
  exists d, search_down fuel P n1 = Ok d /\ 1 <= d <= n1 /\ Z.rem P d = 0.
Proof.
  revert n1. induction fuel as [|fuel IH]; intros n1 Hn Hfuel; [lia|].
  cbn [search_down]. unfold cmod.
  destruct (Z.eqb_spec n1 0) as [|_]; [lia|]. cbn [bind].
  destruct (Z.eqb_spec (Z.rem P n1) 0) as [Hr|Hr]; cbn [negb].
  - exists n1. repeat split; auto; lia.
  - assert (n1 <> 1) by (intros ->; apply Hr; apply Z.rem_1_r).
    destruct (IH (n1 - 1)) as (d & Hd & Hrange & Hrem); [lia|lia|].
    exists d. repeat split; auto; lia.
Qed.

Lemma search_up_terminates (P : Z) (fuel : nat) (n2 : Z) :
  1 <= n2 <= P -> (Z.to_nat (P - n2) < fuel)%nat ->
  exists d, search_up fuel P n2 = Ok d /\ n2 <= d <= P /\ Z.rem P d = 0.
Proof.
  revert n2. induction fuel as [|fuel IH]; intros n2 Hn Hfuel; [lia|].
  cbn [search_up]. unfold cmod.
  destruct (Z.eqb_spec n2 0) as [|_]; [lia|]. cbn [bind].
  destruct (Z.eqb_spec (Z.rem P n2) 0) as [Hr|Hr]; cbn [negb].
  - exists n2. repeat split; auto; lia.
  - assert (n2 <> P) by (intros ->; apply Hr; apply Z.rem_same; lia).
    destruct (IH (n2 + 1)) as (d & Hd & Hrange & Hrem); [lia|lia|].
    exists d. repeat split; auto; lia.
Qed.

Lemma exact_quot (P d : Z) : Z.rem P d = 0 -> d <> 0 -> d * Z.quot P d = P.
Proof.
  intros Hr Hd. pose proof (Z.quot_rem' P d) as H. rewrite Hr in H. lia.
Qed.

(** ** The roundings of the planner

    [calcPartitions] reaches its two divisor searches through binary64
    arithmetic.  The lemmas below follow the kernel's specification of the
    operations ([SpecFloat], which the primitive floats obey by
    [FloatAxioms]) on positive normal numbers: every operation returns a
    normal number whose value is within a relative [2^-52] of the exact
    result, and the exponents stay far from the subnormal range and from
    overflow. *)

Module PlannerRounding.
Import Reals Lra Psatz FloatAxioms BinaryValue.
#[local] Open Scope Z_scope.

(** *** Digits *)

Lemma digits2_pos_size (p : positive) : digits2_pos p = Pos.size p.
Proof. induction p; simpl; congruence. Qed.

Lemma Zdigits2_bounds (p : positive) :
  2 ^ (Zdigits2 (Zpos p) - 1) <= Zpos p < 2 ^ Zdigits2 (Zpos p).
Proof.
  cbn [Zdigits2]. rewrite digits2_pos_size.
  pose proof (Pos.size_gt p) as Hgt. pose proof (Pos.size_le p) as Hle.
  split.
  - apply Pos2Z.pos_le_pos in Hle. rewrite Pos2Z.inj_pow in Hle.
    replace (Zpos (Pos.size p)) with (1 + (Zpos (Pos.size p) - 1)) in Hle by lia.
    rewrite Z.pow_add_r, Z.pow_1_r in Hle by lia. lia.
  - apply Pos2Z.pos_lt_pos in Hgt. rewrite Pos2Z.inj_pow in Hgt. exact Hgt.
Qed.

Lemma Zdigits2_pos (p : positive) : 1 <= Zdigits2 (Zpos p).
Proof. cbn [Zdigits2]. lia. Qed.

Lemma Zdigits2_ge (p : positive) (k : Z) :
  1 <= k -> 2 ^ (k - 1) <= Zpos p -> k <= Zdigits2 (Zpos p).
Proof.
  intros Hk H. pose proof (Zdigits2_bounds p) as [_ B].
  pose proof (Zdigits2_pos p).
  assert (2 ^ (k - 1) < 2 ^ Zdigits2 (Zpos p)) as L by lia.
  apply Z.pow_lt_mono_r_iff in L; lia.
Qed.

Lemma Zdigits2_le (p : positive) (k : Z) :
  0 <= k -> Zpos p < 2 ^ k -> Zdigits2 (Zpos p) <= k.
Proof.
  intros Hk H. pose proof (Zdigits2_bounds p) as [B _].
  pose proof (Zdigits2_pos p).
  assert (2 ^ (Zdigits2 (Zpos p) - 1) < 2 ^ k) as L by lia.
  apply Z.pow_lt_mono_r_iff in L; lia.
Qed.

Lemma Zdigits2_normal (p : positive) :
  normal_mantissa (Zpos p) -> Zdigits2 (Zpos p) = 53.
Proof.
  intros [H1 H2].
  pose proof (Zdigits2_ge p 53 ltac:(lia) H1).
  pose proof (Zdigits2_le p 53 ltac:(lia) H2). lia.
Qed.

(** *** Shifting right *)

Lemma shr_1_m (r : shr_record) :
  0 <= shr_m r -> shr_m (shr_1 r) = shr_m r / 2.
Proof.
  destruct r as [m r s]. cbn [shr_m].
  destruct m as [|[p|p|]|p]; intros H; cbn [shr_1 shr_m];
    first [lia | reflexivity | Z.div_mod_to_equations; lia].
Qed.

Lemma iter_pos_shr_m (p : positive) (r : shr_record) :
  0 <= shr_m r -> shr_m (SpecFloat.iter_pos shr_1 p r) = shr_m r / 2 ^ Zpos p.
Proof.
  revert r. induction p as [p IH|p IH|]; intros r Hr; cbn [SpecFloat.iter_pos].
  - assert (H1 : 0 <= shr_m (shr_1 r))
      by (rewrite shr_1_m by lia; apply Z.div_pos; lia).
    assert (H2 : 0 <= shr_m (SpecFloat.iter_pos shr_1 p (shr_1 r)))
      by (rewrite IH by lia; apply Z.div_pos; lia).
    rewrite IH, IH, shr_1_m by lia.
    rewrite !Z.div_div by lia.
    f_equal. replace (Z.pos p~1) with (1 + Z.pos p + Z.pos p) by lia.
    rewrite !Z.pow_add_r, Z.pow_1_r by lia. ring.
  - assert (H2 : 0 <= shr_m (SpecFloat.iter_pos shr_1 p r))
      by (rewrite IH by lia; apply Z.div_pos; lia).
    rewrite IH, IH by lia.
    rewrite !Z.div_div by lia.
    f_equal. replace (Z.pos p~0) with (Z.pos p + Z.pos p) by lia.
    rewrite !Z.pow_add_r by lia. ring.
  - rewrite shr_1_m by lia. reflexivity.
Qed.

Lemma shr_record_of_loc_m (m : Z) (l : location) :
  shr_m (shr_record_of_loc m l) = m.
Proof. destruct l as [|[| |]]; reflexivity. Qed.

(** The first step of a rounding: a mantissa of [d >= 53] digits loses its
    [d - 53] low bits. *)
Lemma shr_fexp_normal (p : positive) (ex : Z) (l : location) :
  53 <= Zdigits2 (Zpos p) ->
  -1074 <= ex + Zdigits2 (Zpos p) - 53 ->
  exists r,
    shr_fexp prec emax (Zpos p) ex l = (r, ex + Zdigits2 (Zpos p) - 53)
    /\ shr_m r = Zpos p / 2 ^ (Zdigits2 (Zpos p) - 53).
Proof.
  intros Hd He. unfold shr_fexp, fexp, SpecFloat.emin, prec, emax.
  set (d := Zdigits2 (Zpos p)) in *.
  replace (Z.max (d + ex - 53) (3 - 1024 - 53) - ex) with (d - 53) by lia.
  destruct (d - 53) as [|k|k] eqn:Ek; try lia.
  - exists (shr_record_of_loc (Zpos p) l). cbn [shr]. split.
    + f_equal. lia.
    + rewrite shr_record_of_loc_m. now rewrite Z.div_1_r.
  - exists (SpecFloat.iter_pos shr_1 k (shr_record_of_loc (Zpos p) l)). cbn [shr]. split.
    + f_equal. lia.
    + rewrite iter_pos_shr_m by (rewrite shr_record_of_loc_m; lia).
      now rewrite shr_record_of_loc_m.
Qed.

Lemma round_nearest_even_cases (m : Z) (l : location) :
  round_nearest_even m l = m \/ round_nearest_even m l = m + 1.
Proof.
  destruct l as [|[| |]]; cbn [round_nearest_even]; auto.
  destruct (Z.even m); auto.
Qed.

(** *** Powers of two in [R] *)

Lemma IZR_pow2 (k : Z) : 0 <= k -> IZR (2 ^ k) = powerRZ 2 k.
Proof.
  intros Hk. rewrite <- (Z2Nat.id k) by lia.
  rewrite <- pow_IZR, <- pow_powerRZ. reflexivity.
Qed.

Lemma pow2_pos (e : Z) : (0 < powerRZ 2 e)%R.
Proof. apply powerRZ_lt. lra. Qed.

Lemma pow2_add (a b : Z) : (powerRZ 2 (a + b) = powerRZ 2 a * powerRZ 2 b)%R.
Proof. apply powerRZ_add. lra. Qed.

Lemma float_value_pos (m : positive) (e : Z) : (0 < float_value m e)%R.
Proof.
  unfold float_value. apply Rmult_lt_0_compat; [|apply pow2_pos].
  apply IZR_lt. lia.
Qed.

(** A mantissa shifted left by [k] against an exponent lowered by [k]. *)
Lemma value_shift (m k e : Z) :
  0 <= k -> (IZR (m * 2 ^ k) * powerRZ 2 e = IZR m * powerRZ 2 (e + k))%R.
Proof.
  intros Hk. rewrite mult_IZR, IZR_pow2, pow2_add by lia. ring.
Qed.

Lemma div_pow2_normal (p : positive) :
  let d := Zdigits2 (Zpos p) in
  53 <= d ->
  let m' := Zpos p / 2 ^ (d - 53) in
  normal_mantissa m'
  /\ m' * 2 ^ (d - 53) <= Zpos p < (m' + 1) * 2 ^ (d - 53).
Proof.
  intros d Hd m'. pose proof (Zdigits2_bounds p) as [B1 B2]. fold d in B1, B2.
  assert (K : 0 < 2 ^ (d - 53)) by (apply Z.pow_pos_nonneg; lia).
  assert (E1 : 2 ^ (d - 1) = 2 ^ 52 * 2 ^ (d - 53))
    by (rewrite <- Z.pow_add_r by lia; f_equal; lia).
  assert (E2 : 2 ^ d = 2 ^ 53 * 2 ^ (d - 53))
    by (rewrite <- Z.pow_add_r by lia; f_equal; lia).
  split; [split|].
  - apply Z.div_le_lower_bound; lia.
  - apply Z.div_lt_upper_bound; lia.
  - unfold m'. pose proof (Z.div_mod (Zpos p) (2 ^ (d - 53)) ltac:(lia)).
    pose proof (Z.mod_pos_bound (Zpos p) (2 ^ (d - 53)) K). lia.
Qed.

(** Rounding a positive value whose mantissa has at least 53 digits, away
    from the subnormal range and from overflow: the result is a normal
    number within a relative [2^-52] of every real the mantissa stands
    for. *)
Lemma binary_round_aux_normal (p : positive) (ex : Z) (l : location) :
  let d := Zdigits2 (Zpos p) in
  53 <= d -> -1074 <= ex + d - 53 -> ex + d - 52 <= 971 ->
  exists m e,
    binary_round_aux prec emax false (Zpos p) ex l = S754_finite false m e
    /\ normal_mantissa (Zpos m)
    /\ ex + d - 53 <= e <= ex + d - 52
    /\ forall x : R,
         (IZR (Zpos p) * powerRZ 2 ex <= x
          <= IZR (Zpos p + 1) * powerRZ 2 ex)%R ->
         ((1 - rel_eps) * x <= float_value m e <= (1 + rel_eps) * x)%R.
Proof.
  intros d Hd Hlo Hhi. unfold binary_round_aux.
  destruct (shr_fexp_normal p ex l Hd Hlo) as (r1 & E1 & M1). fold d in E1, M1.
  rewrite E1.
  destruct (div_pow2_normal p Hd) as ([N1 N2] & D1 & D2). fold d in N1, N2, D1, D2.
  set (k := d - 53) in *. set (m' := Zpos p / 2 ^ k) in *.
  rewrite M1.
  destruct (round_nearest_even_cases m' (loc_of_shr_record r1)) as [R|R];
    rewrite R; clear R.
  all: match goal with |- context [shr_fexp _ _ ?m1 _ _] => set (m1v := m1) end.
  all: assert (Hm1 : 2 ^ 52 <= m1v <= 2 ^ 53) by (unfold m1v; lia).
  all: destruct m1v as [|p1|p1] eqn:Em1; try lia.
  all: assert (Hd1 : 53 <= Zdigits2 (Zpos p1))
         by (apply Zdigits2_ge; [lia|tauto]).
  all: assert (Hd1' : Zdigits2 (Zpos p1) <= 54)
         by (apply Zdigits2_le; [lia|]; change (2 ^ 54) with (2 * 2 ^ 53); lia).
  all: destruct (shr_fexp_normal p1 (ex + d - 53) loc_Exact Hd1 ltac:(lia))
         as (r2 & E2 & M2); rewrite E2, M2.
  all: destruct (div_pow2_normal p1 Hd1) as ([N3 N4] & D3 & D4).
  all: set (k1 := Zdigits2 (Zpos p1) - 53) in *;
       set (m2 := Zpos p1 / 2 ^ k1) in *.
  all: assert (Hexact : m2 * 2 ^ k1 = Zpos p1).
  1, 3: destruct (Z.eq_dec k1 0) as [K0|K0];
    [ rewrite K0 in *; change (2 ^ 0) with 1 in *; lia
    | assert (k1 = 1) as K1 by lia; rewrite K1 in *;
      change (2 ^ 1) with 2 in *;
      pose proof (Zdigits2_bounds p1) as [B _];
      replace (Zdigits2 (Zpos p1) - 1) with 53 in B by lia; lia ].
  all: destruct m2 as [|q|q] eqn:Em2; try lia.
  all: change (emax - prec) with 971.
  all: destruct (Z.leb_spec (ex + d - 53 + Zdigits2 (Zpos p1) - 53) 971);
         [|lia].
  all: exists q, (ex + d - 53 + Zdigits2 (Zpos p1) - 53).
  all: split; [reflexivity|]; split; [split; lia|]; split; [lia|].
  all: intros x [X1 X2].
  all: assert (V : float_value q (ex + d - 53 + Zdigits2 (Zpos p1) - 53)
                   = (IZR (Zpos p1) * powerRZ 2 (ex + k))%R)
         by (unfold float_value;
             replace (ex + d - 53 + Zdigits2 (Zpos p1) - 53) with (ex + k + k1)
               by (unfold k, k1; lia);
             rewrite <- value_shift by lia; now rewrite Hexact).
  all: rewrite V; clear V.
  all: pose proof (pow2_pos ex) as PE; pose proof (pow2_pos (ex + k)) as PU.
  all: assert (T1 : (IZR m' * powerRZ 2 (ex + k) <= IZR (Zpos p) * powerRZ 2 ex)%R)
         by (rewrite <- value_shift by lia;
             apply Rmult_le_compat_r; [lra|apply IZR_le; lia]).
  all: assert (T2 : (IZR (Zpos p + 1) * powerRZ 2 ex
                     <= IZR (m' + 1) * powerRZ 2 (ex + k))%R)
         by (rewrite <- value_shift by lia;
             apply Rmult_le_compat_r; [lra|apply IZR_le; lia]).
  all: assert (T3 : (4503599627370496 * powerRZ 2 (ex + k)
                     <= IZR m' * powerRZ 2 (ex + k))%R)
         by (apply Rmult_le_compat_r; [lra|apply IZR_le; exact N1]).
  all: rewrite !plus_IZR in T2; rewrite plus_IZR in X2.
  all: unfold rel_eps.
  all: rewrite <- Em1; unfold m1v; rewrite ?plus_IZR.
  all: set (T := (IZR m' * powerRZ 2 (ex + k))%R) in *.
  all: set (U := powerRZ 2 (ex + k)) in *.
  all: set (X := (IZR (Zpos p) * powerRZ 2 ex)%R) in *.
  all: set (E := powerRZ 2 ex) in *.
  all: assert (T2' : (X + E <= T + U)%R) by (unfold X, T; lra).
  all: replace ((IZR m' + 1) * U)%R with (T + U)%R by (unfold T; ring).
  all: replace ((IZR (Zpos p) + 1) * E)%R with (X + E)%R in X2 by (unfold X; ring).
  all: split; lra.
Qed.

(** *** [binary_round] *)

Lemma iter_xO (m p : positive) :
  Zpos (Pos.iter xO m p) = Zpos m * 2 ^ Zpos p.
Proof.
  induction p as [|p IH] using Pos.peano_ind.
  - cbn [Pos.iter]. rewrite Pos2Z.inj_xO, Z.pow_1_r. lia.
  - rewrite Pos.iter_succ, Pos2Z.inj_xO, IH, Pos2Z.inj_succ, Z.pow_succ_r by lia.
    ring.
Qed.

Lemma binary_round_normal (p : positive) (ex : Z) :
  let d := Zdigits2 (Zpos p) in
  -1074 <= ex + d - 53 -> ex + d - 52 <= 971 ->
  exists m e,
    binary_round prec emax false p ex = S754_finite false m e
    /\ normal_mantissa (Zpos m)
    /\ ex + d - 53 <= e <= ex + d - 52
    /\ ((1 - rel_eps) * (IZR (Zpos p) * powerRZ 2 ex) <= float_value m e
        <= (1 + rel_eps) * (IZR (Zpos p) * powerRZ 2 ex))%R.
Proof.
  intros d Hlo Hhi. unfold binary_round, shl_align, fexp, SpecFloat.emin.
  change (Zpos (digits2_pos p)) with d.
  change (3 - emax - prec) with (-1074). change (d + ex - prec) with (d + ex - 53).
  replace (Z.max (d + ex - 53) (-1074) - ex) with (d - 53) by lia.
  replace (Z.max (d + ex - 53) (-1074)) with (ex + d - 53) by lia.
  pose proof (Zdigits2_bounds p) as [B1 B2]. fold d in B1, B2.
  pose proof (Zdigits2_pos p) as Dp. fold d in Dp.
  destruct (d - 53) as [|k|k] eqn:Ek.
  - destruct (binary_round_aux_normal p ex loc_Exact) as (m & e & E & N & R & V);
      fold d; try lia.
    exists m, e. fold d in R. split; [exact E|]. split; [exact N|].
    split; [lia|]. apply V. rewrite plus_IZR. pose proof (pow2_pos ex). lra.
  - destruct (binary_round_aux_normal p ex loc_Exact) as (m & e & E & N & R & V);
      fold d; try lia.
    exists m, e. fold d in R. split; [exact E|]. split; [exact N|].
    split; [lia|]. apply V. rewrite plus_IZR. pose proof (pow2_pos ex). lra.
  - set (p' := Pos.iter xO p k).
    assert (Ep' : Zpos p' = Zpos p * 2 ^ Zpos k) by apply iter_xO.
    assert (K : 0 < 2 ^ Zpos k) by (apply Z.pow_pos_nonneg; lia).
    assert (Dk : Zpos k = 53 - d) by lia.
    assert (E1 : 2 ^ 52 = 2 ^ (d - 1) * 2 ^ Zpos k)
      by (rewrite <- Z.pow_add_r by lia; f_equal; lia).
    assert (E2 : 2 ^ 53 = 2 ^ d * 2 ^ Zpos k)
      by (rewrite <- Z.pow_add_r by lia; f_equal; lia).
    assert (N' : normal_mantissa (Zpos p')) by (unfold normal_mantissa; nia).
    pose proof (Zdigits2_normal p' N') as D'.
    destruct (binary_round_aux_normal p' (ex + d - 53) loc_Exact)
      as (m & e & E & N & R & V); rewrite ?D'; try lia.
    exists m, e. rewrite D' in R. split; [exact E|]. split; [exact N|].
    split; [lia|].
    assert (X : (IZR (Zpos p') * powerRZ 2 (ex + d - 53)
                 = IZR (Zpos p) * powerRZ 2 ex)%R).
    { rewrite Ep', value_shift by lia. f_equal. f_equal. lia. }
    rewrite <- X. apply V. rewrite plus_IZR.
    pose proof (pow2_pos (ex + d - 53)). lra.
Qed.

(** *** Conversion from an integer *)

Lemma of_uint63_normal (z : Z) :
  1 <= z < 2 ^ 63 ->
  exists m e,
    Prim2SF (of_uint63 (Uint63.of_Z z)) = S754_finite false m e
    /\ normal_mantissa (Zpos m)
    /\ Zdigits2 z - 53 <= e <= Zdigits2 z - 52
    /\ ((1 - rel_eps) * IZR z <= float_value m e <= (1 + rel_eps) * IZR z)%R.
Proof.
  intros Hz. rewrite of_uint63_spec, Uint63.of_Z_spec.
  rewrite Z.mod_small by (change wB with (2 ^ 63); lia).
  destruct z as [|p|p]; try lia. cbn [binary_normalize].
  pose proof (Zdigits2_pos p).
  assert (Zdigits2 (Zpos p) <= 63) by (apply Zdigits2_le; lia).
  destruct (binary_round_normal p 0) as (m & e & E & N & R & V); try lia.
  exists m, e. split; [exact E|]. split; [exact N|]. split; [lia|].
  change (powerRZ 2 0) with 1%R in V. rewrite Rmult_1_r in V. exact V.
Qed.

(** *** Multiplication *)

Lemma SFmul_normal (m1 m2 : positive) (e1 e2 : Z) :
  normal_mantissa (Zpos m1) -> normal_mantissa (Zpos m2) ->
  -1074 <= e1 + e2 + 52 -> e1 + e2 + 54 <= 971 ->
  exists m e,
    SF64mul (S754_finite false m1 e1) (S754_finite false m2 e2)
    = S754_finite false m e
    /\ normal_mantissa (Zpos m)
    /\ e1 + e2 + 52 <= e <= e1 + e2 + 54
    /\ ((1 - rel_eps) * (float_value m1 e1 * float_value m2 e2)
        <= float_value m e
        <= (1 + rel_eps) * (float_value m1 e1 * float_value m2 e2))%R.
Proof.
  intros [A1 A2] [B1 B2] Hlo Hhi. unfold SF64mul, SFmul. cbn [xorb].
  assert (L : 2 ^ 104 <= Zpos (m1 * m2) < 2 ^ 106).
  { rewrite Pos2Z.inj_mul.
    change (2 ^ 104) with (2 ^ 52 * 2 ^ 52).
    change (2 ^ 106) with (2 ^ 53 * 2 ^ 53). nia. }
  pose proof (Zdigits2_ge (m1 * m2) 105 ltac:(lia) ltac:(tauto)) as D1.
  pose proof (Zdigits2_le (m1 * m2) 106 ltac:(lia) ltac:(tauto)) as D2.
  destruct (binary_round_aux_normal (m1 * m2) (e1 + e2) loc_Exact)
    as (m & e & E & N & R & V); try lia.
  exists m, e. split; [exact E|]. split; [exact N|]. split; [lia|].
  apply V. unfold float_value. rewrite plus_IZR, Pos2Z.inj_mul, mult_IZR, pow2_add.
  pose proof (pow2_pos e1). pose proof (pow2_pos e2).
  assert (0 < powerRZ 2 e1 * powerRZ 2 e2)%R by (apply Rmult_lt_0_compat; lra).
  split; [right; ring|]. nra.
Qed.

(** *** Division *)

Lemma SFdiv_normal (m1 m2 : positive) (e1 e2 : Z) :
  normal_mantissa (Zpos m1) -> normal_mantissa (Zpos m2) ->
  -1074 <= e1 - e2 - 53 -> e1 - e2 - 51 <= 971 ->
  exists m e,
    SF64div (S754_finite false m1 e1) (S754_finite false m2 e2)
    = S754_finite false m e
    /\ normal_mantissa (Zpos m)
    /\ e1 - e2 - 53 <= e <= e1 - e2 - 51
    /\ forall x : R,
         (x * float_value m2 e2 = float_value m1 e1)%R ->
         ((1 - rel_eps) * x <= float_value m e <= (1 + rel_eps) * x)%R.
Proof.
  intros N1 N2 Hlo Hhi. unfold SF64div, SFdiv, SFdiv_core_binary. cbn [xorb].
  rewrite (Zdigits2_normal m1 N1), (Zdigits2_normal m2 N2).
  match goal with |- context [Z.min ?a ?b] =>
    replace (Z.min a b) with (e1 - e2 - 53)
      by (unfold fexp, SpecFloat.emin, prec, emax; lia) end.
  replace (e1 - e2 - (e1 - e2 - 53)) with 53 by lia. cbv iota.
  rewrite Z.shiftl_mul_pow2 by lia.
  pose proof (Z_div_mod (Zpos m1 * 2 ^ 53) (Zpos m2) ltac:(lia)) as DM.
  destruct (Z.div_eucl (Zpos m1 * 2 ^ 53) (Zpos m2)) as [q r].
  destruct DM as [DM Hr].
  destruct N1 as [A1 A2], N2 as [B1 B2].
  assert (Hq : 2 ^ 52 <= q < 2 ^ 54).
  { change (2 ^ 54) with (2 * 2 ^ 53). change (2 ^ 53) with (2 * 2 ^ 52) in *.
    split; nia. }
  destruct q as [|q|q]; try lia.
  pose proof (Zdigits2_ge q 53 ltac:(lia) ltac:(tauto)) as D1.
  pose proof (Zdigits2_le q 54 ltac:(lia) ltac:(tauto)) as D2.
  destruct (binary_round_aux_normal q (e1 - e2 - 53) (new_location (Zpos m2) r))
    as (m & e & E & N & R & V); try lia.
  exists m, e. split; [exact E|]. split; [exact N|]. split; [lia|].
  intros x Hx. apply V. unfold float_value in Hx.
  pose proof (pow2_pos e2) as P2. pose proof (pow2_pos (e1 - e2 - 53)) as P3.
  assert (M2 : (0 < IZR (Zpos m2))%R) by (apply IZR_lt; lia).
  assert (S1 : (IZR (Zpos m1) * powerRZ 2 e1
                = IZR (Zpos m1 * 2 ^ 53) * powerRZ 2 (e1 - e2 - 53)
                  * powerRZ 2 e2)%R).
  { rewrite value_shift by lia. rewrite Rmult_assoc, <- pow2_add.
    f_equal. f_equal. lia. }
  rewrite S1, DM in Hx. rewrite plus_IZR, mult_IZR in Hx.
  assert (Hx' : (x * IZR (Zpos m2)
                 = (IZR (Zpos m2) * IZR (Zpos q) + IZR r)
                   * powerRZ 2 (e1 - e2 - 53))%R).
  { apply (Rmult_eq_reg_r (powerRZ 2 e2)); [|lra]. rewrite <- Hx. ring. }
  assert (R0 : (0 <= IZR r)%R) by (apply IZR_le; lia).
  assert (R1 : (IZR r <= IZR (Zpos m2))%R) by (apply IZR_le; lia).
  rewrite plus_IZR.
  set (Q := IZR (Zpos q)) in *. set (B := IZR (Zpos m2)) in *.
  set (U := powerRZ 2 (e1 - e2 - 53)) in *.
  split.
  - apply (Rmult_le_reg_r B); [exact M2|]. rewrite Hx'. nra.
  - apply (Rmult_le_reg_r B); [exact M2|]. rewrite Hx'. nra.
Qed.

(** *** Square root *)

Lemma SFsqrt_normal (m1 : positive) (e1 : Z) :
  normal_mantissa (Zpos m1) ->
  -1074 <= Z.div2 e1 - 26 -> Z.div2 e1 - 25 <= 971 ->
  exists m e,
    SF64sqrt (S754_finite false m1 e1) = S754_finite false m e
    /\ normal_mantissa (Zpos m)
    /\ Z.div2 e1 - 26 <= e <= Z.div2 e1 - 25
    /\ forall x : R,
         (0 <= x)%R -> (x * x = float_value m1 e1)%R ->
         ((1 - rel_eps) * x <= float_value m e <= (1 + rel_eps) * x)%R.
Proof.
  intros N1 Hlo Hhi. unfold SF64sqrt, SFsqrt, SFsqrt_core_binary.
  rewrite (Zdigits2_normal m1 N1).
  assert (H2 : Z.div2 (53 + e1 + 1) = Z.div2 e1 + 27).
  { rewrite !Z.div2_div. Z.div_mod_to_equations. lia. }
  rewrite H2.
  match goal with |- context [Z.min ?a ?b] =>
    replace (Z.min a b) with (Z.div2 e1 - 26)
      by (unfold fexp, SpecFloat.emin, prec, emax; lia) end.
  set (e' := Z.div2 e1 - 26) in *.
  assert (Hs : 52 <= e1 - 2 * e' <= 53).
  { unfold e'. rewrite Z.div2_div. Z.div_mod_to_equations. lia. }
  set (s := e1 - 2 * e') in *.
  destruct s as [|s0|s0] eqn:Es; try lia.
  rewrite Z.shiftl_mul_pow2 by lia. rewrite <- Es.
  assert (HM : 2 ^ 104 <= Zpos m1 * 2 ^ s < 2 ^ 106).
  { destruct N1 as [A1 A2].
    destruct (Z.eq_dec s 52) as [->|]; [|replace s with 53 by lia].
    - change (2 ^ 104) with (2 ^ 52 * 2 ^ 52).
      change (2 ^ 106) with (2 ^ 54 * 2 ^ 52). lia.
    - change (2 ^ 104) with (2 ^ 51 * 2 ^ 53).
      change (2 ^ 106) with (2 ^ 53 * 2 ^ 53). lia. }
  set (M := Zpos m1 * 2 ^ s) in *.
  pose proof (Z.sqrtrem_spec M ltac:(lia)) as SP.
  destruct (Z.sqrtrem M) as [q r]. destruct SP as [SP Hr].
  assert (Hq : 2 ^ 52 <= q < 2 ^ 53).
  { change (2 ^ 104) with (2 ^ 52 * 2 ^ 52) in HM.
    change (2 ^ 106) with (2 ^ 53 * 2 ^ 53) in HM.
    assert (0 <= q) by lia.
    split.
    - destruct (Z.le_gt_cases (2 ^ 52) q) as [|L]; [assumption|].
      assert ((q + 1) * (q + 1) <= 2 ^ 52 * 2 ^ 52) by (apply Z.mul_le_mono_nonneg; lia).
      lia.
    - destruct (Z.le_gt_cases (2 ^ 53) q) as [L|]; [|assumption].
      assert (2 ^ 53 * 2 ^ 53 <= q * q) by (apply Z.mul_le_mono_nonneg; lia).
      lia. }
  destruct q as [|q|q]; try lia.
  pose proof (Zdigits2_normal q Hq) as Dq.
  match goal with |- context [binary_round_aux _ _ false (Zpos q) e' ?l] =>
    destruct (binary_round_aux_normal q e' l) as (m & e & E & N & R & V) end;
    rewrite ?Dq; try lia.
  rewrite Dq in R.
  exists m, e. split; [exact E|]. split; [exact N|]. split; [lia|].
  intros x Hx0 Hx. apply V. unfold float_value in Hx.
  pose proof (pow2_pos e') as PE.
  assert (S1 : (IZR (Zpos m1) * powerRZ 2 e1
                = IZR M * (powerRZ 2 e' * powerRZ 2 e'))%R).
  { unfold M. rewrite <- pow2_add, value_shift by lia. f_equal. f_equal.
    unfold s. lia. }
  rewrite S1, SP in Hx. rewrite plus_IZR, mult_IZR in Hx.
  assert (R0 : (0 <= IZR r)%R) by (apply IZR_le; lia).
  assert (R1 : (IZR r <= 2 * IZR (Zpos q))%R)
    by (rewrite <- mult_IZR; apply IZR_le; lia).
  assert (Q0 : (0 < IZR (Zpos q))%R) by (apply IZR_lt; lia).
  rewrite plus_IZR.
  set (Q := IZR (Zpos q)) in *. set (U := powerRZ 2 e') in *.
  assert (UU : (0 < U * U)%R) by (apply Rmult_lt_0_compat; lra).
  assert (RU0 : (0 <= IZR r * (U * U))%R) by (apply Rmult_le_pos; lra).
  assert (RU1 : (IZR r * (U * U) <= 2 * Q * (U * U))%R)
    by (apply Rmult_le_compat_r; lra).
  split.
  - destruct (Rle_lt_dec (Q * U) x) as [|L]; [assumption|exfalso].
    assert (x * x < (Q * U) * (Q * U))%R
      by (apply Rmult_le_0_lt_compat; lra).
    lra.
  - destruct (Rle_lt_dec x ((Q + 1) * U)) as [|L]; [assumption|exfalso].
    assert (0 < (Q + 1) * U)%R by (apply Rmult_lt_0_compat; lra).
    assert (((Q + 1) * U) * ((Q + 1) * U) < x * x)%R
      by (apply Rmult_le_0_lt_compat; lra).
    lra.
Qed.

(** *** Comparison *)

Lemma pow2_le (a b : Z) : a <= b -> (powerRZ 2 a <= powerRZ 2 b)%R.
Proof.
  intros H. replace b with (a + (b - a)) by lia. rewrite pow2_add.
  rewrite <- (IZR_pow2 (b - a)) by lia.
  assert (1 <= IZR (2 ^ (b - a)))%R.
  { apply IZR_le. assert (0 < 2 ^ (b - a)) by (apply Z.pow_pos_nonneg; lia). lia. }
  pose proof (pow2_pos a). nra.
Qed.

Lemma float_value_bounds (m : positive) (e : Z) :
  normal_mantissa (Zpos m) ->
  (powerRZ 2 (e + 52) <= float_value m e < powerRZ 2 (e + 53))%R.
Proof.
  intros [A1 A2]. unfold float_value. pose proof (pow2_pos e).
  replace (powerRZ 2 (e + 52)) with (IZR (1 * 2 ^ 52) * powerRZ 2 e)%R
    by (rewrite value_shift by lia; simpl; ring).
  replace (powerRZ 2 (e + 53)) with (IZR (1 * 2 ^ 53) * powerRZ 2 e)%R
    by (rewrite value_shift by lia; simpl; ring).
  split.
  - apply Rmult_le_compat_r; [lra|]. apply IZR_le. lia.
  - apply Rmult_lt_compat_r; [lra|]. apply IZR_lt. lia.
Qed.

Lemma float_value_exp_lt (m1 m2 : positive) (e1 e2 : Z) :
  normal_mantissa (Zpos m1) -> normal_mantissa (Zpos m2) ->
  e1 < e2 -> (float_value m1 e1 < float_value m2 e2)%R.
Proof.
  intros N1 N2 He.
  pose proof (float_value_bounds m1 e1 N1) as [_ B1].
  pose proof (float_value_bounds m2 e2 N2) as [B2 _].
  assert (powerRZ 2 (e1 + 53) <= powerRZ 2 (e2 + 52))%R
    by (apply pow2_le; lia).
  lra.
Qed.

Lemma SFltb_normal (m1 m2 : positive) (e1 e2 : Z) :
  normal_mantissa (Zpos m1) -> normal_mantissa (Zpos m2) ->
  if SFltb (S754_finite false m1 e1) (S754_finite false m2 e2)
  then (float_value m1 e1 < float_value m2 e2)%R
  else (float_value m2 e2 <= float_value m1 e1)%R.
Proof.
  intros N1 N2. unfold SFltb, SFcompare.
  destruct (Z.compare_spec e1 e2) as [->|L|L].
  - change (Pos.compare_cont Eq m1 m2) with (Pos.compare m1 m2).
    unfold float_value. pose proof (pow2_pos e2).
    destruct (Pos.compare_spec m1 m2) as [->|L|L].
    + lra.
    + apply Rmult_lt_compat_r; [lra|]. apply IZR_lt. lia.
    + apply Rmult_le_compat_r; [lra|]. apply IZR_le. lia.
  - now apply float_value_exp_lt.
  - left. now apply float_value_exp_lt.
Qed.

(** *** Addition and subtraction *)

Lemma shl_align_fst (m : positive) (ex ey : Z) :
  ey <= ex -> Zpos (fst (shl_align m ex ey)) = Zpos m * 2 ^ (ex - ey).
Proof.
  intros H. unfold shl_align.
  destruct (ey - ex) as [|k|k] eqn:Ek; try lia; cbn [fst].
  - replace (ex - ey) with 0 by lia. lia.
  - rewrite iter_xO. f_equal. f_equal. lia.
Qed.

Lemma SFsub_normal (mx my : positive) (ex ey : Z) :
  normal_mantissa (Zpos mx) -> normal_mantissa (Zpos my) ->
  ey + 2 <= ex -> -1073 <= ex -> ex <= 970 ->
  exists m e,
    SF64sub (S754_finite false mx ex) (S754_finite false my ey)
    = S754_finite false m e
    /\ normal_mantissa (Zpos m)
    /\ ex - 1 <= e <= ex + 1
    /\ ((1 - rel_eps) * (float_value mx ex - float_value my ey)
        <= float_value m e
        <= (1 + rel_eps) * (float_value mx ex - float_value my ey))%R.
Proof.
  intros [A1 A2] [B1 B2] Hj Hlo Hhi. unfold SF64sub, SFsub.
  replace (Z.min ex ey) with ey by lia. cbn [cond_Zopp].
  rewrite (shl_align_fst mx ex ey) by lia.
  rewrite (shl_align_fst my ey ey) by lia.
  replace (ey - ey) with 0 by lia. rewrite Z.mul_1_r.
  set (j := ex - ey) in *.
  assert (J : 4 <= 2 ^ j).
  { change 4 with (2 ^ 2). apply Z.pow_le_mono_r; lia. }
  assert (P52 : 2 ^ (52 + j) = 2 ^ 52 * 2 ^ j) by (apply Z.pow_add_r; lia).
  assert (P53 : 2 ^ (53 + j) = 2 ^ 53 * 2 ^ j) by (apply Z.pow_add_r; lia).
  assert (P51 : 2 ^ (51 + j) = 2 ^ 51 * 2 ^ j) by (apply Z.pow_add_r; lia).
  change (2 ^ 52) with (2 * 2 ^ 51) in *. change (2 ^ 53) with (4 * 2 ^ 51) in *.
  assert (HD : 2 ^ (51 + j) <= Zpos mx * 2 ^ j - Zpos my < 2 ^ (53 + j)) by nia.
  destruct (Zpos mx * 2 ^ j - Zpos my) as [|D|D] eqn:ED; try lia.
  cbn [binary_normalize].
  pose proof (Zdigits2_ge D (52 + j) ltac:(lia)) as D1.
  replace (52 + j - 1) with (51 + j) in D1 by lia. specialize (D1 ltac:(lia)).
  pose proof (Zdigits2_le D (53 + j) ltac:(lia) ltac:(lia)) as D2.
  destruct (binary_round_normal D ey) as (m & e & E & N & R & V);
    try (unfold j in *; lia).
  exists m, e. split; [exact E|]. split; [exact N|].
  split; [unfold j in *; lia|].
  assert (X : (IZR (Zpos D) * powerRZ 2 ey
               = float_value mx ex - float_value my ey)%R).
  { rewrite <- ED. unfold float_value.
    rewrite minus_IZR, Rmult_minus_distr_r, value_shift by lia.
    f_equal. f_equal. f_equal. unfold j. lia. }
  rewrite <- X. exact V.
Qed.

Lemma SFadd_normal (mx my : positive) (ex ey : Z) :
  normal_mantissa (Zpos mx) -> normal_mantissa (Zpos my) ->
  ey <= ex -> -1074 <= ex -> ex <= 969 ->
  exists m e,
    SF64add (S754_finite false mx ex) (S754_finite false my ey)
    = S754_finite false m e
    /\ normal_mantissa (Zpos m)
    /\ ex <= e <= ex + 2
    /\ ((1 - rel_eps) * (float_value mx ex + float_value my ey)
        <= float_value m e
        <= (1 + rel_eps) * (float_value mx ex + float_value my ey))%R.
Proof.
  intros [A1 A2] [B1 B2] Hj Hlo Hhi. unfold SF64add, SFadd.
  replace (Z.min ex ey) with ey by lia. cbn [cond_Zopp].
  rewrite (shl_align_fst mx ex ey) by lia.
  rewrite (shl_align_fst my ey ey) by lia.
  replace (ey - ey) with 0 by lia. rewrite Z.mul_1_r.
  set (j := ex - ey) in *.
  assert (J : 1 <= 2 ^ j).
  { change 1 with (2 ^ 0). apply Z.pow_le_mono_r; lia. }
  assert (P52 : 2 ^ (52 + j) = 2 ^ 52 * 2 ^ j) by (apply Z.pow_add_r; lia).
  assert (P54 : 2 ^ (54 + j) = 2 ^ 54 * 2 ^ j) by (apply Z.pow_add_r; lia).
  change (2 ^ 54) with (4 * 2 ^ 52) in *. change (2 ^ 53) with (2 * 2 ^ 52) in *.
  assert (HD : 2 ^ (52 + j) <= Zpos mx * 2 ^ j + Zpos my < 2 ^ (54 + j)) by nia.
  destruct (Zpos mx * 2 ^ j + Zpos my) as [|D|D] eqn:ED; try lia.
  cbn [binary_normalize].
  pose proof (Zdigits2_ge D (53 + j) ltac:(lia)) as D1.
  replace (53 + j - 1) with (52 + j) in D1 by lia. specialize (D1 ltac:(lia)).
  pose proof (Zdigits2_le D (54 + j) ltac:(lia) ltac:(lia)) as D2.
  destruct (binary_round_normal D ey) as (m & e & E & N & R & V);
    try (unfold j in *; lia).
  exists m, e. split; [exact E|]. split; [exact N|].
  split; [unfold j in *; lia|].
  assert (X : (IZR (Zpos D) * powerRZ 2 ey
               = float_value mx ex + float_value my ey)%R).
  { rewrite <- ED. unfold float_value.
    rewrite plus_IZR, Rmult_plus_distr_r, value_shift by lia.
    f_equal. f_equal. f_equal. unfold j. lia. }
  rewrite <- X. exact V.
Qed.

(** *** The planner *)

Lemma eps_normal :
  Prim2SF eps = S754_finite false 4951760157141521 (-92)
  /\ normal_mantissa 4951760157141521.
Proof. split; [vm_compute; reflexivity|unfold normal_mantissa; lia]. Qed.

Lemma double_of_int_normal (z : Z) :
  1 <= z <= INT_MAX ->
  exists m e,
    Prim2SF (double_of_int z) = S754_finite false m e
    /\ normal_mantissa (Zpos m)
    /\ -52 <= e <= -21
    /\ ((1 - rel_eps) * IZR z <= float_value m e <= (1 + rel_eps) * IZR z)%R.
Proof.
  unfold INT_MAX. intros Hz. unfold double_of_int.
  destruct (Z.ltb_spec z 0); [lia|].
  destruct (of_uint63_normal z) as (m & e & E & N & R & V); [lia|].
  exists m, e. split; [exact E|]. split; [exact N|]. split; [|exact V].
  destruct z as [|p|p]; try lia.
  pose proof (Zdigits2_pos p).
  assert (Zdigits2 (Zpos p) <= 31) by (apply Zdigits2_le; lia).
  lia.
Qed.

Lemma ceil_int_normal (f : float) (m : positive) (e P : Z) :
  Prim2SF f = S754_finite false m e ->
  (float_value m e <= IZR P)%R ->
  exists c, ceil_int f = Ok c /\ 1 <= c <= P.
Proof.
  intros E V. unfold ceil_int. rewrite E. eexists. split; [reflexivity|].
  unfold float_value in V. pose proof (pow2_pos e) as PE.
  destruct (Z.ltb_spec e 0) as [L|L].
  - assert (K : 0 < 2 ^ (- e)) by (apply Z.pow_pos_nonneg; lia).
    assert (Zpos m <= P * 2 ^ (- e)).
    { apply le_IZR. rewrite mult_IZR, IZR_pow2 by lia.
      pose proof (pow2_pos (- e)) as PK.
      assert (I : (powerRZ 2 e * powerRZ 2 (- e) = 1)%R)
        by (rewrite <- pow2_add; replace (e + - e) with 0 by lia; reflexivity).
      replace (IZR (Zpos m))
        with (IZR (Zpos m) * powerRZ 2 e * powerRZ 2 (- e))%R
        by (rewrite Rmult_assoc, I; ring).
      apply Rmult_le_compat_r; lra. }
    assert (- Zpos m / 2 ^ (- e) < 0) by (apply Z.div_lt_upper_bound; lia).
    assert (- P <= - Zpos m / 2 ^ (- e)) by (apply Z.div_le_lower_bound; lia).
    change (Z.neg m) with (- Zpos m). lia.
  - assert (K : 0 < 2 ^ e) by (apply Z.pow_pos_nonneg; lia).
    split; [nia|]. apply le_IZR. rewrite mult_IZR, IZR_pow2 by lia. exact V.
Qed.

Lemma floor_int_normal (f : float) (m : positive) (e P : Z) :
  Prim2SF f = S754_finite false m e ->
  (float_value m e < IZR (P + 1))%R ->
  exists c, floor_int f = Ok c /\ 0 <= c <= P.
Proof.
  intros E V. unfold floor_int. rewrite E. eexists. split; [reflexivity|].
  unfold float_value in V. pose proof (pow2_pos e) as PE.
  destruct (Z.ltb_spec e 0) as [L|L].
  - assert (K : 0 < 2 ^ (- e)) by (apply Z.pow_pos_nonneg; lia).
    assert (Zpos m < (P + 1) * 2 ^ (- e)).
    { apply lt_IZR. rewrite mult_IZR, IZR_pow2 by lia.
      pose proof (pow2_pos (- e)) as PK.
      assert (I : (powerRZ 2 e * powerRZ 2 (- e) = 1)%R)
        by (rewrite <- pow2_add; replace (e + - e) with 0 by lia; reflexivity).
      replace (IZR (Zpos m))
        with (IZR (Zpos m) * powerRZ 2 e * powerRZ 2 (- e))%R
        by (rewrite Rmult_assoc, I; ring).
      apply Rmult_lt_compat_r; lra. }
    split; [apply Z.div_pos; lia|].
    assert (Zpos m / 2 ^ (- e) < P + 1) by (apply Z.div_lt_upper_bound; lia).
    lia.
  - assert (K : 0 < 2 ^ e) by (apply Z.pow_pos_nonneg; lia).
    split; [nia|].
    assert (Zpos m * 2 ^ e < P + 1); [|lia].
    apply lt_IZR. rewrite mult_IZR, IZR_pow2 by lia. exact V.
Qed.

(** The sides after the swap are two conversions, the smaller first. *)
Lemma planner_sides_normal (g : GenerateMesh) :
  1 <= global_nzones_x g <= INT_MAX -> 1 <= global_nzones_y g <= INT_MAX ->
  exists a b sw ma ea mb eb,
    planner_sides g = (a, b, sw)
    /\ Prim2SF a = S754_finite false ma ea /\ normal_mantissa (Zpos ma)
    /\ -52 <= ea <= -21
    /\ Prim2SF b = S754_finite false mb eb /\ normal_mantissa (Zpos mb)
    /\ -52 <= eb <= -21
    /\ (float_value ma ea <= float_value mb eb)%R.
Proof.
  intros Hx Hy. unfold planner_sides.
  destruct (double_of_int_normal _ Hx) as (mx & ex & Ex & Nx & Rx & _).
  destruct (double_of_int_normal _ Hy) as (my & ey & Ey & Ny & Ry & _).
  cbv zeta. rewrite FloatAxioms.ltb_spec, Ex, Ey.
  pose proof (SFltb_normal my mx ey ex Ny Nx) as C.
  destruct (SFltb _ _).
  - exists (double_of_int (global_nzones_y g)), (double_of_int (global_nzones_x g)),
      true, my, ey, mx, ex.
    split; [reflexivity|]. split; [assumption|]. split; [assumption|].
    split; [lia|]. split; [assumption|]. split; [assumption|].
    split; [lia|]. lra.
  - exists (double_of_int (global_nzones_x g)), (double_of_int (global_nzones_y g)),
      false, mx, ex, my, ey.
    split; [reflexivity|]. split; [assumption|]. split; [assumption|].
    split; [lia|]. split; [assumption|]. split; [assumption|].
    split; [lia|]. lra.
Qed.

Lemma ideal_split_normal (g : GenerateMesh) :
  1 <= num_subregions g <= INT_MAX ->
  1 <= global_nzones_x g <= INT_MAX -> 1 <= global_nzones_y g <= INT_MAX ->
  exists m e,
    Prim2SF (ideal_split g) = S754_finite false m e
    /\ normal_mantissa (Zpos m)
    /\ -68 <= e <= -19
    /\ (float_value m e * float_value m e
        <= (1 + rel_eps) * (1 + rel_eps) * (1 + rel_eps) * (1 + rel_eps)
           * (1 + rel_eps) * IZR (num_subregions g))%R.
Proof.
  intros HP Hx Hy. unfold ideal_split.
  destruct (planner_sides_normal g Hx Hy)
    as (a & b & sw & ma & ea & mb & eb & -> & Ea & Na & Ra & Eb & Nb & Rb & Hab).
  destruct (double_of_int_normal _ HP) as (mp & ep & Ep & Np & Rp & _ & Vp).
  rewrite FloatAxioms.sqrt_spec, FloatAxioms.div_spec, FloatAxioms.mul_spec, Ep, Ea, Eb.
  destruct (SFmul_normal mp ma ep ea Np Na) as (m1 & e1 & E1 & N1 & R1 & _ & V1);
    try lia.
  rewrite E1.
  destruct (SFdiv_normal m1 mb e1 eb N1 Nb) as (m2 & e2 & E2 & N2 & R2 & V2);
    try lia.
  rewrite E2.
  assert (H2 : -42 <= Z.div2 e2 <= 6)
    by (rewrite Z.div2_div; Z.div_mod_to_equations; lia).
  destruct (SFsqrt_normal m2 e2 N2) as (m3 & e3 & E3 & N3 & R3 & V3); try lia.
  exists m3, e3. split; [exact E3|]. split; [exact N3|]. split; [lia|].
  pose proof (float_value_pos ma ea) as Pa.
  pose proof (float_value_pos mb eb) as Pb.
  pose proof (float_value_pos mp ep) as Pp.
  pose proof (float_value_pos m1 e1) as P1.
  pose proof (float_value_pos m2 e2) as P2.
  pose proof (float_value_pos m3 e3) as P3.
  set (va := float_value ma ea) in *. set (vb := float_value mb eb) in *.
  set (vp := float_value mp ep) in *. set (v1 := float_value m1 e1) in *.
  set (v2 := float_value m2 e2) in *. set (v3 := float_value m3 e3) in *.
  set (c := (1 + rel_eps)%R) in *.
  assert (C1 : (1 < c)%R) by (unfold c, rel_eps; lra).
  set (PR := IZR (num_subregions g)) in *.
  assert (PR1 : (1 <= PR)%R) by (apply IZR_le; lia).
  specialize (V2 (v1 / vb)%R ltac:(field; lra)) as [_ V2].
  assert (S0 : (0 <= sqrt v2)%R) by (apply sqrt_pos).
  specialize (V3 (sqrt v2) S0 ltac:(apply sqrt_sqrt; lra)) as [_ V3].
  assert (SS : (sqrt v2 * sqrt v2 = v2)%R) by (apply sqrt_sqrt; lra).
  (* v1 <= c * vp * va <= c * c * PR * va *)
  assert (A1 : (v1 <= c * c * PR * vb)%R).
  { assert (vp * va <= c * PR * vb)%R by (apply Rmult_le_compat; lra).
    nra. }
  assert (A2 : (v1 / vb <= c * c * PR)%R).
  { apply (Rmult_le_reg_r vb); [lra|]. unfold Rdiv.
    rewrite Rmult_assoc, Rinv_l by lra. lra. }
  assert (A3 : (v2 <= c * c * c * PR)%R) by nra.
  assert (A4 : (v3 * v3 <= (c * sqrt v2) * (c * sqrt v2))%R)
    by (apply Rmult_le_compat; lra).
  replace ((c * sqrt v2) * (c * sqrt v2))%R
    with (c * c * (sqrt v2 * sqrt v2))%R in A4 by ring.
  rewrite SS in A4.
  assert (A5 : (c * c * v2 <= c * c * (c * c * c * PR))%R)
    by (apply Rmult_le_compat_l; nra).
  lra.
Qed.

Lemma eps_value_bounds :
  (/ 1099511627776 <= float_value 4951760157141521 (-92) < / 549755813888)%R.
Proof.
  pose proof (float_value_bounds 4951760157141521 (-92) (proj2 eps_normal))
    as [B1 B2].
  assert (I : forall k, 0 <= k -> powerRZ 2 (- k) = (/ IZR (2 ^ k))%R).
  { intros k Hk. pose proof (pow2_pos k) as Pk.
    apply (Rmult_eq_reg_r (powerRZ 2 k)); [|lra].
    rewrite <- pow2_add, IZR_pow2 by lia. replace (- k + k) with 0 by lia.
    rewrite Rinv_l; [reflexivity|]. rewrite <- IZR_pow2 by lia.
    apply not_0_IZR. assert (0 < 2 ^ k) by (apply Z.pow_pos_nonneg; lia). lia. }
  change (-92 + 52) with (Z.opp 40) in B1.
  change (-92 + 53) with (Z.opp 39) in B2.
  rewrite (I 40) in B1 by lia. rewrite (I 39) in B2 by lia.
  change (2 ^ 40) with 1099511627776 in B1.
  change (2 ^ 39) with 549755813888 in B2. lra.
Qed.

Lemma square_le_reg (a b : R) :
  (0 <= a)%R -> (0 <= b)%R -> (a * a <= b * b)%R -> (a <= b)%R.
Proof.
  intros Ha Hb H. destruct (Rle_lt_dec a b) as [|L]; [assumption|exfalso].
  assert (b * b < a * a)%R by (apply Rmult_le_0_lt_compat; lra). lra.
Qed.

(** The two roundings of the planner: for counts in the range of [int] the
    sum and the difference with [1e-12] are positive normal numbers, and
    both integers lie between 0 (1 for the ceiling) and the partition
    count. *)
Lemma planner_roundings (g : GenerateMesh) :
  1 <= num_subregions g <= INT_MAX ->
  1 <= global_nzones_x g <= INT_MAX -> 1 <= global_nzones_y g <= INT_MAX ->
  exists f c,
    floor_int (PrimFloat.add (ideal_split g) eps) = Ok f
    /\ ceil_int (PrimFloat.sub (ideal_split g) eps) = Ok c
    /\ 0 <= f <= num_subregions g
    /\ 1 <= c <= num_subregions g.
Proof.
  intros HP Hx Hy.
  destruct (ideal_split_normal g HP Hx Hy) as (mn & en & En & Nn & Rn & Vn).
  destruct eps_normal as [Ee Ne].
  pose proof eps_value_bounds as [Ve1 Ve2].
  destruct (SFadd_normal mn 4951760157141521 en (-92) Nn Ne)
    as (ma & ea & Ea & Na & Ra & _ & Va); try lia.
  destruct (SFsub_normal mn 4951760157141521 en (-92) Nn Ne)
    as (ms & es & Es & Ns & Rs & _ & Vs); try lia.
  pose proof (float_value_pos mn en) as Pn.
  set (vn := float_value mn en) in *.
  set (ve := float_value 4951760157141521 (-92)) in *.
  set (PR := IZR (num_subregions g)) in *.
  set (c := (1 + rel_eps)%R) in *.
  assert (C1 : (1 < c)%R) by (unfold c, rel_eps; lra).
  assert (C2 : (c <= 1 + / 4503599627370496)%R) by (unfold c, rel_eps; lra).
  assert (B : (c * (vn - ve) <= PR /\ c * (vn + ve) < PR + 1)%R).
  { destruct (Z.eq_dec (num_subregions g) 1) as [P1|P1].
    - assert (PR = 1%R) as -> by (unfold PR; now rewrite P1).
      rewrite Rmult_1_r in Vn.
      assert (vn <= c * c * c)%R.
      { apply square_le_reg; [lra|nra|].
        assert (c * c * c * c * c <= c * c * c * (c * c * c))%R; [|lra].
        assert (0 < c * c * c * c * c)%R by (repeat apply Rmult_lt_0_compat; lra).
        nra. }
      unfold c, rel_eps in *. split; nra. 
    - assert (P2 : (2 <= PR)%R) by (apply IZR_le; lia).
      assert (c * vn <= PR)%R.
      { apply square_le_reg; [nra|lra|].
        assert (C7 : (c * c * (c * c * c * c * c) <= 2)%R)
          by (unfold c, rel_eps; lra).
        assert ((c * vn) * (c * vn) <= c * c * (c * c * c * c * c * PR))%R.
        { replace ((c * vn) * (c * vn))%R with (c * c * (vn * vn))%R by ring.
          apply Rmult_le_compat_l; [nra|lra]. }
        assert (c * c * (c * c * c * c * c * PR) <= 2 * PR)%R.
        { replace (c * c * (c * c * c * c * c * PR))%R
            with (c * c * (c * c * c * c * c) * PR)%R by ring.
          apply Rmult_le_compat_r; lra. }
        assert (2 * PR <= PR * PR)%R by (apply Rmult_le_compat_r; lra).
        lra. }
      assert (c * ve < 1)%R by (unfold c, rel_eps in *; nra).
      split; nra. }
  destruct B as [B1 B2].
  destruct (floor_int_normal (PrimFloat.add (ideal_split g) eps) ma ea
              (num_subregions g)) as (f & Ef & Rf).
  { now rewrite FloatAxioms.add_spec, En, Ee. }
  { rewrite plus_IZR. fold PR. lra. }
  destruct (ceil_int_normal (PrimFloat.sub (ideal_split g) eps) ms es
              (num_subregions g)) as (k & Ek & Rk).
  { now rewrite FloatAxioms.sub_spec, En, Ee. }
  { fold PR. lra. }
  exists f, k. tauto.
Qed.

End PlannerRounding.

(** C3. For a partition count [P >= 1] and zone counts [nx, ny >= 1] (values
    of [int]), both divisor searches of [calcPartitions] end (some amount of
    fuel is enough) and the planner sets [num_proc_x] and [num_proc_y] with
    [num_proc_x * num_proc_y == P], [num_proc_x >= 1] and [num_proc_y >= 1].
    The starting points of the two searches come out of binary64 arithmetic:
    by [planner_roundings] the downward search starts inside [1, P] after the
    [max], and the upward one inside [1, P]. *)
Theorem calcPartitions_product (g : GenerateMesh) :
  1 <= num_subregions g <= INT_MAX ->
  1 <= global_nzones_x g <= INT_MAX -> 1 <= global_nzones_y g <= INT_MAX ->
  exists fuel g',
    calcPartitions fuel g = Ok g'
    /\ num_proc_x g' * num_proc_y g' = num_subregions g
    /\ 1 <= num_proc_x g' /\ 1 <= num_proc_y g'
    /\ num_subregions g' = num_subregions g.
Proof.
  intros HP Hx Hy.
  destruct (PlannerRounding.planner_roundings g HP Hx Hy)
    as (f & c & Hf & Hc & Hfr & Hrange).
  set (P := num_subregions g) in *.
  set (fuel := (Z.to_nat (Z.max f 1) + Z.to_nat P)%nat).
  destruct (search_down_terminates P fuel (Z.max f 1))
    as (n1 & Hn1 & Hn1r & Hn1d); [lia|lia|].
  destruct (search_up_terminates P fuel c)
    as (n2 & Hn2 & Hn2r & Hn2d); [lia|lia|].
  exists fuel. unfold calcPartitions.
  destruct (planner_sides g) as [[nx ny] swapflag] eqn:Hsides.
  fold P. rewrite Hf. cbn [bind]. rewrite Hn1. cbn [bind].
  rewrite Hc. cbn [bind]. rewrite Hn2. cbn [bind].
  unfold cdiv.
  destruct (Z.eqb_spec n1 0) as [|_]; [lia|].
  destruct (Z.eqb_spec n2 0) as [|_]; [lia|]. cbn [bind].
  set (px := NPX _ _ n1 n2).
  assert (Hpx : 1 <= px /\ Z.rem P px = 0).
  { unfold px, NPX. destruct (PrimFloat.leb _ _); split; auto; lia. }
  destruct Hpx as [Hpx1 Hpxd].
  destruct (Z.eqb_spec px 0) as [|_]; [lia|]. cbn [bind].
  pose proof (exact_quot P px Hpxd ltac:(lia)) as Hprod.
  assert (1 <= Z.quot P px) by nia.
  destruct swapflag; eexists; (split; [reflexivity|]);
    cbn [with_procs num_proc_x num_proc_y num_subregions];
    repeat split; auto; lia.
Qed.

Lemma calcPartitions_product_witness :
  exists fuel g',
    calcPartitions fuel (initial_mesh (mkInputParameters "rect" 6 4 12 0)) = Ok g'
    /\ num_proc_x g' * num_proc_y g' = 12
    /\ 1 <= num_proc_x g' /\ 1 <= num_proc_y g'
    /\ num_subregions g' = 12.
Proof.
  apply (calcPartitions_product
           (initial_mesh (mkInputParameters "rect" 6 4 12 0)));
    unfold INT_MAX; simpl; lia.
Defined.

(** ** Indexed writes *)

Lemma vset_length {A : Type} (v : list A) (i : Z) (x : A) :
  length (vset v i x) = length v.
Proof.
  unfold vset, vsize.
  destruct (Z.leb_spec 0 i); [|reflexivity].
  destruct (Z.ltb_spec i (Z.of_nat (length v))); [|reflexivity].
  cbn [andb]. rewrite length_app. cbn [length].
  rewrite length_firstn, length_skipn. lia.
Qed.

Lemma nth_update {A : Type} (v : list A) (n k : nat) (x d : A) :
  (n < length v)%nat ->
  nth k (firstn n v ++ x :: skipn (S n) v) d
  = if Nat.eqb k n then x else nth k v d.
Proof.
  revert n k. induction v as [|a v IH]; intros n k Hn; simpl in Hn; [lia|].
  destruct n as [|n]; destruct k as [|k]; try reflexivity.
  cbn [firstn skipn app nth Nat.eqb]. apply IH. lia.
Qed.

Lemma vget_vset_same (v : vec) (i x : Z) :
  0 <= i < vsize v -> vget (vset v i x) i = x.
Proof.
  intros Hi. unfold vget, vset, vsize in *.
  destruct (Z.leb_spec 0 i); [|lia].
  destruct (Z.ltb_spec i (Z.of_nat (length v))); [|lia].
  cbn [andb]. rewrite nth_update by lia. now rewrite Nat.eqb_refl.
Qed.

Lemma vget_vset_other (v : vec) (i j x : Z) :
  0 <= j -> i <> j -> vget (vset v i x) j = vget v j.
Proof.
  intros Hj Hne. unfold vget, vset, vsize.
  destruct (Z.leb_spec 0 i); [|reflexivity].
  destruct (Z.ltb_spec i (Z.of_nat (length v))); [|reflexivity].
  cbn [andb]. rewrite nth_update by lia.
  destruct (Nat.eqb_spec (Z.to_nat j) (Z.to_nat i)); [lia|reflexivity].
Qed.

Lemma scatter_length (pairs : list (Z * Z)) (v : vec) :
  length (scatter pairs v) = length v.
Proof.
  unfold scatter. revert v. induction pairs as [|p pairs IH]; intros v; simpl.
  - reflexivity.
  - now rewrite IH, vset_length.
Qed.

Lemma scatter_untouched (pairs : list (Z * Z)) (v : vec) (j : Z) :
  0 <= j -> ~ In j (map fst pairs) ->
  vget (scatter pairs v) j = vget v j.
Proof.
  unfold scatter. revert v. induction pairs as [|p pairs IH]; intros v Hj Hn.
  - reflexivity.
  - cbn [fold_left]. rewrite IH; [|exact Hj|].
    + apply vget_vset_other; [exact Hj|]. intros Heq. apply Hn. now left.
    + intros Hin. apply Hn. now right.
Qed.

(** With pairwise distinct, in-range targets every write is still visible at
    the end. *)
Lemma scatter_spec (pairs : list (Z * Z)) (v : vec) (i x : Z) :
  NoDup (map fst pairs) ->
  (forall p, In p pairs -> 0 <= fst p < vsize v) ->
  In (i, x) pairs ->
  vget (scatter pairs v) i = x.
Proof.
  revert v. induction pairs as [|p pairs IH]; intros v Hnd Hr Hin.
  - destruct Hin.
  - cbn [map] in Hnd. apply NoDup_cons_iff in Hnd. destruct Hnd as [Hfresh Hnd].
    destruct Hin as [->|Hin].
    + change (scatter ((i, x) :: pairs) v) with (scatter pairs (vset v i x)).
      pose proof (Hr (i, x) (or_introl eq_refl)) as Hi. cbn [fst] in Hi.
      rewrite scatter_untouched by (cbn [fst] in Hfresh; auto; lia).
      now apply vget_vset_same.
    + change (scatter (p :: pairs) v)
        with (scatter pairs (vset v (fst p) (snd p))).
      apply IH; [exact Hnd| |exact Hin].
      intros q Hq. unfold vsize. rewrite vset_length. apply Hr. now right.
Qed.

(** The marking loop of the permutation generator as a scatter: the cells in
    [order] receive [cnt], [cnt + 1], ... in turn. *)
Lemma assign_fold_scatter (order : list Z) (st : fill) :
  let st' := fold_left (fun s idx => assign idx s) order st in
  cells st'
  = scatter (combine order (zrange (cnt st) (cnt st + vsize order))) (cells st)
  /\ cnt st' = cnt st + vsize order.
Proof.
  revert st. induction order as [|idx order IH]; intros st; cbv zeta.
  - unfold vsize. simpl. split; [reflexivity|lia].
  - cbn [fold_left]. specialize (IH (assign idx st)). cbv zeta in IH.
    destruct IH as [Hc Hn]. rewrite Hc, Hn. unfold assign. cbn [cells cnt].
    split.
    + rewrite (zrange_cons (cnt st)) by (unfold vsize; simpl; lia).
      cbn [combine]. unfold scatter at 2. cbn [fold_left fst snd].
      unfold scatter. f_equal. f_equal. f_equal.
      unfold vsize. cbn [length]. lia.
    + unfold vsize. cbn [length]. lia.
Qed.

(** ** Permutations of an index range and their stored inverses *)

Lemma in_vget (p : vec) (x : Z) :
  In x p -> exists i, 0 <= i < vsize p /\ vget p i = x.
Proof.
  intros Hin. destruct (In_nth p x 0 Hin) as (k & Hk & Hnth).
  exists (Z.of_nat k). unfold vsize. rewrite vget_nat. split; [lia|exact Hnth].
Qed.

Lemma vget_in (p : vec) (i : Z) : 0 <= i < vsize p -> In (vget p i) p.
Proof. intros Hi. unfold vget, vsize in *. apply nth_In. lia. Qed.

Lemma map_vget_range (p : vec) : map (vget p) (zrange 0 (vsize p)) = p.
Proof.
  apply nth_ext with (d := vget p 0) (d' := 0).
  - rewrite length_map, length_zrange. unfold vsize. lia.
  - intros k Hk. rewrite length_map, length_zrange in Hk.
    rewrite map_nth, nth_zrange by exact Hk.
    unfold vget. f_equal. lia.
Qed.

(** Pigeonhole: a duplicate-free list of [N] indices below [N] contains
    every index below [N]. *)
Lemma bijection_on_surjective (p : vec) (N : Z) (x : Z) :
  bijection_on p N -> 0 <= x < N ->
  exists i, 0 <= i < N /\ vget p i = x.
Proof.
  intros (Hlen & Hnd & Hr) Hx.
  assert (Hincl : incl (zrange 0 N) p).
  { apply NoDup_length_incl; [exact Hnd| |].
    - rewrite length_zrange. unfold vsize in Hlen. lia.
    - intros y Hy. apply in_zrange. apply Hr in Hy. lia. }
  destruct (in_vget p x) as (i & Hi & Hv).
  - apply Hincl. apply in_zrange. lia.
  - exists i. split; [lia|exact Hv].
Qed.

Lemma bijection_on_injective (p : vec) (N : Z) (i j : Z) :
  bijection_on p N -> 0 <= i < N -> 0 <= j < N ->
  vget p i = vget p j -> i = j.
Proof.
  intros (Hlen & Hnd & _) Hi Hj Heq. unfold vget, vsize in *.
  assert (Z.to_nat i = Z.to_nat j); [|lia].
  apply (proj1 (NoDup_nth p 0) Hnd); [lia|lia|exact Heq].
Qed.

Lemma bijection_on_range (p : vec) (N : Z) (i : Z) :
  bijection_on p N -> 0 <= i < N -> 0 <= vget p i < N.
Proof.
  intros (Hlen & _ & Hr) Hi. apply Hr. apply vget_in. lia.
Qed.

(** Marking the cells of [order], a duplicate-free enumeration of all
    indices, with 0, 1, 2, ... yields the inverse enumeration. *)
Lemma mark_order_inverse (order : vec) (v0 : vec) (N : Z) :
  bijection_on order N -> vsize v0 = N ->
  let p := cells (fold_left (fun s idx => assign idx s) order
                    {| cells := v0; cnt := 0 |}) in
  bijection_on p N
  /\ (forall k, 0 <= k < N -> vget p (vget order k) = k)
  /\ (forall i, 0 <= i < N -> vget order (vget p i) = i).
Proof.
  intros Hord Hv0. cbv zeta.
  destruct (assign_fold_scatter order {| cells := v0; cnt := 0 |}) as [-> _].
  cbn [cells cnt]. rewrite Z.add_0_l.
  set (pairs := combine order (zrange 0 (vsize order))).
  destruct Hord as (Hlen & Hnd & Hr).
  assert (Hfst : map fst pairs = order).
  { unfold pairs. apply nth_ext with (d := fst (0, 0)) (d' := 0).
    - rewrite length_map, length_combine, length_zrange. unfold vsize. lia.
    - intros k Hk. rewrite map_nth, combine_nth; [reflexivity|].
      rewrite length_zrange. unfold vsize. lia. }
  assert (Hmark : forall k, 0 <= k < N -> vget (scatter pairs v0) (vget order k) = k).
  { intros k Hk. apply scatter_spec.
    - now rewrite Hfst.
    - intros q Hq. rewrite Hv0. apply Hr. rewrite <- Hfst.
      now apply in_map.
    - unfold pairs, vget.
      replace k with (nth (Z.to_nat k) (zrange 0 (vsize order)) 0) at 2
        by (rewrite nth_zrange; lia).
      rewrite <- combine_nth by (rewrite length_zrange; unfold vsize; lia).
      apply nth_In. rewrite length_combine, length_zrange.
      unfold vsize in *. lia. }
  assert (Hord : bijection_on order N) by exact (conj Hlen (conj Hnd Hr)).
  assert (Hinv : forall i, 0 <= i < N ->
            0 <= vget (scatter pairs v0) i < N
            /\ vget order (vget (scatter pairs v0) i) = i).
  { intros i Hi.
    destruct (bijection_on_surjective order N i Hord Hi) as (k & Hk & <-).
    rewrite Hmark by exact Hk. split; [exact Hk|reflexivity]. }
  split; [|split].
  - split; [|split].
    + unfold vsize in *. now rewrite scatter_length.
    + apply (proj2 (NoDup_nth (scatter pairs v0) 0)).
      rewrite scatter_length. intros a b Ha Hb Heq.
      unfold vsize in Hv0.
      destruct (Hinv (Z.of_nat a)) as [_ Ha']; [lia|].
      destruct (Hinv (Z.of_nat b)) as [_ Hb']; [lia|].
      rewrite vget_nat in Ha', Hb'. rewrite Heq in Ha'.
      rewrite Ha' in Hb'. lia.
    + intros x Hx. destruct (in_vget _ x Hx) as (i & Hi & <-).
      unfold vsize in Hi, Hv0. rewrite scatter_length in Hi.
      apply Hinv. lia.
  - exact Hmark.
  - intros i Hi. now apply Hinv.
Qed.

Lemma invert_into_scatter (p d : vec) :
  invert_into p d
  = scatter (map (fun i => (vget p i, i)) (zrange 0 (vsize p))) d.
Proof.
  unfold invert_into, scatter.
  rewrite (for_fold_map (fun (q : Z * Z) d' => vset d' (fst q) (snd q))
             (fun i => (vget p i, i))).
  reflexivity.
Qed.

(** The loop [d[p[i]] = i] stores the two-sided inverse of a bijection,
    whatever the storage held before. *)
Lemma invert_into_inverse (p d : vec) (N : Z) :
  bijection_on p N -> vsize d = N ->
  let q := invert_into p d in
  bijection_on q N
  /\ (forall i, 0 <= i < N -> vget q (vget p i) = i)
  /\ (forall i, 0 <= i < N -> vget p (vget q i) = i).
Proof.
  intros Hp Hd. cbv zeta. rewrite invert_into_scatter.
  set (pairs := map (fun i => (vget p i, i)) (zrange 0 (vsize p))).
  assert (Hfst : map fst pairs = p).
  { unfold pairs. rewrite map_map. cbn [fst]. apply map_vget_range. }
  pose proof Hp as (Hlen & Hnd & Hr).
  assert (Hleft : forall i, 0 <= i < N -> vget (scatter pairs d) (vget p i) = i).
  { intros i Hi. apply scatter_spec.
    - now rewrite Hfst.
    - intros q Hq. rewrite Hd. apply Hr. rewrite <- Hfst. now apply in_map.
    - unfold pairs. apply in_map_iff. exists i. split; [reflexivity|].
      apply in_zrange. lia. }
  assert (Hright : forall i, 0 <= i < N ->
            0 <= vget (scatter pairs d) i < N
            /\ vget p (vget (scatter pairs d) i) = i).
  { intros i Hi.
    destruct (bijection_on_surjective p N i Hp Hi) as (k & Hk & <-).
    rewrite Hleft by exact Hk. split; [exact Hk|reflexivity]. }
  split; [|split].
  - split; [|split].
    + unfold vsize in *. now rewrite scatter_length.
    + apply (proj2 (NoDup_nth (scatter pairs d) 0)).
      rewrite scatter_length. intros a b Ha Hb Heq.
      unfold vsize in Hd.
      destruct (Hright (Z.of_nat a)) as [_ Ha']; [lia|].
      destruct (Hright (Z.of_nat b)) as [_ Hb']; [lia|].
      rewrite vget_nat in Ha', Hb'. rewrite Heq in Ha'.
      rewrite Ha' in Hb'. lia.
    + intros x Hx. destruct (in_vget _ x Hx) as (i & Hi & <-).
      unfold vsize in Hi, Hd. rewrite scatter_length in Hi.
      apply Hright. lia.
  - exact Hleft.
  - intros i Hi. now apply Hright.
Qed.

(** ** The order in which [muPermutation] numbers the grid *)

Lemma mark_loop (npx : Z) (V : Z -> Z * Z) (lo hi : Z) (st : fill) :
  fold_left (fun s c => mark npx c s) (map V (zrange lo hi)) st
  = for_ lo hi (fun i => assign (linearize npx (fst (V i)) (snd (V i)))) st.
Proof. unfold for_. now rewrite fold_left_map. Qed.

Lemma mark_loop2 (npx : Z) (V : Z -> Z -> Z * Z) (lo hi lo' hi' : Z) (st : fill) :
  fold_left (fun s c => mark npx c s)
    (flat_map (fun j => map (V j) (zrange lo' hi')) (zrange lo hi)) st
  = for_ lo hi (fun j =>
      for_ lo' hi' (fun i =>
        assign (linearize npx (fst (V j i)) (snd (V j i))))) st.
Proof.
  symmetry. apply (for_fold_flat_map (mark npx)). intros j s' _.
  symmetry. apply mark_loop.
Qed.

Lemma mu_loops_order (npx wx wy nbx nby : Z) (st : fill) :
  for_ 0 nby (fun block_y =>
  for_ 0 nbx (fun block_x st =>
    let st :=
      if block_x =? 0
      then for_ 1 (wy + 1) (fun dy =>
             assign (linearize npx 0 (wy * block_y + dy))) st
      else st in
    let st :=
      if block_y =? 0
      then for_ 0 wx (fun dx =>
             assign (linearize npx (block_x * wx + 1 + dx) (wy * block_y))) st
      else st in
    let st :=
      for_ 0 wy (fun dy =>
        assign (linearize npx (wx * (block_x + 1)) (wy * block_y + 1 + dy))) st in
    let st :=
      for_ 0 (wx - 1) (fun dx =>
        assign (linearize npx (wx * block_x + 1 + dx) (wy * (block_y + 1)))) st in
    for_ 1 wy (fun dy =>
    for_ 1 wx (fun dx =>
      assign (linearize npx (wx * block_x + dx) (wy * block_y + dy)))) st)) st
  = fold_left (fun s c => mark npx c s) (blocks_cells wx wy nbx nby) st.
Proof.
  unfold blocks_cells. apply (for_fold_flat_map (mark npx)). intros cy s1 _.
  apply (for_fold_flat_map (mark npx)). intros cx s2 _.
  unfold block_cells. rewrite !fold_left_app. cbv zeta.
  rewrite (mark_loop2 npx (fun dy dx => (wx * cx + dx, wy * cy + dy))).
  rewrite !mark_loop.
  destruct (cx =? 0); destruct (cy =? 0); rewrite ?mark_loop; reflexivity.
Qed.

Lemma NoDup_flat_map_rel {A B : Type} (R : A -> B -> Prop) (F : A -> list B)
    (l : list A) :
  (forall a b, In a l -> In b (F a) -> R a b) ->
  (forall a a' b, In a l -> In a' l -> R a b -> R a' b -> a = a') ->
  NoDup l -> (forall a, In a l -> NoDup (F a)) ->
  NoDup (flat_map F l).
Proof.
  intros HR Huniq Hnd HF. induction Hnd as [|a l Hfresh Hnd IH]; cbn [flat_map].
  - constructor.
  - apply NoDup_app.
    + apply HF. now left.
    + apply IH.
      * intros a0 b Ha Hb. apply HR; [now right|exact Hb].
      * intros a0 a' b Ha Ha'. apply Huniq; now right.
      * intros a0 Ha. apply HF. now right.
    + intros b Hb Hin. apply in_flat_map in Hin. destruct Hin as (a' & Ha' & Hb').
      apply Hfresh.
      replace a with a'; [exact Ha'|].
      apply (Huniq a' a b); [now right|now left| |].
      * apply HR; [now right|exact Hb'].
      * apply HR; [now left|exact Hb].
Qed.

Ltac cell_facts :=
  repeat match goal with
  | H : In _ (_ ++ _) |- _ => apply in_app_or in H; destruct H as [H|H]
  | H : In _ (map _ _) |- _ =>
      apply in_map_iff in H; destruct H as (? & ? & H)
  | H : In _ (flat_map _ _) |- _ =>
      apply in_flat_map in H; destruct H as (? & ? & H)
  | H : In _ (zrange _ _) |- _ => apply in_zrange in H
  | H : In _ (if ?b then _ else _) |- _ => destruct b eqn:?
  | H : In _ [] |- _ => destruct H
  | H : (_, _) = (_, _) |- _ => inversion H; clear H; subst
  | H : (_ =? _) = true |- _ => apply Z.eqb_eq in H
  | H : (_ =? _) = false |- _ => apply Z.eqb_neq in H
  end.

Section Blocks.

Variables wx wy : Z.
Hypothesis Hwx : 1 <= wx.
Hypothesis Hwy : 1 <= wy.

(** Block [(cx, cy)] numbers the cells of the half-open rectangle to the
    right of and above its lower-left corner, plus, in the first block column
    and row, the cells on the two axes; it never numbers the origin. *)
Lemma block_cells_in (cx cy x y : Z) :
  0 <= cx -> 0 <= cy ->
  In (x, y) (block_cells wx wy cx cy) ->
  ((x = 0 /\ cx = 0) \/ wx * cx < x <= wx * cx + wx)
  /\ ((y = 0 /\ cy = 0) \/ wy * cy < y <= wy * cy + wy)
  /\ (x <> 0 \/ y <> 0).
Proof.
  intros Hcx Hcy Hin. unfold block_cells in Hin.
  assert (0 <= wx * cx) by nia. assert (0 <= wy * cy) by nia.
  cell_facts; lia.
Qed.

Lemma block_cells_NoDup (cx cy : Z) :
  0 <= cx -> 0 <= cy -> NoDup (block_cells wx wy cx cy).
Proof.
  intros Hcx Hcy. unfold block_cells.
  assert (0 <= wx * cx) by nia. assert (0 <= wy * cy) by nia.
  assert (Hpiece : forall (f : Z -> Z * Z) lo hi,
            (forall a b, f a = f b -> a = b) -> NoDup (map f (zrange lo hi))).
  { intros f lo hi Hinj. apply Injective_map_NoDup; [exact Hinj|].
    apply NoDup_zrange. }
  repeat apply NoDup_app;
    try (destruct (cx =? 0) eqn:?); try (destruct (cy =? 0) eqn:?);
    try apply NoDup_nil;
    try (apply Hpiece; intros a b E; inversion E; lia);
    try (intros [x y] H1 H2; cell_facts; lia).
  all: apply (NoDup_flat_map_rel (fun dy c => snd c = wy * cy + dy));
    [ intros a [x y] Ha Hb; cell_facts; reflexivity
    | intros a a' b _ _ E1 E2; lia
    | apply NoDup_zrange
    | intros a _; apply Hpiece; intros u v E; inversion E; lia ].
Qed.

Lemma block_cells_length (cx cy : Z) :
  vsize (block_cells wx wy cx cy)
  = wx * wy + (if cx =? 0 then wy else 0) + (if cy =? 0 then wx else 0).
Proof.
  unfold block_cells. rewrite !vsize_app.
  assert (Hmid : vsize (flat_map (fun dy =>
                   map (fun dx => (wx * cx + dx, wy * cy + dy)) (zrange 1 wx))
                   (zrange 1 wy)) = (wy - 1) * (wx - 1)).
  { unfold vsize. rewrite (flat_map_constant_length (c := Z.to_nat (wx - 1))).
    - rewrite length_zrange. nia.
    - intros x _. now rewrite length_map, length_zrange. }
  rewrite Hmid.
  destruct (cx =? 0); destruct (cy =? 0); unfold vsize;
    rewrite ?length_map, ?length_zrange; cbn [length]; nia.
Qed.

Lemma row_cells_length (cy : Z) (n : nat) :
  vsize (flat_map (fun cx => block_cells wx wy cx cy) (zrange 0 (Z.of_nat n)))
  = Z.of_nat n * (wx * wy) + (if Nat.eqb n 0 then 0 else wy)
    + (if cy =? 0 then Z.of_nat n * wx else 0).
Proof.
  induction n as [|n IH].
  - simpl. destruct (cy =? 0); reflexivity.
  - replace (Z.of_nat (S n)) with (Z.of_nat n + 1) by lia.
    rewrite zrange_snoc by lia. rewrite flat_map_app, vsize_app, IH.
    cbn [flat_map]. rewrite app_nil_r, block_cells_length.
    destruct n as [|n].
    + change (Z.of_nat 0) with 0. cbn [Nat.eqb Z.eqb].
      destruct (cy =? 0); lia.
    + destruct (Z.eqb_spec (Z.of_nat (S n)) 0) as [|_]; [lia|].
      cbn [Nat.eqb]. destruct (cy =? 0); lia.
Qed.

Lemma blocks_cells_length (nbx : Z) (m : nat) :
  1 <= nbx ->
  vsize (blocks_cells wx wy nbx (Z.of_nat m))
  = Z.of_nat m * (nbx * wx * wy + wy) + (if Nat.eqb m 0 then 0 else nbx * wx).
Proof.
  intros Hnbx. unfold blocks_cells.
  assert (Hrow : forall cy,
            vsize (flat_map (fun cx => block_cells wx wy cx cy) (zrange 0 nbx))
            = nbx * (wx * wy) + wy + (if cy =? 0 then nbx * wx else 0)).
  { intros cy. pose proof (row_cells_length cy (Z.to_nat nbx)) as H.
    rewrite Z2Nat.id in H by lia.
    destruct (Nat.eqb_spec (Z.to_nat nbx) 0) as [|_]; [lia|]. exact H. }
  induction m as [|m IH].
  - reflexivity.
  - replace (Z.of_nat (S m)) with (Z.of_nat m + 1) by lia.
    rewrite zrange_snoc by lia. rewrite flat_map_app, vsize_app, IH.
    cbn [flat_map]. rewrite app_nil_r, Hrow.
    destruct m as [|m].
    + change (Z.of_nat 0) with 0. cbn [Nat.eqb Z.eqb]. lia.
    + destruct (Z.eqb_spec (Z.of_nat (S m)) 0) as [|_]; [lia|].
      cbn [Nat.eqb]. lia.
Qed.

Lemma blocks_cells_in (nbx nby x y : Z) :
  In (x, y) (blocks_cells wx wy nbx nby) ->
  0 <= x <= wx * nbx /\ 0 <= y <= wy * nby /\ (x <> 0 \/ y <> 0).
Proof.
  intros Hin. unfold blocks_cells in Hin.
  apply in_flat_map in Hin. destruct Hin as (cy & Hcy & Hin).
  apply in_flat_map in Hin. destruct Hin as (cx & Hcx & Hin).
  apply in_zrange in Hcy, Hcx.
  apply block_cells_in in Hin; [|lia|lia].
  assert (0 <= wx * cx) by nia. assert (0 <= wy * cy) by nia.
  assert (wx * cx + wx <= wx * nbx) by nia.
  assert (wy * cy + wy <= wy * nby) by nia.
  lia.
Qed.

Lemma blocks_cells_NoDup (nbx nby : Z) : NoDup (blocks_cells wx wy nbx nby).
Proof.
  unfold blocks_cells.
  apply (NoDup_flat_map_rel
           (fun cy c => (snd c = 0 /\ cy = 0)
                        \/ wy * cy < snd c <= wy * cy + wy)).
  - intros cy [x y] Hcy Hin. apply in_zrange in Hcy.
    apply in_flat_map in Hin. destruct Hin as (cx & Hcx & Hin).
    apply in_zrange in Hcx. apply block_cells_in in Hin; [|lia|lia].
    cbn [snd]. tauto.
  - intros cy cy' [x y] Hcy Hcy' H1 H2. apply in_zrange in Hcy, Hcy'.
    cbn [snd] in *. nia.
  - apply NoDup_zrange.
  - intros cy Hcy. apply in_zrange in Hcy.
    apply (NoDup_flat_map_rel
             (fun cx c => (fst c = 0 /\ cx = 0)
                          \/ wx * cx < fst c <= wx * cx + wx)).
    + intros cx [x y] Hcx Hin. apply in_zrange in Hcx.
      apply block_cells_in in Hin; [|lia|lia]. cbn [fst]. tauto.
    + intros cx cx' [x y] Hcx Hcx' H1 H2. apply in_zrange in Hcx, Hcx'.
      cbn [fst] in *. nia.
    + apply NoDup_zrange.
    + intros cx Hcx. apply in_zrange in Hcx. apply block_cells_NoDup; lia.
Qed.

(** The numbering order visits every point of the grid exactly once. *)
Lemma mu_order_bijection (nbx nby : Z) :
  1 <= nbx -> 1 <= nby ->
  bijection_on (mu_order (wx * nbx + 1) wx wy nbx nby)
    ((wx * nbx + 1) * (wy * nby + 1)).
Proof.
  intros Hnbx Hnby. unfold mu_order, mu_cells. split; [|split].
  - unfold vsize. rewrite length_map. cbn [length].
    pose proof (blocks_cells_length nbx (Z.to_nat nby) Hnbx) as Hlen.
    rewrite Z2Nat.id in Hlen by lia. unfold vsize in Hlen.
    destruct (Nat.eqb_spec (Z.to_nat nby) 0) as [|_]; [lia|]. nia.
  - apply Injective_map_NoDup_in.
    + intros [x y] [x' y'] Hc Hc' Heq. unfold linearize in Heq. cbn [fst snd] in Heq.
      assert (Hr : forall a b, In (a, b) ((0, 0) :: blocks_cells wx wy nbx nby) ->
                0 <= a <= wx * nbx /\ 0 <= b <= wy * nby).
      { intros a b [E|Hin]; [inversion E; nia|].
        apply blocks_cells_in in Hin. lia. }
      apply Hr in Hc, Hc'.
      assert (y = y') by nia. subst y'. f_equal. lia.
    + constructor; [|apply blocks_cells_NoDup].
      intros Hin. apply blocks_cells_in in Hin. lia.
  - intros i Hi. apply in_map_iff in Hi. destruct Hi as ([x y] & <- & Hin).
    unfold linearize. cbn [fst snd].
    assert (0 <= x <= wx * nbx /\ 0 <= y <= wy * nby) as [Hx Hy].
    { destruct Hin as [E|Hin]; [inversion E; nia|].
      apply blocks_cells_in in Hin. lia. }
    nia.
Qed.

End Blocks.

(** ** [muPermutation] and [calcLocalConstants] *)

Lemma muPermutation_marks (npx npy nbx nby : Z) :
  nbx <> 0 -> nby <> 0 ->
  let wx := Z.quot (npx - 1) nbx in
  let wy := Z.quot (npy - 1) nby in
  let st := fold_left (fun s idx => assign idx s) (mu_order npx wx wy nbx nby)
              {| cells := repeat 0 (Z.to_nat (npx * npy)); cnt := 0 |} in
  muPermutation npx npy nbx nby
  = (assert ((wx * nbx + 1 =? npx) || (nbx =? 1)) ;;;
     assert ((wy * nby + 1 =? npy) || (nby =? 1)) ;;;
     assert (cnt st =? npx * npy) ;;;
     Ok (cells st)).
Proof.
  intros Hx Hy. cbv zeta. unfold muPermutation, cdiv.
  destruct (Z.eqb_spec nbx 0) as [|_]; [contradiction|].
  destruct (Z.eqb_spec nby 0) as [|_]; [contradiction|].
  cbn [bind]. cbv zeta. rewrite mu_loops_order.
  unfold mu_order, mu_cells. cbn [map fold_left].
  rewrite fold_left_map. reflexivity.
Qed.

Lemma muPermutation_divides (npx npy nbx nby : Z) (p : vec) :
  1 <= nbx -> 1 <= nby ->
  muPermutation npx npy nbx nby = Ok p ->
  npx = Z.quot (npx - 1) nbx * nbx + 1 /\ npy = Z.quot (npy - 1) nby * nby + 1.
Proof.
  intros Hx Hy. rewrite muPermutation_marks by lia. cbv zeta.
  unfold assert.
  destruct (Z.eqb_spec (Z.quot (npx - 1) nbx * nbx + 1) npx) as [Ex|_];
    destruct (Z.eqb_spec nbx 1) as [E1|_]; cbn [orb bind];
    try discriminate;
    destruct (Z.eqb_spec (Z.quot (npy - 1) nby * nby + 1) npy) as [Ey|_];
    destruct (Z.eqb_spec nby 1) as [E2|_]; cbn [orb bind];
    try discriminate; intros _; subst;
    rewrite ?Z.quot_1_r in *; split; lia.
Qed.

Lemma muPermutation_ok (wx wy nbx nby : Z) :
  1 <= wx -> 1 <= wy -> 1 <= nbx -> 1 <= nby ->
  let npx := wx * nbx + 1 in
  let npy := wy * nby + 1 in
  muPermutation npx npy nbx nby = Ok (mu_array npx npy wx wy nbx nby)
  /\ bijection_on (mu_array npx npy wx wy nbx nby) (npx * npy).
Proof.
  intros Hwx Hwy Hx Hy. cbv zeta.
  pose proof (mu_order_bijection wx wy Hwx Hwy nbx nby Hx Hy) as Hord.
  set (npx := wx * nbx + 1) in *. set (npy := wy * nby + 1) in *.
  assert (Hqx : Z.quot (npx - 1) nbx = wx).
  { unfold npx. replace (wx * nbx + 1 - 1) with (wx * nbx) by lia.
    apply Z.quot_mul. lia. }
  assert (Hqy : Z.quot (npy - 1) nby = wy).
  { unfold npy. replace (wy * nby + 1 - 1) with (wy * nby) by lia.
    apply Z.quot_mul. lia. }
  rewrite muPermutation_marks by lia. cbv zeta. rewrite Hqx, Hqy.
  destruct (assign_fold_scatter (mu_order npx wx wy nbx nby)
              {| cells := repeat 0 (Z.to_nat (npx * npy)); cnt := 0 |})
    as [_ Hcnt]. cbn [cnt] in Hcnt.
  destruct Hord as (Hlen & Hnd & Hr).
  rewrite Hcnt, Hlen. unfold assert.
  fold npx. fold npy. rewrite !Z.eqb_refl. cbn [orb bind].
  split; [reflexivity|].
  apply mark_order_inverse.
  - exact (conj Hlen (conj Hnd Hr)).
  - unfold vsize. rewrite repeat_length. unfold npx, npy. nia.
Qed.

Lemma reserved_size (raw : nat -> Z) (n : nat) : vsize (reserved raw n) = Z.of_nat n.
Proof. unfold reserved, vsize. now rewrite length_map, length_seq. Qed.

Lemma bind_ok {A B : Type} (m : outcome A) (k : A -> outcome B) (b : B) :
  bind m k = Ok b -> exists a, m = Ok a /\ k a = Ok b.
Proof. destruct m; simpl; try discriminate. intros H. eauto. Qed.

(** If [calcLocalConstants] returns on a configuration with positive zone
    and processor counts, the object it leaves behind is [constructed] and
    keeps the configuration. *)
Lemma calcLocalConstants_constructed (raw_g raw_l : nat -> Z)
    (g : GenerateMesh) (color : Z) (g' : GenerateMesh) :
  1 <= global_nzones_x g -> 1 <= global_nzones_y g ->
  1 <= num_proc_x g -> 1 <= num_proc_y g ->
  calcLocalConstants raw_g raw_l g color = Ok g' ->
  constructed g'
  /\ meshtype g' = meshtype g
  /\ global_nzones_x g' = global_nzones_x g
  /\ global_nzones_y g' = global_nzones_y g
  /\ num_subregions g' = num_subregions g
  /\ num_proc_x g' = num_proc_x g /\ num_proc_y g' = num_proc_y g
  /\ my_color g' = color.
Proof.
  intros Hgx Hgy Hpx Hpy. unfold calcLocalConstants, cdiv, cmod.
  destruct (Z.eqb_spec (num_proc_x g) 0) as [|_]; [lia|].
  destruct (Z.eqb_spec (num_proc_y g) 0) as [|_]; [lia|].
  cbn [bind]. cbv zeta. intros H.
  apply bind_ok in H. destruct H as (gp & Hgp & H).
  apply bind_ok in H. destruct H as (lp & Hlp & H).
  injection H as <-.
  pose proof (muPermutation_divides _ _ _ _ _ Hpx Hpy Hgp) as [Dx Dy].
  replace (global_nzones_x g + 1 - 1) with (global_nzones_x g) in Dx by lia.
  replace (global_nzones_y g + 1 - 1) with (global_nzones_y g) in Dy by lia.
  set (wx := Z.quot (global_nzones_x g) (num_proc_x g)) in *.
  set (wy := Z.quot (global_nzones_y g) (num_proc_y g)) in *.
  assert (Ex : global_nzones_x g = wx * num_proc_x g) by lia.
  assert (Ey : global_nzones_y g = wy * num_proc_y g) by lia.
  assert (Hwx : 1 <= wx) by nia. assert (Hwy : 1 <= wy) by nia.
  assert (Qx : forall k, Z.quot (k * global_nzones_x g) (num_proc_x g) = k * wx).
  { intros k. rewrite Ex, Z.mul_assoc. apply Z.quot_mul. lia. }
  assert (Qy : forall k, Z.quot (k * global_nzones_y g) (num_proc_y g) = k * wy).
  { intros k. rewrite Ey, Z.mul_assoc. apply Z.quot_mul. lia. }
  rewrite !Qx, !Qy in *.
  set (pix := Z.rem color (num_proc_x g)) in *.
  set (piy := Z.quot color (num_proc_x g)) in *.
  replace ((pix + 1) * wx - pix * wx) with wx in * by lia.
  replace ((piy + 1) * wy - piy * wy) with wy in * by lia.
  (* the global permutation *)
  destruct (muPermutation_ok wx wy (num_proc_x g) (num_proc_y g))
    as [Hg_eq Hg_bij]; try lia.
  cbv zeta in Hg_eq, Hg_bij. rewrite <- Ex, <- Ey in Hg_eq, Hg_bij.
  rewrite Hgp in Hg_eq. injection Hg_eq as Hg_eq.
  (* the local permutation *)
  destruct (muPermutation_ok wx wy 1 1) as [Hl_eq Hl_bij]; try lia.
  cbv zeta in Hl_eq, Hl_bij. rewrite !Z.mul_1_r in Hl_eq, Hl_bij.
  rewrite Hlp in Hl_eq. injection Hl_eq as Hl_eq.
  rewrite <- Hg_eq in Hg_bij. rewrite <- Hl_eq in Hl_bij.
  assert (Hg_len : Z.of_nat (length gp)
                   = (global_nzones_x g + 1) * (global_nzones_y g + 1))
    by (destruct Hg_bij as [Hl _]; exact Hl).
  assert (Hl_len : Z.of_nat (length lp) = (wx + 1) * (wy + 1))
    by (destruct Hl_bij as [Hl _]; exact Hl).
  destruct (invert_into_inverse gp (reserved raw_g (length gp)) _ Hg_bij)
    as (_ & Hg1 & Hg2); [now rewrite reserved_size|].
  destruct (invert_into_inverse lp (reserved raw_l (length lp)) _ Hl_bij)
    as (_ & Hl1 & Hl2); [now rewrite reserved_size|].
  split; [|repeat split; reflexivity].
  constructor;
    cbn [nzones_x nzones_y num_proc_x num_proc_y global_nzones_x
         global_nzones_y proc_index_x proc_index_y my_color zone_x_offset
         zone_y_offset num_zones num_points_x num_points_y perm deperm
         global_perm global_deperm];
    auto; lia.
Qed.

(** [calcLocalConstants] returns whenever the processor grid divides the
    global zone counts. *)
Lemma calcLocalConstants_returns (raw_g raw_l : nat -> Z)
    (g : GenerateMesh) (color wx wy : Z) :
  1 <= wx -> 1 <= wy -> 1 <= num_proc_x g -> 1 <= num_proc_y g ->
  global_nzones_x g = wx * num_proc_x g ->
  global_nzones_y g = wy * num_proc_y g ->
  exists g', calcLocalConstants raw_g raw_l g color = Ok g'.
Proof.
  intros Hwx Hwy Hpx Hpy Ex Ey. unfold calcLocalConstants, cdiv, cmod.
  destruct (Z.eqb_spec (num_proc_x g) 0) as [|_]; [lia|].
  destruct (Z.eqb_spec (num_proc_y g) 0) as [|_]; [lia|].
  cbn [bind]. cbv zeta.
  assert (Qx : forall k, Z.quot (k * global_nzones_x g) (num_proc_x g) = k * wx).
  { intros k. rewrite Ex, Z.mul_assoc. apply Z.quot_mul. lia. }
  assert (Qy : forall k, Z.quot (k * global_nzones_y g) (num_proc_y g) = k * wy).
  { intros k. rewrite Ey, Z.mul_assoc. apply Z.quot_mul. lia. }
  rewrite !Qx, !Qy.
  set (pix := Z.rem color (num_proc_x g)).
  set (piy := Z.quot color (num_proc_x g)).
  replace ((pix + 1) * wx - pix * wx) with wx by lia.
  replace ((piy + 1) * wy - piy * wy) with wy by lia.
  destruct (muPermutation_ok wx wy (num_proc_x g) (num_proc_y g))
    as [Hg_eq _]; try lia.
  cbv zeta in Hg_eq. rewrite <- Ex, <- Ey in Hg_eq. rewrite Hg_eq. cbn [bind].
  destruct (muPermutation_ok wx wy 1 1) as [Hl_eq _]; try lia.
  cbv zeta in Hl_eq. rewrite !Z.mul_1_r in Hl_eq. rewrite Hl_eq. cbn [bind].
  eexists. reflexivity.
Qed.

(** C2. On a configuration with positive zone and processor counts, once
    [calcLocalConstants] has returned, [perm] holds every index of
    [0 .. num_points_x * num_points_y - 1] exactly once and the stored
    [deperm] is its two-sided inverse on that range; likewise [global_perm]
    and [global_deperm] over the [(global_nzones_x + 1) *
    (global_nzones_y + 1)] points of the global grid.  This holds whatever
    the reserved storage of the inverses contained beforehand. *)
Theorem calcLocalConstants_permutations (raw_g raw_l : nat -> Z)
    (g : GenerateMesh) (color : Z) (g' : GenerateMesh) :
  1 <= global_nzones_x g -> 1 <= global_nzones_y g ->
  1 <= num_proc_x g -> 1 <= num_proc_y g ->
  calcLocalConstants raw_g raw_l g color = Ok g' ->
  let N := num_points_x g' * num_points_y g' in
  let G := (global_nzones_x g + 1) * (global_nzones_y g + 1) in
  (bijection_on (perm g') N
   /\ forall i, 0 <= i < N ->
        vget (perm g') (vget (deperm g') i) = i
        /\ vget (deperm g') (vget (perm g') i) = i)
  /\ (bijection_on (global_perm g') G
      /\ forall i, 0 <= i < G ->
           vget (global_perm g') (vget (global_deperm g') i) = i
           /\ vget (global_deperm g') (vget (global_perm g') i) = i).
Proof.
  intros Hgx Hgy Hpx Hpy Hcalc. cbv zeta.
  destruct (calcLocalConstants_constructed _ _ _ _ _ Hgx Hgy Hpx Hpy Hcalc)
    as (C & _ & Egx & Egy & _).
  rewrite <- Egx, <- Egy.
  split; split.
  - apply (c_perm _ C).
  - intros i Hi. destruct (c_deperm _ C i Hi). auto.
  - apply (c_gperm _ C).
  - intros i Hi. destruct (c_gdeperm _ C i Hi). auto.
Qed.

Lemma calcLocalConstants_permutations_witness :
  exists g',
    calcLocalConstants (fun _ => 7) (fun k => Z.of_nat k)
      (with_procs 2 1 (initial_mesh (mkInputParameters "rect" 4 2 2 1))) 1
    = Ok g'
    /\ (bijection_on (perm g') (num_points_x g' * num_points_y g')
        /\ forall i, 0 <= i < num_points_x g' * num_points_y g' ->
             vget (perm g') (vget (deperm g') i) = i
             /\ vget (deperm g') (vget (perm g') i) = i)
    /\ (bijection_on (global_perm g') ((4 + 1) * (2 + 1))
        /\ forall i, 0 <= i < (4 + 1) * (2 + 1) ->
             vget (global_perm g') (vget (global_deperm g') i) = i
             /\ vget (global_deperm g') (vget (global_perm g') i) = i).
Proof.
  eexists. split; [vm_compute; reflexivity|].
  apply (calcLocalConstants_permutations (fun _ => 7) (fun k => Z.of_nat k)
           (with_procs 2 1 (initial_mesh (mkInputParameters "rect" 4 2 2 1))) 1);
    try (simpl; lia).
  vm_compute. reflexivity.
Defined.

(** ** Halo loops *)

Lemma strided_loop {St : Type} (push : Z -> St -> St) (skip : Z -> bool)
    (val : Z -> Z) (d : Z) (k : nat) (s : St) (p0 : Z) :
  for_ 0 (Z.of_nat k)
    (fun j '(s', p) => if skip j then (s', p + d) else (push (val p) s', p + d))
    (s, p0)
  = (fold_left (fun s' x => push x s')
       (flat_map (fun j => if skip j then [] else [val (p0 + j * d)])
          (zrange 0 (Z.of_nat k))) s,
     p0 + Z.of_nat k * d).
Proof.
  induction k as [|k IH].
  - cbn. f_equal. lia.
  - replace (Z.of_nat (S k)) with (Z.of_nat k + 1) by lia.
    rewrite for_snoc, IH by lia. rewrite zrange_snoc by lia.
    rewrite flat_map_app, fold_left_app. cbn [flat_map].
    destruct (skip (Z.of_nat k)); cbn [app fold_left]; f_equal; lia.
Qed.

Lemma strided_loop_fst {St : Type} (push : Z -> St -> St) (skip : Z -> bool)
    (val : Z -> Z) (d hi : Z) (s : St) (p0 : Z) :
  fst (for_ 0 hi
         (fun j '(s', p) =>
            if skip j then (s', p + d) else (push (val p) s', p + d))
         (s, p0))
  = fold_left (fun s' x => push x s')
      (flat_map (fun j => if skip j then [] else [val (p0 + j * d)])
         (zrange 0 hi)) s.
Proof.
  destruct (Z.le_gt_cases hi 0) as [Hle|Hgt].
  - rewrite for_nil, zrange_nil by lia. reflexivity.
  - replace hi with (Z.of_nat (Z.to_nat hi)) by lia.
    now rewrite strided_loop.
Qed.

Lemma push_slaved_points (l : vec) (a b c d e f : vec) :
  fold_left (fun h x => push_slaved_point x h) l (mkHalo a b c d e f)
  = mkHalo a b (c ++ l) d e f.
Proof.
  revert c. induction l as [|x l IH]; intros c; cbn [fold_left].
  - now rewrite app_nil_r.
  - unfold push_slaved_point at 2, push_back. cbn. rewrite IH.
    now rewrite <- app_assoc.
Qed.

Lemma push_master_points (l : vec) (a b c d e f : vec) :
  fold_left (fun h x => push_master_point x h) l (mkHalo a b c d e f)
  = mkHalo a b c d e (f ++ l).
Proof.
  revert f. induction l as [|x l IH]; intros f; cbn [fold_left].
  - now rewrite app_nil_r.
  - unfold push_master_point at 2, push_back. cbn. rewrite IH.
    now rewrite <- app_assoc.
Qed.

(** ** The blocks of the rect enumerator *)

Lemma rect_slave_lower_left_spec (g : GenerateMesh) (a b c d e f : vec) :
  rect_slave_lower_left g (mkHalo a b c d e f)
  = if (0 <? proc_index_x g) && (0 <? proc_index_y g)
    then mkHalo (a ++ [my_color g - num_proc_x g - 1]) (b ++ [1])
           (c ++ [vget (perm g) 0]) d e f
    else mkHalo a b c d e f.
Proof.
  unfold rect_slave_lower_left.
  destruct ((0 <? proc_index_x g) && (0 <? proc_index_y g)); reflexivity.
Qed.

Lemma rect_slave_below_spec (g : GenerateMesh) (a b c d e f : vec) :
  rect_slave_below g (mkHalo a b c d e f)
  = if 0 <? proc_index_y g
    then
      let l := flat_map (fun i =>
                 if (i =? 0) && negb (proc_index_x g =? 0) then []
                 else [vget (perm g) (0 + i * 1)]) (zrange 0 (num_points_x g)) in
      mkHalo (a ++ [my_color g - num_proc_x g]) (b ++ [vsize l]) (c ++ l) d e f
    else mkHalo a b c d e f.
Proof.
  unfold rect_slave_below. destruct (0 <? proc_index_y g); [|reflexivity].
  cbv zeta.
  match goal with |- context [for_ ?lo ?hi ?body ?s] =>
    destruct (for_ lo hi body s) as [h' p'] eqn:E end.
  apply (f_equal fst) in E.
  rewrite (strided_loop_fst push_slaved_point
             (fun i => (i =? 0) && negb (proc_index_x g =? 0))
             (vget (perm g)) 1) in E.
  rewrite push_slaved_points in E. cbn [fst] in E. subst h'.
  unfold push_slaved_count, push_master_color, push_back.
  cbn [master_colors slaved_points_counts slaved_points slave_colors
       master_points_counts master_points].
  rewrite vsize_app. do 3 f_equal. lia.
Qed.

Lemma rect_slave_left_spec (g : GenerateMesh) (a b c d e f : vec) :
  rect_slave_left g (mkHalo a b c d e f)
  = if 0 <? proc_index_x g
    then
      let l := flat_map (fun j =>
                 if (j =? 0) && negb (proc_index_y g =? 0) then []
                 else [vget (perm g) (0 + j * num_points_x g)])
                 (zrange 0 (num_points_y g)) in
      mkHalo (a ++ [my_color g - 1]) (b ++ [vsize l]) (c ++ l) d e f
    else mkHalo a b c d e f.
Proof.
  unfold rect_slave_left. destruct (0 <? proc_index_x g); [|reflexivity].
  cbv zeta.
  match goal with |- context [for_ ?lo ?hi ?body ?s] =>
    destruct (for_ lo hi body s) as [h' p'] eqn:E end.
  apply (f_equal fst) in E.
  rewrite (strided_loop_fst push_slaved_point
             (fun j => (j =? 0) && negb (proc_index_y g =? 0))
             (vget (perm g)) (num_points_x g)) in E.
  rewrite push_slaved_points in E. cbn [fst] in E. subst h'.
  unfold push_slaved_count, push_master_color, push_back.
  cbn [master_colors slaved_points_counts slaved_points slave_colors
       master_points_counts master_points].
  rewrite vsize_app. do 3 f_equal. lia.
Qed.

Lemma rect_master_right_spec (g : GenerateMesh) (a b c d e f : vec) :
  rect_master_right g (mkHalo a b c d e f)
  = if proc_index_x g <? num_proc_x g - 1
    then
      let l := flat_map (fun j =>
                 if (j =? 0) && negb (proc_index_y g =? 0) then []
                 else [vget (perm g) (num_points_x g - 1 + j * num_points_x g)])
                 (zrange 0 (num_points_y g)) in
      mkHalo a b c (d ++ [my_color g + 1]) (e ++ [vsize l]) (f ++ l)
    else mkHalo a b c d e f.
Proof.
  unfold rect_master_right.
  destruct (proc_index_x g <? num_proc_x g - 1); [|reflexivity].
  cbv zeta.
  match goal with |- context [for_ ?lo ?hi ?body ?s] =>
    destruct (for_ lo hi body s) as [h' p'] eqn:E end.
  apply (f_equal fst) in E.
  rewrite (strided_loop_fst push_master_point
             (fun j => (j =? 0) && negb (proc_index_y g =? 0))
             (vget (perm g)) (num_points_x g)) in E.
  rewrite push_master_points in E. cbn [fst] in E. subst h'.
  unfold push_master_count, push_slave_color, push_back.
  cbn [master_colors slaved_points_counts slaved_points slave_colors
       master_points_counts master_points].
  rewrite vsize_app. do 3 f_equal. lia.
Qed.

(** The two later master blocks only append to the three master vectors. *)
Lemma rect_master_above_appends (g : GenerateMesh) (a b c d e f : vec) :
  exists d' e' f',
    rect_master_above g (mkHalo a b c d e f)
    = mkHalo a b c (d ++ d') (e ++ e') (f ++ f').
Proof.
  unfold rect_master_above.
  destruct (proc_index_y g <? num_proc_y g - 1).
  - cbv zeta.
    match goal with |- context [for_ ?lo ?hi ?body ?s] =>
      destruct (for_ lo hi body s) as [h' p'] eqn:E end.
    apply (f_equal fst) in E.
    rewrite (strided_loop_fst push_master_point
               (fun i => (i =? 0) && (0 <? proc_index_x g))
               (vget (perm g)) 1) in E.
    rewrite push_master_points in E. cbn [fst] in E. subst h'.
    unfold push_master_count, push_slave_color, push_back.
    cbn [master_colors slaved_points_counts slaved_points slave_colors
         master_points_counts master_points].
    eexists _, _, _. reflexivity.
  - exists [], [], []. now rewrite !app_nil_r.
Qed.

Lemma rect_master_upper_right_appends (g : GenerateMesh) (a b c d e f : vec) :
  exists d' e' f',
    rect_master_upper_right g (mkHalo a b c d e f)
    = mkHalo a b c (d ++ d') (e ++ e') (f ++ f').
Proof.
  unfold rect_master_upper_right.
  destruct ((proc_index_x g <? num_proc_x g - 1)
            && (proc_index_y g <? num_proc_y g - 1)).
  - eexists _, _, _. reflexivity.
  - exists [], [], []. now rewrite !app_nil_r.
Qed.

Lemma rect_master_rest_appends (g : GenerateMesh) (a b c d e f : vec) :
  exists d' e' f',
    rect_master_upper_right g (rect_master_above g (mkHalo a b c d e f))
    = mkHalo a b c (d ++ d') (e ++ e') (f ++ f').
Proof.
  destruct (rect_master_above_appends g a b c d e f) as (d1 & e1 & f1 & ->).
  destruct (rect_master_upper_right_appends g a b c (d ++ d1) (e ++ e1) (f ++ f1))
    as (d2 & e2 & f2 & ->).
  exists (d1 ++ d2), (e1 ++ e2), (f1 ++ f2). now rewrite !app_assoc.
Qed.

(** ** Cross-rank consistency of the rect halo *)

Lemma pointLocalToGlobalIDRect_raster (g : GenerateMesh) (i j : Z) :
  constructed g ->
  0 <= i < num_points_x g -> 0 <= j < num_points_y g ->
  pointLocalToGlobalIDRect g (vget (perm g) (j * num_points_x g + i))
  = Ok (vget (global_perm g)
          ((global_nzones_x g + 1) * (j + zone_y_offset g) + i
           + zone_x_offset g)).
Proof.
  intros C Hi Hj. unfold pointLocalToGlobalIDRect.
  destruct (c_deperm g C (j * num_points_x g + i)) as [-> _]; [nia|].
  unfold cdiv. destruct (Z.eqb_spec (num_points_x g) 0) as [|_]; [lia|].
  cbn [bind].
  assert (Hq : Z.quot (j * num_points_x g + i) (num_points_x g) = j).
  { rewrite Z.quot_div_nonneg by nia.
    rewrite Z.div_add_l by lia. rewrite Z.div_small by lia. lia. }
  rewrite Hq. do 2 f_equal. lia.
Qed.

Lemma flat_map_singleton {A B : Type} (f : A -> B) (l : list A) :
  flat_map (fun x => [f x]) l = map f l.
Proof. induction l as [|x l IH]; simpl; congruence. Qed.

Lemma firstn_vsize_app (l r : vec) : firstn (Z.to_nat (vsize l)) (l ++ r) = l.
Proof.
  unfold vsize. rewrite Nat2Z.id, firstn_app, Nat.sub_diag, firstn_all.
  cbn [firstn]. now rewrite app_nil_r.
Qed.

Lemma vget_map_range (f : Z -> Z) (n k : Z) :
  0 <= k < n -> vget (map f (zrange 0 n)) k = f k.
Proof.
  intros Hk. unfold vget.
  rewrite nth_indep with (d' := f 0) by (rewrite length_map, length_zrange; lia).
  rewrite map_nth, nth_zrange by lia. f_equal. lia.
Qed.

(** C1. On a 2 x 2 processor grid over a rect mesh whose zone counts are
    even, the rank at grid position (0, 0) and the rank at (1, 0) agree on
    their shared column: the list rank (0, 0) reports as master points for
    its right neighbour and the list rank (1, 0) reports as slaved points of
    its left neighbour have the same length (one entry per point row), and
    position by position the two local indices have the same global ID under
    the respective rank's [pointLocalToGlobalID]. *)
Theorem rect_halo_right_left_consistent
    (raw_g0 raw_l0 raw_g1 raw_l1 : nat -> Z)
    (xStart yStart nprev : GenerateMesh -> Z -> Z)
    (g : GenerateMesh) (a b : Z) :
  meshtype g = "rect"%string ->
  num_subregions g = 4 -> num_proc_x g = 2 -> num_proc_y g = 2 ->
  1 <= a -> 1 <= b ->
  global_nzones_x g = a * 2 -> global_nzones_y g = b * 2 ->
  exists g0 g1 h0 h1 masters slaves,
    calcLocalConstants raw_g0 raw_l0 g 0 = Ok g0
    /\ calcLocalConstants raw_g1 raw_l1 g 1 = Ok g1
    /\ (proc_index_x g0, proc_index_y g0) = (0, 0)
    /\ (proc_index_x g1, proc_index_y g1) = (1, 0)
    /\ generateHaloPoints g0 empty_halo = Ok h0
    /\ generateHaloPoints g1 empty_halo = Ok h1
    /\ halo_segment (my_color g1) (slave_colors h0) (master_points_counts h0)
         (master_points h0) = Some masters
    /\ halo_segment (my_color g0) (master_colors h1) (slaved_points_counts h1)
         (slaved_points h1) = Some slaves
    /\ vsize masters = b + 1
    /\ vsize slaves = vsize masters
    /\ forall k, 0 <= k < vsize masters ->
         exists id,
           pointLocalToGlobalID xStart yStart nprev g0 (vget masters k) = Ok id
           /\ pointLocalToGlobalID xStart yStart nprev g1 (vget slaves k) = Ok id.
Proof.
  intros Hmt Hns Hpx Hpy Ha Hb Hgx Hgy.
  destruct (calcLocalConstants_returns raw_g0 raw_l0 g 0 a b) as [g0 E0];
    try lia.
  destruct (calcLocalConstants_returns raw_g1 raw_l1 g 1 a b) as [g1 E1];
    try lia.
  destruct (calcLocalConstants_constructed raw_g0 raw_l0 g 0 g0)
    as (C0 & Mt0 & Gx0 & Gy0 & Ns0 & Px0 & Py0 & Col0);
    [lia | lia | lia | lia | exact E0 |].
  destruct (calcLocalConstants_constructed raw_g1 raw_l1 g 1 g1)
    as (C1 & Mt1 & Gx1 & Gy1 & Ns1 & Px1 & Py1 & Col1);
    [lia | lia | lia | lia | exact E1 |].
  (* the fields of the two ranks *)
  pose proof (c_pix _ C0) as Pix0. pose proof (c_piy _ C0) as Piy0.
  pose proof (c_pix _ C1) as Pix1. pose proof (c_piy _ C1) as Piy1.
  rewrite Col0, Px0, Hpx in Pix0, Piy0. rewrite Col1, Px1, Hpx in Pix1, Piy1.
  change (Z.rem 0 2) with 0 in Pix0. change (Z.quot 0 2) with 0 in Piy0.
  change (Z.rem 1 2) with 1 in Pix1. change (Z.quot 1 2) with 0 in Piy1.
  assert (Nx0 : nzones_x g0 = a) by (pose proof (c_gnx _ C0); lia).
  assert (Ny0 : nzones_y g0 = b) by (pose proof (c_gny _ C0); lia).
  assert (Nx1 : nzones_x g1 = a) by (pose proof (c_gnx _ C1); lia).
  assert (Ny1 : nzones_y g1 = b) by (pose proof (c_gny _ C1); lia).
  pose proof (c_ptx _ C0) as Ptx0. pose proof (c_pty _ C0) as Pty0.
  pose proof (c_ptx _ C1) as Ptx1. pose proof (c_pty _ C1) as Pty1.
  pose proof (c_zx _ C0) as Zx0. pose proof (c_zy _ C0) as Zy0.
  pose proof (c_zx _ C1) as Zx1. pose proof (c_zy _ C1) as Zy1.
  assert (Hgp : global_perm g0 = global_perm g1).
  { pose proof (c_gperm_eq _ C0) as G0. pose proof (c_gperm_eq _ C1) as G1.
    rewrite Gx0, Gy0, Px0, Py0 in G0. rewrite Gx1, Gy1, Px1, Py1 in G1.
    congruence. }
  set (masters := map (fun j => vget (perm g0)
                                  (num_points_x g0 - 1 + j * num_points_x g0))
                    (zrange 0 (num_points_y g0))).
  set (slaves := map (fun j => vget (perm g1) (0 + j * num_points_x g1))
                   (zrange 0 (num_points_y g1))).
  (* the enumeration on rank (0, 0) *)
  assert (H0 : exists d' e' f',
            generateHaloPoints g0 empty_halo
            = Ok (mkHalo [] [] [] ([my_color g0 + 1] ++ d')
                    ([vsize masters] ++ e') (masters ++ f'))).
  { unfold generateHaloPoints. rewrite Mt0, Hmt. cbn [String.eqb Ascii.eqb Bool.eqb].
    unfold generateHaloPointsRect. rewrite Ns0, Hns. cbv zeta.
    change (4 =? 1) with false. cbv iota. unfold empty_halo.
    rewrite rect_slave_lower_left_spec, Pix0, Piy0.
    change ((0 <? 0) && (0 <? 0)) with false. cbv iota.
    rewrite rect_slave_below_spec, Piy0. change (0 <? 0) with false. cbv iota.
    rewrite rect_slave_left_spec, Pix0. change (0 <? 0) with false. cbv iota.
    rewrite rect_master_right_spec, Pix0, Piy0, Px0, Hpx.
    change (0 <? 2 - 1) with true. cbv iota zeta.
    rewrite (flat_map_ext_range _
               (fun j => [vget (perm g0)
                            (num_points_x g0 - 1 + j * num_points_x g0)]))
      by (intros j _; now rewrite andb_false_r).
    rewrite flat_map_singleton. fold masters.
    destruct (rect_master_rest_appends g0 [] [] [] ([] ++ [my_color g0 + 1])
                ([] ++ [vsize masters]) ([] ++ masters))
      as (d' & e' & f' & ->).
    exists d', e', f'. reflexivity. }
  (* the enumeration on rank (1, 0) *)
  assert (H1 : exists d' e' f',
            generateHaloPoints g1 empty_halo
            = Ok (mkHalo [my_color g1 - 1] [vsize slaves] slaves d' e' f')).
  { unfold generateHaloPoints. rewrite Mt1, Hmt. cbn [String.eqb Ascii.eqb Bool.eqb].
    unfold generateHaloPointsRect. rewrite Ns1, Hns. cbv zeta.
    change (4 =? 1) with false. cbv iota. unfold empty_halo.
    rewrite rect_slave_lower_left_spec, Pix1, Piy1.
    change ((0 <? 1) && (0 <? 0)) with false. cbv iota.
    rewrite rect_slave_below_spec, Piy1. change (0 <? 0) with false. cbv iota.
    rewrite rect_slave_left_spec, Pix1, Piy1. change (0 <? 1) with true.
    cbv iota zeta.
    rewrite (flat_map_ext_range _
               (fun j => [vget (perm g1) (0 + j * num_points_x g1)]))
      by (intros j _; now rewrite andb_false_r).
    rewrite flat_map_singleton. fold slaves.
    rewrite rect_master_right_spec, Pix1, Px1, Hpx.
    change (1 <? 2 - 1) with false. cbv iota.
    destruct (rect_master_rest_appends g1 ([] ++ [my_color g1 - 1])
                ([] ++ [vsize slaves]) ([] ++ slaves) [] [] [])
      as (d' & e' & f' & ->).
    exists d', e', f'. reflexivity. }
  destruct H0 as (d0 & e0 & f0 & H0). destruct H1 as (d1 & e1 & f1 & H1).
  assert (Lm : vsize masters = b + 1).
  { unfold masters, vsize. rewrite length_map, length_zrange. lia. }
  assert (Ls : vsize slaves = b + 1).
  { unfold slaves, vsize. rewrite length_map, length_zrange. lia. }
  eexists g0, g1, _, _, masters, slaves.
  split; [exact E0|]. split; [exact E1|].
  split; [now rewrite Pix0, Piy0|]. split; [now rewrite Pix1, Piy1|].
  split; [exact H0|]. split; [exact H1|].
  cbn [slave_colors master_points_counts master_points master_colors
       slaved_points_counts slaved_points app].
  rewrite Col0, Col1. cbn [halo_segment].
  change (0 + 1 =? 1) with true. change (1 - 1 =? 0) with true. cbv iota.
  split; [now rewrite firstn_vsize_app|].
  split; [f_equal; rewrite <- (app_nil_r slaves) at 2; apply firstn_vsize_app|].
  split; [exact Lm|]. split; [lia|].
  intros k Hk. rewrite Lm in Hk.
  unfold pointLocalToGlobalID. rewrite Mt0, Mt1, Hmt.
  cbn [String.eqb Ascii.eqb Bool.eqb].
  unfold masters, slaves. rewrite !vget_map_range by lia.
  replace (num_points_x g0 - 1 + k * num_points_x g0)
    with (k * num_points_x g0 + (num_points_x g0 - 1)) by lia.
  replace (0 + k * num_points_x g1) with (k * num_points_x g1 + 0) by lia.
  rewrite !pointLocalToGlobalIDRect_raster by (assumption || lia).
  eexists. split; [reflexivity|].
  rewrite Hgp. do 2 f_equal. rewrite Gx0, Gx1. nia.
Qed.

Lemma rect_halo_right_left_consistent_witness :
  exists g0 g1 h0 h1 masters slaves,
    calcLocalConstants (fun _ => 0) (fun _ => 1)
      (with_procs 2 2 (initial_mesh (mkInputParameters "rect" 4 6 4 0))) 0
    = Ok g0
    /\ calcLocalConstants (fun _ => 2) (fun _ => 3)
         (with_procs 2 2 (initial_mesh (mkInputParameters "rect" 4 6 4 0))) 1
       = Ok g1
    /\ (proc_index_x g0, proc_index_y g0) = (0, 0)
    /\ (proc_index_x g1, proc_index_y g1) = (1, 0)
    /\ generateHaloPoints g0 empty_halo = Ok h0
    /\ generateHaloPoints g1 empty_halo = Ok h1
    /\ halo_segment (my_color g1) (slave_colors h0) (master_points_counts h0)
         (master_points h0) = Some masters
    /\ halo_segment (my_color g0) (master_colors h1) (slaved_points_counts h1)
         (slaved_points h1) = Some slaves
    /\ vsize masters = 3 + 1
    /\ vsize slaves = vsize masters
    /\ forall k, 0 <= k < vsize masters ->
         exists id,
           pointLocalToGlobalID (fun _ z => z) (fun _ z => z) (fun _ z => z)
             g0 (vget masters k) = Ok id
           /\ pointLocalToGlobalID (fun _ z => z) (fun _ z => z) (fun _ z => z)
                g1 (vget slaves k) = Ok id.
Proof.
  apply (rect_halo_right_left_consistent
           (fun _ => 0) (fun _ => 1) (fun _ => 2) (fun _ => 3)
           (fun _ z => z) (fun _ z => z) (fun _ z => z)
           (with_procs 2 2 (initial_mesh (mkInputParameters "rect" 4 6 4 0)))
           2 3); try reflexivity; lia.
Defined.

(** C5, counterexample.  The 3 x 3 hex mesh on a single partition: the zone
    sizes are 5 along the boundary, 4 in the bottom-right and top-left
    corners and 6 in the middle, so sizes other than 3, 4 and 6 occur and no
    corner zone is a triangle. *)
Lemma hex_zonesize_counterexample :
  exists g,
    construct 4 (fun _ => 0) (fun _ => 0) (mkInputParameters "hex" 3 3 1 0)
    = Ok g
    /\ zonesize (generateHex g empty_mesh) = [5; 5; 4; 5; 6; 5; 4; 5; 5]
    /\ ~ (forall z, 0 <= z < num_zones g ->
            let s := vget (zonesize (generateHex g empty_mesh)) z in
            s = 3 \/ s = 4 \/ s = 6)
    /\ vget (zonesize (generateHex g empty_mesh)) 0 <> 3
    /\ vget (zonesize (generateHex g empty_mesh)) 2 <> 3
    /\ vget (zonesize (generateHex g empty_mesh)) 6 <> 3
    /\ vget (zonesize (generateHex g empty_mesh)) 8 <> 3.
Proof.
  eexists. split; [vm_compute; reflexivity|].
  split; [vm_compute; reflexivity|].
  split.
  - intros H.
    match type of H with
    | forall z, 0 <= z < ?n -> _ =>
        assert (R : 0 <= 0 < n) by (vm_compute; split; congruence)
    end.
    destruct (H 0 R) as [E|[E|E]]; vm_compute in E; discriminate.
  - repeat apply conj; intros E; vm_compute in E; discriminate.
Qed.


(** ** Sums and indexed loop invariants *)

Lemma zsum_app (a b : vec) : zsum (a ++ b) = zsum a + zsum b.
Proof. induction a as [|x a IH]; simpl; lia. Qed.

Lemma zsum_const (c : Z -> Z) (k : Z) (l : vec) :
  (forall x, In x l -> c x = k) -> zsum (map c l) = k * vsize l.
Proof.
  unfold vsize. induction l as [|x l IH]; intros H.
  - simpl. lia.
  - cbn [map zsum fold_right length]. fold (zsum (map c l)).
    rewrite IH by (intros y Hy; apply H; now right).
    rewrite (H x) by now left. lia.
Qed.

Lemma zsum_lower (c : Z -> Z) (k : Z) (l : vec) :
  (forall x, In x l -> k <= c x) -> k * vsize l <= zsum (map c l).
Proof.
  unfold vsize. induction l as [|x l IH]; intros H.
  - simpl. lia.
  - cbn [map zsum fold_right length]. fold (zsum (map c l)).
    pose proof (IH (fun y Hy => H y (or_intror Hy))).
    pose proof (H x (or_introl eq_refl)). lia.
Qed.

Lemma for_add (c : Z -> Z) (lo hi np : Z) :
  for_ lo hi (fun i acc => acc + c i) np = np + zsum (map c (zrange lo hi)).
Proof.
  unfold for_. revert np. induction (zrange lo hi) as [|x l IH]; intros np.
  - simpl. lia.
  - cbn [fold_left map zsum fold_right]. rewrite IH.
    fold (zsum (map c l)). lia.
Qed.

(** Loop invariant rule with the loop index in the invariant. *)
Lemma for_invariant_idx {St : Type} (I : Z -> St -> Prop) (lo hi : Z)
    (body : Z -> St -> St) (s : St) :
  lo <= hi -> I lo s ->
  (forall i s', lo <= i < hi -> I i s' -> I (i + 1) (body i s')) ->
  I hi (for_ lo hi body s).
Proof.
  intros Hle H0 Hstep.
  replace hi with (lo + Z.of_nat (Z.to_nat (hi - lo))) by lia.
  assert (Hk : (Z.to_nat (hi - lo) <= Z.to_nat (hi - lo))%nat) by lia.
  revert Hk. generalize (Z.to_nat (hi - lo)) at 1 3 4 as k.
  induction k as [|k IH]; intros Hk.
  - rewrite Z.add_0_r, for_nil by lia. exact H0.
  - replace (lo + Z.of_nat (S k)) with (lo + Z.of_nat k + 1) by lia.
    rewrite for_snoc by lia. apply Hstep; [lia|]. apply IH. lia.
Qed.

(** ** Point counts of the hex layout *)

Lemma hex_row_base_step (g : GenerateMesh) (j : Z) :
  0 <= j -> hex_row_base g (j + 1) = hex_row_base g j + hex_row_points g j.
Proof.
  intros Hj. unfold hex_row_base. rewrite zrange_snoc by lia.
  rewrite map_app, zsum_app. simpl. lia.
Qed.

Lemma hex_row_points_lower (g : GenerateMesh) (j : Z) :
  0 <= num_points_x g -> num_points_x g <= hex_row_points g j.
Proof.
  intros Hn. unfold hex_row_points.
  pose proof (zsum_lower (hex_points_at g j) 1 (zrange 0 (num_points_x g))) as H.
  unfold vsize in H. rewrite length_zrange in H.
  rewrite Z2Nat.id in H by lia. rewrite Z.sub_0_r in H.
  etransitivity; [|apply H].
  - lia.
  - intros x _. unfold hex_points_at. cbv zeta.
    repeat match goal with |- context [if ?b then _ else _] => destruct b end;
      lia.
Qed.

Lemma hex_row_base_mono (g : GenerateMesh) (j j' : Z) :
  0 <= num_points_x g -> 0 <= j <= j' ->
  hex_row_base g j <= hex_row_base g j'.
Proof.
  intros Hn Hj.
  replace j' with (j + Z.of_nat (Z.to_nat (j' - j))) by lia.
  induction (Z.to_nat (j' - j)) as [|k IH].
  - rewrite Z.add_0_r. lia.
  - replace (j + Z.of_nat (S k)) with (j + Z.of_nat k + 1) by lia.
    rewrite hex_row_base_step by lia.
    pose proof (hex_row_points_lower g (j + Z.of_nat k) Hn). lia.
Qed.

Lemma hex_count_spec (g : GenerateMesh) :
  0 <= num_points_y g ->
  fst (hex_count g) = hex_row_base g (num_points_y g)
  /\ forall j, 0 <= j < num_points_y g ->
       vget (snd (hex_count g)) j = hex_row_base g j.
Proof.
  intros Hn. unfold hex_count.
  pose proof (for_invariant_idx
    (fun k (st : Z * vec) =>
       fst st = hex_row_base g k
       /\ vsize (snd st) = num_points_y g
       /\ forall j, 0 <= j < k -> vget (snd st) j = hex_row_base g j)
    0 (num_points_y g)) as Hinv.
  cbv beta in Hinv.
  match goal with |- context [for_ 0 (num_points_y g) ?body ?s] =>
    specialize (Hinv body s Hn) end.
  destruct Hinv as (H1 & _ & H3).
  - cbn [fst snd]. split; [reflexivity|]. split.
    + unfold vsize. rewrite repeat_length. lia.
    + intros j Hj. lia.
  - intros k [np pb] Hk (Hnp & Hlen & Hpb). cbn [fst snd] in *. cbv zeta.
    split; [|split].
    + rewrite hex_row_base_step by lia. rewrite <- Hnp.
      unfold hex_row_points. rewrite <- for_add. apply for_ext.
      intros i acc _. unfold hex_points_at. cbv zeta.
      repeat match goal with |- context [if ?b then _ else _] => destruct b end;
        reflexivity.
    + unfold vsize. rewrite vset_length. exact Hlen.
    + intros j Hj. destruct (Z.eq_dec j k) as [->|Hne].
      * rewrite vget_vset_same by lia. exact Hnp.
      * rewrite vget_vset_other by lia. apply Hpb. lia.
  - split; [exact H1|exact H3].
Qed.

(** ** Slave relations of an interior rank *)

Lemma strided_from {St : Type} (push : Z -> St -> St) (val : Z -> Z)
    (d lo : Z) (k : nat) (s : St) (p0 : Z) :
  for_ lo (lo + Z.of_nat k)
    (fun j '(s', p) => (push (val p) s', p + d)) (s, p0)
  = (fold_left (fun s' x => push x s')
       (map (fun j => val (p0 + (j - lo) * d)) (zrange lo (lo + Z.of_nat k))) s,
     p0 + Z.of_nat k * d).
Proof.
  induction k as [|k IH].
  - rewrite Z.add_0_r, for_nil, zrange_nil by lia. cbn. f_equal. lia.
  - replace (lo + Z.of_nat (S k)) with (lo + Z.of_nat k + 1) by lia.
    rewrite for_snoc, IH by lia. rewrite zrange_snoc by lia.
    rewrite map_app, fold_left_app. cbn [map fold_left].
    f_equal; [|lia]. do 2 f_equal. lia.
Qed.

Lemma strided_from_fst {St : Type} (push : Z -> St -> St) (val : Z -> Z)
    (d lo hi : Z) (s : St) (p0 : Z) :
  fst (for_ lo hi (fun j '(s', p) => (push (val p) s', p + d)) (s, p0))
  = fold_left (fun s' x => push x s')
      (map (fun j => val (p0 + (j - lo) * d)) (zrange lo hi)) s.
Proof.
  destruct (Z.le_gt_cases hi lo) as [Hle|Hgt].
  - rewrite for_nil, zrange_nil by lia. reflexivity.
  - replace hi with (lo + Z.of_nat (Z.to_nat (hi - lo))) by lia.
    now rewrite strided_from.
Qed.

Lemma skip_first_column (f : Z -> Z) (n : Z) :
  1 <= n ->
  flat_map (fun i => if (i =? 0) && true then [] else [f i]) (zrange 0 n)
  = map f (zrange 1 n).
Proof.
  intros Hn. rewrite zrange_cons by lia. cbn [flat_map Z.eqb andb app].
  rewrite <- flat_map_singleton. apply flat_map_ext_range.
  intros i Hi. destruct (Z.eqb_spec i 0); [lia|reflexivity].
Qed.

Lemma raster_indices_NoDup (g : GenerateMesh) :
  1 <= num_points_x g ->
  NoDup (corner_index ++ bottom_row_rest g ++ left_column_rest g).
Proof.
  intros Hn. unfold corner_index, bottom_row_rest, left_column_rest.
  apply NoDup_app; [repeat constructor; auto| |].
  - apply NoDup_app; [apply NoDup_zrange| |].
    + apply Injective_map_NoDup; [|apply NoDup_zrange].
      intros x y E. nia.
    + intros x H1 H2. cell_facts. nia.
  - intros x [<-|[]] H2. cell_facts; nia.
Qed.

Lemma raster_indices_range (g : GenerateMesh) (x : Z) :
  1 <= num_points_x g -> 1 <= num_points_y g ->
  In x (corner_index ++ bottom_row_rest g ++ left_column_rest g) ->
  0 <= x < num_points_x g * num_points_y g.
Proof.
  intros Hx Hy Hin. unfold corner_index, bottom_row_rest, left_column_rest in Hin.
  apply in_app_or in Hin. destruct Hin as [[<-|[]]|Hin]; [nia|].
  cell_facts; nia.
Qed.

Lemma rect_slave_side (g : GenerateMesh) (a b c d e f : vec) :
  0 < proc_index_x g -> 0 < proc_index_y g -> 1 <= num_points_x g ->
  1 <= num_points_y g ->
  rect_slave_left g (rect_slave_below g
    (rect_slave_lower_left g (mkHalo a b c d e f)))
  = mkHalo
      (a ++ [my_color g - num_proc_x g - 1; my_color g - num_proc_x g;
             my_color g - 1])
      (b ++ [vsize (map (vget (perm g)) corner_index);
             vsize (map (vget (perm g)) (bottom_row_rest g));
             vsize (map (vget (perm g)) (left_column_rest g))])
      (c ++ map (vget (perm g)) corner_index
         ++ map (vget (perm g)) (bottom_row_rest g)
         ++ map (vget (perm g)) (left_column_rest g))
      d e f.
Proof.
  intros Hpx Hpy Hnx Hny.
  assert (Ex : (proc_index_x g =? 0) = false) by (apply Z.eqb_neq; lia).
  assert (Ey : (proc_index_y g =? 0) = false) by (apply Z.eqb_neq; lia).
  assert (Lx : (0 <? proc_index_x g) = true) by (apply Z.ltb_lt; lia).
  assert (Ly : (0 <? proc_index_y g) = true) by (apply Z.ltb_lt; lia).
  rewrite rect_slave_lower_left_spec, Lx, Ly. cbn [andb].
  rewrite rect_slave_below_spec, Ly, Ex. cbv zeta. cbn [negb].
  rewrite rect_slave_left_spec, Lx, Ey. cbv zeta. cbn [negb].
  rewrite (skip_first_column (fun i => vget (perm g) (0 + i * 1))) by lia.
  rewrite (skip_first_column (fun j => vget (perm g) (0 + j * num_points_x g)))
    by lia.
  unfold corner_index, bottom_row_rest, left_column_rest. rewrite map_map.
  rewrite (map_ext (fun i => vget (perm g) (0 + i * 1)) (vget (perm g)))
    by (intros i; f_equal; lia).
  rewrite (map_ext (fun j => vget (perm g) (0 + j * num_points_x g))
             (fun j => vget (perm g) (j * num_points_x g)))
    by (intros j; f_equal; lia).
  cbn [map]. rewrite <- !app_assoc. reflexivity.
Qed.

Lemma pie_slave_side (g : GenerateMesh) (a b c d e f : vec) :
  0 < proc_index_x g -> 0 < proc_index_y g -> 1 <= num_points_x g ->
  pie_slave_left g (pie_slave_below g
    (pie_slave_lower_left g (mkHalo a b c d e f)))
  = mkHalo
      (a ++ [my_color g - num_proc_x g - 1; my_color g - num_proc_x g;
             my_color g - 1])
      (b ++ [vsize corner_index; vsize (bottom_row_rest g);
             vsize (left_column_rest g)])
      (c ++ corner_index ++ bottom_row_rest g ++ left_column_rest g)
      d e f.
Proof.
  intros Hpx Hpy Hnx.
  assert (Ex : (proc_index_x g =? 0) = false) by (apply Z.eqb_neq; lia).
  assert (Ey : (proc_index_y g =? 0) = false) by (apply Z.eqb_neq; lia).
  assert (Ly : (0 <? proc_index_y g) = true) by (apply Z.ltb_lt; lia).
  unfold pie_slave_lower_left. rewrite Ex, Ey. cbn [negb andb]. cbv zeta.
  unfold pie_slave_below. rewrite Ex, Ey. cbn [negb]. cbv zeta.
  match goal with |- context [for_ ?lo ?hi ?body ?s] =>
    destruct (for_ lo hi body s) as [h' p'] eqn:E end.
  apply (f_equal fst) in E. cbn [fst] in E.
  pose proof (strided_loop_fst push_slaved_point
                (fun i => (i =? 0) && true) (fun p => p) 1) as Hloop.
  cbv beta in Hloop. rewrite Hloop in E. clear Hloop.
  rewrite (skip_first_column (fun i => 0 + i * 1)) in E by lia.
  rewrite (map_ext (fun i => 0 + i * 1) (fun i => i)) in E by (intros i; lia).
  rewrite map_id in E.
  unfold push_slaved_count, push_master_color, push_slaved_point, push_back in E.
  cbn [master_colors slaved_points_counts slaved_points slave_colors
       master_points_counts master_points] in E.
  rewrite push_slaved_points in E. subst h'.
  unfold pie_slave_left. rewrite Ex, Ey, Ly. cbn [negb]. cbv zeta.
  match goal with |- context [for_ ?lo ?hi ?body ?s] =>
    destruct (for_ lo hi body s) as [h' q'] eqn:E end.
  apply (f_equal fst) in E. cbn [fst] in E.
  pose proof (strided_from_fst push_slaved_point (fun p => p)
                (num_points_x g) 1) as Hloop.
  cbv beta in Hloop.
  unfold push_slaved_count, push_master_color, push_back in E.
  cbn [master_colors slaved_points_counts slaved_points slave_colors
       master_points_counts master_points] in E.
  rewrite Hloop in E. clear Hloop.
  rewrite push_slaved_points in E. subst h'.
  rewrite (map_ext (fun j => num_points_x g + (j - 1) * num_points_x g)
             (fun j => j * num_points_x g)) by (intros j; lia).
  unfold push_slaved_count, push_master_color, push_back.
  cbn [master_colors slaved_points_counts slaved_points slave_colors
       master_points_counts master_points].
  fold (bottom_row_rest g). fold (left_column_rest g).
  unfold corner_index. rewrite !vsize_app. rewrite <- !app_assoc.
  cbn [app]. unfold push_slaved_point, push_back.
  cbn [master_colors slaved_points_counts slaved_points slave_colors
       master_points_counts master_points].
  rewrite vsize_app. change (vsize [0]) with 1.
  f_equal. do 3 f_equal; [lia|]. f_equal. lia.
Qed.

Lemma hex_below_loop (g : GenerateMesh) (h : halo) :
  proc_index_x g <> 0 -> 1 <= nzones_x g ->
  num_points_x g = nzones_x g + 1 ->
  for_ 0 (num_points_x g) (fun i '(h, p) =>
    if (i =? 0) && negb (proc_index_x g =? 0) then (h, p + 2)
    else if (i =? 0) || (i =? nzones_x g)
    then (push_slaved_point p h, p + 1)
    else (push_slaved_point (p + 1) (push_slaved_point p h), p + 2))
    (h, 0)
  = (fold_left (fun s x => push_slaved_point x s) (hex_bottom_row_rest g) h,
     2 * nzones_x g + 1).
Proof.
  intros Hpx Hnz Hpt. unfold hex_bottom_row_rest.
  set (e := fun i => if i =? 0 then 0
                     else if i <=? nzones_x g then 2 * i
                     else 2 * nzones_x g + 1).
  pose proof (for_invariant_idx
    (fun i (st : halo * Z) =>
       st = (fold_left (fun s x => push_slaved_point x s) (zrange 2 (e i)) h, e i))
    0 (num_points_x g)) as Hinv.
  cbv beta in Hinv.
  match goal with |- for_ 0 (num_points_x g) ?body ?s = _ =>
    specialize (Hinv body s ltac:(lia)) end.
  assert (Hend : e (num_points_x g) = 2 * nzones_x g + 1).
  { unfold e. destruct (Z.eqb_spec (num_points_x g) 0); [lia|].
    destruct (Z.leb_spec (num_points_x g) (nzones_x g)); lia. }
  rewrite Hend in Hinv. apply Hinv.
  - unfold e. cbn [Z.eqb]. now rewrite zrange_nil by lia.
  - intros i [h' p] Hi E. injection E as -> ->.
    assert (Ex : (proc_index_x g =? 0) = false) by (apply Z.eqb_neq; lia).
    rewrite Ex. cbn [negb]. unfold e.
    destruct (Z.eqb_spec i 0) as [->|Hi0]; cbn [andb orb].
    + cbn [Z.add Z.eqb]. destruct (Z.leb_spec 1 (nzones_x g)); [|lia].
      rewrite !zrange_nil by lia. reflexivity.
    + destruct (Z.eqb_spec (i + 1) 0); [lia|].
      destruct (Z.leb_spec i (nzones_x g)); [|lia].
      destruct (Z.eqb_spec i (nzones_x g)) as [->|Hne].
      * destruct (Z.leb_spec (nzones_x g + 1) (nzones_x g)); [lia|].
        rewrite (zrange_snoc 2 (2 * nzones_x g)) by lia.
        rewrite fold_left_app. reflexivity.
      * destruct (Z.leb_spec (i + 1) (nzones_x g)); [|lia].
        replace (2 * (i + 1)) with (2 * i + 1 + 1) by lia.
        rewrite (zrange_snoc 2 (2 * i + 1)), (zrange_snoc 2 (2 * i)) by lia.
        rewrite !fold_left_app. cbn [fold_left]. f_equal. lia.
Qed.

Lemma hex_left_loop (g : GenerateMesh) (pbase : vec) (h : halo) :
  proc_index_y g <> 0 -> 1 <= num_points_y g ->
  (forall j, 0 <= j < num_points_y g -> vget pbase j = hex_row_base g j) ->
  for_ 0 (num_points_y g) (fun j h =>
    if (j =? 0) && negb (proc_index_y g =? 0) then h
    else
      let p := vget pbase j in
      if (j =? 0) || (j =? nzones_y g)
      then push_slaved_point p h
      else push_slaved_point (p + 1) (push_slaved_point p h)) h
  = fold_left (fun s x => push_slaved_point x s) (hex_left_column_rest g) h.
Proof.
  intros Hpy Hny Hpb. unfold hex_left_column_rest.
  assert (Ey : (proc_index_y g =? 0) = false) by (apply Z.eqb_neq; lia).
  rewrite (for_cons 0) by lia. cbn [Z.eqb andb]. rewrite Ey. cbn [negb].
  apply (for_fold_flat_map push_slaved_point). intros j s' Hj.
  rewrite Hpb by lia.
  destruct (Z.eqb_spec j 0); [lia|]. cbn [andb orb]. cbv zeta.
  destruct (j =? nzones_y g); reflexivity.
Qed.

Lemma push_slaved_point_mk (x : Z) (a b c d e f : vec) :
  push_slaved_point x (mkHalo a b c d e f) = mkHalo a b (c ++ [x]) d e f.
Proof. reflexivity. Qed.

Lemma push_master_color_mk (x : Z) (a b c d e f : vec) :
  push_master_color x (mkHalo a b c d e f) = mkHalo (a ++ [x]) b c d e f.
Proof. reflexivity. Qed.

Lemma push_slaved_count_mk (x : Z) (a b c d e f : vec) :
  push_slaved_count x (mkHalo a b c d e f) = mkHalo a (b ++ [x]) c d e f.
Proof. reflexivity. Qed.

Lemma hex_slave_side (g : GenerateMesh) (a b c d e f : vec) :
  0 < proc_index_x g -> 0 < proc_index_y g ->
  1 <= nzones_x g -> num_points_x g = nzones_x g + 1 ->
  1 <= num_points_y g ->
  hex_slave_left g (snd (hex_count g)) (hex_slave_below g
    (hex_slave_lower_left g (mkHalo a b c d e f)))
  = mkHalo
      (a ++ [my_color g - num_proc_x g - 1; my_color g - num_proc_x g;
             my_color g - 1])
      (b ++ [vsize hex_corner; vsize (hex_bottom_row_rest g);
             vsize (hex_left_column_rest g)])
      (c ++ hex_corner ++ hex_bottom_row_rest g ++ hex_left_column_rest g)
      d e f.
Proof.
  intros Hpx Hpy Hnz Hpt Hny.
  assert (Ex : (proc_index_x g =? 0) = false) by (apply Z.eqb_neq; lia).
  assert (Ey : (proc_index_y g =? 0) = false) by (apply Z.eqb_neq; lia).
  unfold hex_slave_lower_left. rewrite Ex, Ey. cbn [negb andb]. cbv zeta.
  unfold hex_slave_below. rewrite Ey. cbn [negb]. cbv zeta.
  rewrite hex_below_loop by lia.
  unfold hex_slave_left. rewrite Ex. cbn [negb]. cbv zeta.
  rewrite hex_left_loop; [|lia|lia|apply hex_count_spec; lia].
  repeat first
    [ rewrite push_slaved_point_mk | rewrite push_master_color_mk
    | rewrite push_slaved_count_mk | rewrite push_slaved_points
    | progress cbn [slaved_points] ].
  unfold hex_corner. rewrite !vsize_app. rewrite <- !app_assoc.
  cbn [app]. change (vsize [0]) with 1. change (vsize [1]) with 1.
  change (vsize [0; 1]) with 2.
  f_equal. do 3 f_equal; [lia|]. f_equal. lia.
Qed.

Lemma hex_first_row_points (g : GenerateMesh) :
  1 <= nzones_x g -> 1 <= nzones_y g ->
  num_points_x g = nzones_x g + 1 ->
  1 <= zone_x_offset g ->
  zone_x_offset g + nzones_x g <= global_nzones_x g ->
  0 < zone_y_offset g < global_nzones_y g ->
  hex_row_base g 1 = 2 * nzones_x g + 1.
Proof.
  intros Hnx Hny Hpt Hzx Hzx' Hzy.
  change 1 with (0 + 1) at 1. rewrite hex_row_base_step by lia.
  change (hex_row_base g 0) with 0. unfold hex_row_points.
  rewrite Hpt, zrange_snoc, map_app, zsum_app by lia.
  rewrite (zsum_const _ 2).
  - unfold vsize. rewrite length_zrange. cbn [map zsum fold_right].
    unfold hex_points_at. cbv zeta.
    destruct (Z.eqb_spec (nzones_x g + zone_x_offset g) 0); [lia|].
    rewrite Z.eqb_refl. cbn [andb orb Z.add Z.eqb].
    destruct ((nzones_x g + zone_x_offset g =? global_nzones_x g)
              || (zone_y_offset g =? 0) || (zone_y_offset g =? global_nzones_y g));
      lia.
  - intros i Hi. apply in_zrange in Hi. unfold hex_points_at. cbv zeta.
    destruct (Z.eqb_spec (i + zone_x_offset g) 0); [lia|].
    destruct (Z.eqb_spec (i + zone_x_offset g) (global_nzones_x g)); [lia|].
    destruct (Z.eqb_spec (0 + zone_y_offset g) 0); [lia|].
    destruct (Z.eqb_spec (0 + zone_y_offset g) (global_nzones_y g)); [lia|].
    destruct (Z.eqb_spec i (nzones_x g)); [lia|].
    destruct (Z.eqb_spec 0 (nzones_y g)); [lia|].
    cbn [andb orb]. now rewrite andb_false_r.
Qed.

Lemma hex_indices_NoDup (g : GenerateMesh) :
  1 <= nzones_x g -> 1 <= nzones_y g ->
  num_points_x g = nzones_x g + 1 ->
  1 <= zone_x_offset g ->
  zone_x_offset g + nzones_x g <= global_nzones_x g ->
  0 < zone_y_offset g < global_nzones_y g ->
  NoDup (hex_corner ++ hex_bottom_row_rest g ++ hex_left_column_rest g).
Proof.
  intros Hnx Hny Hpt Hzx Hzx' Hzy.
  pose proof (hex_first_row_points g Hnx Hny Hpt Hzx Hzx' Hzy) as Hb1.
  assert (Hstep : forall j, 0 <= j ->
            hex_row_base g j + 2 <= hex_row_base g (j + 1)).
  { intros j Hj. rewrite hex_row_base_step by lia.
    pose proof (hex_row_points_lower g j ltac:(lia)). lia. }
  assert (Hin : forall x, In x (hex_left_column_rest g) ->
            exists j, 1 <= j /\ hex_row_base g j <= x < hex_row_base g (j + 1)).
  { intros x Hx. unfold hex_left_column_rest in Hx.
    apply in_flat_map in Hx. destruct Hx as (j & Hj & Hx).
    apply in_zrange in Hj. exists j. pose proof (Hstep j ltac:(lia)).
    destruct (j =? nzones_y g); cbn [In] in Hx;
      intuition (try lia). }
  assert (Hlow : forall x, In x (hex_left_column_rest g) ->
            2 * nzones_x g + 1 <= x).
  { intros x Hx. destruct (Hin x Hx) as (j & Hj & Hr).
    pose proof (hex_row_base_mono g 1 j ltac:(lia) ltac:(lia)). lia. }
  unfold hex_corner, hex_bottom_row_rest.
  apply NoDup_app.
  - repeat constructor; cbn [In]; intuition lia.
  - apply NoDup_app; [apply NoDup_zrange| |].
    + unfold hex_left_column_rest.
      apply (NoDup_flat_map_rel
               (fun j x => hex_row_base g j <= x < hex_row_base g (j + 1))).
      * intros j x Hj Hx. apply in_zrange in Hj.
        pose proof (Hstep j ltac:(lia)).
        destruct (j =? nzones_y g); cbn [In] in Hx; intuition lia.
      * intros j j' x Hj Hj' R R'. apply in_zrange in Hj, Hj'.
        destruct (Z.lt_trichotomy j j') as [Hlt|[Heq|Hgt]]; [|exact Heq|].
        -- pose proof (hex_row_base_mono g (j + 1) j' ltac:(lia) ltac:(lia)).
           lia.
        -- pose proof (hex_row_base_mono g (j' + 1) j ltac:(lia) ltac:(lia)).
           lia.
      * apply NoDup_zrange.
      * intros j _. destruct (j =? nzones_y g); repeat constructor;
          cbn [In]; intuition lia.
    + intros x H1 H2. apply in_zrange in H1. apply Hlow in H2. lia.
  - intros x Hx Hin'. apply in_app_or in Hin'.
    destruct Hin' as [H2|H2].
    + apply in_zrange in H2. cbn [In] in Hx. intuition lia.
    + apply Hlow in H2. cbn [In] in Hx. intuition lia.
Qed.

(** ** The master blocks leave the slave vectors alone *)

Ltac split_branches :=
  repeat match goal with |- context [if ?b then _ else _] => destruct b end.

(** Resolves one [(h, p)]-state loop whose body only pushes master data. *)
Ltac frame_pair_loop :=
  match goal with
  | |- context [for_ ?lo ?hi ?body (?h0, ?p0)] =>
      let F := fresh "F" in
      assert (F : slave_side (fst (for_ lo hi body (h0, p0))) = slave_side h0)
        by (apply (for_frame (fun st : halo * Z => slave_side (fst st)));
            intros ? [? ?] _; split_branches; reflexivity);
      destruct (for_ lo hi body (h0, p0)) as [? ?]; cbn [fst] in F
  end.

Lemma rect_master_right_frame (g : GenerateMesh) (h : halo) :
  slave_side (rect_master_right g h) = slave_side h.
Proof.
  unfold rect_master_right.
  destruct (proc_index_x g <? num_proc_x g - 1); [|reflexivity].
  cbv zeta. frame_pair_loop. exact F.
Qed.

Lemma rect_master_above_frame (g : GenerateMesh) (h : halo) :
  slave_side (rect_master_above g h) = slave_side h.
Proof.
  unfold rect_master_above.
  destruct (proc_index_y g <? num_proc_y g - 1); [|reflexivity].
  cbv zeta. frame_pair_loop. exact F.
Qed.

Lemma rect_master_upper_right_frame (g : GenerateMesh) (h : halo) :
  slave_side (rect_master_upper_right g h) = slave_side h.
Proof. unfold rect_master_upper_right. split_branches; reflexivity. Qed.

Lemma pie_master_right_frame (g : GenerateMesh) (h : halo) :
  slave_side (pie_master_right g h) = slave_side h.
Proof.
  unfold pie_master_right.
  destruct (negb (proc_index_x g =? num_proc_x g - 1)); [|reflexivity].
  cbv zeta.
  destruct ((proc_index_x g =? 0) && (proc_index_y g =? 0)).
  - frame_pair_loop. rewrite (for_frame slave_side) by reflexivity. exact F.
  - frame_pair_loop. exact F.
Qed.

Lemma pie_master_above_frame (g : GenerateMesh) (h : halo) :
  slave_side (pie_master_above g h) = slave_side h.
Proof.
  unfold pie_master_above.
  destruct (negb (proc_index_y g =? num_proc_y g - 1)); [|reflexivity].
  cbv zeta. frame_pair_loop. exact F.
Qed.

Lemma pie_master_upper_right_frame (g : GenerateMesh) (h : halo) :
  slave_side (pie_master_upper_right g h) = slave_side h.
Proof. unfold pie_master_upper_right. split_branches; reflexivity. Qed.

Lemma hex_master_right_frame (g : GenerateMesh) (np : Z) (pbase : vec)
    (h : halo) :
  slave_side (hex_master_right g np pbase h) = slave_side h.
Proof.
  unfold hex_master_right.
  destruct (negb (proc_index_x g =? num_proc_x g - 1)); [|reflexivity].
  cbv zeta.
  match goal with |- context [for_ ?lo ?hi ?body h] =>
    transitivity (slave_side (for_ lo hi body h)); [reflexivity|] end.
  apply (for_frame slave_side). intros j h1 _. cbv zeta.
  split_branches; reflexivity.
Qed.

Lemma hex_master_above_frame (g : GenerateMesh) (pbase : vec) (h : halo) :
  slave_side (hex_master_above g pbase h) = slave_side h.
Proof.
  unfold hex_master_above.
  destruct (negb (proc_index_y g =? num_proc_y g - 1)); [|reflexivity].
  cbv zeta. frame_pair_loop. exact F.
Qed.

Lemma hex_master_upper_right_frame (g : GenerateMesh) (np : Z) (h : halo) :
  slave_side (hex_master_upper_right g np h) = slave_side h.
Proof. unfold hex_master_upper_right. split_branches; reflexivity. Qed.

(** ** Corner deduplication of the slave relations *)

Lemma NoDup_app_disjoint {A : Type} (a b : list A) (x : A) :
  NoDup (a ++ b) -> In x a -> ~ In x b.
Proof.
  induction a as [|y a IH]; intros Hnd Hin; [destruct Hin|].
  cbn [app] in Hnd. apply NoDup_cons_iff in Hnd. destruct Hnd as [Hy Hnd].
  destruct Hin as [->|Hin].
  - intros Hb. apply Hy. apply in_or_app. now right.
  - now apply IH.
Qed.

(** C8. On every rank with [proc_index_x > 0] and [proc_index_y > 0], for
    each of the three families, the slave side of the halo consists of
    exactly three relations, with masters at lower left, below and to the
    left, in that order.  The "below" list starts after the first column and
    the "left" list after the first row, so the corner shared with the
    lower-left neighbour is listed under the diagonal relation only, and no
    local point index occurs twice among the slaved points. *)
Theorem slave_relations_corner_dedup (raw_g raw_l : nat -> Z)
    (g0 : GenerateMesh) (color : Z) (g : GenerateMesh) :
  is_family (meshtype g0) = true ->
  1 <= global_nzones_x g0 -> 1 <= global_nzones_y g0 ->
  1 <= num_proc_x g0 -> 1 <= num_proc_y g0 ->
  num_subregions g0 = num_proc_x g0 * num_proc_y g0 ->
  0 <= color < num_subregions g0 ->
  calcLocalConstants raw_g raw_l g0 color = Ok g ->
  0 < proc_index_x g -> 0 < proc_index_y g ->
  exists h,
    generateHaloPoints g empty_halo = Ok h
    /\ master_colors h
       = [my_color g - num_proc_x g - 1; my_color g - num_proc_x g;
          my_color g - 1]
    /\ slaved_points_counts h
       = [vsize (slave_corner g); vsize (slave_below g); vsize (slave_left g)]
    /\ slaved_points h = slave_corner g ++ slave_below g ++ slave_left g
    /\ slave_corner g <> []
    /\ NoDup (slaved_points h)
    /\ forall x, In x (slave_corner g) ->
         ~ In x (slave_below g) /\ ~ In x (slave_left g).
Proof.
  intros Hfam Hgx Hgy Hnpx Hnpy Hsub Hcol Hcalc Hpx Hpy.
  destruct (calcLocalConstants_constructed _ _ _ _ _ Hgx Hgy Hnpx Hnpy Hcalc)
    as (C & Mt & Gx & Gy & Ns & Px & Py & Col).
  pose proof (c_nzx _ C) as Hnzx. pose proof (c_nzy _ C) as Hnzy.
  pose proof (c_ptx _ C) as Hptx. pose proof (c_pty _ C) as Hpty.
  pose proof (c_gnx _ C) as Hcx. pose proof (c_gny _ C) as Hcy.
  pose proof (c_zx _ C) as Hzx. pose proof (c_zy _ C) as Hzy.
  pose proof (c_pix _ C) as Hpix. pose proof (c_piy _ C) as Hpiy.
  rewrite Col, Px in Hpix, Hpiy.
  assert (Hbx : proc_index_x g < num_proc_x g0).
  { rewrite Hpix. apply Z.rem_bound_pos; lia. }
  assert (Hby : proc_index_y g < num_proc_y g0).
  { rewrite Hpiy. apply Z.quot_lt_upper_bound; lia. }
  assert (Hns1 : (num_subregions g =? 1) = false).
  { apply Z.eqb_neq. rewrite Ns, Hsub. nia. }
  assert (Hzx1 : 1 <= zone_x_offset g) by nia.
  assert (Hzx2 : zone_x_offset g + nzones_x g <= global_nzones_x g)
    by (rewrite Px in Hcx; nia).
  assert (Hzy1 : 0 < zone_y_offset g < global_nzones_y g)
    by (rewrite Py in Hcy; nia).
  assert (Hfinish : forall h (corner below left : vec),
            slave_side h
            = ([] ++ [my_color g - num_proc_x g - 1; my_color g - num_proc_x g;
                      my_color g - 1],
               [] ++ [vsize corner; vsize below; vsize left],
               [] ++ corner ++ below ++ left) ->
            corner <> [] ->
            NoDup (corner ++ below ++ left) ->
            master_colors h
            = [my_color g - num_proc_x g - 1; my_color g - num_proc_x g;
               my_color g - 1]
            /\ slaved_points_counts h = [vsize corner; vsize below; vsize left]
            /\ slaved_points h = corner ++ below ++ left
            /\ corner <> []
            /\ NoDup (slaved_points h)
            /\ forall x, In x corner -> ~ In x below /\ ~ In x left).
  { intros h corner below left Hside Hne Hnd. unfold slave_side in Hside.
    cbn [app] in Hside. injection Hside as H1 H2 H3.
    rewrite H1, H2, H3. repeat split; auto.
    - intros Hb. apply (NoDup_app_disjoint corner (below ++ left) x Hnd H).
      apply in_or_app. now left.
    - intros Hl. apply (NoDup_app_disjoint corner (below ++ left) x Hnd H).
      apply in_or_app. now right. }
  unfold generateHaloPoints, slave_corner, slave_below, slave_left.
  unfold is_family in Hfam. rewrite Mt.
  destruct (String.eqb (meshtype g0) "pie").
  - eexists. split; [reflexivity|].
    apply Hfinish; [|discriminate|apply raster_indices_NoDup; lia].
    unfold generateHaloPointsPie. rewrite Hns1. cbv zeta.
    rewrite pie_master_upper_right_frame, pie_master_above_frame,
      pie_master_right_frame.
    unfold empty_halo. rewrite pie_slave_side by lia. reflexivity.
  - destruct (String.eqb (meshtype g0) "rect").
    + eexists. split; [reflexivity|].
      apply Hfinish; [|discriminate|].
      * unfold generateHaloPointsRect. rewrite Hns1. cbv zeta.
        rewrite rect_master_upper_right_frame, rect_master_above_frame,
          rect_master_right_frame.
        unfold empty_halo. rewrite rect_slave_side by lia. reflexivity.
      * rewrite <- !map_app. apply Injective_map_NoDup_in.
        -- intros x y Hx Hy. apply (bijection_on_injective _ _ x y (c_perm _ C));
             apply raster_indices_range; auto; lia.
        -- apply raster_indices_NoDup. lia.
    + destruct (String.eqb (meshtype g0) "hex"); [|discriminate].
      eexists. split; [reflexivity|].
      apply Hfinish; [|discriminate|apply hex_indices_NoDup; lia].
      unfold generateHaloPointsHex. rewrite Hns1.
      rewrite (surjective_pairing (hex_count g)). cbv zeta.
      rewrite hex_master_upper_right_frame, hex_master_above_frame,
        hex_master_right_frame.
      unfold empty_halo. rewrite hex_slave_side by lia. reflexivity.
Qed.

Lemma slave_relations_corner_dedup_witness :
  exists g,
    calcLocalConstants (fun _ => 5) (fun _ => 6)
      (with_procs 3 2 (initial_mesh (mkInputParameters "hex" 6 4 6 4))) 4
    = Ok g
    /\ exists h,
         generateHaloPoints g empty_halo = Ok h
         /\ master_colors h
            = [my_color g - num_proc_x g - 1; my_color g - num_proc_x g;
               my_color g - 1]
         /\ slaved_points_counts h
            = [vsize (slave_corner g); vsize (slave_below g);
               vsize (slave_left g)]
         /\ slaved_points h = slave_corner g ++ slave_below g ++ slave_left g
         /\ slave_corner g <> []
         /\ NoDup (slaved_points h)
         /\ forall x, In x (slave_corner g) ->
              ~ In x (slave_below g) /\ ~ In x (slave_left g).
Proof.
  eexists. split; [vm_compute; reflexivity|].
  apply (slave_relations_corner_dedup (fun _ => 5) (fun _ => 6)
           (with_procs 3 2 (initial_mesh (mkInputParameters "hex" 6 4 6 4))) 4);
    try reflexivity; simpl; lia.
Defined.

(** ** Which configurations [calcLocalConstants] accepts *)

Lemma uneven_quot (a b : Z) :
  1 <= b -> Z.rem a b <> 0 ->
  (Z.quot (a + 1 - 1) b * b + 1 =? a + 1) || (b =? 1) = false.
Proof.
  intros Hb Hr. replace (a + 1 - 1) with a by lia.
  pose proof (Z.quot_rem' a b) as E.
  apply orb_false_iff. split.
  - apply Z.eqb_neq. lia.
  - apply Z.eqb_neq. intros ->. apply Hr. apply Z.rem_1_r.
Qed.

(** For a colour of the processor grid the four products that
    [calcLocalConstants] divides stay inside [int]. *)
Lemma calcLocalConstants_products_in_int (g : GenerateMesh) (color : Z) :
  1 <= global_nzones_x g -> 1 <= global_nzones_y g ->
  1 <= num_proc_x g -> 1 <= num_proc_y g ->
  0 <= color < num_proc_x g * num_proc_y g ->
  products_fit_int g ->
  let px := Z.rem color (num_proc_x g) in
  let py := Z.quot color (num_proc_x g) in
  0 <= px < num_proc_x g /\ 0 <= py < num_proc_y g
  /\ 0 <= px * global_nzones_x g
  /\ (px + 1) * global_nzones_x g <= INT_MAX
  /\ 0 <= py * global_nzones_y g
  /\ (py + 1) * global_nzones_y g <= INT_MAX.
Proof.
  intros Hgx Hgy Hpx Hpy Hc (Fx & Fy & _ & _). cbv zeta.
  pose proof (Z.rem_bound_pos color (num_proc_x g) ltac:(lia) ltac:(lia)) as Rx.
  pose proof (Z.quot_rem' color (num_proc_x g)) as E.
  pose proof (Z.quot_pos color (num_proc_x g) ltac:(lia) ltac:(lia)) as Qy.
  assert (Z.quot color (num_proc_x g) < num_proc_y g) by nia.
  repeat split; try lia; nia.
Qed.

(** X1. On positive zone and processor counts whose products fit [int], and
    for a colour of the processor grid, the products [calcLocalConstants]
    forms stay inside [int], and the call returns exactly when the processor
    grid divides the zone counts in both directions; on any other grid the
    configuration is rejected by an assertion ([muPermutation]'s width check
    on the global grid). *)
Theorem calcLocalConstants_accepts_even_splits (raw_g raw_l : nat -> Z)
    (g : GenerateMesh) (color : Z) :
  1 <= global_nzones_x g -> 1 <= global_nzones_y g ->
  1 <= num_proc_x g -> 1 <= num_proc_y g ->
  0 <= color < num_proc_x g * num_proc_y g ->
  products_fit_int g ->
  ((Z.rem color (num_proc_x g) + 1) * global_nzones_x g <= INT_MAX
   /\ (Z.quot color (num_proc_x g) + 1) * global_nzones_y g <= INT_MAX)
  /\ if (Z.rem (global_nzones_x g) (num_proc_x g) =? 0)
        && (Z.rem (global_nzones_y g) (num_proc_y g) =? 0)
     then exists g', calcLocalConstants raw_g raw_l g color = Ok g'
     else calcLocalConstants raw_g raw_l g color = AssertFail.
Proof.
  intros Hgx Hgy Hpx Hpy Hcol Hfit.
  split.
  { pose proof (calcLocalConstants_products_in_int g color
                  Hgx Hgy Hpx Hpy Hcol Hfit) as H.
    cbv zeta in H. tauto. }
  destruct (Z.eqb_spec (Z.rem (global_nzones_x g) (num_proc_x g)) 0) as [Ex|Ex];
    [destruct (Z.eqb_spec (Z.rem (global_nzones_y g) (num_proc_y g)) 0) as [Ey|Ey]|];
    cbn [andb].
  - pose proof (exact_quot _ _ Ex ltac:(lia)) as Dx.
    pose proof (exact_quot _ _ Ey ltac:(lia)) as Dy.
    apply (calcLocalConstants_returns raw_g raw_l g color
             (Z.quot (global_nzones_x g) (num_proc_x g))
             (Z.quot (global_nzones_y g) (num_proc_y g))); nia.
  - unfold calcLocalConstants, cdiv, cmod.
    destruct (Z.eqb_spec (num_proc_x g) 0) as [|_]; [lia|].
    destruct (Z.eqb_spec (num_proc_y g) 0) as [|_]; [lia|].
    cbn [bind]. cbv zeta.
    rewrite muPermutation_marks by lia. cbv zeta.
    rewrite (uneven_quot (global_nzones_y g) (num_proc_y g)) by assumption.
    assert (H1 : (Z.quot (global_nzones_x g + 1 - 1) (num_proc_x g) * num_proc_x g
                  + 1 =? global_nzones_x g + 1) = true).
    { apply Z.eqb_eq. replace (global_nzones_x g + 1 - 1) with (global_nzones_x g)
        by lia.
      pose proof (exact_quot _ _ Ex ltac:(lia)). lia. }
    rewrite H1. reflexivity.
  - unfold calcLocalConstants, cdiv, cmod.
    destruct (Z.eqb_spec (num_proc_x g) 0) as [|_]; [lia|].
    destruct (Z.eqb_spec (num_proc_y g) 0) as [|_]; [lia|].
    cbn [bind]. cbv zeta.
    rewrite muPermutation_marks by lia. cbv zeta.
    rewrite (uneven_quot (global_nzones_x g) (num_proc_x g)) by assumption.
    reflexivity.
Qed.

Lemma calcLocalConstants_accepts_even_splits_witness :
  ((Z.rem 1 2 + 1) * 5 <= INT_MAX /\ (Z.quot 1 2 + 1) * 4 <= INT_MAX)
  /\ calcLocalConstants (fun _ => 0) (fun _ => 0)
       (with_procs 2 1 (initial_mesh (mkInputParameters "rect" 5 4 2 0))) 1
     = AssertFail.
Proof.
  apply (calcLocalConstants_accepts_even_splits (fun _ => 0) (fun _ => 0)
           (with_procs 2 1 (initial_mesh (mkInputParameters "rect" 5 4 2 0))) 1);
    unfold products_fit_int, INT_MAX; simpl; lia.
Defined.

Lemma rank_coordinates (c n qx qy : Z) :
  1 <= n -> 0 <= qx < n -> 0 <= qy -> c = qy * n + qx ->
  Z.rem c n = qx /\ Z.quot c n = qy.
Proof.
  intros Hn Hqx Hqy ->.
  rewrite Z.rem_mod_nonneg, Z.quot_div_nonneg by nia.
  rewrite Z.add_comm, Z.mod_add, Z.div_add by lia.
  rewrite Z.mod_small, Z.div_small by lia. lia.
Qed.

(** X2. When the products [calcLocalConstants] forms fit [int], the extents
    it computes over the colours [0 .. num_proc_x * num_proc_y - 1] tile the
    global zone grid: every global zone lies in the extent of exactly one
    rank. *)
Theorem calcLocalConstants_zone_owner (raw_g raw_l : nat -> Z)
    (g : GenerateMesh) (zx zy : Z) :
  1 <= global_nzones_x g -> 1 <= global_nzones_y g ->
  1 <= num_proc_x g -> 1 <= num_proc_y g ->
  Z.rem (global_nzones_x g) (num_proc_x g) = 0 ->
  Z.rem (global_nzones_y g) (num_proc_y g) = 0 ->
  products_fit_int g ->
  0 <= zx < global_nzones_x g -> 0 <= zy < global_nzones_y g ->
  exists c g',
    0 <= c < num_proc_x g * num_proc_y g
    /\ calcLocalConstants raw_g raw_l g c = Ok g'
    /\ owns_zone g' zx zy
    /\ forall c' g'',
         0 <= c' < num_proc_x g * num_proc_y g ->
         calcLocalConstants raw_g raw_l g c' = Ok g'' ->
         owns_zone g'' zx zy -> c' = c.
Proof.
  intros Hgx Hgy Hpx Hpy Ex Ey _ Hzx Hzy.
  pose proof (exact_quot _ _ Ex ltac:(lia)) as Dx.
  pose proof (exact_quot _ _ Ey ltac:(lia)) as Dy.
  set (wx := Z.quot (global_nzones_x g) (num_proc_x g)) in *.
  set (wy := Z.quot (global_nzones_y g) (num_proc_y g)) in *.
  assert (Hwx : 1 <= wx) by nia. assert (Hwy : 1 <= wy) by nia.
  assert (Hown : forall c g1, 0 <= c ->
            calcLocalConstants raw_g raw_l g c = Ok g1 ->
            owns_zone g1 zx zy <->
            (Z.rem c (num_proc_x g) = zx / wx /\ Z.quot c (num_proc_x g) = zy / wy)).
  { intros c g1 Hc Hcalc.
    destruct (calcLocalConstants_constructed _ _ _ _ _ Hgx Hgy Hpx Hpy Hcalc)
      as (C & _ & Egx & Egy & _ & Epx & Epy & Ecol).
    pose proof (c_gnx _ C) as Dgx. pose proof (c_gny _ C) as Dgy.
    pose proof (c_pix _ C) as Dpx. pose proof (c_piy _ C) as Dpy.
    unfold owns_zone.
    rewrite Egx, Epx in Dgx. rewrite Egy, Epy in Dgy.
    rewrite Ecol, Epx in Dpx, Dpy.
    assert (Nx : nzones_x g1 = wx)
      by (apply (Z.mul_reg_r _ _ (num_proc_x g)); lia).
    assert (Ny : nzones_y g1 = wy)
      by (apply (Z.mul_reg_r _ _ (num_proc_y g)); lia).
    rewrite (c_zx _ C), (c_zy _ C), Dpx, Dpy, Nx, Ny.
    set (px := Z.rem c (num_proc_x g)). set (py := Z.quot c (num_proc_x g)).
    split.
    - intros [Hx Hy]. split.
      + apply (Z.div_unique zx wx px (zx - px * wx)); lia.
      + apply (Z.div_unique zy wy py (zy - py * wy)); lia.
    - intros [-> ->].
      pose proof (Z.div_mod zx wx ltac:(lia)).
      pose proof (Z.mod_pos_bound zx wx ltac:(lia)).
      pose proof (Z.div_mod zy wy ltac:(lia)).
      pose proof (Z.mod_pos_bound zy wy ltac:(lia)).
      lia. }
  assert (Hqx : 0 <= zx / wx < num_proc_x g).
  { split; [apply Z.div_pos; lia|]. apply Z.div_lt_upper_bound; lia. }
  assert (Hqy : 0 <= zy / wy < num_proc_y g).
  { split; [apply Z.div_pos; lia|]. apply Z.div_lt_upper_bound; lia. }
  set (c := zy / wy * num_proc_x g + zx / wx).
  assert (Hc : 0 <= c < num_proc_x g * num_proc_y g) by (unfold c; nia).
  destruct (calcLocalConstants_returns raw_g raw_l g c wx wy) as [g' Hg'];
    try lia.
  exists c, g'. split; [exact Hc|]. split; [exact Hg'|]. split.
  - apply (Hown c g'); [lia|exact Hg'|].
    apply (rank_coordinates c (num_proc_x g) (zx / wx) (zy / wy)); lia.
  - intros c' g'' Hc' Hcalc Ho.
    apply (Hown c' g'') in Ho; [|lia|exact Hcalc].
    destruct Ho as [E1 E2].
    pose proof (Z.quot_rem' c' (num_proc_x g)). unfold c. lia.
Qed.

Lemma calcLocalConstants_zone_owner_witness :
  exists c g',
    0 <= c < 2 * 2
    /\ calcLocalConstants (fun _ => 0) (fun _ => 0)
         (with_procs 2 2 (initial_mesh (mkInputParameters "rect" 4 6 4 0))) c
       = Ok g'
    /\ owns_zone g' 3 1
    /\ forall c' g'',
         0 <= c' < 2 * 2 ->
         calcLocalConstants (fun _ => 0) (fun _ => 0)
           (with_procs 2 2 (initial_mesh (mkInputParameters "rect" 4 6 4 0))) c'
         = Ok g'' ->
         owns_zone g'' 3 1 -> c' = c.
Proof.
  apply (calcLocalConstants_zone_owner (fun _ => 0) (fun _ => 0)
           (with_procs 2 2 (initial_mesh (mkInputParameters "rect" 4 6 4 0))) 3 1);
    first [ simpl; lia | vm_compute; reflexivity
          | unfold products_fit_int, INT_MAX; simpl; lia ].
Defined.

(** ** The first indices [muPermutation] hands out *)

Lemma mu_cells_prefix (wx wy nbx nby : Z) :
  1 <= nbx -> 1 <= nby ->
  exists rest,
    mu_cells wx wy nbx nby
    = (0, 0)
      :: map (fun dy => (0, wy * 0 + dy)) (zrange 1 (wy + 1))
      ++ map (fun dx => (0 * wx + 1 + dx, wy * 0)) (zrange 0 wx)
      ++ rest.
Proof.
  intros Hx Hy. unfold mu_cells, blocks_cells.
  rewrite (zrange_cons 0 nby) by lia. cbn [flat_map].
  rewrite (zrange_cons 0 nbx) by lia. cbn [flat_map].
  unfold block_cells at 1. cbn [Z.eqb].
  eexists. rewrite <- !app_assoc. reflexivity.
Qed.

Lemma mu_order_left_edge (npx wx wy nbx nby y : Z) :
  1 <= nbx -> 1 <= nby -> 0 <= y <= wy ->
  vget (mu_order npx wx wy nbx nby) y = linearize npx 0 y.
Proof.
  intros Hx Hy Hr. unfold mu_order, vget.
  destruct (mu_cells_prefix wx wy nbx nby Hx Hy) as [rest ->].
  match goal with |- context [nth ?k (map ?f ?l) 0] =>
    change (nth k (map f l) 0) with (nth k (map f l) (f (0, 0))) end.
  rewrite map_nth.
  destruct (Z.eq_dec y 0) as [->|Hne]; [reflexivity|].
  replace (Z.to_nat y) with (S (Z.to_nat (y - 1))) by lia. cbn [nth].
  rewrite app_nth1 by (rewrite length_map, length_zrange; lia).
  rewrite nth_indep with (d' := (0, wy * 0 + 0))
    by (rewrite length_map, length_zrange; lia).
  change (0, wy * 0 + 0) with ((fun dy => (0, wy * 0 + dy)) 0).
  rewrite map_nth, nth_zrange by lia. cbn [fst snd]. f_equal. lia.
Qed.

Lemma mu_order_top_edge (npx wx wy nbx nby x : Z) :
  1 <= nbx -> 1 <= nby -> 0 <= wy -> 1 <= x <= wx ->
  vget (mu_order npx wx wy nbx nby) (wy + x) = linearize npx x 0.
Proof.
  intros Hx Hy Hwy Hr. unfold mu_order, vget.
  destruct (mu_cells_prefix wx wy nbx nby Hx Hy) as [rest ->].
  match goal with |- context [nth ?k (map ?f ?l) 0] =>
    change (nth k (map f l) 0) with (nth k (map f l) (f (0, 0))) end.
  rewrite map_nth.
  replace (Z.to_nat (wy + x)) with (S (Z.to_nat wy + Z.to_nat (x - 1))) by lia.
  cbn [nth].
  replace (Z.to_nat wy)
    with (length (map (fun dy => (0, wy * 0 + dy)) (zrange 1 (wy + 1))))
    by (rewrite length_map, length_zrange; lia).
  rewrite app_nth2_plus.
  rewrite app_nth1 by (rewrite length_map, length_zrange; lia).
  rewrite nth_indep with (d' := (0 * wx + 1 + 0, wy * 0))
    by (rewrite length_map, length_zrange; lia).
  change (0 * wx + 1 + 0, wy * 0) with ((fun dx => (0 * wx + 1 + dx, wy * 0)) 0).
  rewrite map_nth, nth_zrange by lia. cbn [fst snd]. f_equal; lia.
Qed.

(** X3. Whenever [muPermutation] returns on a grid with at least two points
    per axis, the array it returns is a permutation of the point indices, and
    it numbers the origin 0, then the left edge of the first block upwards
    (point [(0, y)] gets [y]), then the first block's top edge (point
    [(x, 0)] gets [width_y + x]). *)
Theorem muPermutation_numbering (npx npy nbx nby : Z) (p : vec) :
  2 <= npx -> 2 <= npy -> 1 <= nbx -> 1 <= nby ->
  muPermutation npx npy nbx nby = Ok p ->
  let wx := Z.quot (npx - 1) nbx in
  let wy := Z.quot (npy - 1) nby in
  bijection_on p (npx * npy)
  /\ (forall y, 0 <= y <= wy -> vget p (linearize npx 0 y) = y)
  /\ (forall x, 1 <= x <= wx -> vget p (linearize npx x 0) = wy + x).
Proof.
  intros Hnx Hny Hbx Hby Hmu. cbv zeta.
  destruct (muPermutation_divides _ _ _ _ _ Hbx Hby Hmu) as [Dx Dy].
  set (wx := Z.quot (npx - 1) nbx) in *. set (wy := Z.quot (npy - 1) nby) in *.
  assert (Hwx : 1 <= wx) by nia. assert (Hwy : 1 <= wy) by nia.
  assert (Ex : npx = wx * nbx + 1) by lia.
  assert (Ey : npy = wy * nby + 1) by lia.
  destruct (muPermutation_ok wx wy nbx nby Hwx Hwy Hbx Hby) as [Hret _].
  cbv zeta in Hret. rewrite <- Ex, <- Ey in Hret.
  rewrite Hmu in Hret. injection Hret as ->.
  pose proof (mu_order_bijection wx wy Hwx Hwy nbx nby Hbx Hby) as Hord.
  rewrite <- Ex, <- Ey in Hord.
  destruct (mark_order_inverse (mu_order npx wx wy nbx nby)
              (repeat 0 (Z.to_nat (npx * npy))) (npx * npy) Hord)
    as (Hbij & Hmark & _).
  { unfold vsize. rewrite repeat_length. nia. }
  fold (mu_array npx npy wx wy nbx nby) in Hbij, Hmark.
  split; [exact Hbij|]. split.
  - intros y Hy. rewrite <- (mu_order_left_edge npx wx wy nbx nby y) by lia.
    apply Hmark. nia.
  - intros x Hx. rewrite <- (mu_order_top_edge npx wx wy nbx nby x) by lia.
    apply Hmark. nia.
Qed.

Lemma muPermutation_numbering_witness :
  let wx := Z.quot (5 - 1) 2 in
  let wy := Z.quot (5 - 1) 2 in
  bijection_on
    [0; 3; 4; 9; 10; 1; 8; 5; 14; 11; 2; 7; 6; 13; 12; 15; 20; 17; 24; 21;
     16; 19; 18; 23; 22] (5 * 5)
  /\ (forall y, 0 <= y <= wy ->
        vget [0; 3; 4; 9; 10; 1; 8; 5; 14; 11; 2; 7; 6; 13; 12; 15; 20; 17; 24;
              21; 16; 19; 18; 23; 22] (linearize 5 0 y) = y)
  /\ (forall x, 1 <= x <= wx ->
        vget [0; 3; 4; 9; 10; 1; 8; 5; 14; 11; 2; 7; 6; 13; 12; 15; 20; 17; 24;
              21; 16; 19; 18; 23; 22] (linearize 5 x 0) = wy + x).
Proof.
  apply (muPermutation_numbering 5 5 2 2); try lia. reflexivity.
Defined.

(** ** The divisor searches of the planner *)

Lemma search_down_largest (P : Z) (fuel : nat) (n1 : Z) :
  1 <= n1 -> (Z.to_nat n1 <= fuel)%nat ->
  exists d, search_down fuel P n1 = Ok d /\ 1 <= d <= n1 /\ Z.rem P d = 0
            /\ forall d', d < d' <= n1 -> Z.rem P d' <> 0.
Proof.
  revert n1. induction fuel as [|fuel IH]; intros n1 Hn Hfuel; [lia|].
  cbn [search_down]. unfold cmod.
  destruct (Z.eqb_spec n1 0) as [|_]; [lia|]. cbn [bind].
  destruct (Z.eqb_spec (Z.rem P n1) 0) as [Hr|Hr]; cbn [negb].
  - exists n1. split; [reflexivity|]. split; [lia|]. split; [exact Hr|].
    intros d' Hd'. lia.
  - assert (n1 <> 1) by (intros ->; apply Hr; apply Z.rem_1_r).
    destruct (IH (n1 - 1)) as (d & Hd & Hrange & Hrem & Hmax); [lia|lia|].
    exists d. split; [exact Hd|]. split; [lia|]. split; [exact Hrem|].
    intros d' Hd'. destruct (Z.eq_dec d' n1) as [->|Hne]; [exact Hr|].
    apply Hmax. lia.
Qed.

Lemma search_up_smallest (P : Z) (fuel : nat) (n2 : Z) :
  1 <= n2 <= P -> (Z.to_nat (P - n2) < fuel)%nat ->
  exists d, search_up fuel P n2 = Ok d /\ n2 <= d <= P /\ Z.rem P d = 0
            /\ forall d', n2 <= d' < d -> Z.rem P d' <> 0.
Proof.
  revert n2. induction fuel as [|fuel IH]; intros n2 Hn Hfuel; [lia|].
  cbn [search_up]. unfold cmod.
  destruct (Z.eqb_spec n2 0) as [|_]; [lia|]. cbn [bind].
  destruct (Z.eqb_spec (Z.rem P n2) 0) as [Hr|Hr]; cbn [negb].
  - exists n2. split; [reflexivity|]. split; [lia|]. split; [exact Hr|].
    intros d' Hd'. lia.
  - assert (n2 <> P) by (intros ->; apply Hr; apply Z.rem_same; lia).
    destruct (IH (n2 + 1)) as (d & Hd & Hrange & Hrem & Hmin); [lia|lia|].
    exists d. split; [exact Hd|]. split; [lia|]. split; [exact Hrem|].
    intros d' Hd'. destruct (Z.eq_dec d' n2) as [->|Hne]; [exact Hr|].
    apply Hmin. lia.
Qed.

(** X4. The two [while] loops of [calcPartitions] find the nearest divisors:
    started at [n1 >= 1] the downward search ends at the largest divisor of
    [P] that is at most [n1], and started at [n2] in [1 .. P] the upward
    search ends at the smallest divisor of [P] that is at least [n2]. *)
Theorem divisor_searches_nearest (P n1 n2 : Z) (fuel : nat) :
  1 <= n1 -> 1 <= n2 <= P ->
  (Z.to_nat n1 <= fuel)%nat -> (Z.to_nat (P - n2) < fuel)%nat ->
  exists d1 d2,
    search_down fuel P n1 = Ok d1 /\ search_up fuel P n2 = Ok d2
    /\ 1 <= d1 <= n1 /\ Z.rem P d1 = 0
    /\ (forall d, d1 < d <= n1 -> Z.rem P d <> 0)
    /\ n2 <= d2 <= P /\ Z.rem P d2 = 0
    /\ (forall d, n2 <= d < d2 -> Z.rem P d <> 0).
Proof.
  intros H1 H2 F1 F2.
  destruct (search_down_largest P fuel n1 H1 F1) as (d1 & E1 & R1 & D1 & M1).
  destruct (search_up_smallest P fuel n2 H2 F2) as (d2 & E2 & R2 & D2 & M2).
  exists d1, d2. tauto.
Qed.

Lemma divisor_searches_nearest_witness :
  exists d1 d2,
    search_down 12 12 5 = Ok d1 /\ search_up 12 12 5 = Ok d2
    /\ 1 <= d1 <= 5 /\ Z.rem 12 d1 = 0
    /\ (forall d, d1 < d <= 5 -> Z.rem 12 d <> 0)
    /\ 5 <= d2 <= 12 /\ Z.rem 12 d2 = 0
    /\ (forall d, 5 <= d < d2 -> Z.rem 12 d <> 0).
Proof. apply (divisor_searches_nearest 12 5 5 12); lia. Defined.

(** X5. Started above the partition count, the upward search of
    [calcPartitions] finds no divisor among the values of [int]: the tests
    at [n2], [n2 + 1], ... all fail for as long as the value tested is at
    most [INT_MAX], and the search is still running after them.  In the
    source the loop therefore reaches [++n2] on [INT_MAX], a signed
    overflow. *)
Theorem search_up_above_count_leaves_int (P n2 : Z) (fuel : nat) :
  1 <= P < n2 ->
  n2 + Z.of_nat fuel <= INT_MAX + 1 ->
  search_up fuel P n2 = OutOfFuel.
Proof.
  revert n2. induction fuel as [|fuel IH]; intros n2 H Hint; [reflexivity|].
  cbn [search_up]. unfold cmod.
  destruct (Z.eqb_spec n2 0) as [|_]; [lia|]. cbn [bind].
  rewrite Z.rem_small by lia.
  destruct (Z.eqb_spec P 0) as [|_]; [lia|]. cbn [negb].
  apply IH; lia.
Qed.

Lemma search_up_above_count_leaves_int_witness :
  search_up 1000 6 7 = OutOfFuel.
Proof.
  apply (search_up_above_count_leaves_int 6 7 1000);
    [lia | unfold INT_MAX; lia].
Defined.

(** ** Writes into a resized vector *)

Lemma vset_nth_same {A : Type} (v : list A) (i : Z) (x d : A) :
  0 <= i < vsize v -> nth (Z.to_nat i) (vset v i x) d = x.
Proof.
  intros Hi. unfold vset, vsize in *.
  destruct (Z.leb_spec 0 i); [|lia].
  destruct (Z.ltb_spec i (Z.of_nat (length v))); [|lia].
  cbn [andb]. rewrite nth_update by lia. now rewrite Nat.eqb_refl.
Qed.

Lemma vset_nth_other {A : Type} (v : list A) (i j : Z) (x d : A) :
  0 <= j -> i <> j -> nth (Z.to_nat j) (vset v i x) d = nth (Z.to_nat j) v d.
Proof.
  intros Hj Hne. unfold vset, vsize.
  destruct (Z.leb_spec 0 i); [|reflexivity].
  destruct (Z.ltb_spec i (Z.of_nat (length v))); [|reflexivity].
  cbn [andb]. rewrite nth_update by lia.
  destruct (Nat.eqb_spec (Z.to_nat j) (Z.to_nat i)); [lia|reflexivity].
Qed.

Lemma writes_length {A : Type} (pairs : list (Z * A)) (v : list A) :
  length (fold_left (fun v' q => vset v' (fst q) (snd q)) pairs v) = length v.
Proof.
  revert v. induction pairs as [|q pairs IH]; intros v; cbn [fold_left].
  - reflexivity.
  - now rewrite IH, vset_length.
Qed.

Lemma writes_untouched {A : Type} (pairs : list (Z * A)) (v : list A)
    (j : Z) (d : A) :
  0 <= j -> ~ In j (map fst pairs) ->
  nth (Z.to_nat j) (fold_left (fun v' q => vset v' (fst q) (snd q)) pairs v) d
  = nth (Z.to_nat j) v d.
Proof.
  revert v. induction pairs as [|q pairs IH]; intros v Hj Hn; cbn [fold_left].
  - reflexivity.
  - rewrite IH; [|exact Hj|].
    + apply vset_nth_other; [exact Hj|]. intros Heq. apply Hn. now left.
    + intros Hin. apply Hn. now right.
Qed.

Lemma writes_spec {A : Type} (pairs : list (Z * A)) (v : list A) (i : Z)
    (x d : A) :
  NoDup (map fst pairs) ->
  (forall q, In q pairs -> 0 <= fst q < vsize v) ->
  In (i, x) pairs ->
  nth (Z.to_nat i) (fold_left (fun v' q => vset v' (fst q) (snd q)) pairs v) d
  = x.
Proof.
  revert v. induction pairs as [|q pairs IH]; intros v Hnd Hr Hin.
  - destruct Hin.
  - cbn [map] in Hnd. apply NoDup_cons_iff in Hnd. destruct Hnd as [Hfresh Hnd].
    cbn [fold_left]. destruct Hin as [->|Hin].
    + pose proof (Hr (i, x) (or_introl eq_refl)) as Hi. cbn [fst snd] in *.
      rewrite writes_untouched by (auto; lia).
      now apply vset_nth_same.
    + apply IH; [exact Hnd| |exact Hin].
      intros q' Hq'. unfold vsize. rewrite vset_length. apply Hr. now right.
Qed.

Lemma resize_length (n : Z) (v : list double2) :
  0 <= n -> vsize (resize n v) = n.
Proof.
  intros Hn. unfold resize, vsize.
  rewrite length_app, length_firstn, repeat_length. lia.
Qed.

(** ** Row-major grids as ranges *)

Lemma grid_raster {A : Type} (h w : Z) (F : Z -> A) :
  0 <= h -> 0 <= w ->
  grid h w (fun j i => F (j * w + i)) = map F (zrange 0 (h * w)).
Proof.
  intros Hh Hw.
  assert (Hlen : length (grid h w (fun j i => F (j * w + i))) = Z.to_nat (h * w)).
  { pose proof (length_grid h w (fun j i => F (j * w + i)) Hh Hw) as H.
    unfold vsize in H. lia. }
  apply nth_ext with (d := F 0) (d' := F 0).
  - rewrite Hlen, length_map, length_zrange. lia.
  - intros k Hk. rewrite Hlen in Hk.
    assert (0 < w) by nia.
    rewrite map_nth, nth_zrange by lia.
    pose proof (Z.div_mod (Z.of_nat k) w ltac:(lia)) as E.
    pose proof (Z.mod_pos_bound (Z.of_nat k) w ltac:(lia)) as B.
    assert (0 <= Z.of_nat k / w < h).
    { split; [apply Z.div_pos; lia|]. apply Z.div_lt_upper_bound; lia. }
    replace k with (Z.to_nat (Z.of_nat k / w * w + Z.of_nat k mod w)) at 1 by lia.
    rewrite nth_grid by lia. f_equal. lia.
Qed.

Lemma in_grid {A : Type} (h w : Z) (f : Z -> Z -> A) (i j : Z) :
  0 <= i < w -> 0 <= j < h -> In (f j i) (grid h w f).
Proof.
  intros Hi Hj. unfold grid. apply in_flat_map. exists j.
  split; [apply in_zrange; lia|]. apply in_map_iff. exists i.
  split; [reflexivity|apply in_zrange; lia].
Qed.

(** ** The point loop of [generateRect] *)

Lemma generateRect_pointpos (g : GenerateMesh) (m : mesh_out) :
  pointpos (generateRect g m)
  = fold_left (fun pp q => vset pp (fst q) (snd q))
      (grid (num_points_y g) (num_points_x g) (fun j i =>
         (vget (perm g) (j * num_points_x g + i),
          RectPoint (i + zone_x_offset g) (j + zone_y_offset g))))
      (resize (num_points_x g * num_points_y g) (pointpos m)).
Proof.
  unfold generateRect. cbv zeta.
  rewrite (zone_loop_grid _ _ (rect_zone g)).
  - destruct (add_zones_fields
                (grid (nzones_y g) (nzones_x g) (rect_zone g))
                (with_pointpos
                   (for_ 0 (num_points_y g) (fun j =>
                    for_ 0 (num_points_x g) (fun i pp =>
                      vset pp (vget (perm g) (j * num_points_x g + i))
                        (RectPoint (i + zone_x_offset g) (j + zone_y_offset g))))
                      (resize (num_points_x g * num_points_y g) (pointpos m)))
                   m)) as [-> _].
    cbn [with_pointpos pointpos]. unfold grid.
    apply (for_fold_flat_map (fun (q : Z * double2) pp => vset pp (fst q) (snd q))).
    intros j pp _.
    apply (for_fold_map (fun (q : Z * double2) pp => vset pp (fst q) (snd q))
             (fun i => (vget (perm g) (j * num_points_x g + i),
                        RectPoint (i + zone_x_offset g) (j + zone_y_offset g)))).
  - intros j i m'.
    unfold add_zone, rect_zone, push_zonepoints, push_zonesize, push_zonestart,
      append_zonepoints, push_back, vsize.
    cbn [pointpos zonestart zonesize zonepoints length].
    rewrite <- !app_assoc. reflexivity.
Qed.

Lemma rect_points_placed (g : GenerateMesh) (m : mesh_out) :
  bijection_on (perm g) (num_points_x g * num_points_y g) ->
  0 <= num_points_x g -> 0 <= num_points_y g ->
  vsize (pointpos (generateRect g m)) = num_points_x g * num_points_y g
  /\ forall i j, 0 <= i < num_points_x g -> 0 <= j < num_points_y g ->
       nth (Z.to_nat (vget (perm g) (j * num_points_x g + i)))
         (pointpos (generateRect g m)) Zero2
       = RectPoint (i + zone_x_offset g) (j + zone_y_offset g).
Proof.
  intros Hbij Hnx Hny. rewrite generateRect_pointpos.
  set (N := num_points_x g * num_points_y g).
  assert (HN : 0 <= N) by (unfold N; nia).
  split.
  - unfold vsize. rewrite writes_length. apply resize_length. exact HN.
  - intros i j Hi Hj. apply writes_spec.
    + rewrite map_grid. cbn [fst].
      rewrite (grid_raster _ _ (vget (perm g))) by lia.
      destruct Hbij as (Hlen & Hnd & _).
      replace (num_points_y g * num_points_x g) with (vsize (perm g))
        by (rewrite Hlen; unfold N; lia).
      rewrite map_vget_range. exact Hnd.
    + intros q Hq. rewrite resize_length by exact HN.
      unfold grid in Hq. apply in_flat_map in Hq. destruct Hq as (j' & Hj' & Hq).
      apply in_map_iff in Hq. destruct Hq as (i' & <- & Hi').
      apply in_zrange in Hj', Hi'. cbn [fst].
      apply (bijection_on_range _ _ _ Hbij). unfold N. nia.
    + apply (in_grid _ _ (fun j0 i0 =>
               (vget (perm g) (j0 * num_points_x g + i0),
                RectPoint (i0 + zone_x_offset g) (j0 + zone_y_offset g)))); lia.
Qed.

Lemma vget_zone_vertex (zones : list vec) (z k : Z) :
  0 <= z < vsize zones ->
  0 <= k < vsize (nth (Z.to_nat z) zones []) ->
  vget (concat zones) (vget (offsets 0 zones) z + k)
  = nth (Z.to_nat k) (nth (Z.to_nat z) zones []) 0.
Proof.
  intros Hz Hk. unfold vsize in Hz, Hk.
  replace z with (Z.of_nat (Z.to_nat z)) at 1 by lia.
  rewrite vget_offsets by lia. unfold vget, vsize.
  rewrite Z.add_0_l.
  replace (Z.to_nat (Z.of_nat (length (concat (firstn (Z.to_nat z) zones))) + k))
    with (length (concat (firstn (Z.to_nat z) zones)) + Z.to_nat k)%nat by lia.
  apply nth_concat_firstn; lia.
Qed.

(** What [constructed] says about the extent of a rank with a valid colour. *)
Lemma constructed_extent (g : GenerateMesh) :
  constructed g -> 0 <= my_color g < num_proc_x g * num_proc_y g ->
  0 <= proc_index_x g < num_proc_x g
  /\ 0 <= proc_index_y g < num_proc_y g
  /\ my_color g = proc_index_y g * num_proc_x g + proc_index_x g
  /\ 0 <= zone_x_offset g
  /\ zone_x_offset g + nzones_x g <= global_nzones_x g
  /\ 0 <= zone_y_offset g
  /\ zone_y_offset g + nzones_y g <= global_nzones_y g.
Proof.
  intros C Hc.
  pose proof (c_npx _ C) as Hnx. pose proof (c_npy _ C) as Hny.
  pose proof (c_nzx _ C) as Hzx. pose proof (c_nzy _ C) as Hzy.
  pose proof (c_gnx _ C) as Dgx. pose proof (c_gny _ C) as Dgy.
  pose proof (c_pix _ C) as Dpx. pose proof (c_piy _ C) as Dpy.
  pose proof (c_zx _ C) as Ox. pose proof (c_zy _ C) as Oy.
  assert (Hx : 0 <= proc_index_x g < num_proc_x g).
  { rewrite Dpx. apply Z.rem_bound_pos; lia. }
  assert (Hy : 0 <= proc_index_y g < num_proc_y g).
  { rewrite Dpy. split; [apply Z.quot_pos; lia|].
    apply Z.quot_lt_upper_bound; lia. }
  pose proof (Z.quot_rem' (my_color g) (num_proc_x g)) as E.
  rewrite <- Dpx, <- Dpy in E.
  repeat split; try lia; nia.
Qed.

(** Every local slot of a rect rank is the image of one grid position. *)
Lemma rect_slot (g : GenerateMesh) (s : Z) :
  constructed g -> 0 <= s < num_points_x g * num_points_y g ->
  exists i j,
    0 <= i < num_points_x g /\ 0 <= j < num_points_y g
    /\ s = vget (perm g) (j * num_points_x g + i).
Proof.
  intros C Hs.
  destruct (bijection_on_surjective _ _ s (c_perm _ C) Hs) as (r & Hr & Er).
  pose proof (c_ptx _ C). pose proof (c_nzx _ C).
  exists (r mod num_points_x g), (r / num_points_x g).
  pose proof (Z.div_mod r (num_points_x g) ltac:(lia)) as E.
  pose proof (Z.mod_pos_bound r (num_points_x g) ltac:(lia)) as B.
  split; [lia|]. split.
  - split; [apply Z.div_pos; lia|]. apply Z.div_lt_upper_bound; lia.
  - rewrite <- Er. f_equal. lia.
Qed.

(** X6. [generateRect] resizes [pointpos] to the number of local points and
    then overwrites every slot: slot [s] receives the coordinates of the one
    grid position [(i, j)] with [perm[j * num_points_x + i] = s], whatever the
    vector held on entry. *)
Theorem generateRect_fills_every_slot (raw_g raw_l : nat -> Z)
    (g0 : GenerateMesh) (color : Z) (g : GenerateMesh) (m : mesh_out) :
  1 <= global_nzones_x g0 -> 1 <= global_nzones_y g0 ->
  1 <= num_proc_x g0 -> 1 <= num_proc_y g0 ->
  calcLocalConstants raw_g raw_l g0 color = Ok g ->
  vsize (pointpos (generateRect g m)) = num_points_x g * num_points_y g
  /\ forall s, 0 <= s < num_points_x g * num_points_y g ->
       exists i j,
         0 <= i < num_points_x g /\ 0 <= j < num_points_y g
         /\ vget (deperm g) s = j * num_points_x g + i
         /\ nth (Z.to_nat s) (pointpos (generateRect g m)) Zero2
            = RectPoint (i + zone_x_offset g) (j + zone_y_offset g).
Proof.
  intros Hgx Hgy Hpx Hpy Hcalc.
  destruct (calcLocalConstants_constructed _ _ _ _ _ Hgx Hgy Hpx Hpy Hcalc)
    as (C & _).
  pose proof (c_ptx _ C). pose proof (c_nzx _ C).
  pose proof (c_pty _ C). pose proof (c_nzy _ C).
  destruct (rect_points_placed g m (c_perm _ C)) as [Hlen Hat]; [lia|lia|].
  split; [exact Hlen|].
  intros s Hs. destruct (rect_slot g s C Hs) as (i & j & Hi & Hj & ->).
  exists i, j. split; [exact Hi|]. split; [exact Hj|]. split.
  - apply (c_deperm _ C). nia.
  - apply Hat; assumption.
Qed.

Lemma generateRect_fills_every_slot_witness :
  exists g,
    calcLocalConstants (fun _ => 0) (fun _ => 0)
      (with_procs 2 1 (initial_mesh (mkInputParameters "rect" 4 2 2 1))) 1
    = Ok g
    /\ vsize (pointpos (generateRect g
                 (mkMeshOut [PieOrigin; PieOrigin] [] [] [])))
       = num_points_x g * num_points_y g.
Proof.
  eexists. split; [vm_compute; reflexivity|].
  apply (generateRect_fills_every_slot (fun _ => 0) (fun _ => 0)
           (with_procs 2 1 (initial_mesh (mkInputParameters "rect" 4 2 2 1))) 1);
    try (simpl; lia).
  vm_compute. reflexivity.
Defined.

(** X7. Every zone [generateRect] emits is a quadrilateral whose four
    vertices, followed through [zonestart], [zonepoints] and [pointpos], are
    the grid points [(i, j)], [(i+1, j)], [(i+1, j+1)], [(i, j+1)] of the
    zone, in that (counter-clockwise) order. *)
Theorem generateRect_zone_corners (raw_g raw_l : nat -> Z)
    (g0 : GenerateMesh) (color : Z) (g : GenerateMesh) (i j : Z) :
  1 <= global_nzones_x g0 -> 1 <= global_nzones_y g0 ->
  1 <= num_proc_x g0 -> 1 <= num_proc_y g0 ->
  calcLocalConstants raw_g raw_l g0 color = Ok g ->
  0 <= i < nzones_x g -> 0 <= j < nzones_y g ->
  let m := generateRect g empty_mesh in
  let z := j * nzones_x g + i in
  let corner k :=
    nth (Z.to_nat (vget (zonepoints m) (vget (zonestart m) z + k)))
      (pointpos m) Zero2 in
  vget (zonesize m) z = 4
  /\ corner 0 = RectPoint (i + zone_x_offset g) (j + zone_y_offset g)
  /\ corner 1 = RectPoint (i + 1 + zone_x_offset g) (j + zone_y_offset g)
  /\ corner 2 = RectPoint (i + 1 + zone_x_offset g) (j + 1 + zone_y_offset g)
  /\ corner 3 = RectPoint (i + zone_x_offset g) (j + 1 + zone_y_offset g).
Proof.
  intros Hgx Hgy Hpx Hpy Hcalc Hi Hj. cbv zeta.
  destruct (calcLocalConstants_constructed _ _ _ _ _ Hgx Hgy Hpx Hpy Hcalc)
    as (C & _).
  pose proof (c_ptx _ C) as Hptx. pose proof (c_pty _ C) as Hpty.
  destruct (rect_points_placed g empty_mesh (c_perm _ C)) as [_ Hat]; [lia|lia|].
  revert Hat. destruct (generateRect_zones g empty_mesh) as (pp & ->). intros Hat.
  destruct (add_zones_fields (grid (nzones_y g) (nzones_x g) (rect_zone g))
              (with_pointpos pp empty_mesh)) as (Epp & -> & -> & ->).
  rewrite Epp in *. cbn [with_pointpos empty_mesh pointpos zonestart zonesize
                          zonepoints app].
  cbn [with_pointpos pointpos] in Hat.
  change (vsize (@nil Z)) with 0.
  set (zones := grid (nzones_y g) (nzones_x g) (rect_zone g)).
  assert (Hzone : nth (Z.to_nat (j * nzones_x g + i)) zones [] = rect_zone g j i)
    by (now apply nth_grid).
  assert (Hz : 0 <= j * nzones_x g + i < vsize zones).
  { unfold zones. rewrite length_grid by lia. nia. }
  assert (Hv : forall k, 0 <= k < 4 ->
            vget (concat zones) (vget (offsets 0 zones) (j * nzones_x g + i) + k)
            = nth (Z.to_nat k) (rect_zone g j i) 0).
  { intros k Hk. rewrite vget_zone_vertex, Hzone; [reflexivity|exact Hz|].
    rewrite Hzone. exact Hk. }
  split.
  { unfold zones. rewrite map_grid. unfold vget. rewrite nth_grid by lia.
    reflexivity. }
  rewrite !Hv by lia. unfold rect_zone. cbv zeta. cbn [nth Z.to_nat Pos.to_nat
    Pos.iter_op Nat.add].
  split; [|split; [|split]].
  - apply Hat; lia.
  - replace (j * num_points_x g + i + 1) with (j * num_points_x g + (i + 1)) by lia.
    apply Hat; lia.
  - replace (j * num_points_x g + i + num_points_x g + 1)
      with ((j + 1) * num_points_x g + (i + 1)) by lia.
    apply Hat; lia.
  - replace (j * num_points_x g + i + num_points_x g)
      with ((j + 1) * num_points_x g + i) by lia.
    apply Hat; lia.
Qed.

Lemma generateRect_zone_corners_witness :
  exists g,
    calcLocalConstants (fun _ => 0) (fun _ => 0)
      (with_procs 2 1 (initial_mesh (mkInputParameters "rect" 4 2 2 1))) 1
    = Ok g
    /\ vget (zonesize (generateRect g empty_mesh)) (1 * nzones_x g + 0) = 4.
Proof.
  eexists. split; [vm_compute; reflexivity|].
  apply (generateRect_zone_corners (fun _ => 0) (fun _ => 0)
           (with_procs 2 1 (initial_mesh (mkInputParameters "rect" 4 2 2 1))) 1);
    try (simpl; lia).
  vm_compute. reflexivity.
Defined.

(** ** Global IDs and coordinates *)

(** The global grid position behind a local slot of a rect rank, with the
    coordinates the generator stores there and the ID the mapper returns. *)
Lemma rect_slot_global (g : GenerateMesh) (m : mesh_out) (s : Z) :
  constructed g -> 0 <= my_color g < num_proc_x g * num_proc_y g ->
  0 <= s < num_points_x g * num_points_y g ->
  exists gi gj,
    0 <= gi <= global_nzones_x g /\ 0 <= gj <= global_nzones_y g
    /\ nth (Z.to_nat s) (pointpos (generateRect g m)) Zero2 = RectPoint gi gj
    /\ pointLocalToGlobalIDRect g s
       = Ok (vget (global_perm g) ((global_nzones_x g + 1) * gj + gi)).
Proof.
  intros C Hc Hs.
  destruct (constructed_extent g C Hc) as (_ & _ & _ & X1 & X2 & Y1 & Y2).
  pose proof (c_ptx _ C). pose proof (c_nzx _ C).
  pose proof (c_pty _ C). pose proof (c_nzy _ C).
  destruct (rect_slot g s C Hs) as (i & j & Hi & Hj & ->).
  destruct (rect_points_placed g m (c_perm _ C)) as [_ Hat]; [lia|lia|].
  exists (i + zone_x_offset g), (j + zone_y_offset g).
  split; [lia|]. split; [lia|]. split.
  - apply Hat; assumption.
  - rewrite pointLocalToGlobalIDRect_raster by assumption.
    do 2 f_equal. lia.
Qed.

Lemma raster_injective (w gi gj gi' gj' : Z) :
  0 <= gi < w -> 0 <= gi' < w ->
  w * gj + gi = w * gj' + gi' -> gi = gi' /\ gj = gj'.
Proof. intros H1 H2 E. assert (gj = gj') by nia. split; [nia|assumption]. Qed.

(** X8. On a rect mesh the global ID identifies the grid point: on any two
    ranks of one decomposition, two local points receive the same global ID
    exactly when the generator stores the same coordinates for them; the ID
    lies in [0, (global_nzones_x + 1) * (global_nzones_y + 1)). *)
Theorem rect_global_id_identifies_point
    (xStart yStart nprev : GenerateMesh -> Z -> Z)
    (raw_g1 raw_l1 raw_g2 raw_l2 : nat -> Z)
    (g0 : GenerateMesh) (c1 c2 : Z) (g1 g2 : GenerateMesh)
    (m1 m2 : mesh_out) (s1 s2 : Z) :
  meshtype g0 = "rect"%string ->
  1 <= global_nzones_x g0 -> 1 <= global_nzones_y g0 ->
  1 <= num_proc_x g0 -> 1 <= num_proc_y g0 ->
  0 <= c1 < num_proc_x g0 * num_proc_y g0 ->
  0 <= c2 < num_proc_x g0 * num_proc_y g0 ->
  calcLocalConstants raw_g1 raw_l1 g0 c1 = Ok g1 ->
  calcLocalConstants raw_g2 raw_l2 g0 c2 = Ok g2 ->
  0 <= s1 < num_points_x g1 * num_points_y g1 ->
  0 <= s2 < num_points_x g2 * num_points_y g2 ->
  exists id1 id2,
    pointLocalToGlobalID xStart yStart nprev g1 s1 = Ok id1
    /\ pointLocalToGlobalID xStart yStart nprev g2 s2 = Ok id2
    /\ 0 <= id1 < (global_nzones_x g0 + 1) * (global_nzones_y g0 + 1)
    /\ (id1 = id2 <->
        nth (Z.to_nat s1) (pointpos (generateRect g1 m1)) Zero2
        = nth (Z.to_nat s2) (pointpos (generateRect g2 m2)) Zero2).
Proof.
  intros Hmt Hgx Hgy Hpx Hpy Hc1 Hc2 Hcalc1 Hcalc2 Hs1 Hs2.
  destruct (calcLocalConstants_constructed _ _ _ _ _ Hgx Hgy Hpx Hpy Hcalc1)
    as (C1 & M1 & Gx1 & Gy1 & _ & Px1 & Py1 & Col1).
  destruct (calcLocalConstants_constructed _ _ _ _ _ Hgx Hgy Hpx Hpy Hcalc2)
    as (C2 & M2 & Gx2 & Gy2 & _ & Px2 & Py2 & Col2).
  destruct (rect_slot_global g1 m1 s1 C1) as (gi1 & gj1 & X1 & Y1 & -> & I1);
    [rewrite Col1, Px1, Py1; exact Hc1|exact Hs1|].
  destruct (rect_slot_global g2 m2 s2 C2) as (gi2 & gj2 & X2 & Y2 & -> & I2);
    [rewrite Col2, Px2, Py2; exact Hc2|exact Hs2|].
  assert (Egp : global_perm g2 = global_perm g1).
  { pose proof (c_gperm_eq _ C1) as E1. pose proof (c_gperm_eq _ C2) as E2.
    rewrite Gx1, Gy1, Px1, Py1 in E1. rewrite Gx2, Gy2, Px2, Py2 in E2.
    rewrite E1 in E2. now injection E2. }
  pose proof (c_gperm _ C1) as Hbij. rewrite Gx1, Gy1 in Hbij.
  rewrite Egp, Gx2 in I2. rewrite Gx1 in I1. rewrite Gx1, Gy1 in *.
  rewrite Gx2, Gy2 in *.
  set (w := global_nzones_x g0 + 1) in *.
  assert (R1 : 0 <= w * gj1 + gi1 < w * (global_nzones_y g0 + 1)) by (unfold w; nia).
  assert (R2 : 0 <= w * gj2 + gi2 < w * (global_nzones_y g0 + 1)) by (unfold w; nia).
  exists (vget (global_perm g1) (w * gj1 + gi1)),
         (vget (global_perm g1) (w * gj2 + gi2)).
  unfold pointLocalToGlobalID. rewrite M1, M2, Hmt. cbn [String.eqb Ascii.eqb Bool.eqb].
  split; [exact I1|]. split; [exact I2|]. split.
  - apply (bijection_on_range _ _ _ Hbij). exact R1.
  - split.
    + intros E. apply (bijection_on_injective _ _ _ _ Hbij R1 R2) in E.
      apply raster_injective in E; [|unfold w; lia|unfold w; lia].
      destruct E as [-> ->]. reflexivity.
    + intros E. injection E as -> ->. reflexivity.
Qed.

Lemma rect_global_id_identifies_point_witness :
  exists g1 g2,
    calcLocalConstants (fun _ => 0) (fun _ => 0)
      (with_procs 2 1 (initial_mesh (mkInputParameters "rect" 4 2 2 0))) 0
    = Ok g1
    /\ calcLocalConstants (fun _ => 0) (fun _ => 0)
         (with_procs 2 1 (initial_mesh (mkInputParameters "rect" 4 2 2 0))) 1
       = Ok g2
    /\ exists id1 id2,
         pointLocalToGlobalID (fun _ _ => 0) (fun _ _ => 0) (fun _ _ => 0) g1 3
         = Ok id1
         /\ pointLocalToGlobalID (fun _ _ => 0) (fun _ _ => 0) (fun _ _ => 0) g2 0
            = Ok id2
         /\ 0 <= id1 < (4 + 1) * (2 + 1)
         /\ (id1 = id2 <->
             nth 3 (pointpos (generateRect g1 empty_mesh)) Zero2
             = nth 0 (pointpos (generateRect g2 empty_mesh)) Zero2).
Proof.
  eexists. eexists. split; [vm_compute; reflexivity|].
  split; [vm_compute; reflexivity|].
  apply (rect_global_id_identifies_point (fun _ _ => 0) (fun _ _ => 0)
           (fun _ _ => 0) (fun _ => 0) (fun _ => 0) (fun _ => 0) (fun _ => 0)
           (with_procs 2 1 (initial_mesh (mkInputParameters "rect" 4 2 2 0)))
           0 1 _ _ empty_mesh empty_mesh 3 0);
    try reflexivity; try (simpl; lia); vm_compute; split; congruence.
Defined.

(** ** The point list of [generatePie] *)

(** Row [j] of the pie point list. *)
Lemma pie_pointpos (g : GenerateMesh) :
  pointpos (generatePie g empty_mesh)
  = flat_map (fun j =>
      if j + zone_y_offset g =? 0 then [PieOrigin]
      else map (fun i =>
             PiePoint (global_nzones_x g - (i + zone_x_offset g))
                      (j + zone_y_offset g)) (zrange 0 (num_points_x g)))
      (zrange 0 (num_points_y g)).
Proof.
  destruct (generatePie_zones g empty_mesh) as (m1 & -> & Hpp & _).
  destruct (add_zones_fields (grid (nzones_y g) (nzones_x g) (pie_zone g)) m1)
    as (-> & _).
  exact Hpp.
Qed.

(** Local index of grid position [(i, j)] on a pie rank: rows are stored one
    after the other, and on the ranks that hold the pole row that row is the
    single point 0. *)
Lemma pie_point_at (g : GenerateMesh) (i j : Z) :
  0 <= zone_y_offset g ->
  0 <= i < num_points_x g -> 0 <= j < num_points_y g ->
  j + zone_y_offset g <> 0 ->
  nth (Z.to_nat (if zone_y_offset g =? 0
                 then (j - 1) * num_points_x g + 1 + i
                 else j * num_points_x g + i))
    (pointpos (generatePie g empty_mesh)) Zero2
  = PiePoint (global_nzones_x g - (i + zone_x_offset g)) (j + zone_y_offset g).
Proof.
  intros Hzy Hi Hj Hne. rewrite pie_pointpos.
  set (row := fun j0 => map (fun i0 =>
                PiePoint (global_nzones_x g - (i0 + zone_x_offset g))
                         (j0 + zone_y_offset g)) (zrange 0 (num_points_x g))).
  assert (Hrow : forall j0, length (row j0) = Z.to_nat (num_points_x g)).
  { intros j0. unfold row. now rewrite length_map, length_zrange, Z.sub_0_r. }
  assert (Hnth : nth (Z.to_nat i) (row j) Zero2
                 = PiePoint (global_nzones_x g - (i + zone_x_offset g))
                     (j + zone_y_offset g)).
  { unfold row.
    rewrite nth_indep
      with (d' := PiePoint (global_nzones_x g - (0 + zone_x_offset g))
                    (j + zone_y_offset g))
      by (rewrite length_map, length_zrange; lia).
    change (PiePoint (global_nzones_x g - (0 + zone_x_offset g))
              (j + zone_y_offset g))
      with ((fun i0 => PiePoint (global_nzones_x g - (i0 + zone_x_offset g))
                         (j + zone_y_offset g)) 0).
    rewrite map_nth, nth_zrange by lia. do 2 f_equal. lia. }
  destruct (Z.eqb_spec (zone_y_offset g) 0) as [E0|E0].
  - rewrite (zrange_cons 0 (num_points_y g)) by lia. cbn [flat_map].
    rewrite E0. cbn [Z.add Z.eqb app].
    replace (Z.to_nat ((j - 1) * num_points_x g + 1 + i))
      with (S (Z.to_nat (j - 1) * Z.to_nat (num_points_x g) + Z.to_nat i)) by nia.
    cbn [nth].
    rewrite (flat_map_ext_range _ row 1 (num_points_y g)).
    + rewrite (nth_flat_map_uniform row (Z.to_nat (num_points_x g)))
        with (da := 0); [|intros; apply Hrow|lia|rewrite length_zrange; lia].
      rewrite nth_zrange by lia.
      replace (1 + Z.of_nat (Z.to_nat (j - 1))) with j by lia.
      rewrite Hnth, E0. reflexivity.
    + intros j0 Hj0. replace (j0 + 0) with j0 by lia.
      destruct (Z.eqb_spec j0 0); [lia|]. unfold row. rewrite E0.
      replace (j0 + 0) with j0 by lia. reflexivity.
  - rewrite (flat_map_ext_range _ row 0 (num_points_y g)).
    + replace (Z.to_nat (j * num_points_x g + i))
        with (Z.to_nat j * Z.to_nat (num_points_x g) + Z.to_nat i)%nat by nia.
      rewrite (nth_flat_map_uniform row (Z.to_nat (num_points_x g)))
        with (da := 0); [|intros; apply Hrow|lia|rewrite length_zrange; lia].
      rewrite nth_zrange by lia.
      replace (0 + Z.of_nat (Z.to_nat j)) with j by lia. exact Hnth.
    + intros j0 Hj0. destruct (Z.eqb_spec (j0 + zone_y_offset g) 0); [lia|].
      reflexivity.
Qed.

Lemma pie_pole_at (g : GenerateMesh) :
  zone_y_offset g = 0 -> 1 <= num_points_y g ->
  nth 0 (pointpos (generatePie g empty_mesh)) Zero2 = PieOrigin.
Proof.
  intros E0 Hn. rewrite pie_pointpos.
  rewrite (zrange_cons 0 (num_points_y g)) by lia. cbn [flat_map].
  rewrite E0. reflexivity.
Qed.

Lemma pie_pointpos_size (g : GenerateMesh) :
  0 <= zone_y_offset g -> 0 <= num_points_x g -> 1 <= num_points_y g ->
  vsize (pointpos (generatePie g empty_mesh))
  = if zone_y_offset g =? 0
    then 1 + (num_points_y g - 1) * num_points_x g
    else num_points_y g * num_points_x g.
Proof.
  intros Hzy Hnx Hny. rewrite pie_pointpos.
  set (row := fun j0 => map (fun i0 =>
                PiePoint (global_nzones_x g - (i0 + zone_x_offset g))
                         (j0 + zone_y_offset g)) (zrange 0 (num_points_x g))).
  assert (Hrow : forall j0, length (row j0) = Z.to_nat (num_points_x g)).
  { intros j0. unfold row. now rewrite length_map, length_zrange, Z.sub_0_r. }
  destruct (Z.eqb_spec (zone_y_offset g) 0) as [E0|E0].
  - rewrite (zrange_cons 0 (num_points_y g)) by lia. cbn [flat_map].
    replace (0 + zone_y_offset g =? 0) with true by (now rewrite E0).
    cbn [app].
    rewrite (flat_map_ext_range _ row 1 (num_points_y g)).
    + unfold vsize. cbn [length].
      rewrite (flat_map_constant_length (c := Z.to_nat (num_points_x g)))
        by (intros; apply Hrow).
      rewrite length_zrange, Nat2Z.inj_succ, Nat2Z.inj_mul, !Z2Nat.id by lia.
      lia.
    + intros j0 Hj0. destruct (Z.eqb_spec (j0 + zone_y_offset g) 0); [lia|].
      reflexivity.
  - rewrite (flat_map_ext_range _ row 0 (num_points_y g)).
    + unfold vsize.
      rewrite (flat_map_constant_length (c := Z.to_nat (num_points_x g)))
        by (intros; apply Hrow).
      rewrite length_zrange, Nat2Z.inj_mul, !Z2Nat.id by lia.
      lia.
    + intros j0 Hj0. destruct (Z.eqb_spec (j0 + zone_y_offset g) 0); [lia|].
      reflexivity.
Qed.

(** X9. Every zone [generatePie] emits has the grid points of its cell as
    vertices: in the global row at the pole a triangle [pole, (i+1, 1),
    (i, 1)], elsewhere the quadrilateral [(i, j), (i+1, j), (i+1, j+1),
    (i, j+1)], whether or not the rank holds the pole row (which shifts the
    local indices of all later rows). *)
Theorem generatePie_zone_corners (raw_g raw_l : nat -> Z)
    (g0 : GenerateMesh) (color : Z) (g : GenerateMesh) (i j : Z) :
  1 <= global_nzones_x g0 -> 1 <= global_nzones_y g0 ->
  1 <= num_proc_x g0 -> 1 <= num_proc_y g0 ->
  0 <= color < num_proc_x g0 * num_proc_y g0 ->
  calcLocalConstants raw_g raw_l g0 color = Ok g ->
  0 <= i < nzones_x g -> 0 <= j < nzones_y g ->
  let m := generatePie g empty_mesh in
  let z := j * nzones_x g + i in
  let corner k :=
    nth (Z.to_nat (vget (zonepoints m) (vget (zonestart m) z + k)))
      (pointpos m) Zero2 in
  let gi := i + zone_x_offset g in
  let gj := j + zone_y_offset g in
  if gj =? 0
  then vget (zonesize m) z = 3
       /\ corner 0 = PieOrigin
       /\ corner 1 = PiePoint (global_nzones_x g - (gi + 1)) 1
       /\ corner 2 = PiePoint (global_nzones_x g - gi) 1
  else vget (zonesize m) z = 4
       /\ corner 0 = PiePoint (global_nzones_x g - gi) gj
       /\ corner 1 = PiePoint (global_nzones_x g - (gi + 1)) gj
       /\ corner 2 = PiePoint (global_nzones_x g - (gi + 1)) (gj + 1)
       /\ corner 3 = PiePoint (global_nzones_x g - gi) (gj + 1).
Proof.
  intros Hgx Hgy Hpx Hpy Hcol Hcalc Hi Hj. cbv zeta.
  destruct (calcLocalConstants_constructed _ _ _ _ _ Hgx Hgy Hpx Hpy Hcalc)
    as (C & _ & _ & _ & _ & Px & Py & Col).
  destruct (constructed_extent g C) as (_ & PY & _ & _ & _ & ZY & _);
    [rewrite Col, Px, Py; exact Hcol|].
  pose proof (c_ptx _ C) as Hptx. pose proof (c_pty _ C) as Hpty.
  pose proof (c_zy _ C) as Hzy.
  assert (Hat : forall i0 j0, 0 <= i0 < num_points_x g -> 0 <= j0 < num_points_y g ->
            j0 + zone_y_offset g <> 0 ->
            nth (Z.to_nat (if zone_y_offset g =? 0
                           then (j0 - 1) * num_points_x g + 1 + i0
                           else j0 * num_points_x g + i0))
              (pointpos (generatePie g empty_mesh)) Zero2
            = PiePoint (global_nzones_x g - (i0 + zone_x_offset g))
                (j0 + zone_y_offset g))
    by (intros; apply pie_point_at; assumption).
  assert (Hpole : zone_y_offset g = 0 ->
            nth 0 (pointpos (generatePie g empty_mesh)) Zero2 = PieOrigin)
    by (intros; apply pie_pole_at; lia).
  revert Hat Hpole.
  destruct (generatePie_zones g empty_mesh) as (m1 & -> & _ & Hs & Hz & Hzp).
  destruct (add_zones_fields (grid (nzones_y g) (nzones_x g) (pie_zone g)) m1)
    as (-> & -> & -> & ->).
  rewrite Hs, Hz, Hzp. cbn [empty_mesh zonestart zonesize zonepoints app].
  change (vsize (@nil Z)) with 0. intros Hat Hpole.
  set (zones := grid (nzones_y g) (nzones_x g) (pie_zone g)).
  assert (Hzone : nth (Z.to_nat (j * nzones_x g + i)) zones [] = pie_zone g j i)
    by (now apply nth_grid).
  assert (Hzr : 0 <= j * nzones_x g + i < vsize zones).
  { unfold zones. rewrite length_grid by lia. nia. }
  assert (Hv : forall k, 0 <= k < vsize (pie_zone g j i) ->
            vget (concat zones) (vget (offsets 0 zones) (j * nzones_x g + i) + k)
            = nth (Z.to_nat k) (pie_zone g j i) 0).
  { intros k Hk. rewrite vget_zone_vertex, Hzone; [reflexivity|exact Hzr|].
    rewrite Hzone. exact Hk. }
  assert (Hsize : vget (map vsize zones) (j * nzones_x g + i)
                  = vsize (pie_zone g j i)).
  { unfold zones. rewrite map_grid. unfold vget. now rewrite nth_grid by lia. }
  rewrite Hsize.
  assert (Hpiy : (proc_index_y g =? 0) = (zone_y_offset g =? 0)).
  { destruct (Z.eqb_spec (proc_index_y g) 0) as [E|E];
      destruct (Z.eqb_spec (zone_y_offset g) 0) as [E'|E']; try reflexivity;
      pose proof (c_nzy _ C); nia. }
  unfold pie_zone in *. cbv zeta in *. rewrite Hpiy in *.
  destruct (Z.eqb_spec (j + zone_y_offset g) 0) as [E0|E0].
  - assert (j = 0) by lia. assert (Ez : zone_y_offset g = 0) by lia. subst j.
    rewrite Ez in *. cbn [Z.eqb] in *.
    split; [reflexivity|].
    rewrite !Hv by (unfold vsize; simpl; lia).
    change (Z.to_nat 0) with 0%nat. change (Z.to_nat 1) with 1%nat.
    change (Z.to_nat 2) with 2%nat.
    cbn [nth].
    split; [apply Hpole; reflexivity|]. split.
    + specialize (Hat (i + 1) 1 ltac:(lia) ltac:(lia) ltac:(lia)).
      rewrite Z.add_0_r in Hat.
      replace (0 * num_points_x g + i - (num_points_x g - 1) + num_points_x g + 1)
        with ((1 - 1) * num_points_x g + 1 + (i + 1)) by lia.
      rewrite Hat. apply f_equal2; lia.
    + specialize (Hat i 1 ltac:(lia) ltac:(lia) ltac:(lia)).
      rewrite Z.add_0_r in Hat.
      replace (0 * num_points_x g + i - (num_points_x g - 1) + num_points_x g)
        with ((1 - 1) * num_points_x g + 1 + i) by lia.
      rewrite Hat. apply f_equal2; lia.
  - split; [reflexivity|].
    rewrite !Hv by (unfold vsize; simpl; lia).
    change (Z.to_nat 0) with 0%nat. change (Z.to_nat 1) with 1%nat.
    change (Z.to_nat 2) with 2%nat. change (Z.to_nat 3) with 3%nat.
    cbn [nth].
    pose proof (Hat i j ltac:(lia) ltac:(lia) ltac:(lia)) as A0.
    pose proof (Hat (i + 1) j ltac:(lia) ltac:(lia) ltac:(lia)) as A1.
    pose proof (Hat (i + 1) (j + 1) ltac:(lia) ltac:(lia) ltac:(lia)) as A2.
    pose proof (Hat i (j + 1) ltac:(lia) ltac:(lia) ltac:(lia)) as A3.
    destruct (zone_y_offset g =? 0).
    + replace (j * num_points_x g + i - (num_points_x g - 1))
        with ((j - 1) * num_points_x g + 1 + i) by lia.
      replace ((j - 1) * num_points_x g + 1 + i + 1)
        with ((j - 1) * num_points_x g + 1 + (i + 1)) by lia.
      replace ((j - 1) * num_points_x g + 1 + i + num_points_x g + 1)
        with ((j + 1 - 1) * num_points_x g + 1 + (i + 1)) by lia.
      replace ((j - 1) * num_points_x g + 1 + i + num_points_x g)
        with ((j + 1 - 1) * num_points_x g + 1 + i) by lia.
      rewrite A0, A1, A2, A3.
      repeat split; apply f_equal2; lia.
    + replace (j * num_points_x g + i + 1)
        with (j * num_points_x g + (i + 1)) by lia.
      replace (j * num_points_x g + i + num_points_x g + 1)
        with ((j + 1) * num_points_x g + (i + 1)) by lia.
      replace (j * num_points_x g + i + num_points_x g)
        with ((j + 1) * num_points_x g + i) by lia.
      rewrite A0, A1, A2, A3.
      repeat split; apply f_equal2; lia.
Qed.

Lemma generatePie_zone_corners_witness :
  exists g,
    calcLocalConstants (fun _ => 0) (fun _ => 0)
      (with_procs 2 1 (initial_mesh (mkInputParameters "pie" 4 2 2 1))) 1
    = Ok g
    /\ vget (zonesize (generatePie g empty_mesh)) (0 * nzones_x g + 1) = 3.
Proof.
  eexists. split; [vm_compute; reflexivity|].
  match goal with |- vget (zonesize (generatePie ?g _)) _ = _ =>
    apply (generatePie_zone_corners (fun _ => 0) (fun _ => 0)
             (with_procs 2 1 (initial_mesh (mkInputParameters "pie" 4 2 2 1))) 1
             g 1 0)
  end;
    try (simpl; lia); vm_compute; try reflexivity; split; congruence.
Defined.

(** The grid position behind a local index of a pie rank, with the
    coordinates the generator stores there and the ID the mapper returns:
    either the pole, with ID 0, or a point of a global row [gj >= 1]. *)
Lemma pie_slot_global (g : GenerateMesh) (p : Z) :
  constructed g -> 0 <= my_color g < num_proc_x g * num_proc_y g ->
  0 <= p < vsize (pointpos (generatePie g empty_mesh)) ->
  (nth (Z.to_nat p) (pointpos (generatePie g empty_mesh)) Zero2 = PieOrigin
   /\ pointLocalToGlobalIDPie g p = Ok 0)
  \/ exists gi gj,
       0 <= gi <= global_nzones_x g /\ 1 <= gj <= global_nzones_y g
       /\ nth (Z.to_nat p) (pointpos (generatePie g empty_mesh)) Zero2
          = PiePoint (global_nzones_x g - gi) gj
       /\ pointLocalToGlobalIDPie g p
          = Ok ((global_nzones_x g + 1) * (gj - 1) + 1 + gi).
Proof.
  intros C Hc Hp.
  destruct (constructed_extent g C Hc) as (_ & _ & _ & X1 & X2 & Y1 & Y2).
  pose proof (c_ptx _ C) as Hptx. pose proof (c_nzx _ C).
  pose proof (c_pty _ C) as Hpty. pose proof (c_nzy _ C).
  rewrite pie_pointpos_size in Hp by lia.
  unfold pointLocalToGlobalIDPie, cdiv.
  destruct (Z.eqb_spec (num_points_x g) 0) as [|_]; [lia|].
  destruct (Z.eqb_spec (zone_y_offset g) 0) as [E0|E0].
  - destruct (Z.eqb_spec p 0) as [->|Hp0]; cbn [andb bind].
    + left. split; [apply pie_pole_at; lia|reflexivity].
    + right. rewrite Z.quot_div_nonneg by lia.
      set (q := (p - 1) / num_points_x g).
      pose proof (Z.div_mod (p - 1) (num_points_x g) ltac:(lia)) as E.
      pose proof (Z.mod_pos_bound (p - 1) (num_points_x g) ltac:(lia)) as B.
      fold q in E.
      assert (Hq : 0 <= q < num_points_y g - 1).
      { unfold q. split; [apply Z.div_pos; lia|].
        apply Z.div_lt_upper_bound; lia. }
      set (i := (p - 1) mod num_points_x g) in *.
      exists (i + zone_x_offset g), (q + 1 + zone_y_offset g).
      split; [lia|]. split; [lia|]. split.
      * pose proof (pie_point_at g i (q + 1) ltac:(lia) ltac:(lia) ltac:(lia)
                      ltac:(lia)) as A.
        destruct (Z.eqb_spec (zone_y_offset g) 0) as [_|]; [|contradiction].
        replace ((q + 1 - 1) * num_points_x g + 1 + i) with p in A by lia.
        exact A.
      * f_equal. nia.
  - cbn [andb bind]. right. rewrite Z.quot_div_nonneg by lia.
    set (q := p / num_points_x g).
    pose proof (Z.div_mod p (num_points_x g) ltac:(lia)) as E.
    pose proof (Z.mod_pos_bound p (num_points_x g) ltac:(lia)) as B.
    fold q in E.
    assert (Hq : 0 <= q < num_points_y g).
    { unfold q. split; [apply Z.div_pos; lia|].
      apply Z.div_lt_upper_bound; lia. }
    set (i := p mod num_points_x g) in *.
    exists (i + zone_x_offset g), (q + zone_y_offset g).
    split; [lia|]. split; [lia|]. split.
    + pose proof (pie_point_at g i q ltac:(lia) ltac:(lia) ltac:(lia)
                    ltac:(lia)) as A.
      destruct (Z.eqb_spec (zone_y_offset g) 0) as [|_]; [contradiction|].
      replace (q * num_points_x g + i) with p in A by lia.
      exact A.
    + f_equal. nia.
Qed.

(** X10. On a pie mesh the global ID identifies the grid point: on any two
    ranks of one decomposition, two local points receive the same global ID
    exactly when the generator stores the same coordinates for them; the
    pole has ID 0 on every rank that holds it, and every ID lies in
    [0, 1 + (global_nzones_x + 1) * global_nzones_y). *)
Theorem pie_global_id_identifies_point
    (xStart yStart nprev : GenerateMesh -> Z -> Z)
    (raw_g1 raw_l1 raw_g2 raw_l2 : nat -> Z)
    (g0 : GenerateMesh) (c1 c2 : Z) (g1 g2 : GenerateMesh) (p1 p2 : Z) :
  meshtype g0 = "pie"%string ->
  1 <= global_nzones_x g0 -> 1 <= global_nzones_y g0 ->
  1 <= num_proc_x g0 -> 1 <= num_proc_y g0 ->
  0 <= c1 < num_proc_x g0 * num_proc_y g0 ->
  0 <= c2 < num_proc_x g0 * num_proc_y g0 ->
  calcLocalConstants raw_g1 raw_l1 g0 c1 = Ok g1 ->
  calcLocalConstants raw_g2 raw_l2 g0 c2 = Ok g2 ->
  0 <= p1 < vsize (pointpos (generatePie g1 empty_mesh)) ->
  0 <= p2 < vsize (pointpos (generatePie g2 empty_mesh)) ->
  exists id1 id2,
    pointLocalToGlobalID xStart yStart nprev g1 p1 = Ok id1
    /\ pointLocalToGlobalID xStart yStart nprev g2 p2 = Ok id2
    /\ 0 <= id1 < 1 + (global_nzones_x g0 + 1) * global_nzones_y g0
    /\ (id1 = 0 <->
        nth (Z.to_nat p1) (pointpos (generatePie g1 empty_mesh)) Zero2
        = PieOrigin)
    /\ (id1 = id2 <->
        nth (Z.to_nat p1) (pointpos (generatePie g1 empty_mesh)) Zero2
        = nth (Z.to_nat p2) (pointpos (generatePie g2 empty_mesh)) Zero2).
Proof.
  intros Hmt Hgx Hgy Hpx Hpy Hc1 Hc2 Hcalc1 Hcalc2 Hp1 Hp2.
  destruct (calcLocalConstants_constructed _ _ _ _ _ Hgx Hgy Hpx Hpy Hcalc1)
    as (C1 & M1 & Gx1 & Gy1 & _ & Px1 & Py1 & Col1).
  destruct (calcLocalConstants_constructed _ _ _ _ _ Hgx Hgy Hpx Hpy Hcalc2)
    as (C2 & M2 & Gx2 & Gy2 & _ & Px2 & Py2 & Col2).
  unfold pointLocalToGlobalID. rewrite M1, M2, Hmt.
  cbn [String.eqb Ascii.eqb Bool.eqb].
  destruct (pie_slot_global g1 p1 C1) as [[-> ->]|(gi1 & gj1 & X1 & Y1 & -> & ->)];
    [rewrite Col1, Px1, Py1; exact Hc1|exact Hp1| |];
    (destruct (pie_slot_global g2 p2 C2)
       as [[-> ->]|(gi2 & gj2 & X2 & Y2 & -> & ->)];
     [rewrite Col2, Px2, Py2; exact Hc2|exact Hp2| |]);
    rewrite ?Gx1, ?Gy1, ?Gx2, ?Gy2 in *;
    eexists _, _; (split; [reflexivity|]); (split; [reflexivity|]);
    (split; [nia|]).
  - split; split; reflexivity.
  - split; [split; reflexivity|]. split; [intros E; nia|discriminate].
  - split; [split; [intros E; nia|discriminate]|].
    split; [intros E; nia|discriminate].
  - split; [split; [intros E; nia|discriminate]|]. split.
    + intros E.
      assert (E' : (global_nzones_x g0 + 1) * (gj1 - 1) + gi1
                   = (global_nzones_x g0 + 1) * (gj2 - 1) + gi2) by lia.
      apply raster_injective in E'; [|lia|lia].
      destruct E' as [-> E']. replace gj1 with gj2 by lia. reflexivity.
    + intros E. injection E as E1 E2. subst gj2.
      replace gi2 with gi1 by lia. reflexivity.
Qed.

Lemma pie_global_id_identifies_point_witness :
  exists g1 g2,
    calcLocalConstants (fun _ => 0) (fun _ => 0)
      (with_procs 2 1 (initial_mesh (mkInputParameters "pie" 4 2 2 0))) 0
    = Ok g1
    /\ calcLocalConstants (fun _ => 0) (fun _ => 0)
         (with_procs 2 1 (initial_mesh (mkInputParameters "pie" 4 2 2 0))) 1
       = Ok g2
    /\ exists id1 id2,
         pointLocalToGlobalID (fun _ _ => 0) (fun _ _ => 0) (fun _ _ => 0) g1 3
         = Ok id1
         /\ pointLocalToGlobalID (fun _ _ => 0) (fun _ _ => 0) (fun _ _ => 0) g2 1
            = Ok id2
         /\ 0 <= id1 < 1 + (4 + 1) * 2
         /\ (id1 = 0 <->
             nth 3 (pointpos (generatePie g1 empty_mesh)) Zero2 = PieOrigin)
         /\ (id1 = id2 <->
             nth 3 (pointpos (generatePie g1 empty_mesh)) Zero2
             = nth 1 (pointpos (generatePie g2 empty_mesh)) Zero2).
Proof.
  eexists. eexists. split; [vm_compute; reflexivity|].
  split; [vm_compute; reflexivity|].
  apply (pie_global_id_identifies_point (fun _ _ => 0) (fun _ _ => 0)
           (fun _ _ => 0) (fun _ => 0) (fun _ => 0) (fun _ => 0) (fun _ => 0)
           (with_procs 2 1 (initial_mesh (mkInputParameters "pie" 4 2 2 0)))
           0 1 _ _ 3 1);
    try reflexivity; try (simpl; lia); vm_compute; split; congruence.
Defined.

(** ** The counting pass of the hex halo enumerator *)

(** Two loops over the same range that keep a relation between their
    states. *)
Lemma for_related {S T : Type} (R : S -> T -> Prop) (lo hi : Z)
    (body : Z -> S -> S) (body' : Z -> T -> T) (s : S) (t : T) :
  R s t ->
  (forall i s' t', lo <= i < hi -> R s' t' -> R (body i s') (body' i t')) ->
  R (for_ lo hi body s) (for_ lo hi body' t).
Proof.
  intros H0 Hstep. unfold for_.
  assert (Hin : forall i, In i (zrange lo hi) -> lo <= i < hi)
    by (intros i; apply in_zrange).
  revert s t H0. induction (zrange lo hi) as [|x l IH]; intros s t H0; simpl.
  - exact H0.
  - apply IH.
    + intros i Hi. apply Hin. now right.
    + apply Hstep; [apply Hin; now left | exact H0].
Qed.

Lemma hex_count_points (g : GenerateMesh) (m : mesh_out) :
  pointpos m = [] ->
  fst (hex_count g) = vsize (pointpos (fst (hex_points g m)))
  /\ snd (hex_count g) = snd (hex_points g m).
Proof.
  intros Hm. unfold hex_count, hex_points.
  apply (for_related (fun (c : Z * vec) (s : mesh_out * vec) =>
           fst c = vsize (pointpos (fst s)) /\ snd c = snd s)).
  - cbn [fst snd]. rewrite Hm. split; reflexivity.
  - intros j [np pb] [m' pb'] _ [Hnp Hpb]. cbn [fst snd] in *. subst pb'.
    split; [|now rewrite Hnp].
    apply (for_related (fun (c : Z) (s : mesh_out) => c = vsize (pointpos s)));
      [exact Hnp|].
    intros i c s _ ->.
    repeat match goal with |- context [if ?b then _ else _] => destruct b end;
      unfold push_pointpos, with_pointpos, push_back; cbn [pointpos];
      rewrite ?vsize_app; unfold vsize; simpl; lia.
Qed.

(** X11. The counting loop at the head of [generateHaloPointsHex] repeats the
    point loop of [generateHex] without storing anything: the [np] it
    arrives at is the number of points the generator stores, and its
    [pbase] is the generator's [pbase], entry by entry. *)
Theorem hex_count_matches_generator (g : GenerateMesh) :
  fst (hex_count g) = vsize (pointpos (generateHex g empty_mesh))
  /\ snd (hex_count g) = snd (hex_points g empty_mesh).
Proof.
  rewrite generateHex_zones.
  destruct (add_zones_fields
              (grid (nzones_y g) (nzones_x g)
                 (hex_zone g (snd (hex_points g empty_mesh))))
              (fst (hex_points g empty_mesh))) as (-> & _).
  apply hex_count_points. reflexivity.
Qed.

(** ** Every block of an enumerator appends whole relations *)

Lemma loop_pushes {St : Type} (get : St -> halo) (push : Z -> halo -> halo)
    (lo hi : Z) (body : Z -> St -> St) (s : St) :
  (forall i s', lo <= i < hi ->
     exists l, get (body i s') = fold_left (fun h x => push x h) l (get s')) ->
  exists l, get (for_ lo hi body s) = fold_left (fun h x => push x h) l (get s).
Proof.
  intros H.
  apply (for_invariant (fun s' =>
           exists l, get s' = fold_left (fun h x => push x h) l (get s))).
  - exists []. reflexivity.
  - intros i s' Hi [l Hl]. destruct (H i s' Hi) as [l' Hl'].
    exists (l ++ l'). rewrite fold_left_app, <- Hl. exact Hl'.
Qed.

Lemma halo_of_snoc_slave (rs rm : list (Z * vec)) (c : Z) (l : vec) :
  halo_of (rs ++ [(c, l)]) rm
  = mkHalo (map fst rs ++ [c]) (map (fun r => vsize (snd r)) rs ++ [vsize l])
      (concat (map snd rs) ++ l)
      (map fst rm) (map (fun r => vsize (snd r)) rm) (concat (map snd rm)).
Proof.
  unfold halo_of. rewrite !map_app, concat_app. cbn [map concat fst snd].
  now rewrite app_nil_r.
Qed.

Lemma halo_of_snoc_master (rs rm : list (Z * vec)) (c : Z) (l : vec) :
  halo_of rs (rm ++ [(c, l)])
  = mkHalo (map fst rs) (map (fun r => vsize (snd r)) rs) (concat (map snd rs))
      (map fst rm ++ [c]) (map (fun r => vsize (snd r)) rm ++ [vsize l])
      (concat (map snd rm) ++ l).
Proof.
  unfold halo_of. rewrite !map_app, concat_app. cbn [map concat fst snd].
  now rewrite app_nil_r.
Qed.

(** Closing a slave relation: the colour and the count
    [slaved_points.size() - oldsize] are pushed after the points. *)
Lemma close_slave (c : Z) (l : vec) (rs rm : list (Z * vec)) :
  let h := push_master_color c
             (fold_left (fun h x => push_slaved_point x h) l (halo_of rs rm)) in
  push_slaved_count (vsize (slaved_points h) - vsize (slaved_points (halo_of rs rm))) h
  = halo_of (rs ++ [(c, l)]) rm.
Proof.
  cbv zeta. rewrite halo_of_snoc_slave. unfold halo_of.
  rewrite push_slaved_points.
  unfold push_slaved_count, push_master_color, push_back.
  cbn [master_colors slaved_points_counts slaved_points slave_colors
       master_points_counts master_points].
  rewrite vsize_app. do 3 f_equal. lia.
Qed.

Lemma close_master (c : Z) (l : vec) (rs rm : list (Z * vec)) :
  let h := push_slave_color c
             (fold_left (fun h x => push_master_point x h) l (halo_of rs rm)) in
  push_master_count (vsize (master_points h) - vsize (master_points (halo_of rs rm))) h
  = halo_of rs (rm ++ [(c, l)]).
Proof.
  cbv zeta. rewrite halo_of_snoc_master. unfold halo_of.
  rewrite push_master_points.
  unfold push_master_count, push_slave_color, push_back.
  cbn [master_colors slaved_points_counts slaved_points slave_colors
       master_points_counts master_points].
  rewrite vsize_app. do 3 f_equal. lia.
Qed.

(** One loop body step pushes no, one or two points. *)
Ltac pushes_some :=
  first [ exists []; reflexivity
        | eexists (cons _ nil); reflexivity
        | eexists (cons _ (cons _ nil)); reflexivity ].

(** A block whose loop carries the pair [(h, p)]. *)
Ltac pair_loop_block push close :=
  cbv zeta;
  match goal with
  | |- context [for_ ?lo ?hi ?body (?h0, ?p0)] =>
      let l := fresh "l" in
      let Hl := fresh "Hl" in
      destruct (loop_pushes fst push lo hi body (h0, p0)) as [l Hl];
      [ intros ? [? ?] _; cbv beta iota; split_branches; cbn [fst]; pushes_some
      | destruct (for_ lo hi body (h0, p0)) as [? ?]; cbn [fst] in Hl; subst;
        exists l; apply close ]
  end.

(** A block whose loop carries the halo alone. *)
Ltac halo_loop_block push close :=
  cbv zeta;
  match goal with
  | |- context [for_ ?lo ?hi ?body ?h0] =>
      let l := fresh "l" in
      let Hl := fresh "Hl" in
      destruct (loop_pushes (fun h : halo => h) push lo hi body h0) as [l Hl];
      [ intros ? ? _; cbv beta zeta; split_branches; pushes_some
      | cbv beta in Hl; rewrite Hl; exists l; apply close ]
  end.

Ltac no_relation := exists []; rewrite !app_nil_r; reflexivity.

Lemma rect_slave_lower_left_rel (g : GenerateMesh) (rs rm : list (Z * vec)) :
  exists l,
    rect_slave_lower_left g (halo_of rs rm)
    = halo_of (rs ++ (if (0 <? proc_index_x g) && (0 <? proc_index_y g)
                      then [(my_color g - num_proc_x g - 1, l)] else [])) rm.
Proof.
  unfold rect_slave_lower_left.
  destruct ((0 <? proc_index_x g) && (0 <? proc_index_y g)); [|no_relation].
  exists [vget (perm g) 0]. rewrite halo_of_snoc_slave. reflexivity.
Qed.

Lemma rect_slave_below_rel (g : GenerateMesh) (rs rm : list (Z * vec)) :
  exists l,
    rect_slave_below g (halo_of rs rm)
    = halo_of (rs ++ (if 0 <? proc_index_y g
                      then [(my_color g - num_proc_x g, l)] else [])) rm.
Proof.
  unfold rect_slave_below.
  destruct (0 <? proc_index_y g); [|no_relation].
  pair_loop_block push_slaved_point close_slave.
Qed.

Lemma rect_slave_left_rel (g : GenerateMesh) (rs rm : list (Z * vec)) :
  exists l,
    rect_slave_left g (halo_of rs rm)
    = halo_of (rs ++ (if 0 <? proc_index_x g
                      then [(my_color g - 1, l)] else [])) rm.
Proof.
  unfold rect_slave_left.
  destruct (0 <? proc_index_x g); [|no_relation].
  pair_loop_block push_slaved_point close_slave.
Qed.

Lemma rect_master_right_rel (g : GenerateMesh) (rs rm : list (Z * vec)) :
  exists l,
    rect_master_right g (halo_of rs rm)
    = halo_of rs (rm ++ (if proc_index_x g <? num_proc_x g - 1
                         then [(my_color g + 1, l)] else [])).
Proof.
  unfold rect_master_right.
  destruct (proc_index_x g <? num_proc_x g - 1); [|no_relation].
  pair_loop_block push_master_point close_master.
Qed.

Lemma rect_master_above_rel (g : GenerateMesh) (rs rm : list (Z * vec)) :
  exists l,
    rect_master_above g (halo_of rs rm)
    = halo_of rs (rm ++ (if proc_index_y g <? num_proc_y g - 1
                         then [(my_color g + num_proc_x g, l)] else [])).
Proof.
  unfold rect_master_above.
  destruct (proc_index_y g <? num_proc_y g - 1); [|no_relation].
  pair_loop_block push_master_point close_master.
Qed.

Lemma rect_master_upper_right_rel (g : GenerateMesh) (rs rm : list (Z * vec)) :
  exists l,
    rect_master_upper_right g (halo_of rs rm)
    = halo_of rs (rm ++ (if (proc_index_x g <? num_proc_x g - 1)
                            && (proc_index_y g <? num_proc_y g - 1)
                         then [(my_color g + num_proc_x g + 1, l)] else [])).
Proof.
  unfold rect_master_upper_right.
  destruct ((proc_index_x g <? num_proc_x g - 1)
            && (proc_index_y g <? num_proc_y g - 1)); [|no_relation].
  eexists [_]. rewrite halo_of_snoc_master. reflexivity.
Qed.

Lemma pie_slave_lower_left_rel (g : GenerateMesh) (rs rm : list (Z * vec)) :
  exists l,
    pie_slave_lower_left g (halo_of rs rm)
    = halo_of (rs ++ (if negb (proc_index_x g =? 0) && negb (proc_index_y g =? 0)
                      then [(my_color g - num_proc_x g - 1, l)] else [])) rm.
Proof.
  unfold pie_slave_lower_left.
  destruct (negb (proc_index_x g =? 0) && negb (proc_index_y g =? 0));
    [|no_relation].
  eexists [_]. rewrite halo_of_snoc_slave. reflexivity.
Qed.

Lemma pie_slave_below_rel (g : GenerateMesh) (rs rm : list (Z * vec)) :
  exists l,
    pie_slave_below g (halo_of rs rm)
    = halo_of (rs ++ (if negb (proc_index_y g =? 0)
                      then [(my_color g - num_proc_x g, l)] else [])) rm.
Proof.
  unfold pie_slave_below.
  destruct (negb (proc_index_y g =? 0)); [|no_relation].
  pair_loop_block push_slaved_point close_slave.
Qed.

(** The slave relation towards the left neighbour; on the ranks of the
    bottom processor row the pole is slaved as well, to rank 0, in a relation
    of its own unless rank 0 is the left neighbour. *)
Lemma pie_slave_left_rel (g : GenerateMesh) (rs rm : list (Z * vec)) :
  exists l,
    pie_slave_left g (halo_of rs rm)
    = halo_of (rs ++ (if negb (proc_index_x g =? 0)
                      then (if (proc_index_y g =? 0) && (1 <? proc_index_x g)
                            then [(0, [0])] else [])
                           ++ [(my_color g - 1, l)]
                      else [])) rm.
Proof.
  unfold pie_slave_left.
  destruct (negb (proc_index_x g =? 0)); [|no_relation].
  destruct (proc_index_y g =? 0); [destruct (1 <? proc_index_x g)|];
    cbn [andb app].
  - cbv zeta.
    replace (push_slaved_count 1
               (push_master_color 0 (push_slaved_point 0 (halo_of rs rm))))
      with (halo_of (rs ++ [(0, [0])]) rm)
      by (rewrite halo_of_snoc_slave; reflexivity).
    replace (vsize (slaved_points (halo_of rs rm)) + 1)
      with (vsize (slaved_points (halo_of (rs ++ [(0, [0])]) rm)))
      by (rewrite halo_of_snoc_slave; cbn [slaved_points halo_of];
          rewrite vsize_app; reflexivity).
    match goal with
    | |- context [for_ ?lo ?hi ?body (?h0, ?p0)] =>
        destruct (loop_pushes fst push_slaved_point lo hi body (h0, p0))
          as [l Hl];
        [ intros ? [? ?] _; cbv beta iota; cbn [fst]; pushes_some
        | destruct (for_ lo hi body (h0, p0)) as [? ?]; cbn [fst] in Hl; subst;
          exists l ]
    end.
    replace (rs ++ [(0, [0]); (my_color g - 1, l)])
      with ((rs ++ [(0, [0])]) ++ [(my_color g - 1, l)])
      by (now rewrite <- app_assoc).
    apply close_slave.
  - cbv zeta.
    match goal with
    | |- context [for_ ?lo ?hi ?body (?h0, ?p0)] =>
        destruct (loop_pushes fst push_slaved_point lo hi body (h0, p0))
          as [l Hl];
        [ intros ? [? ?] _; cbv beta iota; cbn [fst]; pushes_some
        | destruct (for_ lo hi body (h0, p0)) as [? ?]; cbn [fst] in Hl; subst;
          exists (0 :: l);
          exact (close_slave (my_color g - 1) (0 :: l) rs rm) ]
    end.
  - pair_loop_block push_slaved_point close_slave.
Qed.

Lemma origin_relations (n : Z) (rs rm : list (Z * vec)) :
  for_ 2 n (fun slave_proc h =>
    push_master_count 1 (push_slave_color slave_proc (push_master_point 0 h)))
    (halo_of rs rm)
  = halo_of rs (rm ++ map (fun slave_proc => (slave_proc, [0])) (zrange 2 n)).
Proof.
  destruct (Z.le_gt_cases n 2) as [Hle|Hgt].
  - rewrite for_nil, zrange_nil by lia. cbn [map]. now rewrite app_nil_r.
  - replace n with (2 + Z.of_nat (Z.to_nat (n - 2))) by lia.
    induction (Z.to_nat (n - 2)) as [|k IH].
    + rewrite for_nil, zrange_nil by lia. cbn [map]. now rewrite app_nil_r.
    + replace (2 + Z.of_nat (S k)) with (2 + Z.of_nat k + 1) by lia.
      rewrite for_snoc, zrange_snoc, IH by lia.
      rewrite map_app, app_assoc. cbn [map].
      rewrite halo_of_snoc_master. reflexivity.
Qed.

(** The master relation towards the right neighbour; rank 0 also lists the
    pole, as master for the right neighbour and then once per further rank of
    the bottom processor row. *)
Lemma pie_master_right_rel (g : GenerateMesh) (rs rm : list (Z * vec)) :
  exists l,
    pie_master_right g (halo_of rs rm)
    = halo_of rs
        (rm ++ (if negb (proc_index_x g =? num_proc_x g - 1)
                then (my_color g + 1, l)
                     :: (if (proc_index_x g =? 0) && (proc_index_y g =? 0)
                         then map (fun slave_proc => (slave_proc, [0]))
                                (zrange 2 (num_proc_x g))
                         else [])
                else [])).
Proof.
  unfold pie_master_right.
  destruct (negb (proc_index_x g =? num_proc_x g - 1)); [|no_relation].
  destruct ((proc_index_x g =? 0) && (proc_index_y g =? 0)).
  - cbv zeta.
    match goal with
    | |- context [for_ ?lo ?hi ?body (?h0, ?p0)] =>
        destruct (loop_pushes fst push_master_point lo hi body (h0, p0))
          as [l Hl];
        [ intros ? [? ?] _; cbv beta iota; cbn [fst]; pushes_some
        | destruct (for_ lo hi body (h0, p0)) as [? ?]; cbn [fst] in Hl; subst;
          exists (0 :: l) ]
    end.
    match goal with
    | |- for_ 2 _ _ ?h = _ =>
        replace h with (halo_of rs (rm ++ [(my_color g + 1, 0 :: l)]))
          by (symmetry; exact (close_master (my_color g + 1) (0 :: l) rs rm))
    end.
    rewrite origin_relations, <- app_assoc. reflexivity.
  - pair_loop_block push_master_point close_master.
Qed.

Lemma pie_master_above_rel (g : GenerateMesh) (rs rm : list (Z * vec)) :
  exists l,
    pie_master_above g (halo_of rs rm)
    = halo_of rs (rm ++ (if negb (proc_index_y g =? num_proc_y g - 1)
                         then [(my_color g + num_proc_x g, l)] else [])).
Proof.
  unfold pie_master_above.
  destruct (negb (proc_index_y g =? num_proc_y g - 1)); [|no_relation].
  pair_loop_block push_master_point close_master.
Qed.

Lemma pie_master_upper_right_rel (g : GenerateMesh) (rs rm : list (Z * vec)) :
  exists l,
    pie_master_upper_right g (halo_of rs rm)
    = halo_of rs (rm ++ (if negb (proc_index_x g =? num_proc_x g - 1)
                            && negb (proc_index_y g =? num_proc_y g - 1)
                         then [(my_color g + num_proc_x g + 1, l)] else [])).
Proof.
  unfold pie_master_upper_right.
  destruct (negb (proc_index_x g =? num_proc_x g - 1)
            && negb (proc_index_y g =? num_proc_y g - 1)); [|no_relation].
  eexists [_]. rewrite halo_of_snoc_master. reflexivity.
Qed.

Lemma hex_slave_lower_left_rel (g : GenerateMesh) (rs rm : list (Z * vec)) :
  exists l,
    hex_slave_lower_left g (halo_of rs rm)
    = halo_of (rs ++ (if negb (proc_index_x g =? 0) && negb (proc_index_y g =? 0)
                      then [(my_color g - num_proc_x g - 1, l)] else [])) rm.
Proof.
  unfold hex_slave_lower_left.
  destruct (negb (proc_index_x g =? 0) && negb (proc_index_y g =? 0));
    [|no_relation].
  eexists [_; _]. rewrite halo_of_snoc_slave. unfold halo_of.
  unfold push_slaved_count, push_master_color, push_slaved_point, push_back.
  cbn [master_colors slaved_points_counts slaved_points slave_colors
       master_points_counts master_points].
  rewrite <- app_assoc. reflexivity.
Qed.

Lemma hex_slave_below_rel (g : GenerateMesh) (rs rm : list (Z * vec)) :
  exists l,
    hex_slave_below g (halo_of rs rm)
    = halo_of (rs ++ (if negb (proc_index_y g =? 0)
                      then [(my_color g - num_proc_x g, l)] else [])) rm.
Proof.
  unfold hex_slave_below.
  destruct (negb (proc_index_y g =? 0)); [|no_relation].
  pair_loop_block push_slaved_point close_slave.
Qed.

Lemma hex_slave_left_rel (g : GenerateMesh) (pbase : vec)
    (rs rm : list (Z * vec)) :
  exists l,
    hex_slave_left g pbase (halo_of rs rm)
    = halo_of (rs ++ (if negb (proc_index_x g =? 0)
                      then [(my_color g - 1, l)] else [])) rm.
Proof.
  unfold hex_slave_left.
  destruct (negb (proc_index_x g =? 0)); [|no_relation].
  halo_loop_block push_slaved_point close_slave.
Qed.

Lemma hex_master_right_rel (g : GenerateMesh) (np : Z) (pbase : vec)
    (rs rm : list (Z * vec)) :
  exists l,
    hex_master_right g np pbase (halo_of rs rm)
    = halo_of rs (rm ++ (if negb (proc_index_x g =? num_proc_x g - 1)
                         then [(my_color g + 1, l)] else [])).
Proof.
  unfold hex_master_right.
  destruct (negb (proc_index_x g =? num_proc_x g - 1)); [|no_relation].
  halo_loop_block push_master_point close_master.
Qed.

Lemma hex_master_above_rel (g : GenerateMesh) (pbase : vec)
    (rs rm : list (Z * vec)) :
  exists l,
    hex_master_above g pbase (halo_of rs rm)
    = halo_of rs (rm ++ (if negb (proc_index_y g =? num_proc_y g - 1)
                         then [(my_color g + num_proc_x g, l)] else [])).
Proof.
  unfold hex_master_above.
  destruct (negb (proc_index_y g =? num_proc_y g - 1)); [|no_relation].
  pair_loop_block push_master_point close_master.
Qed.

Lemma hex_master_upper_right_rel (g : GenerateMesh) (np : Z)
    (rs rm : list (Z * vec)) :
  exists l,
    hex_master_upper_right g np (halo_of rs rm)
    = halo_of rs (rm ++ (if negb (proc_index_x g =? num_proc_x g - 1)
                            && negb (proc_index_y g =? num_proc_y g - 1)
                         then [(my_color g + num_proc_x g + 1, l)] else [])).
Proof.
  unfold hex_master_upper_right.
  destruct (negb (proc_index_x g =? num_proc_x g - 1)
            && negb (proc_index_y g =? num_proc_y g - 1)); [|no_relation].
  eexists [_; _]. rewrite halo_of_snoc_master. unfold halo_of.
  unfold push_master_count, push_slave_color, push_master_point, push_back.
  cbn [master_colors slaved_points_counts slaved_points slave_colors
       master_points_counts master_points].
  rewrite <- app_assoc. reflexivity.
Qed.

(** ** The relations of a whole halo *)

Ltac step_block lem :=
  match goal with
  | |- context [?blk (halo_of ?rs ?rm)] =>
      let E := fresh "E" in
      destruct (lem rs rm) as [? E]; rewrite E; clear E
  end.

Lemma rect_halo_relations (g : GenerateMesh) :
  exists rs rm,
    rect_master_upper_right g (rect_master_above g (rect_master_right g
      (rect_slave_left g (rect_slave_below g
        (rect_slave_lower_left g empty_halo)))))
    = halo_of rs rm
    /\ map fst rs = rect_masters g /\ map fst rm = rect_slaves g.
Proof.
  change empty_halo with (halo_of [] []).
  step_block (rect_slave_lower_left_rel g).
  step_block (rect_slave_below_rel g).
  step_block (rect_slave_left_rel g).
  step_block (rect_master_right_rel g).
  step_block (rect_master_above_rel g).
  step_block (rect_master_upper_right_rel g).
  eexists _, _. split; [reflexivity|].
  unfold rect_masters, rect_slaves.
  split; rewrite !map_app; split_branches; reflexivity.
Qed.

Lemma pie_halo_relations (g : GenerateMesh) :
  exists rs rm,
    pie_master_upper_right g (pie_master_above g (pie_master_right g
      (pie_slave_left g (pie_slave_below g
        (pie_slave_lower_left g empty_halo)))))
    = halo_of rs rm
    /\ map fst rs = pie_masters g /\ map fst rm = pie_slaves g.
Proof.
  change empty_halo with (halo_of [] []).
  step_block (pie_slave_lower_left_rel g).
  step_block (pie_slave_below_rel g).
  step_block (pie_slave_left_rel g).
  step_block (pie_master_right_rel g).
  step_block (pie_master_above_rel g).
  step_block (pie_master_upper_right_rel g).
  eexists _, _. split; [reflexivity|].
  unfold pie_masters, pie_slaves.
  split; rewrite !map_app; split_branches; cbn [map fst app];
    rewrite ?map_app, ?map_map; cbn [map fst]; rewrite ?map_id, <- ?app_assoc;
    reflexivity.
Qed.

Lemma hex_halo_relations (g : GenerateMesh) (np : Z) (pbase : vec) :
  exists rs rm,
    hex_master_upper_right g np (hex_master_above g pbase
      (hex_master_right g np pbase
        (hex_slave_left g pbase (hex_slave_below g
          (hex_slave_lower_left g empty_halo)))))
    = halo_of rs rm
    /\ map fst rs = hex_masters g /\ map fst rm = hex_slaves g.
Proof.
  change empty_halo with (halo_of [] []).
  step_block (hex_slave_lower_left_rel g).
  step_block (hex_slave_below_rel g).
  step_block (hex_slave_left_rel g pbase).
  step_block (hex_master_right_rel g np pbase).
  step_block (hex_master_above_rel g pbase).
  step_block (hex_master_upper_right_rel g np).
  eexists _, _. split; [reflexivity|].
  unfold hex_masters, hex_slaves.
  split; rewrite !map_app; split_branches; reflexivity.
Qed.

(** Whatever [generateHaloPoints] returns on empty vectors is a list of
    relations towards [master_neighbours] and [slave_neighbours]. *)
Lemma halo_relations (g : GenerateMesh) (h : halo) :
  generateHaloPoints g empty_halo = Ok h ->
  exists rs rm,
    h = halo_of rs rm
    /\ map fst rs = master_neighbours g /\ map fst rm = slave_neighbours g.
Proof.
  unfold generateHaloPoints, master_neighbours, slave_neighbours.
  unfold generateHaloPointsPie, generateHaloPointsRect, generateHaloPointsHex.
  destruct (num_subregions g =? 1).
  - assert (E : h = empty_halo -> exists rs rm,
              h = halo_of rs rm /\ map fst rs = [] /\ map fst rm = []).
    { intros ->. exists [], []. repeat split. }
    destruct (String.eqb (meshtype g) "pie");
      [intros H; injection H as <-; now apply E|].
    destruct (String.eqb (meshtype g) "rect");
      [intros H; injection H as <-; now apply E|].
    destruct (String.eqb (meshtype g) "hex");
      [intros H; injection H as <-; now apply E|].
    destruct (assert _); cbn [bind]; try discriminate.
    intros H; injection H as <-; now apply E.
  - destruct (String.eqb (meshtype g) "pie").
    { intros H. injection H as <-. apply pie_halo_relations. }
    destruct (String.eqb (meshtype g) "rect").
    { intros H. injection H as <-. apply rect_halo_relations. }
    destruct (String.eqb (meshtype g) "hex").
    { intros H. injection H as <-.
      rewrite (surjective_pairing (hex_count g)). apply hex_halo_relations. }
    destruct (assert _); cbn [bind]; try discriminate.
    intros H. injection H as <-. exists [], []. repeat split.
Qed.

Lemma zsum_sizes (segs : list vec) :
  zsum (map vsize segs) = vsize (concat segs).
Proof.
  induction segs as [|l segs IH].
  - reflexivity.
  - cbn [map concat zsum fold_right]. fold (zsum (map vsize segs)).
    rewrite vsize_app, IH. reflexivity.
Qed.

(** X12. Whatever the rank and the family, the six vectors
    [generateHaloPoints] fills describe whole relations: there is one count
    per neighbour colour, no count is negative, and the counts add up to the
    length of the point list, on the slave side and on the master side. *)
Theorem halo_counts_tile_points (g : GenerateMesh) (h : halo) :
  generateHaloPoints g empty_halo = Ok h ->
  vsize (master_colors h) = vsize (slaved_points_counts h)
  /\ zsum (slaved_points_counts h) = vsize (slaved_points h)
  /\ vsize (slave_colors h) = vsize (master_points_counts h)
  /\ zsum (master_points_counts h) = vsize (master_points h)
  /\ forall n, In n (slaved_points_counts h ++ master_points_counts h) -> 0 <= n.
Proof.
  intros H. destruct (halo_relations g h H) as (rs & rm & -> & _ & _).
  unfold halo_of.
  cbn [master_colors slaved_points_counts slaved_points slave_colors
       master_points_counts master_points].
  split; [unfold vsize; now rewrite !length_map|].
  split; [rewrite <- zsum_sizes, map_map; reflexivity|].
  split; [unfold vsize; now rewrite !length_map|].
  split; [rewrite <- zsum_sizes, map_map; reflexivity|].
  intros n Hn. apply in_app_or in Hn.
  destruct Hn as [Hn|Hn]; apply in_map_iff in Hn;
    destruct Hn as (r & <- & _); apply vsize_nonneg.
Qed.

Lemma halo_counts_tile_points_witness :
  exists g h,
    calcLocalConstants (fun _ => 0) (fun _ => 0)
      (with_procs 3 2 (initial_mesh (mkInputParameters "pie" 6 4 6 0))) 0 = Ok g
    /\ generateHaloPoints g empty_halo = Ok h
    /\ vsize (master_colors h) = vsize (slaved_points_counts h)
    /\ zsum (slaved_points_counts h) = vsize (slaved_points h)
    /\ vsize (slave_colors h) = vsize (master_points_counts h)
    /\ zsum (master_points_counts h) = vsize (master_points h)
    /\ forall n, In n (slaved_points_counts h ++ master_points_counts h) ->
         0 <= n.
Proof.
  eexists. eexists. split; [vm_compute; reflexivity|].
  match goal with |- generateHaloPoints ?g _ = _ /\ _ =>
    split; [vm_compute; reflexivity|];
    apply (halo_counts_tile_points g)
  end.
  vm_compute. reflexivity.
Defined.

(** ** Which ranks a halo names *)

Ltac neighbour_cases :=
  repeat match goal with
  | H : In _ (_ ++ _) |- _ => apply in_app_or in H; destruct H as [H|H]
  | H : In _ (if ?b then _ else _) |- _ => destruct b eqn:?
  | H : In _ (_ :: _) |- _ => destruct H as [H|H]
  | H : In _ [] |- _ => destruct H
  | H : In _ (zrange _ _) |- _ => apply in_zrange in H
  | H : _ && _ = true |- _ => apply andb_true_iff in H; destruct H
  | H : _ && _ = false |- _ => apply andb_false_iff in H; destruct H
  | H : negb _ = true |- _ => apply negb_true_iff in H
  | H : negb _ = false |- _ => apply negb_false_iff in H
  | H : (_ =? _) = true |- _ => apply Z.eqb_eq in H
  | H : (_ =? _) = false |- _ => apply Z.eqb_neq in H
  | H : (_ <? _) = true |- _ => apply Z.ltb_lt in H
  | H : (_ <? _) = false |- _ => apply Z.ltb_ge in H
  end.

Section Neighbours.

Variables gc gd : GenerateMesh.
Variable n : Z.
Hypothesis Hn : 1 <= n.
Hypothesis Hnc : num_proc_x gc = n.
Hypothesis Hnd : num_proc_x gd = n.
Hypothesis Hmy : num_proc_y gd = num_proc_y gc.
Hypothesis Hcx : 0 <= proc_index_x gc < n.
Hypothesis Hcy : 0 <= proc_index_y gc < num_proc_y gc.
Hypothesis Hdx : 0 <= proc_index_x gd < n.
Hypothesis Hdy : 0 <= proc_index_y gd < num_proc_y gc.
Hypothesis Hc : my_color gc = proc_index_y gc * n + proc_index_x gc.
Hypothesis Hd : my_color gd = proc_index_y gd * n + proc_index_x gd.

Lemma coords_of_sum (x y : Z) :
  0 <= x < n ->
  my_color gd = y * n + x -> proc_index_x gd = x /\ proc_index_y gd = y.
Proof.
  intros Hx E. rewrite Hd in E.
  assert (proc_index_y gd = y) by nia. split; [nia|assumption].
Qed.

Lemma coords_of_sum' (x y : Z) :
  0 <= x < n ->
  my_color gc = y * n + x -> proc_index_x gc = x /\ proc_index_y gc = y.
Proof.
  intros Hx E. rewrite Hc in E.
  assert (proc_index_y gc = y) by nia. split; [nia|assumption].
Qed.

Lemma rect_slaves_coords :
  In (my_color gd) (rect_slaves gc)
  <-> is_upper_neighbour (proc_index_x gc) (proc_index_y gc)
        (proc_index_x gd) (proc_index_y gd).
Proof.
  unfold rect_slaves, is_upper_neighbour. rewrite Hnc. split.
  - intros H. neighbour_cases.
    + destruct (coords_of_sum (proc_index_x gc + 1) (proc_index_y gc)); lia.
    + destruct (coords_of_sum (proc_index_x gc) (proc_index_y gc + 1)); lia.
    + destruct (coords_of_sum (proc_index_x gc + 1) (proc_index_y gc + 1)); lia.
  - intros [[E1 E2]|[[E1 E2]|[E1 E2]]]; rewrite Hd, E1, E2, Hc.
    + apply in_or_app. left.
      destruct (Z.ltb_spec (proc_index_x gc) (n - 1)); [|lia]. left. lia.
    + apply in_or_app. right. apply in_or_app. left.
      destruct (Z.ltb_spec (proc_index_y gc) (num_proc_y gc - 1)); [|lia].
      left. lia.
    + apply in_or_app. right. apply in_or_app. right.
      destruct (Z.ltb_spec (proc_index_x gc) (n - 1)); [|lia].
      destruct (Z.ltb_spec (proc_index_y gc) (num_proc_y gc - 1)); [|lia].
      left. lia.
Qed.

Lemma rect_masters_coords :
  In (my_color gc) (rect_masters gd)
  <-> is_upper_neighbour (proc_index_x gc) (proc_index_y gc)
        (proc_index_x gd) (proc_index_y gd).
Proof.
  unfold rect_masters, is_upper_neighbour. rewrite Hnd. split.
  - intros H. neighbour_cases.
    + destruct (coords_of_sum' (proc_index_x gd - 1) (proc_index_y gd - 1)); lia.
    + destruct (coords_of_sum' (proc_index_x gd) (proc_index_y gd - 1)); lia.
    + destruct (coords_of_sum' (proc_index_x gd - 1) (proc_index_y gd)); lia.
  - intros [[E1 E2]|[[E1 E2]|[E1 E2]]]; rewrite Hd, E1, E2, Hc.
    + apply in_or_app. right. apply in_or_app. right.
      destruct (Z.ltb_spec 0 (proc_index_x gc + 1)); [|lia]. left. lia.
    + apply in_or_app. right. apply in_or_app. left.
      destruct (Z.ltb_spec 0 (proc_index_y gc + 1)); [|lia]. left. lia.
    + apply in_or_app. left.
      destruct (Z.ltb_spec 0 (proc_index_x gc + 1)); [|lia].
      destruct (Z.ltb_spec 0 (proc_index_y gc + 1)); [|lia].
      left. lia.
Qed.

Lemma hex_slaves_coords :
  In (my_color gd) (hex_slaves gc)
  <-> is_upper_neighbour (proc_index_x gc) (proc_index_y gc)
        (proc_index_x gd) (proc_index_y gd).
Proof.
  unfold hex_slaves, is_upper_neighbour. rewrite Hnc. split.
  - intros H. neighbour_cases.
    + destruct (coords_of_sum (proc_index_x gc + 1) (proc_index_y gc)); lia.
    + destruct (coords_of_sum (proc_index_x gc) (proc_index_y gc + 1)); lia.
    + destruct (coords_of_sum (proc_index_x gc + 1) (proc_index_y gc + 1)); lia.
  - intros [[E1 E2]|[[E1 E2]|[E1 E2]]]; rewrite Hd, E1, E2, Hc.
    + apply in_or_app. left.
      destruct (Z.eqb_spec (proc_index_x gc) (n - 1)); [lia|]. left. lia.
    + apply in_or_app. right. apply in_or_app. left.
      destruct (Z.eqb_spec (proc_index_y gc) (num_proc_y gc - 1)); [lia|].
      left. lia.
    + apply in_or_app. right. apply in_or_app. right.
      destruct (Z.eqb_spec (proc_index_x gc) (n - 1)); [lia|].
      destruct (Z.eqb_spec (proc_index_y gc) (num_proc_y gc - 1)); [lia|].
      left. lia.
Qed.

Lemma hex_masters_coords :
  In (my_color gc) (hex_masters gd)
  <-> is_upper_neighbour (proc_index_x gc) (proc_index_y gc)
        (proc_index_x gd) (proc_index_y gd).
Proof.
  unfold hex_masters, is_upper_neighbour. rewrite Hnd. split.
  - intros H. neighbour_cases.
    + destruct (coords_of_sum' (proc_index_x gd - 1) (proc_index_y gd - 1)); lia.
    + destruct (coords_of_sum' (proc_index_x gd) (proc_index_y gd - 1)); lia.
    + destruct (coords_of_sum' (proc_index_x gd - 1) (proc_index_y gd)); lia.
  - intros [[E1 E2]|[[E1 E2]|[E1 E2]]]; rewrite Hd, E1, E2, Hc.
    + apply in_or_app. right. apply in_or_app. right.
      destruct (Z.eqb_spec (proc_index_x gc + 1) 0); [lia|]. left. lia.
    + apply in_or_app. right. apply in_or_app. left.
      destruct (Z.eqb_spec (proc_index_y gc + 1) 0); [lia|]. left. lia.
    + apply in_or_app. left.
      destruct (Z.eqb_spec (proc_index_x gc + 1) 0); [lia|].
      destruct (Z.eqb_spec (proc_index_y gc + 1) 0); [lia|].
      left. lia.
Qed.

Lemma pie_slaves_coords :
  In (my_color gd) (pie_slaves gc)
  <-> is_upper_neighbour (proc_index_x gc) (proc_index_y gc)
        (proc_index_x gd) (proc_index_y gd)
      \/ shares_pole (proc_index_x gc) (proc_index_y gc)
           (proc_index_x gd) (proc_index_y gd).
Proof.
  unfold pie_slaves, is_upper_neighbour, shares_pole. rewrite Hnc. split.
  - intros H. neighbour_cases.
    + destruct (coords_of_sum (proc_index_x gc + 1) (proc_index_y gc)); lia.
    + destruct (coords_of_sum (my_color gd) 0); lia.
    + destruct (coords_of_sum (proc_index_x gc) (proc_index_y gc + 1)); lia.
    + destruct (coords_of_sum (proc_index_x gc + 1) (proc_index_y gc + 1)); lia.
  - intros [[[E1 E2]|[[E1 E2]|[E1 E2]]]|(E1 & E2 & E3 & E4)].
    + rewrite Hd, E1, E2, Hc. apply in_or_app. left.
      destruct (Z.eqb_spec (proc_index_x gc) (n - 1)); [lia|]. left. lia.
    + rewrite Hd, E1, E2, Hc. apply in_or_app. right. apply in_or_app. left.
      destruct (Z.eqb_spec (proc_index_y gc) (num_proc_y gc - 1)); [lia|].
      left. lia.
    + rewrite Hd, E1, E2, Hc. apply in_or_app. right. apply in_or_app. right.
      destruct (Z.eqb_spec (proc_index_x gc) (n - 1)); [lia|].
      destruct (Z.eqb_spec (proc_index_y gc) (num_proc_y gc - 1)); [lia|].
      left. lia.
    + apply in_or_app. left. rewrite E1, E2.
      destruct (Z.eqb_spec 0 (n - 1)); [lia|]. cbn [negb Z.eqb andb].
      right. apply in_zrange. rewrite Hd, E3. lia.
Qed.

Lemma pie_masters_coords :
  In (my_color gc) (pie_masters gd)
  <-> is_upper_neighbour (proc_index_x gc) (proc_index_y gc)
        (proc_index_x gd) (proc_index_y gd)
      \/ shares_pole (proc_index_x gc) (proc_index_y gc)
           (proc_index_x gd) (proc_index_y gd).
Proof.
  unfold pie_masters, is_upper_neighbour, shares_pole. rewrite Hnd. split.
  - intros H. neighbour_cases.
    + destruct (coords_of_sum' (proc_index_x gd - 1) (proc_index_y gd - 1)); lia.
    + destruct (coords_of_sum' (proc_index_x gd) (proc_index_y gd - 1)); lia.
    + destruct (coords_of_sum' 0 0); lia.
    + destruct (coords_of_sum' (proc_index_x gd - 1) (proc_index_y gd)); lia.
  - intros [[[E1 E2]|[[E1 E2]|[E1 E2]]]|(E1 & E2 & E3 & E4)].
    + rewrite Hd, E1, E2, Hc. apply in_or_app. right. apply in_or_app. right.
      destruct (Z.eqb_spec (proc_index_x gc + 1) 0); [lia|]. cbn [negb].
      apply in_or_app. right. left. lia.
    + rewrite Hd, E1, E2, Hc. apply in_or_app. right. apply in_or_app. left.
      destruct (Z.eqb_spec (proc_index_y gc + 1) 0); [lia|]. left. lia.
    + rewrite Hd, E1, E2, Hc. apply in_or_app. left.
      destruct (Z.eqb_spec (proc_index_x gc + 1) 0); [lia|].
      destruct (Z.eqb_spec (proc_index_y gc + 1) 0); [lia|].
      left. lia.
    + apply in_or_app. right. apply in_or_app. right.
      destruct (Z.eqb_spec (proc_index_x gd) 0); [lia|]. cbn [negb].
      apply in_or_app. left. rewrite E3.
      destruct (Z.ltb_spec 1 (proc_index_x gd)); [|lia]. cbn [Z.eqb andb].
      left. rewrite Hc, E1, E2. lia.
Qed.

End Neighbours.

(** X13. A rank names only ranks of the processor grid, its masters all have
    a lower colour than its own and its slaves a higher one; in particular no
    rank names itself. *)
Theorem halo_masters_lower_slaves_higher (raw_g raw_l : nat -> Z)
    (g0 : GenerateMesh) (color : Z) (g : GenerateMesh) (h : halo) :
  1 <= global_nzones_x g0 -> 1 <= global_nzones_y g0 ->
  1 <= num_proc_x g0 -> 1 <= num_proc_y g0 ->
  0 <= color < num_proc_x g0 * num_proc_y g0 ->
  calcLocalConstants raw_g raw_l g0 color = Ok g ->
  generateHaloPoints g empty_halo = Ok h ->
  (forall c, In c (master_colors h) -> 0 <= c < color)
  /\ (forall c, In c (slave_colors h) ->
        color < c < num_proc_x g0 * num_proc_y g0).
Proof.
  intros Hgx Hgy Hpx Hpy Hcol Hcalc Hhalo.
  destruct (calcLocalConstants_constructed _ _ _ _ _ Hgx Hgy Hpx Hpy Hcalc)
    as (C & _ & _ & _ & _ & Px & Py & Col).
  destruct (constructed_extent g C) as (X & Y & E & _);
    [rewrite Col, Px, Py; exact Hcol|].
  rewrite Col, Px in E. rewrite Px in X. rewrite Py in Y.
  destruct (halo_relations g h Hhalo) as (rs & rm & -> & Em & Es).
  unfold halo_of. cbn [master_colors slave_colors]. rewrite Em, Es.
  unfold master_neighbours, slave_neighbours.
  unfold pie_masters, rect_masters, hex_masters, pie_slaves, rect_slaves,
    hex_slaves.
  rewrite Col, Px, Py.
  destruct (num_subregions g =? 1); [split; intros c []|].
  destruct (String.eqb (meshtype g) "pie");
    [|destruct (String.eqb (meshtype g) "rect");
      [|destruct (String.eqb (meshtype g) "hex"); [|split; intros c []]]];
    split; intros c H; neighbour_cases; subst; nia.
Qed.

Lemma halo_masters_lower_slaves_higher_witness :
  exists g h,
    calcLocalConstants (fun _ => 0) (fun _ => 0)
      (with_procs 3 2 (initial_mesh (mkInputParameters "hex" 6 4 6 4))) 4 = Ok g
    /\ generateHaloPoints g empty_halo = Ok h
    /\ (forall c, In c (master_colors h) -> 0 <= c < 4)
    /\ (forall c, In c (slave_colors h) -> 4 < c < 3 * 2).
Proof.
  eexists. eexists. split; [vm_compute; reflexivity|].
  match goal with |- generateHaloPoints ?g _ = _ /\ _ =>
    split; [vm_compute; reflexivity|];
    apply (halo_masters_lower_slaves_higher (fun _ => 0) (fun _ => 0)
             (with_procs 3 2 (initial_mesh (mkInputParameters "hex" 6 4 6 4)))
             4 g)
  end;
    try (simpl; lia); vm_compute; reflexivity.
Defined.

(** X14. The relations are mutual: rank [c] lists rank [d] among the slaves
    of its master points exactly when rank [d] lists rank [c] among the
    masters of its slaved points, for each family, the pole relations of the
    pie mesh included. *)
Theorem halo_relations_are_mutual
    (raw_gc raw_lc raw_gd raw_ld : nat -> Z)
    (g0 : GenerateMesh) (c d : Z) (gc gd : GenerateMesh) (hc hd : halo) :
  1 <= global_nzones_x g0 -> 1 <= global_nzones_y g0 ->
  1 <= num_proc_x g0 -> 1 <= num_proc_y g0 ->
  0 <= c < num_proc_x g0 * num_proc_y g0 ->
  0 <= d < num_proc_x g0 * num_proc_y g0 ->
  calcLocalConstants raw_gc raw_lc g0 c = Ok gc ->
  calcLocalConstants raw_gd raw_ld g0 d = Ok gd ->
  generateHaloPoints gc empty_halo = Ok hc ->
  generateHaloPoints gd empty_halo = Ok hd ->
  In d (slave_colors hc) <-> In c (master_colors hd).
Proof.
  intros Hgx Hgy Hpx Hpy Hc Hd Hcalc_c Hcalc_d Hhc Hhd.
  destruct (calcLocalConstants_constructed _ _ _ _ _ Hgx Hgy Hpx Hpy Hcalc_c)
    as (Cc & Mc & _ & _ & Nc & Pxc & Pyc & Colc).
  destruct (calcLocalConstants_constructed _ _ _ _ _ Hgx Hgy Hpx Hpy Hcalc_d)
    as (Cd & Md & _ & _ & Nd & Pxd & Pyd & Cold).
  destruct (constructed_extent gc Cc) as (Xc & Yc & Ec & _);
    [rewrite Colc, Pxc, Pyc; exact Hc|].
  destruct (constructed_extent gd Cd) as (Xd & Yd & Ed & _);
    [rewrite Cold, Pxd, Pyd; exact Hd|].
  destruct (halo_relations gc hc Hhc) as (rsc & rmc & -> & _ & Es).
  destruct (halo_relations gd hd Hhd) as (rsd & rmd & -> & Em & _).
  unfold halo_of. cbn [master_colors slave_colors]. rewrite Es, Em.
  unfold master_neighbours, slave_neighbours. rewrite Mc, Md, Nc, Nd.
  rewrite <- Colc, <- Cold.
  rewrite Pxc in Xc, Ec. rewrite Pxd in Xd, Ed. rewrite Pyc in Yc.
  rewrite Pyd in Yd.
  assert (Hmy : num_proc_y gd = num_proc_y gc) by congruence.
  rewrite <- Pyc in Yc, Yd.
  destruct (num_subregions g0 =? 1); [reflexivity|].
  destruct (String.eqb (meshtype g0) "pie").
  { rewrite (pie_slaves_coords gc gd (num_proc_x g0)) by assumption.
    rewrite (pie_masters_coords gc gd (num_proc_x g0)) by assumption.
    reflexivity. }
  destruct (String.eqb (meshtype g0) "rect").
  { rewrite (rect_slaves_coords gc gd (num_proc_x g0)) by assumption.
    rewrite (rect_masters_coords gc gd (num_proc_x g0)) by assumption.
    reflexivity. }
  destruct (String.eqb (meshtype g0) "hex"); [|reflexivity].
  rewrite (hex_slaves_coords gc gd (num_proc_x g0)) by assumption.
  rewrite (hex_masters_coords gc gd (num_proc_x g0)) by assumption.
  reflexivity.
Qed.

Lemma halo_relations_are_mutual_witness :
  exists gc gd hc hd,
    calcLocalConstants (fun _ => 0) (fun _ => 0)
      (with_procs 3 1 (initial_mesh (mkInputParameters "pie" 6 4 3 0))) 0 = Ok gc
    /\ calcLocalConstants (fun _ => 0) (fun _ => 0)
         (with_procs 3 1 (initial_mesh (mkInputParameters "pie" 6 4 3 0))) 2
       = Ok gd
    /\ generateHaloPoints gc empty_halo = Ok hc
    /\ generateHaloPoints gd empty_halo = Ok hd
    /\ (In 2 (slave_colors hc) <-> In 0 (master_colors hd)).
Proof.
  eexists. eexists. eexists. eexists.
  split; [vm_compute; reflexivity|]. split; [vm_compute; reflexivity|].
  match goal with
  | |- generateHaloPoints ?gc _ = _ /\ generateHaloPoints ?gd _ = _ /\ _ =>
      split; [vm_compute; reflexivity|]; split; [vm_compute; reflexivity|];
      apply (halo_relations_are_mutual (fun _ => 0) (fun _ => 0) (fun _ => 0)
               (fun _ => 0)
               (with_procs 3 1 (initial_mesh (mkInputParameters "pie" 6 4 3 0)))
               0 2 gc gd)
  end;
    try (simpl; lia); vm_compute; reflexivity.
Defined.

(** ** What the constructor guarantees when it returns *)

Lemma search_down_divides (P : Z) (fuel : nat) (n1 d : Z) :
  1 <= n1 -> search_down fuel P n1 = Ok d -> 1 <= d /\ Z.rem P d = 0.
Proof.
  revert n1. induction fuel as [|fuel IH]; intros n1 Hn; [discriminate|].
  cbn [search_down]. unfold cmod.
  destruct (Z.eqb_spec n1 0) as [|_]; [lia|]. cbn [bind].
  destruct (Z.eqb_spec (Z.rem P n1) 0) as [Hr|Hr]; cbn [negb].
  - intros E. injection E as <-. split; [lia|exact Hr].
  - assert (n1 <> 1) by (intros ->; apply Hr; apply Z.rem_1_r).
    apply IH. lia.
Qed.

Lemma search_up_divides (P : Z) (fuel : nat) (n2 d : Z) :
  search_up fuel P n2 = Ok d -> d <> 0 /\ Z.rem P d = 0.
Proof.
  revert n2. induction fuel as [|fuel IH]; intros n2; [discriminate|].
  cbn [search_up]. unfold cmod.
  destruct (Z.eqb_spec n2 0) as [|Hne]; [discriminate|]. cbn [bind].
  destruct (Z.eqb_spec (Z.rem P n2) 0) as [Hr|Hr]; cbn [negb].
  - intros E. injection E as <-. split; [exact Hne|exact Hr].
  - apply IH.
Qed.

(** Whatever the roundings deliver, a planner that returns has factored the
    partition count. *)
Lemma calcPartitions_factors (fuel : nat) (g g' : GenerateMesh) :
  calcPartitions fuel g = Ok g' ->
  num_proc_x g' * num_proc_y g' = num_subregions g
  /\ g' = with_procs (num_proc_x g') (num_proc_y g') g.
Proof.
  unfold calcPartitions.
  destruct (planner_sides g) as [[nx ny] swapflag].
  intros H.
  apply bind_ok in H. destruct H as (f & _ & H).
  apply bind_ok in H. destruct H as (n1 & H1 & H).
  apply bind_ok in H. destruct H as (c & _ & H).
  apply bind_ok in H. destruct H as (n2 & H2 & H).
  apply bind_ok in H. destruct H as (q1 & _ & H).
  apply bind_ok in H. destruct H as (q2 & _ & H).
  apply bind_ok in H. destruct H as (py & Hpy & H).
  apply search_down_divides in H1; [|lia].
  apply search_up_divides in H2.
  set (px := NPX _ _ n1 n2) in *.
  assert (Hpx : px <> 0 /\ Z.rem (num_subregions g) px = 0).
  { unfold px, NPX. destruct (PrimFloat.leb _ _); split; try tauto; lia. }
  unfold cdiv in Hpy. destruct (Z.eqb_spec px 0) as [|_]; [tauto|].
  injection Hpy as <-.
  pose proof (exact_quot _ _ (proj2 Hpx) (proj1 Hpx)) as E.
  destruct swapflag; injection H as <-;
    cbn [with_procs num_proc_x num_proc_y]; (split; [lia|reflexivity]).
Qed.

Lemma flat_map_nil {A B : Type} (l : list A) :
  flat_map (fun _ : A => @nil B) l = [].
Proof. induction l as [|x l IH]; [reflexivity|exact IH]. Qed.

(** With a block count below 1 in either direction no block is visited. *)
Lemma blocks_cells_none (wx wy nbx nby : Z) :
  nbx <= 0 \/ nby <= 0 -> blocks_cells wx wy nbx nby = [].
Proof.
  intros [H|H]; unfold blocks_cells.
  - rewrite (zrange_nil 0 nbx) by lia. cbn [flat_map]. apply flat_map_nil.
  - now rewrite (zrange_nil 0 nby) by lia.
Qed.

(** [muPermutation] cannot return on a grid of more than one point unless
    both block counts are positive: its final assertion counts the points it
    numbered. *)
Lemma muPermutation_positive_blocks (npx npy nbx nby : Z) (p : vec) :
  2 <= npx * npy ->
  muPermutation npx npy nbx nby = Ok p -> 1 <= nbx /\ 1 <= nby.
Proof.
  intros Hn H.
  destruct (Z.eq_dec nbx 0) as [->|Hx].
  { unfold muPermutation, cdiv in H. cbn [Z.eqb bind] in H. discriminate. }
  destruct (Z.eq_dec nby 0) as [->|Hy].
  { unfold muPermutation, cdiv in H.
    destruct (nbx =? 0); cbn [Z.eqb bind] in H; discriminate. }
  destruct (Z.le_gt_cases 1 nbx) as [Hbx|Hbx];
    [destruct (Z.le_gt_cases 1 nby) as [Hby|Hby]; [split; assumption|]|];
    exfalso; rewrite muPermutation_marks in H by assumption; cbv zeta in H;
    match type of H with context [fold_left ?f (mu_order ?a ?b ?c ?d ?e) ?st] =>
      destruct (assign_fold_scatter (mu_order a b c d e) st) as [_ Hcnt] end;
    cbv zeta in Hcnt; cbn [cnt] in Hcnt; rewrite Hcnt in H;
    unfold mu_order, mu_cells in H;
    rewrite blocks_cells_none in H by lia;
    change (0 + vsize (map _ [(0, 0)])) with 1 in H;
    destruct (Z.eqb_spec 1 (npx * npy)) as [|_]; try lia;
    unfold assert in H;
    repeat match type of H with context [if ?b then _ else _] =>
             destruct b end; discriminate.
Qed.

(** X15. Whenever the constructor returns on positive zone counts and a
    positive partition count, it leaves a valid decomposition behind: the
    processor grid has positive extents whose product is the partition
    count, it divides the zone counts evenly, the colour is the task id, and
    the two permutations are bijections with their stored inverses.  No
    assumption on the floating-point roundings of the planner is needed:
    any plan that is not of this kind is stopped by an assertion. *)
Theorem construct_postcondition (fuel : nat) (raw_g raw_l : nat -> Z)
    (input_params : InputParameters) (g : GenerateMesh) :
  1 <= in_nzones_x input_params -> 1 <= in_nzones_y input_params ->
  1 <= in_ntasks input_params ->
  construct fuel raw_g raw_l input_params = Ok g ->
  1 <= num_proc_x g /\ 1 <= num_proc_y g
  /\ num_proc_x g * num_proc_y g = in_ntasks input_params
  /\ num_subregions g = in_ntasks input_params
  /\ meshtype g = in_meshtype input_params
  /\ my_color g = in_task_id input_params
  /\ global_nzones_x g = in_nzones_x input_params
  /\ global_nzones_y g = in_nzones_y input_params
  /\ constructed g.
Proof.
  intros Hx Hy HP H. unfold construct in H.
  apply bind_ok in H. destruct H as (g1 & Hplan & Hcalc).
  destruct (calcPartitions_factors _ _ _ Hplan) as [Hprod Hg1].
  cbn [initial_mesh num_subregions] in Hprod.
  assert (F : global_nzones_x g1 = in_nzones_x input_params
              /\ global_nzones_y g1 = in_nzones_y input_params
              /\ num_subregions g1 = in_ntasks input_params
              /\ meshtype g1 = in_meshtype input_params
              /\ my_color g1 = in_task_id input_params).
  { rewrite Hg1. cbn. repeat split. }
  destruct F as (F1 & F2 & F3 & F4 & F5).
  assert (Hpos : 1 <= num_proc_x g1 /\ 1 <= num_proc_y g1).
  { pose proof Hcalc as Hc. unfold calcLocalConstants, cdiv, cmod in Hc.
    destruct (Z.eqb_spec (num_proc_x g1) 0) as [E|_]; [discriminate|].
    destruct (Z.eqb_spec (num_proc_y g1) 0) as [E|_]; [discriminate|].
    cbn [bind] in Hc. cbv zeta in Hc.
    apply bind_ok in Hc. destruct Hc as (gp & Hgp & _).
    apply muPermutation_positive_blocks in Hgp; [exact Hgp|nia]. }
  assert (G1 : 1 <= global_nzones_x g1) by lia.
  assert (G2 : 1 <= global_nzones_y g1) by lia.
  destruct (calcLocalConstants_constructed _ _ _ _ _
              G1 G2 (proj1 Hpos) (proj2 Hpos) Hcalc)
    as (C & Mt & Gx & Gy & Ns & Px & Py & Col).
  rewrite Px, Py, Mt, Gx, Gy, Ns, Col.
  split; [lia|]. split; [lia|]. split; [exact Hprod|].
  split; [exact F3|]. split; [exact F4|]. split; [exact F5|].
  split; [exact F1|]. split; [exact F2|]. exact C.
Qed.

Lemma construct_postcondition_witness :
  exists g,
    construct 8 (fun _ => 0) (fun _ => 0) (mkInputParameters "rect" 6 4 6 5)
    = Ok g
    /\ 1 <= num_proc_x g /\ 1 <= num_proc_y g
    /\ num_proc_x g * num_proc_y g = 6.
Proof.
  eexists. split; [vm_compute; reflexivity|].
  match goal with |- 1 <= num_proc_x ?g /\ _ =>
    destruct (construct_postcondition 8 (fun _ => 0) (fun _ => 0)
                (mkInputParameters "rect" 6 4 6 5) g) as (H1 & H2 & H3 & _)
  end;
    first [ vm_compute; reflexivity
          | simpl; lia
          | split; [exact H1|]; split; [exact H2|exact H3] ].
Defined.

(** ** [snailPermutation] on small grids *)

Lemma covers_sound (p : vec) (N : Z) :
  covers p N = true -> bijection_on p N.
Proof.
  unfold covers. intros H. apply andb_true_iff in H. destruct H as [Hlen Hall].
  apply Z.eqb_eq in Hlen. rewrite forallb_forall in Hall.
  assert (Hincl : incl (zrange 0 N) p).
  { intros k Hk. apply Hall in Hk. apply existsb_exists in Hk.
    destruct Hk as (x & Hx & E). apply Z.eqb_eq in E. now subst x. }
  assert (Hle : (length p <= length (zrange 0 N))%nat).
  { rewrite length_zrange. unfold vsize in Hlen. lia. }
  split; [exact Hlen|]. split.
  - apply NoDup_incl_NoDup with (l := zrange 0 N);
      [apply NoDup_zrange|exact Hle|exact Hincl].
  - intros x Hx. apply in_zrange.
    apply (NoDup_length_incl (NoDup_zrange 0 N) Hle Hincl). exact Hx.
Qed.

(** Running the spiral on every grid of up to 4 by 4 blocks of width 1 to 6
    in each direction. *)
Lemma snail_ok_small_grids :
  forallb (fun nbx => forallb (fun nby => forallb (fun wx => forallb (fun wy =>
    snail_ok wx wy nbx nby) (zrange 1 7)) (zrange 1 7)) (zrange 1 5))
    (zrange 1 5) = true.
Proof. vm_compute. reflexivity. Qed.

(** X16. On every grid of up to 4 by 4 blocks whose widths lie between 1 and
    6, [snailPermutation] returns: no division by zero, no failed assertion,
    no access outside the grid, at most four turns of the inner [while] per
    point.  The array it returns is a permutation of the point indices, and
    the origin is numbered 0. *)
Theorem snailPermutation_small_grids (wx wy nbx nby : Z) :
  1 <= wx <= 6 -> 1 <= wy <= 6 -> 1 <= nbx <= 4 -> 1 <= nby <= 4 ->
  exists p,
    snailPermutation (wx * nbx + 1) (wy * nby + 1) nbx nby = Ok p
    /\ bijection_on p ((wx * nbx + 1) * (wy * nby + 1))
    /\ vget p 0 = 0.
Proof.
  intros Hwx Hwy Hbx Hby.
  pose proof snail_ok_small_grids as H.
  rewrite forallb_forall in H.
  specialize (H nbx ltac:(apply in_zrange; lia)).
  rewrite forallb_forall in H.
  specialize (H nby ltac:(apply in_zrange; lia)).
  rewrite forallb_forall in H.
  specialize (H wx ltac:(apply in_zrange; lia)).
  rewrite forallb_forall in H.
  specialize (H wy ltac:(apply in_zrange; lia)).
  unfold snail_ok in H.
  destruct (snailPermutation (wx * nbx + 1) (wy * nby + 1) nbx nby)
    as [p| | |]; try discriminate.
  apply andb_true_iff in H. destruct H as [Hc H0].
  exists p. split; [reflexivity|]. split.
  - now apply covers_sound.
  - now apply Z.eqb_eq.
Qed.

Lemma snailPermutation_small_grids_witness :
  exists p,
    snailPermutation (2 * 2 + 1) (2 * 2 + 1) 2 2 = Ok p
    /\ bijection_on p ((2 * 2 + 1) * (2 * 2 + 1))
    /\ vget p 0 = 0.
Proof. apply (snailPermutation_small_grids 2 2 2 2); lia. Defined.

(** ** The segments of the rect halo *)

Lemma skip_first (f : Z -> Z) (b : bool) (n : Z) :
  1 <= n ->
  flat_map (fun i => if (i =? 0) && b then [] else [f i]) (zrange 0 n)
  = map f (zrange (if b then 1 else 0) n).
Proof.
  intros Hn. destruct b.
  - now apply skip_first_column.
  - rewrite <- flat_map_singleton. apply flat_map_ext_range.
    intros i _. now rewrite andb_false_r.
Qed.

Lemma skipn_vsize_app (l r : vec) : skipn (Z.to_nat (vsize l)) (l ++ r) = r.
Proof.
  unfold vsize. rewrite Nat2Z.id, skipn_app, Nat.sub_diag, skipn_all.
  reflexivity.
Qed.

(** Reading the segment of colour [c] off a halo side: the first relation
    with that colour. *)
Lemma halo_segment_find (c : Z) (rs : list (Z * vec)) :
  halo_segment c (map fst rs) (map (fun r => vsize (snd r)) rs)
    (concat (map snd rs))
  = option_map snd (find (fun r => fst r =? c) rs).
Proof.
  induction rs as [|[c' l] rs IH]; [reflexivity|].
  cbn [map fst snd concat halo_segment find].
  destruct (c' =? c).
  - cbn [option_map snd]. now rewrite firstn_vsize_app.
  - rewrite skipn_vsize_app. exact IH.
Qed.

Ltac explicit_pair_loop push pushes skip val d :=
  cbv zeta;
  match goal with
  | |- context [for_ ?lo ?hi ?body (?h0, ?p0)] =>
      let E := fresh "E" in
      destruct (for_ lo hi body (h0, p0)) as [? ?] eqn:E;
      apply (f_equal fst) in E;
      rewrite (strided_loop_fst push skip val d) in E;
      unfold halo_of in E; rewrite pushes in E; cbn [fst] in E; subst
  end.

Lemma rect_slave_below_explicit (g : GenerateMesh) (rs rm : list (Z * vec)) :
  1 <= num_points_x g ->
  rect_slave_below g (halo_of rs rm)
  = halo_of (rs ++ (if 0 <? proc_index_y g
                    then [(my_color g - num_proc_x g,
                           map (fun i => vget (perm g) i) (rect_cols g))]
                    else [])) rm.
Proof.
  intros Hn. unfold rect_slave_below.
  destruct (0 <? proc_index_y g); [|now rewrite app_nil_r].
  explicit_pair_loop push_slaved_point push_slaved_points
    (fun i => (i =? 0) && negb (proc_index_x g =? 0)) (vget (perm g)) 1.
  rewrite halo_of_snoc_slave.
  rewrite (skip_first (fun i => vget (perm g) (0 + i * 1))) by exact Hn.
  rewrite (map_ext (fun i => vget (perm g) (0 + i * 1)) (fun i => vget (perm g) i))
    by (intros i; f_equal; lia).
  unfold push_slaved_count, push_master_color, push_back, rect_cols, halo_of.
  cbn [master_colors slaved_points_counts slaved_points slave_colors
       master_points_counts master_points].
  rewrite vsize_app. do 3 f_equal. lia.
Qed.

Lemma rect_slave_left_explicit (g : GenerateMesh) (rs rm : list (Z * vec)) :
  1 <= num_points_y g ->
  rect_slave_left g (halo_of rs rm)
  = halo_of (rs ++ (if 0 <? proc_index_x g
                    then [(my_color g - 1,
                           map (fun j => vget (perm g) (j * num_points_x g))
                             (rect_rows g))]
                    else [])) rm.
Proof.
  intros Hn. unfold rect_slave_left.
  destruct (0 <? proc_index_x g); [|now rewrite app_nil_r].
  explicit_pair_loop push_slaved_point push_slaved_points
    (fun j => (j =? 0) && negb (proc_index_y g =? 0)) (vget (perm g))
    (num_points_x g).
  rewrite halo_of_snoc_slave.
  rewrite (skip_first (fun j => vget (perm g) (0 + j * num_points_x g)))
    by exact Hn.
  rewrite (map_ext (fun j => vget (perm g) (0 + j * num_points_x g))
             (fun j => vget (perm g) (j * num_points_x g)))
    by (intros j; f_equal; lia).
  unfold push_slaved_count, push_master_color, push_back, rect_rows, halo_of.
  cbn [master_colors slaved_points_counts slaved_points slave_colors
       master_points_counts master_points].
  rewrite vsize_app. do 3 f_equal. lia.
Qed.

Lemma rect_master_right_explicit (g : GenerateMesh) (rs rm : list (Z * vec)) :
  1 <= num_points_y g ->
  rect_master_right g (halo_of rs rm)
  = halo_of rs
      (rm ++ (if proc_index_x g <? num_proc_x g - 1
              then [(my_color g + 1,
                     map (fun j => vget (perm g)
                                     (j * num_points_x g + (num_points_x g - 1)))
                       (rect_rows g))]
              else [])).
Proof.
  intros Hn. unfold rect_master_right.
  destruct (proc_index_x g <? num_proc_x g - 1); [|now rewrite app_nil_r].
  explicit_pair_loop push_master_point push_master_points
    (fun j => (j =? 0) && negb (proc_index_y g =? 0)) (vget (perm g))
    (num_points_x g).
  rewrite halo_of_snoc_master.
  rewrite (skip_first
             (fun j => vget (perm g) (num_points_x g - 1 + j * num_points_x g)))
    by exact Hn.
  rewrite (map_ext
             (fun j => vget (perm g) (num_points_x g - 1 + j * num_points_x g))
             (fun j => vget (perm g) (j * num_points_x g + (num_points_x g - 1))))
    by (intros j; f_equal; lia).
  unfold push_master_count, push_slave_color, push_back, rect_rows, halo_of.
  cbn [master_colors slaved_points_counts slaved_points slave_colors
       master_points_counts master_points].
  rewrite vsize_app. do 3 f_equal. lia.
Qed.

Lemma rect_master_above_explicit (g : GenerateMesh) (rs rm : list (Z * vec)) :
  1 <= num_points_x g -> 0 <= proc_index_x g ->
  rect_master_above g (halo_of rs rm)
  = halo_of rs
      (rm ++ (if proc_index_y g <? num_proc_y g - 1
              then [(my_color g + num_proc_x g,
                     map (fun i => vget (perm g)
                                     ((num_points_y g - 1) * num_points_x g + i))
                       (rect_cols g))]
              else [])).
Proof.
  intros Hn Hpx. unfold rect_master_above.
  destruct (proc_index_y g <? num_proc_y g - 1); [|now rewrite app_nil_r].
  assert (Eb : (0 <? proc_index_x g) = negb (proc_index_x g =? 0)).
  { destruct (Z.ltb_spec 0 (proc_index_x g));
      destruct (Z.eqb_spec (proc_index_x g) 0); try reflexivity; lia. }
  rewrite Eb.
  explicit_pair_loop push_master_point push_master_points
    (fun i => (i =? 0) && negb (proc_index_x g =? 0)) (vget (perm g)) 1.
  rewrite halo_of_snoc_master.
  rewrite (skip_first
             (fun i => vget (perm g)
                         ((num_points_y g - 1) * num_points_x g + i * 1)))
    by exact Hn.
  rewrite (map_ext
             (fun i => vget (perm g)
                         ((num_points_y g - 1) * num_points_x g + i * 1))
             (fun i => vget (perm g) ((num_points_y g - 1) * num_points_x g + i)))
    by (intros i; f_equal; lia).
  unfold push_master_count, push_slave_color, push_back, rect_cols, halo_of.
  cbn [master_colors slaved_points_counts slaved_points slave_colors
       master_points_counts master_points].
  rewrite vsize_app. do 3 f_equal. lia.
Qed.

Lemma rect_halo_explicit (g : GenerateMesh) :
  1 <= num_points_x g -> 1 <= num_points_y g -> 0 <= proc_index_x g ->
  rect_master_upper_right g (rect_master_above g (rect_master_right g
    (rect_slave_left g (rect_slave_below g
      (rect_slave_lower_left g empty_halo)))))
  = halo_of (rect_slave_relations g) (rect_master_relations g).
Proof.
  intros Hnx Hny Hpx. change empty_halo with (halo_of [] []).
  assert (E1 : rect_slave_lower_left g (halo_of [] [])
               = halo_of (if (0 <? proc_index_x g) && (0 <? proc_index_y g)
                          then [(my_color g - num_proc_x g - 1,
                                 [vget (perm g) 0])] else []) []).
  { unfold rect_slave_lower_left.
    destruct ((0 <? proc_index_x g) && (0 <? proc_index_y g)); reflexivity. }
  rewrite E1, rect_slave_below_explicit, rect_slave_left_explicit,
    rect_master_right_explicit, rect_master_above_explicit by assumption.
  unfold rect_master_upper_right, rect_slave_relations, rect_master_relations.
  rewrite <- !app_assoc. cbn [app].
  destruct ((proc_index_x g <? num_proc_x g - 1)
            && (proc_index_y g <? num_proc_y g - 1)); [|now rewrite app_nil_r].
  rewrite !app_assoc. rewrite halo_of_snoc_master. reflexivity.
Qed.

(** ** Pairs of rect ranks agree on their shared points *)

Lemma rect_master_relations_colors (g : GenerateMesh) :
  map fst (rect_master_relations g) = rect_slaves g.
Proof.
  unfold rect_master_relations, rect_slaves. rewrite !map_app.
  split_branches; reflexivity.
Qed.

Lemma find_skip {A : Type} (f : A -> bool) (b : bool) (x : A) (l : list A) :
  f x = false -> find f ((if b then [x] else []) ++ l) = find f l.
Proof. intros E. destruct b; [cbn [app find]; now rewrite E|reflexivity]. Qed.

Lemma find_none_app {A : Type} (f : A -> bool) (l r : list A) :
  find f l = None -> find f (l ++ r) = find f r.
Proof.
  induction l as [|a l IH]; [reflexivity|]. cbn [app find].
  destruct (f a); [discriminate|exact IH].
Qed.

Lemma find_hit {A : Type} (f : A -> bool) (x : A) (l : list A) :
  f x = true -> find f ([x] ++ l) = Some x.
Proof. intros E. cbn [app find]. now rewrite E. Qed.

Lemma zrange_nonempty (lo hi : Z) : lo < hi -> zrange lo hi <> [].
Proof. intros H. rewrite zrange_cons by exact H. discriminate. Qed.

Lemma map_nonempty {A B : Type} (f : A -> B) (l : list A) :
  l <> [] -> map f l <> [].
Proof. destruct l; [congruence|discriminate]. Qed.

(** X17. On a rect mesh every master and slave pair agrees on the points it
    shares.  If rank [c] reports rank [d] as a slave (to its right, above it,
    or diagonally above), then the segment of [c]'s master points for [d]
    and the segment of [d]'s slaved points for [c] exist, are not empty, and
    list the same global IDs in the same order, each rank using its own
    [pointLocalToGlobalID]. *)
Theorem rect_halo_pairs_agree
    (xStart yStart nprev : GenerateMesh -> Z -> Z)
    (raw_gc raw_lc raw_gd raw_ld : nat -> Z)
    (g0 : GenerateMesh) (c d : Z) (gc gd : GenerateMesh) (hc hd : halo) :
  meshtype g0 = "rect"%string ->
  1 <= global_nzones_x g0 -> 1 <= global_nzones_y g0 ->
  1 <= num_proc_x g0 -> 1 <= num_proc_y g0 ->
  0 <= c < num_proc_x g0 * num_proc_y g0 ->
  0 <= d < num_proc_x g0 * num_proc_y g0 ->
  calcLocalConstants raw_gc raw_lc g0 c = Ok gc ->
  calcLocalConstants raw_gd raw_ld g0 d = Ok gd ->
  generateHaloPoints gc empty_halo = Ok hc ->
  generateHaloPoints gd empty_halo = Ok hd ->
  In d (slave_colors hc) ->
  exists sc sd,
    halo_segment d (slave_colors hc) (master_points_counts hc) (master_points hc)
    = Some sc
    /\ halo_segment c (master_colors hd) (slaved_points_counts hd)
         (slaved_points hd) = Some sd
    /\ sc <> []
    /\ map (pointLocalToGlobalID xStart yStart nprev gc) sc
       = map (pointLocalToGlobalID xStart yStart nprev gd) sd.
Proof.
  intros Hmt Hgx Hgy Hpx Hpy Hc Hd Hcalc_c Hcalc_d Hhc Hhd Hin.
  destruct (calcLocalConstants_constructed _ _ _ _ _ Hgx Hgy Hpx Hpy Hcalc_c)
    as (Cc & Mc & Gxc & Gyc & Nc & Pxc & Pyc & Colc).
  destruct (calcLocalConstants_constructed _ _ _ _ _ Hgx Hgy Hpx Hpy Hcalc_d)
    as (Cd & Md & Gxd & Gyd & Nd & Pxd & Pyd & Cold).
  destruct (constructed_extent gc Cc) as (Xc & Yc & Ec & _);
    [rewrite Colc, Pxc, Pyc; exact Hc|].
  destruct (constructed_extent gd Cd) as (Xd & Yd & Ed & _);
    [rewrite Cold, Pxd, Pyd; exact Hd|].
  (* both ranks have the same local extents *)
  pose proof (c_gnx _ Cc) as Dxc. pose proof (c_gny _ Cc) as Dyc.
  pose proof (c_gnx _ Cd) as Dxd. pose proof (c_gny _ Cd) as Dyd.
  rewrite Gxc, Pxc in Dxc. rewrite Gyc, Pyc in Dyc.
  rewrite Gxd, Pxd in Dxd. rewrite Gyd, Pyd in Dyd.
  assert (Wx : nzones_x gd = nzones_x gc)
    by (apply (Z.mul_reg_r _ _ (num_proc_x g0)); lia).
  assert (Wy : nzones_y gd = nzones_y gc)
    by (apply (Z.mul_reg_r _ _ (num_proc_y g0)); lia).
  pose proof (c_ptx _ Cc) as Ptxc. pose proof (c_pty _ Cc) as Ptyc.
  pose proof (c_ptx _ Cd) as Ptxd. pose proof (c_pty _ Cd) as Ptyd.
  pose proof (c_nzx _ Cc) as Nzx. pose proof (c_nzy _ Cc) as Nzy.
  pose proof (c_zx _ Cc) as Zxc. pose proof (c_zy _ Cc) as Zyc.
  pose proof (c_zx _ Cd) as Zxd. pose proof (c_zy _ Cd) as Zyd.
  rewrite Wx in Ptxd, Zxd. rewrite Wy in Ptyd, Zyd.
  assert (Egp : global_perm gd = global_perm gc).
  { pose proof (c_gperm_eq _ Cc) as E1. pose proof (c_gperm_eq _ Cd) as E2.
    rewrite Gxc, Gyc, Pxc, Pyc in E1. rewrite Gxd, Gyd, Pxd, Pyd in E2.
    rewrite E1 in E2. now injection E2. }
  (* the two halos, relation by relation *)
  unfold generateHaloPoints in Hhc, Hhd. rewrite Mc, Hmt in Hhc.
  rewrite Md, Hmt in Hhd. cbn [String.eqb Ascii.eqb Bool.eqb] in Hhc, Hhd.
  unfold generateHaloPointsRect in Hhc, Hhd. rewrite Nc in Hhc. rewrite Nd in Hhd.
  destruct (num_subregions g0 =? 1).
  { injection Hhc as <-. destruct Hin. }
  cbv zeta in Hhc, Hhd.
  rewrite rect_halo_explicit in Hhc by lia.
  rewrite rect_halo_explicit in Hhd by lia.
  injection Hhc as <-. injection Hhd as <-.
  unfold halo_of in Hin |- *.
  cbn [master_colors slaved_points_counts slaved_points slave_colors
       master_points_counts master_points] in Hin |- *.
  rewrite !halo_segment_find.
  rewrite rect_master_relations_colors in Hin.
  rewrite <- Cold in Hin.
  rewrite Pxc in Xc, Ec. rewrite Pxd in Xd, Ed. rewrite Pyc in Yc.
  rewrite Pyd in Yd.
  assert (Hmy : num_proc_y gd = num_proc_y gc) by congruence.
  rewrite <- Pyc in Yc, Yd.
  apply (rect_slaves_coords gc gd (num_proc_x g0)) in Hin; try assumption.
  rewrite Pyc in Yc, Yd.
  (* the IDs of raster positions on the two ranks *)
  assert (IDc : forall i j, 0 <= i < num_points_x gc -> 0 <= j < num_points_y gc ->
            pointLocalToGlobalID xStart yStart nprev gc
              (vget (perm gc) (j * num_points_x gc + i))
            = Ok (vget (global_perm gc)
                    ((global_nzones_x g0 + 1) * (j + zone_y_offset gc) + i
                     + zone_x_offset gc))).
  { intros i j Hi Hj. unfold pointLocalToGlobalID. rewrite Mc, Hmt.
    cbn [String.eqb Ascii.eqb Bool.eqb].
    rewrite pointLocalToGlobalIDRect_raster by assumption. now rewrite Gxc. }
  assert (IDd : forall i j, 0 <= i < num_points_x gc -> 0 <= j < num_points_y gc ->
            pointLocalToGlobalID xStart yStart nprev gd
              (vget (perm gd) (j * num_points_x gc + i))
            = Ok (vget (global_perm gc)
                    ((global_nzones_x g0 + 1) * (j + zone_y_offset gd) + i
                     + zone_x_offset gd))).
  { intros i j Hi Hj. unfold pointLocalToGlobalID. rewrite Md, Hmt.
    cbn [String.eqb Ascii.eqb Bool.eqb].
    replace (num_points_x gc) with (num_points_x gd) at 1 by lia.
    rewrite pointLocalToGlobalIDRect_raster by (try assumption; lia).
    rewrite Gxd, Egp. reflexivity. }
  assert (Pxe : num_points_x gd = num_points_x gc) by lia.
  assert (Pye : num_points_y gd = num_points_y gc) by lia.
  unfold rect_master_relations, rect_slave_relations, rect_rows, rect_cols.
  rewrite ?Pxc, ?Pxd, ?Hmy, ?Pyc, ?Pxe, ?Pye, ?Colc, ?Cold.
  rewrite Colc in Ec. rewrite Cold in Ed.
  destruct Hin as [[Ex Ey]|[[Ex Ey]|[Ex Ey]]]; rewrite Ex, Ey in *.
  - (* d is the right neighbour of c *)
    destruct (Z.ltb_spec (proc_index_x gc) (num_proc_x g0 - 1)); [|lia].
    destruct (Z.ltb_spec 0 (proc_index_x gc + 1)); [|lia].
    rewrite find_hit by (cbn [fst]; apply Z.eqb_eq; lia).
    rewrite find_skip by (cbn [fst]; apply Z.eqb_neq; lia).
    rewrite find_skip by (cbn [fst]; apply Z.eqb_neq; lia).
    cbn [find fst]. destruct (Z.eqb_spec (d - 1) c); [|lia].
    cbn [option_map snd]. eexists _, _.
    split; [reflexivity|]. split; [reflexivity|]. split.
    + apply map_nonempty, zrange_nonempty. destruct (negb _); lia.
    + rewrite !map_map. apply map_ext_in. intros j Hj. apply in_zrange in Hj.
      assert (0 <= j < num_points_y gc) by (destruct (negb _); lia).
      rewrite IDc by lia.
      assert (Q := IDd 0 j). 
      replace (j * num_points_x gc + 0) with (j * num_points_x gc) in Q by lia.
      rewrite Q by lia. do 2 f_equal. nia.
  - (* d is the neighbour above c *)
    destruct (Z.ltb_spec (proc_index_y gc) (num_proc_y g0 - 1)); [|lia].
    destruct (Z.ltb_spec 0 (proc_index_y gc + 1)); [|lia].
    assert (F : find (fun r : Z * vec => fst r =? d)
                  (if proc_index_x gc <? num_proc_x g0 - 1
                   then [(c + 1,
                          map (fun j => vget (perm gc)
                                 (j * num_points_x gc + (num_points_x gc - 1)))
                            (zrange (if negb (proc_index_y gc =? 0) then 1 else 0)
                               (num_points_y gc)))]
                   else []) = None).
    { destruct (Z.ltb_spec (proc_index_x gc) (num_proc_x g0 - 1));
        [|reflexivity].
      cbn [find fst]. destruct (Z.eqb_spec (c + 1) d); [lia|reflexivity]. }
    rewrite (find_none_app _ _ _ F). clear F.
    rewrite find_hit by (cbn [fst]; apply Z.eqb_eq; lia).
    rewrite find_skip by (cbn [fst]; apply Z.eqb_neq; lia).
    rewrite find_hit by (cbn [fst]; apply Z.eqb_eq; lia).
    cbn [option_map snd]. eexists _, _.
    split; [reflexivity|]. split; [reflexivity|]. split.
    + apply map_nonempty, zrange_nonempty. destruct (negb _); lia.
    + rewrite !map_map. apply map_ext_in. intros i Hi. apply in_zrange in Hi.
      assert (0 <= i < num_points_x gc) by (destruct (negb _); lia).
      rewrite IDc by lia.
      assert (Q := IDd i 0).
      replace (0 * num_points_x gc + i) with i in Q by lia.
      rewrite Q by lia. do 2 f_equal. nia.
  - (* d is the neighbour diagonally above c *)
    destruct (Z.ltb_spec (proc_index_x gc) (num_proc_x g0 - 1)); [|lia].
    destruct (Z.ltb_spec (proc_index_y gc) (num_proc_y g0 - 1)); [|lia].
    destruct (Z.ltb_spec 0 (proc_index_x gc + 1)); [|lia].
    destruct (Z.ltb_spec 0 (proc_index_y gc + 1)); [|lia].
    cbn [andb app find fst].
    destruct (Z.eqb_spec (c + 1) d); [lia|].
    destruct (Z.eqb_spec (c + num_proc_x g0) d); [lia|].
    destruct (Z.eqb_spec (c + num_proc_x g0 + 1) d); [|lia].
    destruct (Z.eqb_spec (d - num_proc_x g0 - 1) c); [|lia].
    cbn [option_map snd]. eexists _, _.
    split; [reflexivity|]. split; [reflexivity|]. split; [discriminate|].
    cbn [map].
    replace (num_points_x gc * num_points_y gc - 1)
      with ((num_points_y gc - 1) * num_points_x gc + (num_points_x gc - 1))
      by lia.
    rewrite IDc by lia.
    assert (Q := IDd 0 0).
    replace (0 * num_points_x gc + 0) with 0 in Q by lia.
    rewrite Q by lia. do 3 f_equal. nia.
Qed.

Lemma rect_halo_pairs_agree_witness :
  exists gc gd hc hd,
    calcLocalConstants (fun _ => 0) (fun _ => 0)
      (with_procs 3 2 (initial_mesh (mkInputParameters "rect" 6 4 6 0))) 1 = Ok gc
    /\ calcLocalConstants (fun _ => 0) (fun _ => 0)
         (with_procs 3 2 (initial_mesh (mkInputParameters "rect" 6 4 6 0))) 5
       = Ok gd
    /\ generateHaloPoints gc empty_halo = Ok hc
    /\ generateHaloPoints gd empty_halo = Ok hd
    /\ exists sc sd,
         halo_segment 5 (slave_colors hc) (master_points_counts hc)
           (master_points hc) = Some sc
         /\ halo_segment 1 (master_colors hd) (slaved_points_counts hd)
              (slaved_points hd) = Some sd
         /\ sc <> []
         /\ map (pointLocalToGlobalID (fun _ _ => 0) (fun _ _ => 0)
                   (fun _ _ => 0) gc) sc
            = map (pointLocalToGlobalID (fun _ _ => 0) (fun _ _ => 0)
                     (fun _ _ => 0) gd) sd.
Proof.
  eexists. eexists. eexists. eexists.
  split; [vm_compute; reflexivity|]. split; [vm_compute; reflexivity|].
  match goal with
  | |- generateHaloPoints ?gc _ = _ /\ generateHaloPoints ?gd _ = _ /\ _ =>
      split; [vm_compute; reflexivity|]; split; [vm_compute; reflexivity|];
      apply (rect_halo_pairs_agree (fun _ _ => 0) (fun _ _ => 0) (fun _ _ => 0)
               (fun _ => 0) (fun _ => 0) (fun _ => 0) (fun _ => 0)
               (with_procs 3 2 (initial_mesh (mkInputParameters "rect" 6 4 6 0)))
               1 5 gc gd)
  end;
    try (simpl; lia); try (vm_compute; reflexivity).
Defined.

(** ** The segments of the pie halo *)

Ltac open_pair_loop lemma pushes :=
  match goal with
  | |- context [for_ ?lo ?hi ?body (?h0, ?p0)] =>
      let E := fresh "E" in
      destruct (for_ lo hi body (h0, p0)) as [? ?] eqn:E;
      apply (f_equal fst) in E;
      rewrite lemma in E;
      unfold halo_of, push_slaved_count, push_master_color, push_slaved_point,
        push_master_count, push_slave_color, push_master_point, push_back in E;
      cbn [master_colors slaved_points_counts slaved_points slave_colors
           master_points_counts master_points] in E;
      rewrite pushes in E; cbn [fst] in E; subst
  end.

Ltac halo_fields :=
  cbn [master_colors slaved_points_counts slaved_points slave_colors
       master_points_counts master_points].

Lemma pie_slave_below_explicit (g : GenerateMesh) (rs rm : list (Z * vec)) :
  1 <= num_points_x g ->
  pie_slave_below g (halo_of rs rm)
  = halo_of (rs ++ (if negb (proc_index_y g =? 0)
                    then [(my_color g - num_proc_x g, pie_cols g)] else [])) rm.
Proof.
  intros Hn. unfold pie_slave_below.
  destruct (negb (proc_index_y g =? 0)); [|now rewrite app_nil_r].
  cbv zeta.
  open_pair_loop (strided_loop_fst push_slaved_point
                    (fun i => (i =? 0) && negb (proc_index_x g =? 0))
                    (fun p => p) 1) push_slaved_points.
  rewrite halo_of_snoc_slave.
  rewrite (skip_first (fun i => 0 + i * 1)) by exact Hn.
  rewrite (map_ext (fun i => 0 + i * 1) (fun i => i)) by (intros i; lia).
  rewrite map_id.
  unfold push_slaved_count, push_master_color, push_back, pie_cols, halo_of.
  halo_fields. rewrite vsize_app. do 3 f_equal. lia.
Qed.

Lemma pie_slave_left_explicit (g : GenerateMesh) (rs rm : list (Z * vec)) :
  0 <= proc_index_y g ->
  pie_slave_left g (halo_of rs rm)
  = halo_of
      (rs ++ (if negb (proc_index_x g =? 0) then
                let rows := map (fun j => pie_local g j 0)
                              (zrange 1 (num_points_y g)) in
                if proc_index_y g =? 0 then
                  if 1 <? proc_index_x g
                  then [(0, [0]); (my_color g - 1, rows)]
                  else [(my_color g - 1, 0 :: rows)]
                else [(my_color g - 1, rows)]
              else [])) rm.
Proof.
  intros Hy. unfold pie_slave_left.
  destruct (negb (proc_index_x g =? 0)); [|now rewrite app_nil_r].
  cbv zeta.
  assert (Rows : forall p0,
             p0 = (if 0 <? proc_index_y g then num_points_x g else 1) ->
             map (fun j => p0 + (j - 1) * num_points_x g)
               (zrange 1 (num_points_y g))
             = map (fun j => pie_local g j 0) (zrange 1 (num_points_y g))).
  { intros p0 ->. apply map_ext. intros j. unfold pie_local.
    destruct (Z.ltb_spec 0 (proc_index_y g));
      destruct (Z.eqb_spec (proc_index_y g) 0); lia. }
  destruct (proc_index_y g =? 0).
  - destruct (1 <? proc_index_x g).
    + open_pair_loop (strided_from_fst push_slaved_point (fun p => p)
                        (num_points_x g) 1) push_slaved_points.
      rewrite (Rows _ eq_refl).
      replace (rs ++ [(0, [0]);
                      (my_color g - 1,
                       map (fun j => pie_local g j 0) (zrange 1 (num_points_y g)))])
        with ((rs ++ [(0, [0])])
              ++ [(my_color g - 1,
                   map (fun j => pie_local g j 0) (zrange 1 (num_points_y g)))])
        by (now rewrite <- app_assoc).
      rewrite halo_of_snoc_slave.
      unfold halo_of, push_slaved_count, push_master_color, push_slaved_point,
        push_back.
      halo_fields. rewrite !map_app, concat_app. cbn [map fst snd concat app].
      rewrite !vsize_app.
      change (vsize [0]) with 1. do 3 f_equal. lia.
    + open_pair_loop (strided_from_fst push_slaved_point (fun p => p)
                        (num_points_x g) 1) push_slaved_points.
      rewrite (Rows _ eq_refl).
      rewrite halo_of_snoc_slave.
      unfold halo_of, push_slaved_count, push_master_color, push_slaved_point,
        push_back.
      halo_fields. rewrite <- app_assoc. cbn [app].
      rewrite !vsize_app. do 3 f_equal. lia.
  - open_pair_loop (strided_from_fst push_slaved_point (fun p => p)
                      (num_points_x g) 1) push_slaved_points.
    rewrite (Rows _ eq_refl).
    rewrite halo_of_snoc_slave.
    unfold halo_of, push_slaved_count, push_master_color, push_back.
    halo_fields. rewrite !vsize_app. do 3 f_equal. lia.
Qed.

(** The loop of rank 0 over the other ranks of the bottom row. *)
Lemma pole_slaves_loop (l : vec) (rs rm : list (Z * vec)) :
  fold_left (fun h slave_proc =>
               push_master_count 1
                 (push_slave_color slave_proc (push_master_point 0 h)))
    l (halo_of rs rm)
  = halo_of rs (rm ++ map (fun slave_proc => (slave_proc, [0])) l).
Proof.
  revert rm. induction l as [|s l IH]; intros rm.
  - cbn [fold_left map]. now rewrite app_nil_r.
  - cbn [fold_left map].
    replace (rm ++ (s, [0]) :: map (fun slave_proc => (slave_proc, [0])) l)
      with ((rm ++ [(s, [0])]) ++ map (fun slave_proc => (slave_proc, [0])) l)
      by (now rewrite <- app_assoc).
    rewrite <- IH. f_equal. rewrite halo_of_snoc_master. reflexivity.
Qed.

Lemma pie_master_right_explicit (g : GenerateMesh) (rs rm : list (Z * vec)) :
  0 <= proc_index_y g ->
  pie_master_right g (halo_of rs rm)
  = halo_of rs
      (rm ++ (if negb (proc_index_x g =? num_proc_x g - 1) then
                let rows := map (fun j => pie_local g j (num_points_x g - 1))
                              (zrange 1 (num_points_y g)) in
                if (proc_index_x g =? 0) && (proc_index_y g =? 0)
                then (my_color g + 1, 0 :: rows)
                     :: map (fun slave_proc => (slave_proc, [0]))
                          (zrange 2 (num_proc_x g))
                else [(my_color g + 1, rows)]
              else [])).
Proof.
  intros Hy. unfold pie_master_right.
  destruct (negb (proc_index_x g =? num_proc_x g - 1));
    [|now rewrite app_nil_r].
  cbv zeta.
  assert (Rows : forall p0,
             p0 = (if 0 <? proc_index_y g then 2 * num_points_x g - 1
                   else num_points_x g) ->
             map (fun j => p0 + (j - 1) * num_points_x g)
               (zrange 1 (num_points_y g))
             = map (fun j => pie_local g j (num_points_x g - 1))
                 (zrange 1 (num_points_y g))).
  { intros p0 ->. apply map_ext. intros j. unfold pie_local.
    destruct (Z.ltb_spec 0 (proc_index_y g));
      destruct (Z.eqb_spec (proc_index_y g) 0); lia. }
  destruct ((proc_index_x g =? 0) && (proc_index_y g =? 0)).
  - open_pair_loop (strided_from_fst push_master_point (fun p => p)
                      (num_points_x g) 1) push_master_points.
    rewrite (Rows _ eq_refl).
    unfold for_.
    replace (rm ++ (my_color g + 1,
                    0 :: map (fun j => pie_local g j (num_points_x g - 1))
                           (zrange 1 (num_points_y g)))
                   :: map (fun slave_proc => (slave_proc, [0]))
                        (zrange 2 (num_proc_x g)))
      with ((rm ++ [(my_color g + 1,
                     0 :: map (fun j => pie_local g j (num_points_x g - 1))
                            (zrange 1 (num_points_y g)))])
            ++ map (fun slave_proc => (slave_proc, [0])) (zrange 2 (num_proc_x g)))
      by (now rewrite <- app_assoc).
    rewrite <- pole_slaves_loop. f_equal.
    rewrite halo_of_snoc_master.
    unfold halo_of, push_master_count, push_slave_color, push_master_point,
      push_back.
    halo_fields. rewrite <- app_assoc. cbn [app].
    rewrite !vsize_app. do 3 f_equal. lia.
  - open_pair_loop (strided_from_fst push_master_point (fun p => p)
                      (num_points_x g) 1) push_master_points.
    rewrite (Rows _ eq_refl).
    rewrite halo_of_snoc_master.
    unfold halo_of, push_master_count, push_slave_color, push_back.
    halo_fields. rewrite !vsize_app. do 3 f_equal. lia.
Qed.

Lemma pie_master_above_explicit (g : GenerateMesh) (rs rm : list (Z * vec)) :
  1 <= num_points_x g ->
  pie_master_above g (halo_of rs rm)
  = halo_of rs
      (rm ++ (if negb (proc_index_y g =? num_proc_y g - 1)
              then [(my_color g + num_proc_x g,
                     map (fun i => pie_local g (num_points_y g - 1) i)
                       (pie_cols g))]
              else [])).
Proof.
  intros Hn. unfold pie_master_above.
  destruct (negb (proc_index_y g =? num_proc_y g - 1));
    [|now rewrite app_nil_r].
  cbv zeta.
  open_pair_loop (strided_loop_fst push_master_point
                    (fun i => (i =? 0) && negb (proc_index_x g =? 0))
                    (fun p => p) 1) push_master_points.
  rewrite halo_of_snoc_master.
  match goal with
  | |- context [flat_map (fun j => if _ then [] else [?p0 + j * 1])] =>
      rewrite (skip_first (fun i => p0 + i * 1)) by exact Hn;
      rewrite (map_ext (fun i => p0 + i * 1)
                 (fun i => pie_local g (num_points_y g - 1) i))
        by (intros i; unfold pie_local; destruct (proc_index_y g =? 0); lia)
  end.
  unfold push_master_count, push_slave_color, push_back, pie_cols, halo_of.
  halo_fields. rewrite vsize_app. do 3 f_equal. lia.
Qed.

Lemma push_single_master (c p : Z) (rs rm : list (Z * vec)) :
  push_master_count 1 (push_slave_color c (push_master_point p (halo_of rs rm)))
  = halo_of rs (rm ++ [(c, [p])]).
Proof. rewrite halo_of_snoc_master. reflexivity. Qed.

Lemma pie_halo_explicit (g : GenerateMesh) :
  1 <= num_points_x g -> 0 <= proc_index_y g ->
  pie_master_upper_right g (pie_master_above g (pie_master_right g
    (pie_slave_left g (pie_slave_below g
      (pie_slave_lower_left g empty_halo)))))
  = halo_of (pie_slave_relations g) (pie_master_relations g).
Proof.
  intros Hnx Hpy. change empty_halo with (halo_of [] []).
  assert (E1 : pie_slave_lower_left g (halo_of [] [])
               = halo_of (if negb (proc_index_x g =? 0)
                             && negb (proc_index_y g =? 0)
                          then [(my_color g - num_proc_x g - 1, [0])] else [])
                   []).
  { unfold pie_slave_lower_left.
    destruct (negb (proc_index_x g =? 0) && negb (proc_index_y g =? 0));
      reflexivity. }
  rewrite E1, pie_slave_below_explicit, pie_slave_left_explicit,
    pie_master_right_explicit, pie_master_above_explicit by assumption.
  unfold pie_master_upper_right, pie_slave_relations, pie_master_relations.
  rewrite <- !app_assoc. cbn [app].
  destruct (negb (proc_index_x g =? num_proc_x g - 1)
            && negb (proc_index_y g =? num_proc_y g - 1));
    [|now rewrite app_nil_r].
  cbv zeta.
  replace (if proc_index_y g =? 0
           then num_points_x g * num_points_y g - 1 - (num_points_x g - 1)
           else num_points_x g * num_points_y g - 1)
    with (pie_local g (num_points_y g - 1) (num_points_x g - 1))
    by (unfold pie_local; destruct (proc_index_y g =? 0); lia).
  rewrite push_single_master. now rewrite <- !app_assoc.
Qed.

(** ** Pairs of pie ranks agree on their shared points *)

Lemma pie_master_relations_colors (g : GenerateMesh) :
  map fst (pie_master_relations g) = pie_slaves g.
Proof.
  unfold pie_master_relations, pie_slaves. rewrite !map_app. cbv zeta.
  f_equal; [|f_equal].
  - destruct (negb (proc_index_x g =? num_proc_x g - 1)); [|reflexivity].
    destruct ((proc_index_x g =? 0) && (proc_index_y g =? 0)); [|reflexivity].
    cbn [map fst]. f_equal. rewrite map_map. cbn [fst]. apply map_id.
  - destruct (negb (proc_index_y g =? num_proc_y g - 1)); reflexivity.
  - destruct (negb (proc_index_x g =? num_proc_x g - 1)
              && negb (proc_index_y g =? num_proc_y g - 1)); reflexivity.
Qed.

Lemma find_pole_slave (d : Z) (l : vec) (rest : list (Z * vec)) :
  In d l ->
  find (fun r : Z * vec => fst r =? d)
    (map (fun slave_proc => (slave_proc, [0])) l ++ rest) = Some (d, [0]).
Proof.
  induction l as [|s l IH]; intros H; [destruct H|].
  cbn [map app find fst].
  destruct (Z.eqb_spec s d) as [->|N]; [reflexivity|].
  apply IH. destruct H; [contradiction|assumption].
Qed.

Lemma find_no_pole_slave (d : Z) (l : vec) (rest : list (Z * vec)) :
  ~ In d l ->
  find (fun r : Z * vec => fst r =? d)
    (map (fun slave_proc => (slave_proc, [0])) l ++ rest)
  = find (fun r : Z * vec => fst r =? d) rest.
Proof.
  induction l as [|s l IH]; intros H; [reflexivity|].
  cbn [map app find fst].
  destruct (Z.eqb_spec s d) as [->|N]; [destruct H; now left|].
  apply IH. intros H'. apply H. now right.
Qed.

(** The global ID of the point in row [j], column [i]. *)
Lemma pie_id (g : GenerateMesh) (j i : Z) :
  constructed g -> 0 <= proc_index_y g ->
  0 <= i < num_points_x g -> 0 <= j -> (proc_index_y g = 0 -> 1 <= j) ->
  pointLocalToGlobalIDPie g (pie_local g j i)
  = Ok ((global_nzones_x g + 1) * (j + zone_y_offset g - 1) + 1 + i
        + zone_x_offset g).
Proof.
  intros C Hy Hi Hj Hj1.
  pose proof (c_zy _ C) as Zy. pose proof (c_nzy _ C) as Nzy.
  unfold pointLocalToGlobalIDPie, pie_local, cdiv.
  destruct (Z.eqb_spec (num_points_x g) 0) as [|_]; [lia|].
  destruct (Z.eqb_spec (proc_index_y g) 0) as [E0|E0].
  - specialize (Hj1 E0).
    destruct (Z.eqb_spec (zone_y_offset g) 0) as [_|]; [|nia].
    destruct (Z.eqb_spec ((j - 1) * num_points_x g + 1 + i) 0); [nia|].
    cbn [andb bind]. rewrite Z.quot_div_nonneg by nia.
    replace (((j - 1) * num_points_x g + 1 + i - 1) / num_points_x g)
      with (j - 1)
      by (apply (Z.div_unique _ _ _ i); lia).
    f_equal. lia.
  - destruct (Z.eqb_spec (zone_y_offset g) 0) as [|_]; [nia|].
    cbn [andb bind]. rewrite Z.quot_div_nonneg by nia.
    replace ((j * num_points_x g + i) / num_points_x g) with j
      by (apply (Z.div_unique _ _ _ i); lia).
    f_equal. lia.
Qed.

Lemma pie_id_pole (g : GenerateMesh) :
  constructed g -> proc_index_y g = 0 -> pointLocalToGlobalIDPie g 0 = Ok 0.
Proof.
  intros C E. pose proof (c_zy _ C) as Zy. rewrite E in Zy.
  unfold pointLocalToGlobalIDPie. rewrite Zy. reflexivity.
Qed.

Ltac settle_tests :=
  repeat match goal with
    | |- context [?a =? ?b] =>
        first [ replace (a =? b) with true by (symmetry; apply Z.eqb_eq; lia)
              | replace (a =? b) with false by (symmetry; apply Z.eqb_neq; lia) ]
    | |- context [?a <? ?b] =>
        first [ replace (a <? b) with true by (symmetry; apply Z.ltb_lt; lia)
              | replace (a <? b) with false by (symmetry; apply Z.ltb_ge; lia) ]
    end.

Ltac settle_finds :=
  repeat (progress (settle_tests; cbn [negb andb app find fst])).

(** X18. On a pie mesh every master and slave pair agrees on the points it
    shares.  If rank [c] reports rank [d] as a slave (to its right, above it,
    diagonally above, or, for rank 0, along the bottom processor row through
    the pole), then the segment of [c]'s master points for [d] and the
    segment of [d]'s slaved points for [c] exist, are not empty, and list the
    same global IDs in the same order. *)
Theorem pie_halo_pairs_agree
    (xStart yStart nprev : GenerateMesh -> Z -> Z)
    (raw_gc raw_lc raw_gd raw_ld : nat -> Z)
    (g0 : GenerateMesh) (c d : Z) (gc gd : GenerateMesh) (hc hd : halo) :
  meshtype g0 = "pie"%string ->
  1 <= global_nzones_x g0 -> 1 <= global_nzones_y g0 ->
  1 <= num_proc_x g0 -> 1 <= num_proc_y g0 ->
  0 <= c < num_proc_x g0 * num_proc_y g0 ->
  0 <= d < num_proc_x g0 * num_proc_y g0 ->
  calcLocalConstants raw_gc raw_lc g0 c = Ok gc ->
  calcLocalConstants raw_gd raw_ld g0 d = Ok gd ->
  generateHaloPoints gc empty_halo = Ok hc ->
  generateHaloPoints gd empty_halo = Ok hd ->
  In d (slave_colors hc) ->
  exists sc sd,
    halo_segment d (slave_colors hc) (master_points_counts hc) (master_points hc)
    = Some sc
    /\ halo_segment c (master_colors hd) (slaved_points_counts hd)
         (slaved_points hd) = Some sd
    /\ sc <> []
    /\ map (pointLocalToGlobalID xStart yStart nprev gc) sc
       = map (pointLocalToGlobalID xStart yStart nprev gd) sd.
Proof.
  intros Hmt Hgx Hgy Hpx Hpy Hc Hd Hcalc_c Hcalc_d Hhc Hhd Hin.
  destruct (calcLocalConstants_constructed _ _ _ _ _ Hgx Hgy Hpx Hpy Hcalc_c)
    as (Cc & Mc & Gxc & Gyc & Nc & Pxc & Pyc & Colc).
  destruct (calcLocalConstants_constructed _ _ _ _ _ Hgx Hgy Hpx Hpy Hcalc_d)
    as (Cd & Md & Gxd & Gyd & Nd & Pxd & Pyd & Cold).
  destruct (constructed_extent gc Cc) as (Xc & Yc & Ec & _);
    [rewrite Colc, Pxc, Pyc; exact Hc|].
  destruct (constructed_extent gd Cd) as (Xd & Yd & Ed & _);
    [rewrite Cold, Pxd, Pyd; exact Hd|].
  (* both ranks have the same local extents *)
  pose proof (c_gnx _ Cc) as Dxc. pose proof (c_gny _ Cc) as Dyc.
  pose proof (c_gnx _ Cd) as Dxd. pose proof (c_gny _ Cd) as Dyd.
  rewrite Gxc, Pxc in Dxc. rewrite Gyc, Pyc in Dyc.
  rewrite Gxd, Pxd in Dxd. rewrite Gyd, Pyd in Dyd.
  assert (Wx : nzones_x gd = nzones_x gc)
    by (apply (Z.mul_reg_r _ _ (num_proc_x g0)); lia).
  assert (Wy : nzones_y gd = nzones_y gc)
    by (apply (Z.mul_reg_r _ _ (num_proc_y g0)); lia).
  pose proof (c_ptx _ Cc) as Ptxc. pose proof (c_pty _ Cc) as Ptyc.
  pose proof (c_ptx _ Cd) as Ptxd. pose proof (c_pty _ Cd) as Ptyd.
  pose proof (c_nzx _ Cc) as Nzx. pose proof (c_nzy _ Cc) as Nzy.
  pose proof (c_zx _ Cc) as Zxc. pose proof (c_zy _ Cc) as Zyc.
  pose proof (c_zx _ Cd) as Zxd. pose proof (c_zy _ Cd) as Zyd.
  rewrite Wx in Ptxd, Zxd. rewrite Wy in Ptyd, Zyd.
  assert (Pxe : num_points_x gd = num_points_x gc) by lia.
  assert (Pye : num_points_y gd = num_points_y gc) by lia.
  (* the two halos, relation by relation *)
  unfold generateHaloPoints in Hhc, Hhd. rewrite Mc, Hmt in Hhc.
  rewrite Md, Hmt in Hhd. cbn [String.eqb Ascii.eqb Bool.eqb] in Hhc, Hhd.
  unfold generateHaloPointsPie in Hhc, Hhd. rewrite Nc in Hhc. rewrite Nd in Hhd.
  destruct (num_subregions g0 =? 1).
  { injection Hhc as <-. destruct Hin. }
  cbv zeta in Hhc, Hhd.
  rewrite pie_halo_explicit in Hhc by lia.
  rewrite pie_halo_explicit in Hhd by lia.
  injection Hhc as <-. injection Hhd as <-.
  unfold halo_of in Hin |- *.
  cbn [master_colors slaved_points_counts slaved_points slave_colors
       master_points_counts master_points] in Hin |- *.
  rewrite !halo_segment_find.
  rewrite pie_master_relations_colors in Hin.
  rewrite <- Cold in Hin.
  rewrite Pxc in Xc, Ec. rewrite Pxd in Xd, Ed.
  assert (Hmy : num_proc_y gd = num_proc_y gc) by congruence.
  rewrite Hmy in Yd.
  apply (pie_slaves_coords gc gd (num_proc_x g0)) in Hin; try assumption.
  rewrite Pyc in Yc, Yd.
  (* the IDs of grid positions on the two ranks *)
  assert (IDc : forall j i, 0 <= i < num_points_x gc -> 0 <= j ->
            (proc_index_y gc = 0 -> 1 <= j) ->
            pointLocalToGlobalID xStart yStart nprev gc (pie_local gc j i)
            = Ok ((global_nzones_x g0 + 1) * (j + zone_y_offset gc - 1) + 1 + i
                  + zone_x_offset gc)).
  { intros j i Hi Hj Hj1. unfold pointLocalToGlobalID. rewrite Mc, Hmt.
    cbn [String.eqb Ascii.eqb Bool.eqb].
    rewrite pie_id by (try assumption; lia). now rewrite Gxc. }
  assert (IDd : forall j i, 0 <= i < num_points_x gc -> 0 <= j ->
            (proc_index_y gd = 0 -> 1 <= j) ->
            pointLocalToGlobalID xStart yStart nprev gd (pie_local gd j i)
            = Ok ((global_nzones_x g0 + 1) * (j + zone_y_offset gd - 1) + 1 + i
                  + zone_x_offset gd)).
  { intros j i Hi Hj Hj1. unfold pointLocalToGlobalID. rewrite Md, Hmt.
    cbn [String.eqb Ascii.eqb Bool.eqb].
    rewrite pie_id by (try assumption; lia). now rewrite Gxd. }
  assert (IDc0 : proc_index_y gc = 0 ->
                 pointLocalToGlobalID xStart yStart nprev gc 0 = Ok 0).
  { intros E. unfold pointLocalToGlobalID. rewrite Mc, Hmt.
    cbn [String.eqb Ascii.eqb Bool.eqb]. now apply pie_id_pole. }
  assert (IDd0 : proc_index_y gd = 0 ->
                 pointLocalToGlobalID xStart yStart nprev gd 0 = Ok 0).
  { intros E. unfold pointLocalToGlobalID. rewrite Md, Hmt.
    cbn [String.eqb Ascii.eqb Bool.eqb]. now apply pie_id_pole. }
  assert (IDd_row0 : forall i, 0 <= i < num_points_x gc ->
            proc_index_y gd <> 0 ->
            pointLocalToGlobalID xStart yStart nprev gd i
            = Ok ((global_nzones_x g0 + 1) * (zone_y_offset gd - 1) + 1 + i
                  + zone_x_offset gd)).
  { intros i Hi E. assert (Q := IDd 0 i). unfold pie_local in Q.
    destruct (Z.eqb_spec (proc_index_y gd) 0); [contradiction|].
    cbn [Z.mul Z.add] in Q. rewrite Q by lia. apply f_equal. lia. }
  unfold pie_master_relations, pie_slave_relations, pie_cols.
  rewrite ?Pxc, ?Pxd, ?Hmy, ?Pyc, ?Pxe, ?Pye, ?Colc, ?Cold.
  rewrite Colc in Ec. rewrite Cold in Ed. cbv zeta.
  destruct Hin as [[[Ex Ey]|[[Ex Ey]|[Ex Ey]]]|(Ex & Ey & Eyd & Exd)].
  - (* d is the right neighbour of c *)
    destruct (Z.eq_dec (proc_index_y gc) 0) as [Y0|Y0];
      destruct (Z.eq_dec (proc_index_x gc) 0) as [X0|X0];
      settle_finds; cbn [option_map snd]; eexists _, _;
      (split; [reflexivity|]); (split; [reflexivity|]);
      (split;
       [first [discriminate | apply map_nonempty, zrange_nonempty; lia]|]);
      cbn [map]; rewrite ?IDc0, ?IDd0 by lia;
      try apply (f_equal (cons (Ok 0)));
      rewrite !map_map; apply map_ext_in; intros j Hj; apply in_zrange in Hj;
      rewrite IDc, IDd by lia; apply f_equal; nia.
  - (* d is the neighbour above c *)
    assert (Ezx : zone_x_offset gd = zone_x_offset gc) by (rewrite Zxd, Ex; lia).
    assert (Ezy : zone_y_offset gd = zone_y_offset gc + nzones_y gc)
      by (rewrite Zyd, Ey; lia).
    assert (Dn : d = c + num_proc_x g0) by (rewrite Ed, Ec, Ex, Ey; lia).
    destruct (Z.eq_dec (proc_index_y gc) 0) as [Y0|Y0];
      destruct (Z.eq_dec (proc_index_x gc) 0) as [X0|X0];
      destruct (Z.eq_dec (proc_index_x gc) (num_proc_x g0 - 1)) as [X1|X1];
      settle_finds;
      rewrite ?(find_no_pole_slave d (zrange 2 (num_proc_x g0)))
        by (rewrite in_zrange; lia);
      settle_finds; cbn [option_map snd]; eexists _, _;
      (split; [reflexivity|]); (split; [reflexivity|]);
      (split; [apply map_nonempty, zrange_nonempty; lia|]);
      rewrite !map_map; apply map_ext_in; intros i Hi; apply in_zrange in Hi;
      rewrite IDc, IDd_row0 by lia; apply f_equal;
      rewrite Ezx, Ezy, Ptyc; ring.
  - (* d is the neighbour diagonally above c *)
    assert (Ezx : zone_x_offset gd = zone_x_offset gc + nzones_x gc)
      by (rewrite Zxd, Ex; lia).
    assert (Ezy : zone_y_offset gd = zone_y_offset gc + nzones_y gc)
      by (rewrite Zyd, Ey; lia).
    assert (Dn : d = c + num_proc_x g0 + 1) by (rewrite Ed, Ec, Ex, Ey; lia).
    destruct (Z.eq_dec (proc_index_y gc) 0) as [Y0|Y0];
      destruct (Z.eq_dec (proc_index_x gc) 0) as [X0|X0];
      settle_finds;
      rewrite ?(find_no_pole_slave d (zrange 2 (num_proc_x g0)))
        by (rewrite in_zrange; lia);
      settle_finds; cbn [option_map snd]; eexists _, _;
      (split; [reflexivity|]); (split; [reflexivity|]);
      (split; [discriminate|]);
      cbn [map]; rewrite IDc, IDd_row0 by lia; apply (f_equal (fun x => [Ok x]));
      rewrite Ezx, Ezy, Ptxc, Ptyc; ring.
  - (* c is rank 0 and d lies further along the bottom row *)
    settle_finds.
    assert (Dn : d = proc_index_x gd) by (rewrite Ed, Eyd; lia).
    assert (C0 : c = 0) by (rewrite Ec, Ex, Ey; lia).
    rewrite (find_pole_slave d (zrange 2 (num_proc_x g0)))
      by (rewrite in_zrange; lia).
    settle_finds. cbn [option_map snd]. eexists _, _.
    split; [reflexivity|]. split; [reflexivity|]. split; [discriminate|].
    cbn [map]. rewrite IDc0, IDd0 by lia. reflexivity.
Qed.

Lemma pie_halo_pairs_agree_witness :
  exists gc gd hc hd,
    calcLocalConstants (fun _ => 0) (fun _ => 0)
      (with_procs 3 2 (initial_mesh (mkInputParameters "pie" 6 4 6 0))) 0 = Ok gc
    /\ calcLocalConstants (fun _ => 0) (fun _ => 0)
         (with_procs 3 2 (initial_mesh (mkInputParameters "pie" 6 4 6 0))) 2
       = Ok gd
    /\ generateHaloPoints gc empty_halo = Ok hc
    /\ generateHaloPoints gd empty_halo = Ok hd
    /\ exists sc sd,
         halo_segment 2 (slave_colors hc) (master_points_counts hc)
           (master_points hc) = Some sc
         /\ halo_segment 0 (master_colors hd) (slaved_points_counts hd)
              (slaved_points hd) = Some sd
         /\ sc <> []
         /\ map (pointLocalToGlobalID (fun _ _ => 0) (fun _ _ => 0)
                   (fun _ _ => 0) gc) sc
            = map (pointLocalToGlobalID (fun _ _ => 0) (fun _ _ => 0)
                     (fun _ _ => 0) gd) sd.
Proof.
  eexists. eexists. eexists. eexists.
  split; [vm_compute; reflexivity|]. split; [vm_compute; reflexivity|].
  match goal with
  | |- generateHaloPoints ?gc _ = _ /\ generateHaloPoints ?gd _ = _ /\ _ =>
      split; [vm_compute; reflexivity|]; split; [vm_compute; reflexivity|];
      apply (pie_halo_pairs_agree (fun _ _ => 0) (fun _ _ => 0) (fun _ _ => 0)
               (fun _ => 0) (fun _ => 0) (fun _ => 0) (fun _ => 0)
               (with_procs 3 2 (initial_mesh (mkInputParameters "pie" 6 4 6 0)))
               0 2 gc gd)
  end;
    try (simpl; lia); try (vm_compute; reflexivity).
Defined.

(** ** Every slaved point has one master *)

Lemma NoDup_map_on {A B : Type} (f : A -> B) (l : list A) :
  NoDup l -> (forall x y, In x l -> In y l -> f x = f y -> x = y) ->
  NoDup (map f l).
Proof.
  induction 1 as [|a l Ha Hl IH]; intros Hinj; [constructor|].
  cbn [map]. constructor.
  - intros H. apply in_map_iff in H. destruct H as (y & E & Hy).
    apply Ha. rewrite <- (Hinj y a); [exact Hy|now right|now left|exact E].
  - apply IH. intros x y Hx Hy. apply Hinj; now right.
Qed.

Lemma rect_slaved_points_raster (g : GenerateMesh) :
  concat (map snd (rect_slave_relations g))
  = map (vget (perm g)) (rect_slaved_raster g).
Proof.
  unfold rect_slave_relations, rect_slaved_raster.
  rewrite !map_app, !concat_app, ?map_app.
  destruct ((0 <? proc_index_x g) && (0 <? proc_index_y g));
    destruct (0 <? proc_index_y g); destruct (0 <? proc_index_x g);
    cbn [map snd concat app]; rewrite ?app_nil_r, ?map_map; reflexivity.
Qed.

Lemma rect_master_points_raster (g : GenerateMesh) :
  concat (map snd (rect_master_relations g))
  = map (vget (perm g)) (rect_master_raster g).
Proof.
  unfold rect_master_relations, rect_master_raster.
  rewrite !map_app, !concat_app, ?map_app.
  destruct ((proc_index_x g <? num_proc_x g - 1)
            && (proc_index_y g <? num_proc_y g - 1));
    destruct (proc_index_y g <? num_proc_y g - 1);
    destruct (proc_index_x g <? num_proc_x g - 1);
    cbn [map snd concat app]; rewrite ?app_nil_r, ?map_map; reflexivity.
Qed.

(** Breaks a membership in a list built from tests, ranges and maps down to
    arithmetic. *)
Ltac in_cases :=
  repeat match goal with
    | H : In _ (_ ++ _) |- _ => apply in_app_or in H; destruct H as [H|H]
    | H : In _ (if ?b then _ else _) |- _ => destruct b eqn:?
    | H : In _ [] |- _ => destruct H
    | H : In _ (_ :: _) |- _ => destruct H as [H|H]
    | H : In _ (map _ _) |- _ =>
        apply in_map_iff in H; destruct H as (? & ? & H)
    | H : In _ (zrange _ _) |- _ => apply in_zrange in H
    | H : (_ <? _) = true |- _ => apply Z.ltb_lt in H
    | H : (_ <? _) = false |- _ => apply Z.ltb_ge in H
    | H : (_ =? _) = true |- _ => apply Z.eqb_eq in H
    | H : (_ =? _) = false |- _ => apply Z.eqb_neq in H
    | H : negb _ = true |- _ => apply negb_true_iff in H
    | H : negb _ = false |- _ => apply negb_false_iff in H
    | H : _ && _ = true |- _ => apply andb_true_iff in H; destruct H
    | H : _ && _ = false |- _ => apply andb_false_iff in H; destruct H
    | H : context [if ?b then _ else _] |- _ => destruct b eqn:?
    end.

Ltac nodup_raster :=
  repeat first
    [ apply NoDup_nil
    | apply NoDup_zrange
    | apply NoDup_map_on; [apply NoDup_zrange|intros ? ? _ _ ?; nia]
    | apply NoDup_app; [| |intros ? ? ?; in_cases; nia]
    | apply NoDup_cons; [intros ?; in_cases; nia|] ].

Lemma rect_slaved_raster_spec (g : GenerateMesh) (k : Z) :
  2 <= num_points_x g -> 2 <= num_points_y g ->
  In k (rect_slaved_raster g) ->
  exists i j, k = j * num_points_x g + i
    /\ 0 <= i < num_points_x g /\ 0 <= j < num_points_y g
    /\ ((i = 0 /\ 0 < proc_index_x g) \/ (j = 0 /\ 0 < proc_index_y g)).
Proof.
  intros Hx Hy H. unfold rect_slaved_raster, rect_rows, rect_cols in H.
  in_cases;
    first [ exists 0, 0; lia
          | match goal with E : ?x * _ = k |- _ => exists 0, x; lia end
          | exists k, 0; lia ].
Qed.

Lemma rect_master_raster_spec (g : GenerateMesh) (k : Z) :
  2 <= num_points_x g -> 2 <= num_points_y g ->
  0 <= proc_index_x g -> 0 <= proc_index_y g ->
  In k (rect_master_raster g) ->
  exists i j, k = j * num_points_x g + i
    /\ 0 <= i < num_points_x g /\ 0 <= j < num_points_y g
    /\ ((i = num_points_x g - 1 /\ (j = 0 -> proc_index_y g = 0))
        \/ (j = num_points_y g - 1 /\ (i = 0 -> proc_index_x g = 0))).
Proof.
  intros Hx Hy Hpx Hpy H. unfold rect_master_raster, rect_rows, rect_cols in H.
  in_cases;
    first [ match goal with
            | E : ?x * _ + _ = k |- _ =>
                exists (num_points_x g - 1), x; lia
            | E : _ * _ + ?x = k |- _ =>
                exists x, (num_points_y g - 1); lia
            end
          | exists (num_points_x g - 1), (num_points_y g - 1); lia ].
Qed.

Lemma rect_slaved_raster_NoDup (g : GenerateMesh) :
  2 <= num_points_x g -> 2 <= num_points_y g ->
  NoDup (rect_slaved_raster g).
Proof.
  intros Hx Hy. unfold rect_slaved_raster, rect_rows, rect_cols.
  repeat match goal with
    | |- context [if ?b then _ else _] => destruct b eqn:?
    end;
    in_cases; try lia; cbn [app]; nodup_raster.
Qed.

(** X19. On every rank of a rect mesh the halo that [generateHaloPoints]
    builds gives each slaved point one master: no local point occurs twice
    among the slaved points, none is both slaved and master, and every
    point listed on either side is an index into the point array that
    [generateRect] fills. *)
Theorem rect_slaved_points_have_one_master (raw_g raw_l : nat -> Z)
    (g0 : GenerateMesh) (color : Z) (g : GenerateMesh) (h : halo) :
  meshtype g0 = "rect"%string ->
  1 <= global_nzones_x g0 -> 1 <= global_nzones_y g0 ->
  1 <= num_proc_x g0 -> 1 <= num_proc_y g0 ->
  0 <= color < num_proc_x g0 * num_proc_y g0 ->
  calcLocalConstants raw_g raw_l g0 color = Ok g ->
  generateHaloPoints g empty_halo = Ok h ->
  NoDup (slaved_points h)
  /\ (forall p, In p (slaved_points h) -> ~ In p (master_points h))
  /\ (forall p, In p (slaved_points h) \/ In p (master_points h) ->
        0 <= p < vsize (pointpos (generateRect g empty_mesh))).
Proof.
  intros Hmt Hgx Hgy Hpx Hpy Hc Hcalc Hh.
  destruct (calcLocalConstants_constructed _ _ _ _ _ Hgx Hgy Hpx Hpy Hcalc)
    as (C & M & Gx & Gy & N & Px & Py & Col).
  destruct (constructed_extent g C) as (X & Y & _);
    [rewrite Col, Px, Py; exact Hc|].
  pose proof (c_ptx _ C) as Ptx. pose proof (c_pty _ C) as Pty.
  pose proof (c_nzx _ C) as Nzx. pose proof (c_nzy _ C) as Nzy.
  pose proof (c_perm _ C) as Hperm.
  assert (Hx : 2 <= num_points_x g) by lia.
  assert (Hy : 2 <= num_points_y g) by lia.
  destruct (rect_points_placed g empty_mesh Hperm) as [Hlen _]; [lia|lia|].
  rewrite Hlen. clear Hlen.
  unfold generateHaloPoints in Hh. rewrite M, Hmt in Hh.
  cbn [String.eqb Ascii.eqb Bool.eqb] in Hh.
  unfold generateHaloPointsRect in Hh.
  destruct (num_subregions g =? 1).
  { injection Hh as <-. cbn [empty_halo slaved_points master_points].
    split; [constructor|]. split; [intros p []|intros p [[]|[]]]. }
  cbv zeta in Hh. rewrite rect_halo_explicit in Hh by lia.
  injection Hh as <-. unfold halo_of.
  cbn [slaved_points master_points].
  rewrite rect_slaved_points_raster, rect_master_points_raster.
  assert (Rs : forall k, In k (rect_slaved_raster g) ->
                 0 <= k < num_points_x g * num_points_y g).
  { intros k Hk. apply rect_slaved_raster_spec in Hk; [|lia|lia].
    destruct Hk as (i & j & -> & Hi & Hj & _). nia. }
  assert (Rm : forall k, In k (rect_master_raster g) ->
                 0 <= k < num_points_x g * num_points_y g).
  { intros k Hk. apply rect_master_raster_spec in Hk; [|lia|lia|lia|lia].
    destruct Hk as (i & j & -> & Hi & Hj & _). nia. }
  split; [|split].
  - apply NoDup_map_on; [now apply rect_slaved_raster_NoDup|].
    intros x y Hx' Hy' E.
    apply (bijection_on_injective _ _ _ _ Hperm); auto.
  - intros p Hs Hm. apply in_map_iff in Hs. destruct Hs as (k & <- & Hk).
    apply in_map_iff in Hm. destruct Hm as (k' & E & Hk').
    apply (bijection_on_injective _ _ _ _ Hperm) in E; auto. subst k'.
    apply rect_slaved_raster_spec in Hk; [|lia|lia].
    apply rect_master_raster_spec in Hk'; [|lia|lia|lia|lia].
    destruct Hk as (i & j & -> & Hi & Hj & Hs).
    destruct Hk' as (i' & j' & E & Hi' & Hj' & Hm).
    assert (j = j') by nia. assert (i = i') by nia. subst i' j'. lia.
  - intros p [H|H]; apply in_map_iff in H; destruct H as (k & <- & Hk);
      apply (bijection_on_range _ _ _ Hperm); auto.
Qed.

Lemma rect_slaved_points_have_one_master_witness :
  exists g h,
    calcLocalConstants (fun _ => 0) (fun _ => 0)
      (with_procs 3 2 (initial_mesh (mkInputParameters "rect" 6 4 6 0))) 4 = Ok g
    /\ generateHaloPoints g empty_halo = Ok h
    /\ NoDup (slaved_points h)
    /\ (forall p, In p (slaved_points h) -> ~ In p (master_points h))
    /\ (forall p, In p (slaved_points h) \/ In p (master_points h) ->
          0 <= p < vsize (pointpos (generateRect g empty_mesh))).
Proof.
  eexists. eexists.
  split; [vm_compute; reflexivity|]. split; [vm_compute; reflexivity|].
  match goal with
  | |- NoDup (slaved_points ?h) /\ _ /\
       (forall p, _ -> _ <= _ < vsize (pointpos (generateRect ?g _))) =>
      apply (rect_slaved_points_have_one_master (fun _ => 0) (fun _ => 0)
               (with_procs 3 2 (initial_mesh (mkInputParameters "rect" 6 4 6 0)))
               4 g h)
  end;
    try (simpl; lia); vm_compute; reflexivity.
Defined.

Lemma pie_slaved_points_spec (g : GenerateMesh) (p : Z) :
  2 <= num_points_x g -> 2 <= num_points_y g ->
  In p (concat (map snd (pie_slave_relations g))) ->
  (p = 0 /\ proc_index_y g = 0 /\ proc_index_x g <> 0)
  \/ exists i j, p = pie_local g j i
       /\ 0 <= i < num_points_x g /\ 0 <= j < num_points_y g
       /\ (proc_index_y g = 0 -> 1 <= j)
       /\ ((i = 0 /\ proc_index_x g <> 0) \/ (j = 0 /\ proc_index_y g <> 0)).
Proof.
  intros Hx Hy H. unfold pie_slave_relations, pie_cols in H.
  rewrite !map_app, !concat_app in H. cbv zeta in H.
  assert (L : forall i, proc_index_y g <> 0 -> i = pie_local g 0 i).
  { intros i E. unfold pie_local.
    destruct (Z.eqb_spec (proc_index_y g) 0); [contradiction|lia]. }
  apply in_app_or in H. destruct H as [H|H]; [|apply in_app_or in H; destruct H as [H|H]].
  - destruct (negb (proc_index_x g =? 0) && negb (proc_index_y g =? 0)) eqn:E;
      cbn [map snd concat app] in H; in_cases; try contradiction.
    right. exists 0, 0. split; [subst p; now apply L|]. lia.
  - destruct (negb (proc_index_y g =? 0)) eqn:E;
      cbn [map snd concat app] in H; [|destruct H].
    rewrite app_nil_r in H. in_cases; right; exists p, 0;
      (split; [now apply L|]); lia.
  - destruct (negb (proc_index_x g =? 0)) eqn:E; [|destruct H].
    destruct (proc_index_y g =? 0) eqn:E0; [destruct (1 <? proc_index_x g)|];
      cbn [map snd concat app] in H; in_cases; try (left; lia);
      right;
      match goal with
      | Q : pie_local g ?j 0 = p |- _ => exists 0, j; (split; [now rewrite Q|]); lia
      end.
Qed.

Lemma pie_master_points_spec (g : GenerateMesh) (p : Z) :
  2 <= num_points_x g -> 2 <= num_points_y g ->
  In p (concat (map snd (pie_master_relations g))) ->
  (p = 0 /\ proc_index_y g = 0 /\ proc_index_x g = 0)
  \/ exists i j, p = pie_local g j i
       /\ 0 <= i < num_points_x g /\ 1 <= j < num_points_y g
       /\ (i = num_points_x g - 1
           \/ (j = num_points_y g - 1 /\ (i = 0 -> proc_index_x g = 0))).
Proof.
  intros Hx Hy H. unfold pie_master_relations, pie_cols in H.
  rewrite !map_app, !concat_app in H. cbv zeta in H.
  apply in_app_or in H.
  destruct H as [H|H]; [|apply in_app_or in H; destruct H as [H|H]].
  - destruct (negb (proc_index_x g =? num_proc_x g - 1)); [|destruct H].
    destruct ((proc_index_x g =? 0) && (proc_index_y g =? 0)) eqn:E.
    + cbn [map snd concat app] in H. rewrite map_map in H. cbn [snd] in H.
      in_cases; try (left; lia).
      * right.
        match goal with
        | Q : pie_local g ?j _ = p |- _ =>
            exists (num_points_x g - 1), j; (split; [now rewrite Q|]); lia
        end.
      * left. apply in_concat in H. destruct H as (l & Hl & Hp).
        apply in_map_iff in Hl. destruct Hl as (s & <- & _).
        destruct Hp as [<-|[]]. lia.
    + cbn [map snd concat app] in H. rewrite app_nil_r in H. in_cases; right;
        match goal with
        | Q : pie_local g ?j _ = p |- _ =>
            exists (num_points_x g - 1), j; (split; [now rewrite Q|]); lia
        end.
  - destruct (negb (proc_index_y g =? num_proc_y g - 1)); [|destruct H].
    cbn [map snd concat app] in H. rewrite app_nil_r in H. in_cases; right;
      match goal with
      | Q : pie_local g _ ?i = p |- _ =>
          exists i, (num_points_y g - 1); (split; [now rewrite Q|]); lia
      end.
  - destruct (negb (proc_index_x g =? num_proc_x g - 1)
              && negb (proc_index_y g =? num_proc_y g - 1)); [|destruct H].
    cbn [map snd concat app] in H. destruct H as [<-|[]]. right.
    exists (num_points_x g - 1), (num_points_y g - 1). split; [reflexivity|]. lia.
Qed.

Lemma pie_slaved_points_NoDup (g : GenerateMesh) :
  2 <= num_points_x g -> 2 <= num_points_y g ->
  NoDup (concat (map snd (pie_slave_relations g))).
Proof.
  intros Hx Hy. unfold pie_slave_relations, pie_cols, pie_local.
  rewrite !map_app, !concat_app. cbv zeta.
  repeat match goal with
    | |- context [if ?b then _ else _] => destruct b eqn:?
    end;
    in_cases; try lia; cbn [map snd concat app]; rewrite ?app_nil_r;
    nodup_raster.
Qed.

Lemma pie_local_injective (g : GenerateMesh) (j i j' i' : Z) :
  0 <= i < num_points_x g -> 0 <= i' < num_points_x g ->
  pie_local g j i = pie_local g j' i' -> j = j' /\ i = i'.
Proof.
  intros Hi Hi'. unfold pie_local. destruct (proc_index_y g =? 0); intros E.
  - assert (j = j') by nia. split; [assumption|nia].
  - assert (j = j') by nia. split; [assumption|nia].
Qed.

(** X20. On every rank of a pie mesh the halo that [generateHaloPoints]
    builds gives each slaved point one master: no local point occurs twice
    among the slaved points, none is both slaved and master, and every
    point listed on either side is an index into the point array that
    [generatePie] fills. *)
Theorem pie_slaved_points_have_one_master (raw_g raw_l : nat -> Z)
    (g0 : GenerateMesh) (color : Z) (g : GenerateMesh) (h : halo) :
  meshtype g0 = "pie"%string ->
  1 <= global_nzones_x g0 -> 1 <= global_nzones_y g0 ->
  1 <= num_proc_x g0 -> 1 <= num_proc_y g0 ->
  0 <= color < num_proc_x g0 * num_proc_y g0 ->
  calcLocalConstants raw_g raw_l g0 color = Ok g ->
  generateHaloPoints g empty_halo = Ok h ->
  NoDup (slaved_points h)
  /\ (forall p, In p (slaved_points h) -> ~ In p (master_points h))
  /\ (forall p, In p (slaved_points h) \/ In p (master_points h) ->
        0 <= p < vsize (pointpos (generatePie g empty_mesh))).
Proof.
  intros Hmt Hgx Hgy Hpx Hpy Hc Hcalc Hh.
  destruct (calcLocalConstants_constructed _ _ _ _ _ Hgx Hgy Hpx Hpy Hcalc)
    as (C & M & Gx & Gy & N & Px & Py & Col).
  destruct (constructed_extent g C) as (X & Y & _);
    [rewrite Col, Px, Py; exact Hc|].
  pose proof (c_ptx _ C) as Ptx. pose proof (c_pty _ C) as Pty.
  pose proof (c_nzx _ C) as Nzx. pose proof (c_nzy _ C) as Nzy.
  pose proof (c_zy _ C) as Zy.
  assert (Hx : 2 <= num_points_x g) by lia.
  assert (Hy : 2 <= num_points_y g) by lia.
  rewrite pie_pointpos_size by nia.
  assert (Bound : forall i j, 0 <= i < num_points_x g ->
            0 <= j < num_points_y g -> (proc_index_y g = 0 -> 1 <= j) ->
            0 <= pie_local g j i
            < (if zone_y_offset g =? 0
               then 1 + (num_points_y g - 1) * num_points_x g
               else num_points_y g * num_points_x g)).
  { intros i j Hi Hj Hj1. unfold pie_local.
    destruct (Z.eqb_spec (proc_index_y g) 0) as [E|E];
      destruct (Z.eqb_spec (zone_y_offset g) 0); try nia. }
  unfold generateHaloPoints in Hh. rewrite M, Hmt in Hh.
  cbn [String.eqb Ascii.eqb Bool.eqb] in Hh.
  unfold generateHaloPointsPie in Hh.
  destruct (num_subregions g =? 1).
  { injection Hh as <-. cbn [empty_halo slaved_points master_points].
    split; [constructor|]. split; [intros p []|intros p [[]|[]]]. }
  cbv zeta in Hh. rewrite pie_halo_explicit in Hh by lia.
  injection Hh as <-. unfold halo_of.
  cbn [slaved_points master_points].
  split; [|split].
  - now apply pie_slaved_points_NoDup.
  - intros p Hs Hm.
    apply pie_slaved_points_spec in Hs; [|lia|lia].
    apply pie_master_points_spec in Hm; [|lia|lia].
    destruct Hs as [(-> & Y0 & X0)|(i & j & -> & Hi & Hj & Hj1 & Hs)];
      destruct Hm as [(E & Y0' & X0')|(i' & j' & E & Hi' & Hj' & Hm)];
      try lia.
    + unfold pie_local in E. destruct (Z.eqb_spec (proc_index_y g) 0); nia.
    + apply pie_local_injective in E; [|lia|lia]. destruct E as [-> ->]. lia.
  - intros p [H|H].
    + apply pie_slaved_points_spec in H; [|lia|lia].
      destruct H as [(-> & Y0 & X0)|(i & j & -> & Hi & Hj & Hj1 & _)].
      * destruct (Z.eqb_spec (zone_y_offset g) 0); nia.
      * now apply Bound.
    + apply pie_master_points_spec in H; [|lia|lia].
      destruct H as [(-> & Y0 & X0)|(i & j & -> & Hi & Hj & _)].
      * destruct (Z.eqb_spec (zone_y_offset g) 0); nia.
      * apply Bound; lia.
Qed.

Lemma pie_slaved_points_have_one_master_witness :
  exists g h,
    calcLocalConstants (fun _ => 0) (fun _ => 0)
      (with_procs 3 2 (initial_mesh (mkInputParameters "pie" 6 4 6 0))) 2 = Ok g
    /\ generateHaloPoints g empty_halo = Ok h
    /\ NoDup (slaved_points h)
    /\ (forall p, In p (slaved_points h) -> ~ In p (master_points h))
    /\ (forall p, In p (slaved_points h) \/ In p (master_points h) ->
          0 <= p < vsize (pointpos (generatePie g empty_mesh))).
Proof.
  eexists. eexists.
  split; [vm_compute; reflexivity|]. split; [vm_compute; reflexivity|].
  match goal with
  | |- NoDup (slaved_points ?h) /\ _ /\
       (forall p, _ -> _ <= _ < vsize (pointpos (generatePie ?g _))) =>
      apply (pie_slaved_points_have_one_master (fun _ => 0) (fun _ => 0)
               (with_procs 3 2 (initial_mesh (mkInputParameters "pie" 6 4 6 0)))
               2 g h)
  end;
    try (simpl; lia); vm_compute; reflexivity.
Defined.

(** ** The vertices of the hex zones are points of the rank *)

(** The vertex list of one hex zone, case by case. *)
Lemma hex_zone_vertices_cases (g : GenerateMesh) (pbasel pbaseh i gi gj : Z) :
  hex_zone_vertices g pbasel pbaseh i gi gj
  = if gj =? 0 then
      [pbasel + i; pbasel + i + 1]
      ++ (if gi =? global_nzones_x g - 1 then [] else [pbaseh + 2 * i + 1 + 1])
      ++ [pbaseh + 2 * i + 1; pbaseh + 2 * i]
    else if gj =? global_nzones_y g - 1 then
      (if gi =? 0 then [] else [pbasel + 2 * i - 1])
      ++ [pbasel + 2 * i; pbasel + 2 * i + 1; pbaseh + i + 1; pbaseh + i]
    else if gi =? 0 then
      [pbasel + 2 * i; pbasel + 2 * i + 1; pbaseh + 2 * i + 1 + 1;
       pbaseh + 2 * i + 1; pbaseh + 2 * i]
    else
      [pbasel + 2 * i - 1; pbasel + 2 * i; pbasel + 2 * i + 1]
      ++ (if gi =? global_nzones_x g - 1 then [] else [pbaseh + 2 * i + 1 + 1])
      ++ [pbaseh + 2 * i + 1; pbaseh + 2 * i].
Proof.
  unfold hex_zone_vertices.
  destruct (gj =? 0); [destruct (gi =? global_nzones_x g - 1); reflexivity|].
  destruct (gj =? global_nzones_y g - 1); [destruct (gi =? 0); reflexivity|].
  destruct (gi =? 0); [reflexivity|].
  destruct (gi =? global_nzones_x g - 1); reflexivity.
Qed.

(** A row strictly inside the global grid holds two points per position,
    except one at each end that lies on the global boundary or at an inner
    corner of the rank. *)
Lemma hex_row_points_interior (g : GenerateMesh) (j : Z) :
  1 <= nzones_x g -> num_points_x g = nzones_x g + 1 ->
  0 <= zone_x_offset g ->
  zone_x_offset g + nzones_x g <= global_nzones_x g ->
  0 < j + zone_y_offset g < global_nzones_y g ->
  hex_row_points g j
  = 2 * nzones_x g + 2
    - (if (zone_x_offset g =? 0) || (j =? nzones_y g) then 1 else 0)
    - (if (zone_x_offset g + nzones_x g =? global_nzones_x g) || (j =? 0)
       then 1 else 0).
Proof.
  intros Hnx Hpt Hzx Hzx' Hgj. unfold hex_row_points.
  rewrite Hpt, zrange_snoc, map_app, zsum_app by lia.
  rewrite (zrange_cons 0 (nzones_x g)) by lia.
  cbn [map zsum fold_right]. fold (zsum (map (hex_points_at g j)
                                          (zrange (0 + 1) (nzones_x g)))).
  rewrite (zsum_const _ 2).
  - unfold vsize. rewrite length_zrange. unfold hex_points_at. cbv zeta.
    replace (0 + zone_x_offset g) with (zone_x_offset g) by lia.
    replace (nzones_x g + zone_x_offset g)
      with (zone_x_offset g + nzones_x g) by lia.
    destruct (Z.eqb_spec (j + zone_y_offset g) 0); [lia|].
    destruct (Z.eqb_spec (j + zone_y_offset g) (global_nzones_y g)); [lia|].
    destruct (Z.eqb_spec (zone_x_offset g) (global_nzones_x g)); [lia|].
    destruct (Z.eqb_spec (zone_x_offset g + nzones_x g) 0); [lia|].
    destruct (Z.eqb_spec 0 (nzones_x g)); [lia|].
    destruct (Z.eqb_spec (nzones_x g) 0); [lia|].
    rewrite (Z.eqb_refl (nzones_x g)), (Z.eqb_refl 0).
    destruct (zone_x_offset g =? 0);
      destruct (zone_x_offset g + nzones_x g =? global_nzones_x g);
      destruct (j =? 0); destruct (j =? nzones_y g);
      cbn [andb orb]; lia.
  - intros i Hi. apply in_zrange in Hi. unfold hex_points_at. cbv zeta.
    destruct (Z.eqb_spec (i + zone_x_offset g) 0); [lia|].
    destruct (Z.eqb_spec (i + zone_x_offset g) (global_nzones_x g)); [lia|].
    destruct (Z.eqb_spec (j + zone_y_offset g) 0); [lia|].
    destruct (Z.eqb_spec (j + zone_y_offset g) (global_nzones_y g)); [lia|].
    destruct (Z.eqb_spec i (nzones_x g)); [lia|].
    destruct (Z.eqb_spec i 0); [lia|].
    reflexivity.
Qed.

Lemma in_concat_grid (h w : Z) (F : Z -> Z -> vec) (p : Z) :
  In p (concat (grid h w F)) ->
  exists i j, 0 <= i < w /\ 0 <= j < h /\ In p (F j i).
Proof.
  intros H. apply in_concat in H. destruct H as (l & Hl & Hp).
  unfold grid in Hl. apply in_flat_map in Hl. destruct Hl as (j & Hj & Hl).
  apply in_map_iff in Hl. destruct Hl as (i & <- & Hi).
  apply in_zrange in Hi, Hj. exists i, j. auto.
Qed.

(** X21. On a global grid of at least 2 by 2 zones, every vertex index that
    [generateHex] stores in [zonepoints] is the index of a point it has
    stored in [pointpos]: no zone of a hex rank refers to a point the rank
    does not hold. *)
Theorem generateHex_vertices_in_range (raw_g raw_l : nat -> Z)
    (g0 : GenerateMesh) (color : Z) (g : GenerateMesh) (p : Z) :
  2 <= global_nzones_x g0 -> 2 <= global_nzones_y g0 ->
  1 <= num_proc_x g0 -> 1 <= num_proc_y g0 ->
  0 <= color < num_proc_x g0 * num_proc_y g0 ->
  calcLocalConstants raw_g raw_l g0 color = Ok g ->
  In p (zonepoints (generateHex g empty_mesh)) ->
  0 <= p < vsize (pointpos (generateHex g empty_mesh)).
Proof.
  intros Hgx Hgy Hpx Hpy Hc Hcalc Hin.
  destruct (calcLocalConstants_constructed raw_g raw_l g0 color g) as
    (C & M & Gx & Gy & N & Px & Py & Col); try assumption; try lia.
  destruct (constructed_extent g C) as (X & Y & _ & Zx0 & Zx1 & Zy0 & Zy1);
    [rewrite Col, Px, Py; exact Hc|].
  pose proof (c_ptx _ C) as Ptx. pose proof (c_pty _ C) as Pty.
  pose proof (c_nzx _ C) as Nzx. pose proof (c_nzy _ C) as Nzy.
  pose proof (c_zx _ C) as Zx.
  rewrite Gx in Zx1. rewrite Gy in Zy1.
  (* the zones and the points of the rank *)
  rewrite generateHex_zones in Hin |- *.
  pose proof (add_zones_spec
                (grid (nzones_y g) (nzones_x g)
                   (hex_zone g (snd (hex_points g empty_mesh))))
                (fst (hex_points g empty_mesh))) as A.
  cbv zeta in A. fold (add_zones
                         (grid (nzones_y g) (nzones_x g)
                            (hex_zone g (snd (hex_points g empty_mesh))))
                         (fst (hex_points g empty_mesh))) in A.
  destruct A as (App & _ & _ & Azp). rewrite App. rewrite Azp in Hin.
  destruct (hex_points_frame g empty_mesh) as (_ & _ & Fzp).
  rewrite Fzp in Hin. cbn [zonepoints empty_mesh app] in Hin.
  destruct (hex_count_points g empty_mesh eq_refl) as [Hnp Hpb].
  rewrite <- Hnp. rewrite <- Hpb in Hin.
  destruct (hex_count_spec g) as [Enp Epb]; [lia|].
  rewrite Enp.
  apply in_concat_grid in Hin. destruct Hin as (i & j & Hi & Hj & Hin).
  unfold hex_zone in Hin. cbv zeta in Hin.
  rewrite !Epb in Hin by lia.
  (* the rows the zone touches *)
  assert (B0 : 0 <= hex_row_base g j).
  { change 0 with (hex_row_base g 0) at 1. apply hex_row_base_mono; lia. }
  pose proof (hex_row_base_step g j ltac:(lia)) as S1.
  pose proof (hex_row_base_step g (j + 1) ltac:(lia)) as S2.
  pose proof (hex_row_points_lower g j ltac:(lia)) as R1.
  pose proof (hex_row_points_lower g (j + 1) ltac:(lia)) as R2.
  assert (Top : hex_row_base g (j + 1 + 1) <= hex_row_base g (num_points_y g))
    by (apply hex_row_base_mono; lia).
  assert (R2' : j + 1 + zone_y_offset g < global_nzones_y g0 ->
                hex_row_points g (j + 1)
                = 2 * nzones_x g + 2
                  - (if (zone_x_offset g =? 0) || (j + 1 =? nzones_y g)
                     then 1 else 0)
                  - (if (zone_x_offset g + nzones_x g =? global_nzones_x g)
                        || (j + 1 =? 0) then 1 else 0)).
  { intros H. apply hex_row_points_interior; lia. }
  rewrite Gx in R2'.
  assert (Pix : 0 < proc_index_x g <-> 0 < zone_x_offset g) by nia.
  set (b := hex_row_base g j) in *.
  set (b1 := hex_row_base g (j + 1)) in *.
  set (b2 := hex_row_base g (j + 1 + 1)) in *.
  set (np := hex_row_base g (num_points_y g)) in *.
  set (r1 := hex_row_points g j) in *.
  set (r2 := hex_row_points g (j + 1)) in *.
  rewrite hex_zone_vertices_cases in Hin. rewrite Gx, Gy in Hin.
  destruct (Z.ltb_spec 0 (proc_index_x g)) as [P|P];
    destruct (Z.ltb_spec 0 (j + zone_y_offset g)) as [Q|Q];
    destruct (Z.ltb_spec j (nzones_y g - 1)) as [T|T];
    cbn [andb] in Hin;
    destruct (Z.eqb_spec (j + zone_y_offset g) 0) as [E1|E1]; try lia;
    destruct (Z.eqb_spec (j + zone_y_offset g) (global_nzones_y g0 - 1))
      as [E2|E2]; try lia;
    destruct (Z.eqb_spec (i + zone_x_offset g) 0) as [E3|E3]; try lia;
    destruct (Z.eqb_spec (i + zone_x_offset g) (global_nzones_x g0 - 1))
      as [E4|E4]; try lia;
    cbn [app] in Hin;
    repeat (destruct Hin as [Hin|Hin]; [subst p|]); try (destruct Hin);
    try lia;
    (destruct (Z.eq_dec (j + 1 + zone_y_offset g) (global_nzones_y g0));
     [lia|]);
    specialize (R2' ltac:(lia));
    destruct (Z.eqb_spec (zone_x_offset g) 0);
    destruct (Z.eqb_spec (j + 1) (nzones_y g));
    destruct (Z.eqb_spec (zone_x_offset g + nzones_x g) (global_nzones_x g0));
    destruct (Z.eqb_spec (j + 1) 0);
    cbn [orb] in R2'; lia.
Qed.

Lemma generateHex_vertices_in_range_witness :
  exists g,
    calcLocalConstants (fun _ => 0) (fun _ => 0)
      (with_procs 2 2 (initial_mesh (mkInputParameters "hex" 4 4 4 0))) 3 = Ok g
    /\ 0 <= vget (zonepoints (generateHex g empty_mesh)) 0
       < vsize (pointpos (generateHex g empty_mesh)).
Proof.
  eexists. split; [vm_compute; reflexivity|].
  match goal with
  | |- _ <= vget (zonepoints (generateHex ?g _)) 0 < _ =>
      apply (generateHex_vertices_in_range (fun _ => 0) (fun _ => 0)
               (with_procs 2 2 (initial_mesh (mkInputParameters "hex" 4 4 4 0)))
               3 g)
  end;
    [simpl; lia|simpl; lia|simpl; lia|simpl; lia|simpl; lia
    |vm_compute; reflexivity|vm_compute; left; reflexivity].
Defined.

(** ** The segments of the hex halo *)

(** The loop over a row of a hex rank: [p] runs through the points of the
    row, skipping the first position ([skip] points wide) when it belongs to
    the diagonal or the left neighbour. *)
Lemma hex_row_loop {St : Type} (push : Z -> St -> St) (b : bool)
    (skip nzx p0 : Z) (h : St) :
  1 <= nzx -> 1 <= skip ->
  for_ 0 (nzx + 1) (fun i '(h, p) =>
    if (i =? 0) && b then (h, p + skip)
    else if (i =? 0) || (i =? nzx) then (push p h, p + 1)
    else (push (p + 1) (push p h), p + 2))
    (h, p0)
  = (fold_left (fun s x => push x s)
       (zrange (p0 + (if b then skip else 0))
          (p0 + 2 * nzx - 1 + (if b then skip else 1))) h,
     p0 + 2 * nzx - 1 + (if b then skip else 1)).
Proof.
  intros Hnz Hskip.
  set (s := if b then skip else 0).
  set (w := if b then skip else 1).
  set (e := fun i => if i =? 0 then 0
                     else if i <=? nzx then 2 * i - 2 + w
                     else 2 * nzx - 1 + w).
  pose proof (for_invariant_idx
    (fun i (st : St * Z) =>
       st = (fold_left (fun s x => push x s) (zrange (p0 + s) (p0 + e i)) h,
             p0 + e i))
    0 (nzx + 1)) as Hinv.
  cbv beta in Hinv.
  match goal with |- for_ 0 (nzx + 1) ?body ?st = _ =>
    specialize (Hinv body st ltac:(lia)) end.
  assert (Hend : e (nzx + 1) = 2 * nzx - 1 + w).
  { unfold e. destruct (Z.eqb_spec (nzx + 1) 0); [lia|].
    destruct (Z.leb_spec (nzx + 1) nzx); lia. }
  rewrite Hend in Hinv.
  replace (p0 + (2 * nzx - 1 + w)) with (p0 + 2 * nzx - 1 + w) in Hinv by lia.
  apply Hinv.
  - unfold e. cbn [Z.eqb]. rewrite zrange_nil; [|unfold s; destruct b; lia].
    cbn [fold_left]; f_equal; lia.
  - intros i [h' p] Hi E. injection E as -> ->. unfold e.
    destruct (Z.eqb_spec i 0) as [->|Hi0]; cbn [andb orb].
    + cbn [Z.add Z.eqb]. destruct (Z.leb_spec 1 nzx); [|lia].
      unfold s, w. destruct b.
      * rewrite !zrange_nil by lia. cbn [fold_left]; f_equal; lia.
      * rewrite (zrange_nil (p0 + 0) (p0 + 0)) by lia.
        replace (p0 + (2 * 1 - 2 + 1)) with (p0 + 0 + 1) by lia.
        rewrite (zrange_snoc (p0 + 0) (p0 + 0)) by lia.
        rewrite zrange_nil by lia. cbn [app fold_left]; f_equal; lia.
    + destruct (Z.eqb_spec (i + 1) 0); [lia|].
      destruct (Z.leb_spec i nzx); [|lia].
      assert (Hw : 1 <= w) by (unfold w; destruct b; lia).
      assert (Hs : s <= w) by (unfold s, w; destruct b; lia).
      destruct (Z.eqb_spec i nzx) as [->|Hne].
      * destruct (Z.leb_spec (nzx + 1) nzx); [lia|].
        replace (p0 + (2 * nzx - 1 + w)) with (p0 + (2 * nzx - 2 + w) + 1) by lia.
        rewrite (zrange_snoc (p0 + s) (p0 + (2 * nzx - 2 + w))) by lia.
        rewrite fold_left_app. reflexivity.
      * destruct (Z.leb_spec (i + 1) nzx); [|lia].
        replace (p0 + (2 * (i + 1) - 2 + w))
          with (p0 + (2 * i - 2 + w) + 1 + 1) by lia.
        rewrite (zrange_snoc (p0 + s) (p0 + (2 * i - 2 + w) + 1)),
          (zrange_snoc (p0 + s) (p0 + (2 * i - 2 + w))) by lia.
        rewrite !fold_left_app; cbn [fold_left]; f_equal; lia.
Qed.

Lemma hex_slave_below_explicit (g : GenerateMesh) (rs rm : list (Z * vec)) :
  1 <= nzones_x g -> num_points_x g = nzones_x g + 1 ->
  hex_slave_below g (halo_of rs rm)
  = halo_of (rs ++ (if negb (proc_index_y g =? 0)
                    then [(my_color g - num_proc_x g, hex_below_points g)]
                    else [])) rm.
Proof.
  intros Hnz Hpt. unfold hex_slave_below.
  destruct (negb (proc_index_y g =? 0)); [|now rewrite app_nil_r].
  cbv zeta. rewrite Hpt.
  rewrite (hex_row_loop push_slaved_point (negb (proc_index_x g =? 0)) 2)
    by lia.
  replace (zrange (0 + (if negb (proc_index_x g =? 0) then 2 else 0))
             (0 + 2 * nzones_x g - 1
              + (if negb (proc_index_x g =? 0) then 2 else 1)))
    with (hex_below_points g)
    by (unfold hex_below_points; destruct (negb (proc_index_x g =? 0));
        f_equal; lia).
  exact (close_slave (my_color g - num_proc_x g) (hex_below_points g) rs rm).
Qed.

Lemma hex_slave_left_explicit (g : GenerateMesh) (pbase : vec)
    (rs rm : list (Z * vec)) :
  (forall j, 0 <= j < num_points_y g -> vget pbase j = hex_row_base g j) ->
  hex_slave_left g pbase (halo_of rs rm)
  = halo_of (rs ++ (if negb (proc_index_x g =? 0)
                    then [(my_color g - 1, hex_left_points g)] else [])) rm.
Proof.
  intros Hpb. unfold hex_slave_left.
  destruct (negb (proc_index_x g =? 0)); [|now rewrite app_nil_r].
  cbv zeta.
  rewrite (for_fold_flat_map push_slaved_point (fun j =>
             if (j =? 0) && negb (proc_index_y g =? 0) then []
             else if (j =? 0) || (j =? nzones_y g) then [hex_row_base g j]
             else [hex_row_base g j; hex_row_base g j + 1])).
  - exact (close_slave (my_color g - 1) (hex_left_points g) rs rm).
  - intros j s' Hj. rewrite Hpb by lia.
    destruct ((j =? 0) && negb (proc_index_y g =? 0)); [reflexivity|].
    destruct ((j =? 0) || (j =? nzones_y g)); reflexivity.
Qed.

Lemma hex_master_right_explicit (g : GenerateMesh) (np : Z) (pbase : vec)
    (rs rm : list (Z * vec)) :
  num_points_y g = nzones_y g + 1 ->
  np = hex_row_base g (num_points_y g) ->
  (forall j, 0 <= j < num_points_y g -> vget pbase j = hex_row_base g j) ->
  hex_master_right g np pbase (halo_of rs rm)
  = halo_of rs
      (rm ++ (if negb (proc_index_x g =? num_proc_x g - 1)
              then [(my_color g + 1, hex_right_points g)] else [])).
Proof.
  intros Hpt Hnp Hpb. unfold hex_master_right.
  destruct (negb (proc_index_x g =? num_proc_x g - 1));
    [|now rewrite app_nil_r].
  cbv zeta.
  rewrite (for_fold_flat_map push_master_point (fun j =>
             if (j =? 0) && negb (proc_index_y g =? 0) then []
             else if (j =? 0) || (j =? nzones_y g)
             then [hex_row_base g (j + 1) - 1]
             else [hex_row_base g (j + 1) - 2; hex_row_base g (j + 1) - 1])).
  - exact (close_master (my_color g + 1) (hex_right_points g) rs rm).
  - intros j s' Hj.
    destruct ((j =? 0) && negb (proc_index_y g =? 0)); [reflexivity|].
    assert (Ep : (if j =? nzones_y g then np else vget pbase (j + 1))
                 = hex_row_base g (j + 1)).
    { destruct (Z.eqb_spec j (nzones_y g)) as [->|N].
      - now rewrite Hnp, Hpt.
      - apply Hpb. lia. }
    rewrite Ep.
    destruct ((j =? 0) || (j =? nzones_y g)); reflexivity.
Qed.

Lemma hex_master_above_explicit (g : GenerateMesh) (pbase : vec)
    (rs rm : list (Z * vec)) :
  1 <= nzones_x g -> num_points_x g = nzones_x g + 1 ->
  0 <= nzones_y g < num_points_y g ->
  (forall j, 0 <= j < num_points_y g -> vget pbase j = hex_row_base g j) ->
  hex_master_above g pbase (halo_of rs rm)
  = halo_of rs
      (rm ++ (if negb (proc_index_y g =? num_proc_y g - 1)
              then [(my_color g + num_proc_x g, hex_above_points g)]
              else [])).
Proof.
  intros Hnz Hpt Hny Hpb. unfold hex_master_above.
  destruct (negb (proc_index_y g =? num_proc_y g - 1));
    [|now rewrite app_nil_r].
  cbv zeta. rewrite Hpt, Hpb by lia.
  rewrite (hex_row_loop push_master_point (negb (proc_index_x g =? 0)) 1)
    by lia.
  replace (zrange (hex_row_base g (nzones_y g)
                   + (if negb (proc_index_x g =? 0) then 1 else 0))
             (hex_row_base g (nzones_y g) + 2 * nzones_x g - 1
              + (if negb (proc_index_x g =? 0) then 1 else 1)))
    with (hex_above_points g)
    by (unfold hex_above_points; destruct (negb (proc_index_x g =? 0));
        f_equal; lia).
  exact (close_master (my_color g + num_proc_x g) (hex_above_points g) rs rm).
Qed.

Lemma push_pair_master (c p q : Z) (rs rm : list (Z * vec)) :
  push_master_count 2
    (push_slave_color c
       (push_master_point q (push_master_point p (halo_of rs rm))))
  = halo_of rs (rm ++ [(c, [p; q])]).
Proof.
  rewrite halo_of_snoc_master.
  unfold push_master_count, push_slave_color, push_master_point, push_back,
    halo_of.
  cbn [master_colors slaved_points_counts slaved_points slave_colors
       master_points_counts master_points].
  now rewrite <- app_assoc.
Qed.

Lemma hex_halo_explicit (g : GenerateMesh) (np : Z) (pbase : vec) :
  1 <= nzones_x g -> num_points_x g = nzones_x g + 1 ->
  0 <= nzones_y g -> num_points_y g = nzones_y g + 1 ->
  np = hex_row_base g (num_points_y g) ->
  (forall j, 0 <= j < num_points_y g -> vget pbase j = hex_row_base g j) ->
  hex_master_upper_right g np (hex_master_above g pbase
    (hex_master_right g np pbase (hex_slave_left g pbase (hex_slave_below g
      (hex_slave_lower_left g empty_halo)))))
  = halo_of (hex_slave_relations g) (hex_master_relations g).
Proof.
  intros Hnz Hptx Hny Hpty Hnp Hpb. change empty_halo with (halo_of [] []).
  assert (E1 : hex_slave_lower_left g (halo_of [] [])
               = halo_of (if negb (proc_index_x g =? 0)
                             && negb (proc_index_y g =? 0)
                          then [(my_color g - num_proc_x g - 1, [0; 1])]
                          else []) []).
  { unfold hex_slave_lower_left.
    destruct (negb (proc_index_x g =? 0) && negb (proc_index_y g =? 0));
      reflexivity. }
  rewrite E1, hex_slave_below_explicit by assumption.
  rewrite hex_slave_left_explicit by assumption.
  rewrite hex_master_right_explicit by assumption.
  rewrite hex_master_above_explicit by (try assumption; lia).
  unfold hex_master_upper_right, hex_slave_relations, hex_master_relations.
  rewrite <- !app_assoc. cbn [app].
  destruct (negb (proc_index_x g =? num_proc_x g - 1)
            && negb (proc_index_y g =? num_proc_y g - 1));
    [|now rewrite app_nil_r].
  cbv zeta. rewrite Hnp, push_pair_master. now rewrite <- !app_assoc.
Qed.

(** ** Every slaved point of a hex rank has one master *)

Lemma hex_row_facts (g : GenerateMesh) (j : Z) :
  2 <= num_points_x g -> num_points_y g = nzones_y g + 1 ->
  0 <= j <= nzones_y g ->
  0 <= hex_row_base g j
  /\ hex_row_base g j + 2 <= hex_row_base g (j + 1)
  /\ hex_row_base g (j + 1) <= hex_row_base g (num_points_y g)
  /\ (1 <= j -> hex_row_base g 1 <= hex_row_base g j).
Proof.
  intros Hx Hy Hj. split; [|split; [|split]].
  - change 0 with (hex_row_base g 0) at 1. apply hex_row_base_mono; lia.
  - rewrite hex_row_base_step by lia.
    pose proof (hex_row_points_lower g j ltac:(lia)). lia.
  - apply hex_row_base_mono; lia.
  - intros H. apply hex_row_base_mono; lia.
Qed.

Lemma hex_rows_disjoint (g : GenerateMesh) (j j' x : Z) :
  0 <= num_points_x g -> 0 <= j -> 0 <= j' ->
  hex_row_base g j <= x < hex_row_base g (j + 1) ->
  hex_row_base g j' <= x < hex_row_base g (j' + 1) -> j = j'.
Proof.
  intros Hx Hj Hj' R R'.
  destruct (Z.lt_trichotomy j j') as [Hlt|[Heq|Hgt]]; [|exact Heq|].
  - pose proof (hex_row_base_mono g (j + 1) j' ltac:(lia) ltac:(lia)). lia.
  - pose proof (hex_row_base_mono g (j' + 1) j ltac:(lia) ltac:(lia)). lia.
Qed.

Lemma hex_left_points_spec (g : GenerateMesh) (x : Z) :
  In x (hex_left_points g) ->
  exists j, 0 <= j < num_points_y g /\ (j = 0 -> proc_index_y g = 0)
    /\ (x = hex_row_base g j
        \/ (x = hex_row_base g j + 1 /\ j <> 0 /\ j <> nzones_y g)).
Proof.
  intros H. unfold hex_left_points in H. apply in_flat_map in H.
  destruct H as (j & Hj & H). apply in_zrange in Hj. exists j.
  split; [exact Hj|].
  destruct (Z.eqb_spec j 0) as [E0|E0];
    destruct (Z.eqb_spec (proc_index_y g) 0) as [Ey|Ey];
    destruct (Z.eqb_spec j (nzones_y g)) as [En|En];
    cbn [andb orb negb In] in H; intuition lia.
Qed.

Lemma hex_right_points_spec (g : GenerateMesh) (x : Z) :
  In x (hex_right_points g) ->
  exists j, 0 <= j < num_points_y g /\ (j = 0 -> proc_index_y g = 0)
    /\ (x = hex_row_base g (j + 1) - 1
        \/ (x = hex_row_base g (j + 1) - 2 /\ j <> 0 /\ j <> nzones_y g)).
Proof.
  intros H. unfold hex_right_points in H. apply in_flat_map in H.
  destruct H as (j & Hj & H). apply in_zrange in Hj. exists j.
  split; [exact Hj|].
  destruct (Z.eqb_spec j 0) as [E0|E0];
    destruct (Z.eqb_spec (proc_index_y g) 0) as [Ey|Ey];
    destruct (Z.eqb_spec j (nzones_y g)) as [En|En];
    cbn [andb orb negb In] in H; intuition lia.
Qed.

Lemma hex_left_points_NoDup (g : GenerateMesh) :
  2 <= num_points_x g -> NoDup (hex_left_points g).
Proof.
  intros Hx.
  assert (Hstep : forall j, 0 <= j ->
            hex_row_base g j + 2 <= hex_row_base g (j + 1)).
  { intros j Hj. rewrite hex_row_base_step by lia.
    pose proof (hex_row_points_lower g j ltac:(lia)). lia. }
  unfold hex_left_points.
  apply (NoDup_flat_map_rel
           (fun j x => 0 <= j
                       /\ hex_row_base g j <= x < hex_row_base g (j + 1))).
  - intros j x Hj H. apply in_zrange in Hj.
    pose proof (Hstep j ltac:(lia)).
    destruct ((j =? 0) && negb (proc_index_y g =? 0)); [destruct H|].
    destruct ((j =? 0) || (j =? nzones_y g)); cbn [In] in H; intuition lia.
  - intros j j' x _ _ [Hj R] [Hj' R'].
    apply (hex_rows_disjoint g j j' x); try assumption; lia.
  - apply NoDup_zrange.
  - intros j _.
    destruct ((j =? 0) && negb (proc_index_y g =? 0)); [constructor|].
    destruct ((j =? 0) || (j =? nzones_y g)); repeat constructor;
      cbn [In]; intuition lia.
Qed.

(** X22. On every rank of a hex mesh the halo that [generateHaloPoints]
    builds gives each slaved point one master: no local point occurs twice
    among the slaved points, none is both slaved and master, and every
    point listed on either side is an index into the point array that
    [generateHex] fills. *)
Theorem hex_slaved_points_have_one_master (raw_g raw_l : nat -> Z)
    (g0 : GenerateMesh) (color : Z) (g : GenerateMesh) (h : halo) :
  meshtype g0 = "hex"%string ->
  1 <= global_nzones_x g0 -> 1 <= global_nzones_y g0 ->
  1 <= num_proc_x g0 -> 1 <= num_proc_y g0 ->
  0 <= color < num_proc_x g0 * num_proc_y g0 ->
  calcLocalConstants raw_g raw_l g0 color = Ok g ->
  generateHaloPoints g empty_halo = Ok h ->
  NoDup (slaved_points h)
  /\ (forall p, In p (slaved_points h) -> ~ In p (master_points h))
  /\ (forall p, In p (slaved_points h) \/ In p (master_points h) ->
        0 <= p < vsize (pointpos (generateHex g empty_mesh))).
Proof.
  intros Hmt Hgx Hgy Hpx Hpy Hc Hcalc Hh.
  destruct (calcLocalConstants_constructed _ _ _ _ _ Hgx Hgy Hpx Hpy Hcalc)
    as (C & M & Gx & Gy & N & Px & Py & Col).
  destruct (constructed_extent g C) as (X & Y & _ & Zx0 & Zx1 & Zy0 & Zy1);
    [rewrite Col, Px, Py; exact Hc|].
  pose proof (c_ptx _ C) as Ptx. pose proof (c_pty _ C) as Pty.
  pose proof (c_nzx _ C) as Nzx. pose proof (c_nzy _ C) as Nzy.
  pose proof (c_zx _ C) as Zx. pose proof (c_zy _ C) as Zy.
  pose proof (c_gnx _ C) as Dx. pose proof (c_gny _ C) as Dy.
  (* the number of points of the rank *)
  assert (Enp : vsize (pointpos (generateHex g empty_mesh))
                = hex_row_base g (num_points_y g)).
  { rewrite generateHex_zones.
    pose proof (add_zones_spec
                  (grid (nzones_y g) (nzones_x g)
                     (hex_zone g (snd (hex_points g empty_mesh))))
                  (fst (hex_points g empty_mesh))) as A.
    cbv zeta in A.
    fold (add_zones
            (grid (nzones_y g) (nzones_x g)
               (hex_zone g (snd (hex_points g empty_mesh))))
            (fst (hex_points g empty_mesh))) in A.
    destruct A as (App & _). rewrite App.
    destruct (hex_count_points g empty_mesh eq_refl) as [Hnp _].
    rewrite <- Hnp. apply hex_count_spec. lia. }
  rewrite Enp. clear Enp.
  (* the halo, relation by relation *)
  unfold generateHaloPoints in Hh. rewrite M, Hmt in Hh.
  cbn [String.eqb Ascii.eqb Bool.eqb] in Hh.
  unfold generateHaloPointsHex in Hh.
  destruct (num_subregions g =? 1).
  { injection Hh as <-. cbn [empty_halo slaved_points master_points].
    split; [constructor|]. split; [intros p []|intros p [[]|[]]]. }
  destruct (hex_count_spec g) as [Enp Epb]; [lia|].
  destruct (hex_count g) as [np pbase]. cbn [fst snd] in Enp, Epb.
  cbv zeta in Hh. rewrite (hex_halo_explicit g np pbase) in Hh by (auto; lia).
  injection Hh as <-. unfold halo_of. cbn [slaved_points master_points].
  (* the rows of the rank *)
  set (B := hex_row_base g) in *.
  assert (B0 : B 0 = 0) by reflexivity.
  assert (F : forall j, 0 <= j <= nzones_y g ->
            0 <= B j /\ B j + 2 <= B (j + 1)
            /\ B (j + 1) <= B (num_points_y g)
            /\ (1 <= j -> B 1 <= B j)).
  { intros j Hj. apply hex_row_facts; lia. }
  assert (Rows : forall j j' x, 0 <= j -> 0 <= j' ->
            B j <= x < B (j + 1) -> B j' <= x < B (j' + 1) -> j = j').
  { intros j j' x Hj Hj'. apply hex_rows_disjoint; lia. }
  assert (R0 : proc_index_y g <> 0 ->
               B 1 = 2 * nzones_x g + 1
                     - (if proc_index_x g =? 0 then 1 else 0)).
  { intros Hy. change 1 with (0 + 1) at 1. unfold B.
    rewrite hex_row_base_step by lia. fold B. rewrite B0.
    rewrite hex_row_points_interior by first [lia|nia].
    change (0 =? 0) with true. rewrite orb_true_r.
    destruct (Z.eqb_spec (zone_x_offset g) 0);
      destruct (Z.eqb_spec (proc_index_x g) 0);
      destruct (Z.eqb_spec 0 (nzones_y g)); cbn [orb]; try lia; nia. }
  assert (Rtop : proc_index_y g <> num_proc_y g - 1 ->
                 B (nzones_y g) + 2 * nzones_x g <= B (num_points_y g)
                 /\ (proc_index_x g <> num_proc_x g - 1 ->
                     B (nzones_y g) + 2 * nzones_x g + 1
                     = B (num_points_y g))).
  { intros Hy. rewrite Pty. unfold B.
    rewrite hex_row_base_step by lia. fold B.
    rewrite hex_row_points_interior by first [lia|nia].
    rewrite Z.eqb_refl, orb_true_r.
    destruct (Z.eqb_spec (nzones_y g) 0); [lia|]. rewrite orb_false_r.
    destruct (Z.eqb_spec (zone_x_offset g + nzones_x g) (global_nzones_x g));
      split; try lia; intros Hx; nia. }
  assert (Rmid : forall j, 0 < j < nzones_y g ->
                 proc_index_x g <> 0 -> proc_index_x g <> num_proc_x g - 1 ->
                 B (j + 1) = B j + 2 * nzones_x g + 2).
  { intros j Hj Hx0 Hx1. unfold B. rewrite hex_row_base_step by lia.
    rewrite hex_row_points_interior by first [lia|nia].
    destruct (Z.eqb_spec (zone_x_offset g) 0); [nia|].
    destruct (Z.eqb_spec j (nzones_y g)); [lia|].
    destruct (Z.eqb_spec (zone_x_offset g + nzones_x g) (global_nzones_x g));
      [nia|].
    destruct (Z.eqb_spec j 0); [lia|]. cbn [orb]. lia. }
  (* what each side lists *)
  assert (S : forall x, In x (concat (map snd (hex_slave_relations g))) ->
            (0 <= x <= 1 /\ proc_index_x g <> 0 /\ proc_index_y g <> 0)
            \/ (0 <= x < B 1 /\ (proc_index_x g <> 0 -> 2 <= x)
                /\ proc_index_y g <> 0)
            \/ (proc_index_x g <> 0
                /\ exists j, 0 <= j <= nzones_y g
                     /\ (j = 0 -> proc_index_y g = 0)
                     /\ (x = B j \/ (x = B j + 1 /\ j <> 0 /\ j <> nzones_y g)))).
  { intros x H. unfold hex_slave_relations in H.
    rewrite !map_app, !concat_app in H.
    apply in_app_or in H. destruct H as [H|H];
      [|apply in_app_or in H; destruct H as [H|H]].
    - destruct (Z.eqb_spec (proc_index_x g) 0);
        destruct (Z.eqb_spec (proc_index_y g) 0);
        cbn [negb andb map snd concat app In] in H; intuition lia.
    - destruct (Z.eqb_spec (proc_index_y g) 0) as [Ey|Ey];
        cbn [negb map snd concat app In] in H; [destruct H|].
      rewrite app_nil_r in H. unfold hex_below_points in H.
      apply in_zrange in H. right. left. rewrite (R0 Ey).
      destruct (Z.eqb_spec (proc_index_x g) 0); cbn [negb] in H; lia.
    - destruct (Z.eqb_spec (proc_index_x g) 0) as [Ex|Ex];
        cbn [negb map snd concat app In] in H; [destruct H|].
      rewrite app_nil_r in H. apply hex_left_points_spec in H.
      destruct H as (j & Hj & Hj0 & H). right. right.
      split; [exact Ex|]. exists j. split; [lia|]. auto. }
  assert (Mm : forall x, In x (concat (map snd (hex_master_relations g))) ->
            (proc_index_x g <> num_proc_x g - 1
             /\ exists j, 0 <= j <= nzones_y g
                  /\ (j = 0 -> proc_index_y g = 0)
                  /\ (x = B (j + 1) - 1
                      \/ (x = B (j + 1) - 2 /\ j <> 0 /\ j <> nzones_y g)))
            \/ (B (nzones_y g) <= x < B (nzones_y g) + 2 * nzones_x g
                /\ (proc_index_x g <> 0 -> B (nzones_y g) + 1 <= x)
                /\ proc_index_y g <> num_proc_y g - 1)
            \/ (B (num_points_y g) - 2 <= x < B (num_points_y g)
                /\ proc_index_x g <> num_proc_x g - 1
                /\ proc_index_y g <> num_proc_y g - 1)).
  { intros x H. unfold hex_master_relations in H.
    rewrite !map_app, !concat_app in H.
    apply in_app_or in H. destruct H as [H|H];
      [|apply in_app_or in H; destruct H as [H|H]].
    - destruct (Z.eqb_spec (proc_index_x g) (num_proc_x g - 1)) as [Ex|Ex];
        cbn [negb map snd concat app In] in H; [destruct H|].
      rewrite app_nil_r in H. apply hex_right_points_spec in H.
      destruct H as (j & Hj & Hj0 & H). left.
      split; [exact Ex|]. exists j. split; [lia|]. auto.
    - destruct (Z.eqb_spec (proc_index_y g) (num_proc_y g - 1)) as [Ey|Ey];
        cbn [negb map snd concat app In] in H; [destruct H|].
      rewrite app_nil_r in H. unfold hex_above_points in H.
      apply in_zrange in H. right. left. fold B in H.
      destruct (Z.eqb_spec (proc_index_x g) 0); cbn [negb] in H; lia.
    - destruct (Z.eqb_spec (proc_index_x g) (num_proc_x g - 1));
        destruct (Z.eqb_spec (proc_index_y g) (num_proc_y g - 1));
        cbn [negb andb map snd concat app In] in H; fold B in H;
        intuition lia. }
  split; [|split].
  - (* no slaved point twice *)
    unfold hex_slave_relations. rewrite !map_app, !concat_app.
    assert (Low : forall x, In x (hex_left_points g) ->
                   proc_index_y g <> 0 -> B 1 <= x).
    { intros x H Hy. apply hex_left_points_spec in H.
      destruct H as (j & Hj & Hj0 & H). fold B in H.
      destruct (F j ltac:(lia)) as (F1 & F2 & F3 & F4).
      assert (1 <= j) by lia. specialize (F4 ltac:(lia)). lia. }
    destruct (F 0 ltac:(lia)) as (_ & F02 & _). rewrite B0 in F02.
    cbn [Z.add] in F02.
    destruct (Z.eqb_spec (proc_index_x g) 0) as [Ex|Ex];
      destruct (Z.eqb_spec (proc_index_y g) 0) as [Ey|Ey];
      cbn [negb andb map snd concat app]; rewrite ?app_nil_r.
    + constructor.
    + apply NoDup_zrange.
    + now apply hex_left_points_NoDup; lia.
    + apply NoDup_cons; [|apply NoDup_cons].
      * intros H. destruct H as [H|H]; [lia|].
        apply in_app_or in H. destruct H as [H|H].
        -- unfold hex_below_points in H. apply in_zrange in H.
           destruct (Z.eqb_spec (proc_index_x g) 0); cbn [negb] in H; lia.
        -- apply Low in H; lia.
      * intros H. apply in_app_or in H. destruct H as [H|H].
        -- unfold hex_below_points in H. apply in_zrange in H.
           destruct (Z.eqb_spec (proc_index_x g) 0); cbn [negb] in H; lia.
        -- apply Low in H; lia.
      * apply NoDup_app;
          [apply NoDup_zrange|apply hex_left_points_NoDup; lia|].
        intros x H1 H2. unfold hex_below_points in H1.
        apply in_zrange in H1. apply Low in H2; [|exact Ey].
        rewrite (R0 Ey) in H2.
        destruct (Z.eqb_spec (proc_index_x g) 0); cbn [negb] in H1; lia.
  - (* no point on both sides *)
    intros x Hs Hm. apply S in Hs. apply Mm in Hm.
    destruct (F 0 ltac:(lia)) as (_ & F02 & _). rewrite B0 in F02.
    cbn [Z.add] in F02.
    destruct (F (nzones_y g) ltac:(lia)) as (Fn1 & Fn2 & Fn3 & Fn4).
    rewrite <- Pty in Fn2.
    destruct Hs as [(Hx & Sx & Sy)|[(Hx & Hx2 & Sy)|(Sx & j & Hj & Hj0 & Hx)]];
      destruct Hm as [(Mx & j' & Hj' & Hj0' & Hx')|[(Hx' & Hx2' & My)|(Hx' & Mx & My)]].
    + destruct (F j' ltac:(lia)) as (G1 & G2 & G3 & G4). lia.
    + lia.
    + lia.
    + destruct (F j' ltac:(lia)) as (G1 & G2 & G3 & G4). lia.
    + lia.
    + lia.
    + destruct (F j ltac:(lia)) as (G1 & G2 & G3 & G4).
      destruct (F j' ltac:(lia)) as (G1' & G2' & G3' & G4').
      assert (j = j') by (apply (Rows j j' x); lia). subst j'.
      destruct (Z.eq_dec j 0) as [J0|J0];
        destruct (Z.eq_dec j (nzones_y g)) as [Jn|Jn]; try lia.
      pose proof (Rmid j ltac:(lia) Sx Mx). lia.
    + destruct (Rtop My) as [T1 T2].
      destruct (F j ltac:(lia)) as (G1 & G2 & G3 & G4).
      assert (j = nzones_y g)
        by (apply (Rows j (nzones_y g) x); rewrite <- ?Pty; lia).
      subst j. lia.
    + destruct (Rtop My) as [T1 T2]. specialize (T2 Mx).
      destruct (F j ltac:(lia)) as (G1 & G2 & G3 & G4).
      assert (j = nzones_y g)
        by (apply (Rows j (nzones_y g) x); rewrite <- ?Pty; lia).
      subst j. lia.
  - (* every point is a point of the rank *)
    destruct (F 0 ltac:(lia)) as (_ & F02 & F03 & _). rewrite B0 in F02.
    cbn [Z.add] in F02, F03.
    destruct (F (nzones_y g) ltac:(lia)) as (Fn1 & Fn2 & Fn3 & Fn4).
    rewrite <- Pty in Fn2.
    intros x [H|H].
    + apply S in H.
      destruct H as [(Hx & Sx & Sy)|[(Hx & Hx2 & Sy)|(Sx & j & Hj & Hj0 & Hx)]].
      * lia.
      * lia.
      * destruct (F j ltac:(lia)) as (G1 & G2 & G3 & G4). lia.
    + apply Mm in H.
      destruct H as [(Mx & j' & Hj' & Hj0' & Hx')|[(Hx' & Hx2' & My)|(Hx' & Mx & My)]].
      * destruct (F j' ltac:(lia)) as (G1 & G2 & G3 & G4). lia.
      * destruct (Rtop My) as [T1 T2]. lia.
      * lia.
Qed.

Lemma hex_slaved_points_have_one_master_witness :
  exists g h,
    calcLocalConstants (fun _ => 0) (fun _ => 0)
      (with_procs 3 2 (initial_mesh (mkInputParameters "hex" 6 4 6 0))) 4 = Ok g
    /\ generateHaloPoints g empty_halo = Ok h
    /\ NoDup (slaved_points h)
    /\ (forall p, In p (slaved_points h) -> ~ In p (master_points h))
    /\ (forall p, In p (slaved_points h) \/ In p (master_points h) ->
          0 <= p < vsize (pointpos (generateHex g empty_mesh))).
Proof.
  eexists. eexists.
  split; [vm_compute; reflexivity|]. split; [vm_compute; reflexivity|].
  match goal with
  | |- NoDup (slaved_points ?h) /\ _ /\
       (forall p, _ -> _ <= _ < vsize (pointpos (generateHex ?g _))) =>
      apply (hex_slaved_points_have_one_master (fun _ => 0) (fun _ => 0)
               (with_procs 3 2 (initial_mesh (mkInputParameters "hex" 6 4 6 0)))
               4 g h)
  end;
    [reflexivity|simpl; lia|simpl; lia|simpl; lia|simpl; lia|simpl; lia
    |vm_compute; reflexivity|vm_compute; reflexivity].
Defined.

(** ** Pairs of hex ranks agree on how many points they share *)

Lemma hex_master_relations_colors (g : GenerateMesh) :
  map fst (hex_master_relations g) = hex_slaves g.
Proof.
  unfold hex_master_relations, hex_slaves. rewrite !map_app.
  split_branches; reflexivity.
Qed.

Lemma flat_map_length_ext {A B C : Type} (F : A -> list B) (G : A -> list C)
    (l : list A) :
  (forall x, In x l -> length (F x) = length (G x)) ->
  length (flat_map F l) = length (flat_map G l).
Proof.
  induction l as [|a l IH]; intros H; [reflexivity|].
  cbn [flat_map]. rewrite !length_app, (H a) by now left.
  rewrite IH; [reflexivity|]. intros x Hx. apply H. now right.
Qed.

Lemma hex_right_left_size (gc gd : GenerateMesh) :
  proc_index_y gd = proc_index_y gc -> nzones_y gd = nzones_y gc ->
  num_points_y gd = num_points_y gc ->
  1 <= nzones_y gc -> num_points_y gc = nzones_y gc + 1 ->
  vsize (hex_right_points gc) = vsize (hex_left_points gd)
  /\ hex_right_points gc <> [].
Proof.
  intros Ey En Ep Hn Hp. split.
  - unfold hex_right_points, hex_left_points, vsize.
    f_equal. rewrite Ey, En, Ep. apply flat_map_length_ext. intros j _.
    destruct ((j =? 0) && negb (proc_index_y gc =? 0)); [reflexivity|].
    destruct ((j =? 0) || (j =? nzones_y gc)); reflexivity.
  - assert (H : In (hex_row_base gc (nzones_y gc + 1) - 1)
                  (hex_right_points gc)).
    { unfold hex_right_points. apply in_flat_map. exists (nzones_y gc).
      split; [apply in_zrange; lia|].
      destruct (Z.eqb_spec (nzones_y gc) 0); [lia|].
      rewrite Z.eqb_refl. cbn [andb orb]. now left. }
    intros E. rewrite E in H. destruct H.
Qed.

Lemma hex_above_below_size (gc gd : GenerateMesh) :
  proc_index_x gd = proc_index_x gc -> nzones_x gd = nzones_x gc ->
  1 <= nzones_x gc ->
  vsize (hex_above_points gc) = vsize (hex_below_points gd)
  /\ hex_above_points gc <> [].
Proof.
  intros Ex En Hn. unfold hex_above_points, hex_below_points, vsize.
  rewrite Ex, En. split.
  - rewrite !length_zrange. destruct (negb (proc_index_x gc =? 0)); lia.
  - apply zrange_nonempty. destruct (negb (proc_index_x gc =? 0)); lia.
Qed.

(** X23. On a hex mesh every master and slave pair agrees on how many
    points it shares.  If rank [c] reports rank [d] as a slave, then the
    segment of [c]'s master points for [d] and the segment of [d]'s slaved
    points for [c] exist, are not empty, and have the same length. *)
Theorem hex_halo_pairs_same_size
    (raw_gc raw_lc raw_gd raw_ld : nat -> Z)
    (g0 : GenerateMesh) (c d : Z) (gc gd : GenerateMesh) (hc hd : halo) :
  meshtype g0 = "hex"%string ->
  1 <= global_nzones_x g0 -> 1 <= global_nzones_y g0 ->
  1 <= num_proc_x g0 -> 1 <= num_proc_y g0 ->
  0 <= c < num_proc_x g0 * num_proc_y g0 ->
  0 <= d < num_proc_x g0 * num_proc_y g0 ->
  calcLocalConstants raw_gc raw_lc g0 c = Ok gc ->
  calcLocalConstants raw_gd raw_ld g0 d = Ok gd ->
  generateHaloPoints gc empty_halo = Ok hc ->
  generateHaloPoints gd empty_halo = Ok hd ->
  In d (slave_colors hc) ->
  exists sc sd,
    halo_segment d (slave_colors hc) (master_points_counts hc) (master_points hc)
    = Some sc
    /\ halo_segment c (master_colors hd) (slaved_points_counts hd)
         (slaved_points hd) = Some sd
    /\ sc <> []
    /\ vsize sc = vsize sd.
Proof.
  intros Hmt Hgx Hgy Hpx Hpy Hc Hd Hcalc_c Hcalc_d Hhc Hhd Hin.
  destruct (calcLocalConstants_constructed _ _ _ _ _ Hgx Hgy Hpx Hpy Hcalc_c)
    as (Cc & Mc & Gxc & Gyc & Nc & Pxc & Pyc & Colc).
  destruct (calcLocalConstants_constructed _ _ _ _ _ Hgx Hgy Hpx Hpy Hcalc_d)
    as (Cd & Md & Gxd & Gyd & Nd & Pxd & Pyd & Cold).
  destruct (constructed_extent gc Cc) as (Xc & Yc & Ec & _);
    [rewrite Colc, Pxc, Pyc; exact Hc|].
  destruct (constructed_extent gd Cd) as (Xd & Yd & Ed & _);
    [rewrite Cold, Pxd, Pyd; exact Hd|].
  (* both ranks have the same local extents *)
  pose proof (c_gnx _ Cc) as Dxc. pose proof (c_gny _ Cc) as Dyc.
  pose proof (c_gnx _ Cd) as Dxd. pose proof (c_gny _ Cd) as Dyd.
  rewrite Gxc, Pxc in Dxc. rewrite Gyc, Pyc in Dyc.
  rewrite Gxd, Pxd in Dxd. rewrite Gyd, Pyd in Dyd.
  assert (Wx : nzones_x gd = nzones_x gc)
    by (apply (Z.mul_reg_r _ _ (num_proc_x g0)); lia).
  assert (Wy : nzones_y gd = nzones_y gc)
    by (apply (Z.mul_reg_r _ _ (num_proc_y g0)); lia).
  pose proof (c_ptx _ Cc) as Ptxc. pose proof (c_pty _ Cc) as Ptyc.
  pose proof (c_ptx _ Cd) as Ptxd. pose proof (c_pty _ Cd) as Ptyd.
  pose proof (c_nzx _ Cc) as Nzx. pose proof (c_nzy _ Cc) as Nzy.
  (* the two halos, relation by relation *)
  unfold generateHaloPoints in Hhc, Hhd. rewrite Mc, Hmt in Hhc.
  rewrite Md, Hmt in Hhd. cbn [String.eqb Ascii.eqb Bool.eqb] in Hhc, Hhd.
  unfold generateHaloPointsHex in Hhc, Hhd. rewrite Nc in Hhc. rewrite Nd in Hhd.
  destruct (num_subregions g0 =? 1).
  { injection Hhc as <-. destruct Hin. }
  destruct (hex_count_spec gc) as [Enc Epc]; [lia|].
  destruct (hex_count_spec gd) as [End' Epd]; [lia|].
  destruct (hex_count gc) as [npc pbasec].
  destruct (hex_count gd) as [npd pbased].
  cbn [fst snd] in Enc, Epc, End', Epd. cbv zeta in Hhc, Hhd.
  rewrite (hex_halo_explicit gc npc pbasec) in Hhc by (auto; lia).
  rewrite (hex_halo_explicit gd npd pbased) in Hhd by (auto; lia).
  injection Hhc as <-. injection Hhd as <-.
  unfold halo_of in Hin |- *.
  cbn [master_colors slaved_points_counts slaved_points slave_colors
       master_points_counts master_points] in Hin |- *.
  rewrite !halo_segment_find.
  rewrite hex_master_relations_colors in Hin.
  rewrite <- Cold in Hin.
  rewrite Pxc in Xc, Ec. rewrite Pxd in Xd, Ed.
  assert (Hmy : num_proc_y gd = num_proc_y gc) by congruence.
  rewrite Hmy in Yd.
  apply (hex_slaves_coords gc gd (num_proc_x g0)) in Hin; try assumption.
  rewrite Pyc in Yc, Yd.
  unfold hex_master_relations, hex_slave_relations.
  rewrite ?Pxc, ?Pxd, ?Hmy, ?Pyc, ?Colc, ?Cold.
  rewrite Colc in Ec. rewrite Cold in Ed.
  destruct Hin as [[Ex Ey]|[[Ex Ey]|[Ex Ey]]].
  - (* d is the right neighbour of c *)
    destruct (hex_right_left_size gc gd) as [Hsz Hne]; try lia.
    destruct (Z.eq_dec (proc_index_y gc) 0) as [Y0|Y0];
      settle_finds; cbn [option_map snd]; eexists _, _;
      (split; [reflexivity|]); (split; [reflexivity|]);
      (split; [exact Hne|exact Hsz]).
  - (* d is the neighbour above c *)
    destruct (hex_above_below_size gc gd) as [Hsz Hne]; try lia.
    assert (Dn : d = c + num_proc_x g0) by (rewrite Ed, Ec, Ex, Ey; lia).
    destruct (Z.eq_dec (proc_index_x gc) 0) as [X0|X0];
      destruct (Z.eq_dec (proc_index_x gc) (num_proc_x g0 - 1)) as [X1|X1];
      settle_finds; cbn [option_map snd]; eexists _, _;
      (split; [reflexivity|]); (split; [reflexivity|]);
      (split; [exact Hne|exact Hsz]).
  - (* d is the neighbour diagonally above c *)
    assert (Dn : d = c + num_proc_x g0 + 1) by (rewrite Ed, Ec, Ex, Ey; lia).
    settle_finds; cbn [option_map snd]; eexists _, _;
      (split; [reflexivity|]); (split; [reflexivity|]);
      (split; [discriminate|reflexivity]).
Qed.

Lemma hex_halo_pairs_same_size_witness :
  exists gc gd hc hd,
    calcLocalConstants (fun _ => 0) (fun _ => 0)
      (with_procs 3 2 (initial_mesh (mkInputParameters "hex" 6 4 6 0))) 1 = Ok gc
    /\ calcLocalConstants (fun _ => 0) (fun _ => 0)
         (with_procs 3 2 (initial_mesh (mkInputParameters "hex" 6 4 6 0))) 4
       = Ok gd
    /\ generateHaloPoints gc empty_halo = Ok hc
    /\ generateHaloPoints gd empty_halo = Ok hd
    /\ exists sc sd,
         halo_segment 4 (slave_colors hc) (master_points_counts hc)
           (master_points hc) = Some sc
         /\ halo_segment 1 (master_colors hd) (slaved_points_counts hd)
              (slaved_points hd) = Some sd
         /\ sc <> []
         /\ vsize sc = vsize sd.
Proof.
  eexists. eexists. eexists. eexists.
  split; [vm_compute; reflexivity|]. split; [vm_compute; reflexivity|].
  match goal with
  | |- generateHaloPoints ?gc _ = _ /\ generateHaloPoints ?gd _ = _ /\ _ =>
      split; [vm_compute; reflexivity|]; split; [vm_compute; reflexivity|];
      apply (hex_halo_pairs_same_size
               (fun _ => 0) (fun _ => 0) (fun _ => 0) (fun _ => 0)
               (with_procs 3 2 (initial_mesh (mkInputParameters "hex" 6 4 6 0)))
               1 4 gc gd)
  end;
    [reflexivity|simpl; lia|simpl; lia|simpl; lia|simpl; lia|simpl; lia
    |simpl; lia|vm_compute; reflexivity|vm_compute; reflexivity
    |vm_compute; reflexivity|vm_compute; reflexivity|vm_compute; tauto].
Defined.
